(** * Orchestration scripts: a shallow embedding and its properties

    The Python scripts of [multi-agent-orchestration/scripts] and
    [sequential-orchestration/scripts] are embedded as Rocq functions:

    - Python [str] is [string] (ASCII text), [int] is [Z], [list] is [list],
      a [dict] used as a map is a [gmap], a [set] is a [gset];
    - the dictionaries of AGENT_STATE.json follow the [TaskEntry] and
      [AgentState] dataclasses of init_orchestration.py and are records; a key
      that the code reads with [.get(key, default)] is a field holding the
      default when the key is absent;
    - objects that are mutated while they are shared (the [Task] objects of
      the parser, the task dictionaries of the state) live in a store and are
      named by their index;
    - a Python exception is an explicit result. *)

From Stdlib Require Import ZArith String Ascii List Bool Lia Sorted.
From stdpp Require Import base option list gmap strings pretty sorting.

Open Scope string_scope.
Open Scope list_scope.

(** ** Python built-ins on strings and lists *)

Module Py.

(** [str.isspace] on one ASCII character: TAB, LF, VT, FF, CR, the four
    separators FS, GS, RS, US, and the space.  The same set is [\s] for [re]. *)
Definition is_space (c : ascii) : bool :=
  let n := nat_of_ascii c in
  ((9 <=? n)%nat && (n <=? 13)%nat) || ((28 <=? n)%nat && (n <=? 32)%nat).

(** [\d] on ASCII text. *)
Definition is_digit (c : ascii) : bool :=
  let n := nat_of_ascii c in (48 <=? n)%nat && (n <=? 57)%nat.

Fixpoint lstrip (s : string) : string :=
  match s with
  | String c s' => if is_space c then lstrip s' else s
  | EmptyString => EmptyString
  end.

(** [rstrip]: a character is dropped when it is a space and everything after
    it has been dropped. *)
Fixpoint rstrip (s : string) : string :=
  match s with
  | String c s' =>
      match rstrip s' with
      | EmptyString => if is_space c then EmptyString else String c EmptyString
      | r => String c r
      end
  | EmptyString => EmptyString
  end.

Definition strip (s : string) : string := rstrip (lstrip s).

(** [s.split(sep)] for a one-character separator: never an empty list. *)
Fixpoint split (sep : ascii) (s : string) : list string :=
  match s with
  | EmptyString => [EmptyString]
  | String c s' =>
      if Ascii.eqb c sep then EmptyString :: split sep s'
      else match split sep s' with
           | p :: ps => String c p :: ps
           | [] => [String c EmptyString]
           end
  end.

(** [s.startswith(p)] *)
Fixpoint startswith (p s : string) : bool :=
  match p, s with
  | EmptyString, _ => true
  | String a p', String b s' => Ascii.eqb a b && startswith p' s'
  | String _ _, EmptyString => false
  end.

(** [p in s] for strings: [p] occurs in [s] as a substring. *)
Fixpoint contains (p s : string) : bool :=
  startswith p s ||
  match s with
  | String _ s' => contains p s'
  | EmptyString => false
  end.

(** [s[n:]] *)
Fixpoint drop (n : nat) (s : string) : string :=
  match n, s with
  | O, _ => s
  | S n', String _ s' => drop n' s'
  | S _, EmptyString => EmptyString
  end.

Definition lower_char (c : ascii) : ascii :=
  let n := nat_of_ascii c in
  if (65 <=? n)%nat && (n <=? 90)%nat then ascii_of_nat (n + 32) else c.

Fixpoint lower (s : string) : string :=
  match s with
  | String c s' => String (lower_char c) (lower s')
  | EmptyString => EmptyString
  end.

(** [c in s] for a character. *)
Fixpoint has_char (c : ascii) (s : string) : bool :=
  match s with
  | String a s' => Ascii.eqb a c || has_char c s'
  | EmptyString => false
  end.

(** [s.rsplit(sep, 1)[0]]: the text before the last [sep], the whole string
    when there is none. *)
Fixpoint rsplit1_head (sep : ascii) (s : string) : string :=
  match s with
  | EmptyString => EmptyString
  | String c s' =>
      if has_char sep s' then String c (rsplit1_head sep s')
      else if Ascii.eqb c sep then EmptyString
      else s
  end.

(** [list(dict.fromkeys(l))]: duplicates removed, first occurrences kept in
    order.  [seen] is the key set of the dictionary under construction. *)
Fixpoint fromkeys_from (seen : list string) (l : list string) : list string :=
  match l with
  | [] => []
  | x :: l' =>
      if bool_decide (x ∈ seen) then fromkeys_from seen l'
      else x :: fromkeys_from (x :: seen) l'
  end.

Definition fromkeys (l : list string) : list string := fromkeys_from [] l.

(** [sep.join(l)] *)
Fixpoint join (sep : string) (l : list string) : string :=
  match l with
  | [] => ""
  | [x] => x
  | x :: l' => x +:+ sep +:+ join sep l'
  end.

(** [int(s)] on ASCII text that [strip] has been applied to: an optional sign,
    then digits, single underscores allowed between digits; [None] stands for
    [ValueError]. *)
Definition digit_val (c : ascii) : Z := Z.of_nat (nat_of_ascii c - 48).

(** [after_digit] tells whether the previous character was a digit, so that
    an underscore is legal here. *)
Fixpoint int_digits (acc : Z) (after_digit : bool) (s : string) : option Z :=
  match s with
  | EmptyString => if after_digit then Some acc else None
  | String c s' =>
      if is_digit c then int_digits (10 * acc + digit_val c) true s'
      else if Ascii.eqb c "_" && after_digit then
        match s' with
        | String d _ => if is_digit d then int_digits acc false s' else None
        | EmptyString => None
        end
      else None
  end.

Definition int (s : string) : option Z :=
  match s with
  | String "-" s' => Z.opp <$> int_digits 0 false s'
  | String "+" s' => int_digits 0 false s'
  | _ => int_digits 0 false s
  end.

End Py.

(** ** Regular expressions: the backtracking matcher of [re]

    Only the constructs that the patterns of the scripts use.  The matcher
    tries alternatives in the order of [re]: a greedy [?], [*] or [+] first
    takes as much as it can and gives characters back when the rest of the
    pattern fails.  No pattern of the scripts has a star whose body can match
    the empty string; such an iteration is cut off here. *)

Module Re.

Inductive regex : Type :=
| Cls (p : ascii -> bool)      (* one character of a class *)
| Seq (r1 r2 : regex)
| Opt (r : regex)              (* r? *)
| Star (r : regex)             (* r* *)
| Group (n : nat) (r : regex)  (* (r), the n-th capturing group *)
| Eos.                         (* $ without MULTILINE *)

Definition Chr (c : ascii) : regex := Cls (Ascii.eqb c).
Definition Plus (r : regex) : regex := Seq r (Star r).
(** [.] without DOTALL *)
Definition Dot : regex := Cls (fun c => negb (Ascii.eqb c "010")).

Fixpoint seqs (r : regex) (rs : list regex) : regex :=
  match rs with
  | [] => r
  | r' :: rs' => Seq r (seqs r' rs')
  end.

(** What a match remembers: the text of each group that took part. *)
Abbreviation groups := (gmap nat string).
Definition cont : Type := string -> groups -> option groups.

(** The text between the position where [s] starts and the later position
    where [s'] starts. *)
Fixpoint take (n : nat) (s : string) : string :=
  match n, s with
  | S n', String c s' => String c (take n' s')
  | _, _ => EmptyString
  end.

Definition consumed (s s' : string) : string :=
  take (String.length s - String.length s') s.

Fixpoint star_loop (step : string -> groups -> cont -> option groups)
    (fuel : nat) (s : string) (g : groups) (k : cont) : option groups :=
  match fuel with
  | O => k s g
  | S fuel' =>
      match step s g (fun s' g' =>
                        if (String.length s' <? String.length s)%nat
                        then star_loop step fuel' s' g' k else None) with
      | Some r => Some r
      | None => k s g
      end
  end.

Fixpoint run (r : regex) (s : string) (g : groups) (k : cont) : option groups :=
  match r with
  | Cls p =>
      match s with
      | String a s' => if p a then k s' g else None
      | EmptyString => None
      end
  | Seq r1 r2 => run r1 s g (fun s' g' => run r2 s' g' k)
  | Opt r1 =>
      match run r1 s g k with
      | Some res => Some res
      | None => k s g
      end
  | Star r1 => star_loop (run r1) (String.length s) s g k
  | Group n r1 => run r1 s g (fun s' g' => k s' (<[n := consumed s s']> g'))
  | Eos =>
      match s with
      | EmptyString => k s g
      | String "010" EmptyString => k s g
      | _ => None
      end
  end.

(** [re.match(r, s)]: anchored at the start, free at the end. *)
Definition rmatch (r : regex) (s : string) : option groups :=
  run r s ∅ (fun _ g => Some g).

End Re.

(** ** spec_parser.py of multi-agent-orchestration *)

(** The attribute that [expand_dependencies] reads from the values of its
    task map: the parser's [Task], the sequential parser's [Task] and the
    ad-hoc objects that fix_loop.py builds all provide it. *)
Class HasSubtasks (T : Type) := subtasks_of : T -> list string.

Module SpecParser.

Inductive TaskType := CODE | UI | REVIEW.

Inductive TaskStatus :=
| NOT_STARTED | IN_PROGRESS | PENDING_REVIEW | UNDER_REVIEW
| FIX_REQUIRED | FINAL_REVIEW | COMPLETED | BLOCKED.

(** [TaskStatus.value] *)
Definition status_value (s : TaskStatus) : string :=
  match s with
  | NOT_STARTED => "not_started" | IN_PROGRESS => "in_progress"
  | PENDING_REVIEW => "pending_review" | UNDER_REVIEW => "under_review"
  | FIX_REQUIRED => "fix_required" | FINAL_REVIEW => "final_review"
  | COMPLETED => "completed" | BLOCKED => "blocked"
  end.

(** The fields of the [Task] dataclass that parsing sets; the fix-loop fields
    keep their defaults while parsing and are left out. *)
Record Task := mkTask {
  task_id : string;
  description : string;
  task_type : TaskType;
  status : TaskStatus;
  dependencies : list string;
  is_optional : bool;
  parent_id : option string;
  subtasks : list string;
  details : list string;
  writes : list string;
  reads : list string;
}.

#[global] Instance Task_has_subtasks : HasSubtasks Task := subtasks.

Record ParseError := mkParseError {
  pe_file : string;
  pe_line : nat;
  pe_message : string;
}.

(** [STATUS_MARKERS.get("[" + c + "]", NOT_STARTED)] *)
Definition status_of_marker (c : string) : TaskStatus :=
  if String.eqb c " " then NOT_STARTED
  else if String.eqb c "x" then COMPLETED
  else if String.eqb c "X" then COMPLETED
  else if String.eqb c "-" then IN_PROGRESS
  else if String.eqb c "~" then BLOCKED
  else NOT_STARTED.

Import Re.

Definition cls_marker (c : ascii) : bool := Ascii.eqb c "-" || Ascii.eqb c "*".
Definition cls_box (c : ascii) : bool :=
  Ascii.eqb c "x" || Ascii.eqb c "X" || Py.is_space c
  || Ascii.eqb c "~" || Ascii.eqb c "-".

(** [^[-*]\s*\[[xX\s~-]\]] *)
Definition task_prefix_pattern : regex :=
  seqs (Cls cls_marker)
    [Star (Cls Py.is_space); Chr "["; Cls cls_box; Chr "]"].

(** The pattern of [_parse_task_line], written with blanks between its parts:
    [^ [-*] \s* \[ ([xX\s~-]) \] ( \* )? \s* ( \d+ (?: \. \d+ )* ) (?: \. )? \s+ ( .+ ) $] *)
Definition task_line_pattern : regex :=
  seqs (Cls cls_marker)
    [Star (Cls Py.is_space); Chr "["; Group 1 (Cls cls_box); Chr "]";
     Opt (Group 2 (Chr "*"));
     Star (Cls Py.is_space);
     Group 3 (Seq (Plus (Cls Py.is_digit))
                  (Star (Seq (Chr ".") (Plus (Cls Py.is_digit)))));
     Opt (Chr ".");
     Plus (Cls Py.is_space);
     Group 4 (Plus Dot);
     Eos].

(** [s.rstrip('.')] *)
Fixpoint rstrip_dots (s : string) : string :=
  match s with
  | String c s' =>
      match rstrip_dots s' with
      | EmptyString => if Ascii.eqb c "." then EmptyString else String c EmptyString
      | r => String c r
      end
  | EmptyString => EmptyString
  end.

Definition group (g : groups) (n : nat) : string := default "" (g !! n).

Definition _parse_task_line (line : string)
    : option string * TaskStatus * bool * string :=
  match rmatch task_line_pattern (Py.strip line) with
  | None => (None, NOT_STARTED, false, "")
  | Some g =>
      let status_char := group g 1 in
      let is_opt := bool_decide (g !! 2 = Some "*") in
      let tid := rstrip_dots (group g 3) in
      let descr := Py.strip (group g 4) in
      (Some tid, status_of_marker status_char, is_opt, descr)
  end.

(** One [_writes:] or [_reads:] detail: the files after the marker, which is
    [n] characters long. *)
Definition manifest_files (n : nat) (detail_stripped : string) : list string :=
  let files_str := Py.strip (Py.drop n detail_stripped) in
  if String.eqb files_str "" then []
  else filter (fun f => f <> "") (map Py.strip (Py.split "," files_str)).

Fixpoint manifest_loop (details : list string) (writes reads : list string)
    : list string * list string :=
  match details with
  | [] => (writes, reads)
  | detail :: rest =>
      let detail_stripped := Py.strip detail in
      if Py.startswith "_writes:" (Py.lower detail_stripped) then
        manifest_loop rest (writes ++ manifest_files 8 detail_stripped) reads
      else if Py.startswith "_reads:" (Py.lower detail_stripped) then
        manifest_loop rest writes (reads ++ manifest_files 7 detail_stripped)
      else manifest_loop rest writes reads
  end.

Definition _extract_file_manifest (details : list string)
    : list string * list string :=
  let '(writes, reads) := manifest_loop details [] [] in
  (Py.fromkeys writes, Py.fromkeys reads).

(** *** The parser's objects

    [parse_tasks] appends references to [Task] objects to its result and keeps
    assigning to the attributes of the object that [current_task] names.  The
    objects live in a store, a reference is an index into it. *)

Abbreviation store := (list Task) (only parsing).
Abbreviation ref := nat (only parsing).

Definition set_details (d w r : list string) (t : Task) : Task :=
  mkTask (task_id t) (description t) (task_type t) (status t) (dependencies t)
         (is_optional t) (parent_id t) (subtasks t) d w r.

Definition set_subtasks (subs : list string) (t : Task) : Task :=
  mkTask (task_id t) (description t) (task_type t) (status t) (dependencies t)
         (is_optional t) (parent_id t) subs (details t) (writes t) (reads t).

(** The state of the first pass: the local variables of [parse_tasks]. *)
Record pass1 := mkPass1 {
  p_store : store;
  p_tasks : list ref;
  p_errors : list ParseError;
  p_current_task : option ref;
  p_current_details : list string;
  p_line_num : nat;
}.

(** The block that both the loop ("Save previous task") and the code after
    it ("Don't forget the last task") run on [current_task]: store the
    details and the manifest in the object, append the object to [tasks]. *)
Definition save_task (r : ref) (current_details : list string)
    (h : store) (tasks : list ref) : store * list ref :=
  let '(w, rd) := _extract_file_manifest current_details in
  (alter (set_details current_details w rd) r h, tasks ++ [r]).

Definition is_task_start (stripped : string) : bool :=
  bool_decide (is_Some (rmatch task_prefix_pattern stripped)).

(** [Task(task_id=..., description=..., status=..., is_optional=...)] followed
    by the assignment of [parent_id] when the id has a dot. *)
Definition new_task (tid descr : string) (st : TaskStatus) (opt : bool) : Task :=
  mkTask tid descr CODE st [] opt
         (if Py.has_char "." tid then Some (Py.rsplit1_head "." tid) else None)
         [] [] [] [].

(** One iteration of the loop of the first pass. *)
Definition pass1_step (p : pass1) (line : string) : pass1 :=
  let line_num := S (p_line_num p) in
  let stripped := Py.strip line in
  let skip := mkPass1 (p_store p) (p_tasks p) (p_errors p) (p_current_task p)
                      (p_current_details p) line_num in
  if String.eqb stripped "" || Py.startswith "#" stripped then skip
  else if is_task_start stripped then
    let '(h, tasks, current_details) :=
      match p_current_task p with
      | Some r =>
          let '(h, tasks) := save_task r (p_current_details p) (p_store p) (p_tasks p) in
          (h, tasks, [])
      | None => (p_store p, p_tasks p, p_current_details p)
      end in
    match _parse_task_line stripped with
    | (None, _, _, _) =>
        mkPass1 h tasks
          (p_errors p ++ [mkParseError "tasks.md" line_num
                            ("Invalid task format: " +:+ stripped)])
          (p_current_task p) current_details line_num
    | (Some tid, st, opt, descr) =>
        mkPass1 (h ++ [new_task tid descr st opt]) tasks (p_errors p)
                (Some (length h)) current_details line_num
    end
  else
    match p_current_task p with
    | Some _ =>
        if Py.startswith "-" stripped then
          mkPass1 (p_store p) (p_tasks p) (p_errors p) (p_current_task p)
                  (p_current_details p ++ [Py.strip (Py.drop 1 stripped)]) line_num
        else
          mkPass1 (p_store p) (p_tasks p) (p_errors p) (p_current_task p)
                  (p_current_details p ++ [stripped]) line_num
    | None => skip
    end.

(** [{t.task_id: t for t in tasks}]: a later task replaces an earlier one
    with the same id. *)
Definition task_map_of (h : store) (tasks : list ref) : gmap string ref :=
  foldl (fun m r => match h !! r with
                    | Some t => <[task_id t := r]> m
                    | None => m
                    end) ∅ tasks.

Definition clear_subtasks (h : store) (tasks : list ref) : store :=
  foldl (fun h r => alter (set_subtasks []) r h) h tasks.

(** The last loop of [_build_parent_subtask_relationships]; [parent_id] is
    tested for truth, so [None] and the empty string both skip the task. *)
Definition link_subtasks (task_map : gmap string ref) (h : store)
    (tasks : list ref) : store :=
  foldl (fun h r =>
           match h !! r with
           | Some t =>
               match parent_id t with
               | Some pid =>
                   if String.eqb pid "" then h
                   else match task_map !! pid with
                        | Some parent =>
                            alter (fun p => set_subtasks (subtasks p ++ [task_id t]) p)
                                  parent h
                        | None => h
                        end
               | None => h
               end
           | None => h
           end) h tasks.

Definition _build_parent_subtask_relationships (h : store) (tasks : list ref)
    : store :=
  let task_map := task_map_of h tasks in
  link_subtasks task_map (clear_subtasks h tasks) tasks.

(** [TasksParseResult]; [tasks] holds references into [objects]. *)
Record TasksParseResult := mkResult {
  success : bool;
  objects : store;
  tasks : list ref;
  errors : list ParseError;
}.

Definition parse_tasks (content : string) : TasksParseResult :=
  let lines := Py.split "010" content in
  let p := foldl pass1_step (mkPass1 [] [] [] None [] 0) lines in
  let '(h, tasks) :=
    match p_current_task p with
    | Some r => save_task r (p_current_details p) (p_store p) (p_tasks p)
    | None => (p_store p, p_tasks p)
    end in
  let h := _build_parent_subtask_relationships h tasks in
  mkResult (bool_decide (p_errors p = [])) h tasks (p_errors p).

(** The [Task] objects that the result lists, in order. *)
Definition result_tasks (res : TasksParseResult) : list Task :=
  omap (fun r => objects res !! r) (tasks res).

(** *** Dependency expansion *)

(** [expanded.extend(f(x))] for each [x] of [l], in order. *)
Fixpoint for_extend (f : string -> option (list string)) (l : list string)
    (expanded : list string) : option (list string) :=
  match l with
  | [] => Some expanded
  | x :: l' =>
      match f x with
      | Some r => for_extend f l' (expanded ++ r)
      | None => None
      end
  end.

(** [depth] is the number of nested calls that the interpreter still allows;
    [None] is [RecursionError]. *)
Fixpoint expand_dependencies {T} `{HasSubtasks T} (depth : nat)
    (dependencies : list string) (task_map : gmap string T)
    : option (list string) :=
  match depth with
  | O => None
  | S depth' =>
      match
        for_extend
          (fun dep_id =>
             match task_map !! dep_id with
             | Some dep_task =>
                 match subtasks_of dep_task with
                 | [] => Some [dep_id]
                 | subs =>
                     for_extend
                       (fun subtask_id =>
                          expand_dependencies depth' [subtask_id] task_map)
                       subs []
                 end
             | None => Some [dep_id]
             end)
          dependencies []
      with
      | Some expanded => Some (Py.fromkeys expanded)
      | None => None
      end
  end.

End SpecParser.

(** ** spec_parser.py of sequential-orchestration *)

Module SeqSpecParser.

Record Task := mkTask {
  task_id : string;
  description : string;
  details : list string;
  parent_id : option string;
  subtasks : list string;
  dependencies : list string;
  is_optional : bool;
}.

#[global] Instance SeqTask_has_subtasks : HasSubtasks Task := subtasks.

Fixpoint expand_dependencies {T} `{HasSubtasks T} (depth : nat)
    (dependencies : list string) (task_map : gmap string T)
    : option (list string) :=
  match depth with
  | O => None
  | S depth' =>
      match
        SpecParser.for_extend
          (fun dep_id =>
             match task_map !! dep_id with
             | Some dep_task =>
                 match subtasks_of dep_task with
                 | [] => Some [dep_id]
                 | subs =>
                     SpecParser.for_extend
                       (fun subtask_id =>
                          expand_dependencies depth' [subtask_id] task_map)
                       subs []
                 end
             | None => Some [dep_id]
             end)
          dependencies []
      with
      | Some expanded => Some (Py.fromkeys expanded)
      | None => None
      end
  end.

End SeqSpecParser.

(** ** AGENT_STATE.json *)

Module State.

(** A JSON scalar; the report dictionaries of [final_reports] hold these. *)
Inductive value := VNull | VBool (b : bool) | VInt (n : Z) | VStr (s : string).

#[global] Instance value_eq_dec : EqDecision value.
Proof. solve_decision. Defined.

(** A dictionary whose keys are kept in insertion order. *)
Abbreviation dict := (list (string * value)).

(** [d.get(key)] *)
Fixpoint get (key : string) (d : dict) : option value :=
  match d with
  | [] => None
  | (k, v) :: d' => if String.eqb k key then Some v else get key d'
  end.

Definition keys (d : dict) : list string := map fst d.

(** An entry of [review_findings]; [None] is an absent key. *)
Record Finding := mkFinding {
  f_task_id : option string;
  f_severity : option string;
  f_summary : string;
}.

(** An entry of a task's [review_history]. *)
Record ReviewEntry := mkReviewEntry {
  attempt : Z;
  severity : string;
  findings : list Finding;
  reviewed_at : string;
}.

(** A task dictionary, after the [TaskEntry] dataclass. *)
Record TaskEntry := mkTaskEntry {
  task_id : string;
  status : string;
  dependencies : list string;
  subtasks : list string;
  parent_id : option string;
  writes : list string;
  reads : list string;
  fix_attempts : Z;
  last_review_severity : option string;
  review_history : list ReviewEntry;
  blocked_reason : option string;
  blocked_by : option string;
  completed_at : option string;
}.

#[global] Instance TaskEntry_has_subtasks : HasSubtasks TaskEntry := subtasks.

Record BlockedItem := mkBlockedItem {
  b_task_id : string;
  blocking_reason : string;
  dependent_tasks : list string;
  created_at : string;
}.

Record AgentState := mkAgentState {
  tasks : list TaskEntry;
  review_findings : list Finding;
  final_reports : list dict;
  blocked_items : list BlockedItem;
}.

(** [task["status"] = s] and the other assignments to keys of a task. *)
Definition set_status (s : string) (t : TaskEntry) : TaskEntry :=
  mkTaskEntry (task_id t) s (dependencies t) (subtasks t) (parent_id t)
    (writes t) (reads t) (fix_attempts t) (last_review_severity t)
    (review_history t) (blocked_reason t) (blocked_by t) (completed_at t).

Definition set_completed_at (at_ : string) (t : TaskEntry) : TaskEntry :=
  mkTaskEntry (task_id t) (status t) (dependencies t) (subtasks t) (parent_id t)
    (writes t) (reads t) (fix_attempts t) (last_review_severity t)
    (review_history t) (blocked_reason t) (blocked_by t) (Some at_).

Definition set_blocked (reason by_ : string) (t : TaskEntry) : TaskEntry :=
  mkTaskEntry (task_id t) "blocked" (dependencies t) (subtasks t) (parent_id t)
    (writes t) (reads t) (fix_attempts t) (last_review_severity t)
    (review_history t) (Some reason) (Some by_) (completed_at t).

Definition set_review (sev : string) (e : ReviewEntry) (t : TaskEntry) : TaskEntry :=
  mkTaskEntry (task_id t) "fix_required" (dependencies t) (subtasks t)
    (parent_id t) (writes t) (reads t) (fix_attempts t) (Some sev)
    (review_history t ++ [e]) (blocked_reason t) (blocked_by t) (completed_at t).

Definition set_tasks (ts : list TaskEntry) (s : AgentState) : AgentState :=
  mkAgentState ts (review_findings s) (final_reports s) (blocked_items s).

(** The state together with the clock: [clock n] is what the [n]-th call of
    [datetime.now(timezone.utc).isoformat()] returns. *)
Record World := mkWorld {
  agent_state : AgentState;
  ticks : nat;
}.

(** [{t["task_id"]: t for t in tasks}] with the task objects named by their
    position in [tasks]: a later task replaces an earlier one with its id. *)
Definition index_map (ts : list TaskEntry) : gmap string nat :=
  foldl (fun m '(i, t) => <[task_id t := i]> m) ∅ (imap (fun i t => (i, t)) ts).

End State.

(** ** fix_loop.py *)

Module FixLoop.
Import State.

Definition MAX_FIX_ATTEMPTS : Z := 3.
Definition ESCALATION_THRESHOLD : Z := 2.

Inductive FixLoopAction := PASS | RETRY | ESCALATE | HUMAN_FALLBACK.

Definition should_enter_fix_loop (severity : string) : bool :=
  bool_decide (severity ∈ ["critical"; "major"]).

Definition evaluate_fix_loop_action (task : TaskEntry) (severity : string)
    : FixLoopAction :=
  if negb (should_enter_fix_loop severity) then PASS
  else
    let completed_attempts := fix_attempts task in
    if (completed_attempts >=? MAX_FIX_ATTEMPTS)%Z then HUMAN_FALLBACK
    else if (completed_attempts >=? ESCALATION_THRESHOLD)%Z then ESCALATE
    else RETRY.

(** The first loop of [get_all_dependent_task_ids]: tasks with an empty id
    are left out of the map. *)
Definition build_task_map (ts : list TaskEntry) : gmap string TaskEntry :=
  foldl (fun m t => if String.eqb (task_id t) "" then m else <[task_id t := t]> m)
        ∅ ts.

Abbreviation rdeps := (gmap string (gset string)).

Definition add_rdeps (rd : rdeps) (expanded : list string) (tid : string) : rdeps :=
  foldl (fun rd dep => <[dep := default ∅ (rd !! dep) ∪ {[tid]}]> rd) rd expanded.

(** The second loop; [None] when [expand_dependencies] raises. *)
Fixpoint build_reverse_deps (depth : nat) (task_map : gmap string TaskEntry)
    (ts : list TaskEntry) (rd : rdeps) : option rdeps :=
  match ts with
  | [] => Some rd
  | t :: ts' =>
      match SpecParser.expand_dependencies depth (dependencies t) task_map with
      | Some expanded =>
          build_reverse_deps depth task_map ts' (add_rdeps rd expanded (task_id t))
      | None => None
      end
  end.

(** The [while queue] loop.  [fuel] bounds the number of iterations; lemma
    [bfs_fuel_enough] shows that [bfs_fuel] iterations always reach the end. *)
Fixpoint bfs (rd : rdeps) (fuel : nat) (queue : list string)
    (visited : gset string) : option (gset string) :=
  match queue with
  | [] => Some visited
  | current :: queue' =>
      match fuel with
      | O => None
      | S fuel' =>
          if bool_decide (current ∈ visited) then bfs rd fuel' queue' visited
          else
            let visited' := visited ∪ {[current]} in
            bfs rd fuel'
              (queue' ++ filter (fun d => d ∉ visited')
                                (elements (default ∅ (rd !! current))))
              visited'
      end
  end.

(** Every iteration takes one id off the queue; the ids put on it come from
    the entry of an id that is visited for the first time. *)
Definition rdeps_weight (rd : rdeps) (visited : gset string) : nat :=
  sum_list_with (fun kv => size kv.2)
                (filter (fun kv => kv.1 ∉ visited) (map_to_list rd)).

Definition bfs_fuel (rd : rdeps) (queue : list string) (visited : gset string)
    : nat :=
  length queue + rdeps_weight rd visited.

Definition first_task (tid : string) (ts : list TaskEntry) : option TaskEntry :=
  List.find (fun t => String.eqb (task_id t) tid) ts.

(** [parent_id] of the task when it is a non-empty string. *)
Definition truthy_parent (task : option TaskEntry) : option string :=
  match task with
  | Some t =>
      match parent_id t with
      | Some p => if String.eqb p "" then None else Some p
      | None => None
      end
  | None => None
  end.

Definition get_all_dependent_task_ids (depth : nat) (state : AgentState)
    (tid : string) : option (gset string) :=
  let task_map := build_task_map (tasks state) in
  match build_reverse_deps depth task_map (tasks state) ∅ with
  | None => None
  | Some reverse_deps =>
      let parent := truthy_parent (first_task tid (tasks state)) in
      let queue := tid :: match parent with Some p => [p] | None => [] end in
      let visited := default ∅ (bfs reverse_deps (bfs_fuel reverse_deps queue ∅) queue ∅) in
      let visited := visited ∖ {[tid]} in
      Some (match parent with Some p => visited ∖ {[p]} | None => visited end)
  end.

Section Clock.
Variable clock : nat -> string.

(** [None] when [get_all_dependent_task_ids] raised: nothing was changed. *)
Definition block_dependent_tasks (depth : nat) (w : World) (tid reason : string)
    : option World :=
  let state := agent_state w in
  match get_all_dependent_task_ids depth state tid with
  | None => None
  | Some dependent_ids =>
      let ts :=
        map (fun t =>
               if bool_decide (task_id t ∈ dependent_ids)
                  && negb (bool_decide (status t ∈ ["completed"; "blocked"]))
               then set_blocked reason tid t else t)
            (tasks state) in
      let item := mkBlockedItem tid reason (elements dependent_ids) (clock (ticks w)) in
      Some (mkWorld (mkAgentState ts (review_findings state) (final_reports state)
                                  (blocked_items state ++ [item]))
                    (S (ticks w)))
  end.

Definition overall_of (severities : list string) : string :=
  if bool_decide ("critical" ∈ severities) then "critical"
  else if bool_decide ("major" ∈ severities) then "major"
  else "minor".

(** Position of the first task with the id. *)
Fixpoint first_index (tid : string) (ts : list TaskEntry) : option nat :=
  match ts with
  | [] => None
  | t :: ts' => if String.eqb (task_id t) tid then Some 0
                else S <$> first_index tid ts'
  end.

(** The world after the call and whether the call returned ([true]) or
    raised ([false]); what was assigned before the exception stays. *)
Definition enter_fix_loop (depth : nat) (w : World) (tid : string)
    (review_findings : list Finding) : World * bool :=
  let state := agent_state w in
  match first_index tid (tasks state) with
  | None => (w, true)
  | Some i =>
      let severities := map (fun f => default "minor" (f_severity f)) review_findings in
      let overall_severity := overall_of severities in
      let completed_attempts :=
        default 0%Z (fix_attempts <$> tasks state !! i) in
      let entry := mkReviewEntry completed_attempts overall_severity
                                 review_findings (clock (ticks w)) in
      let w1 := mkWorld (set_tasks (alter (set_review overall_severity entry) i
                                          (tasks state)) state)
                        (S (ticks w)) in
      match block_dependent_tasks depth w1 tid
              ("Upstream task " +:+ tid +:+ " requires fixes ("
               +:+ overall_severity +:+ ")") with
      | Some w2 => (w2, true)
      | None => (w1, false)
      end
  end.

End Clock.
End FixLoop.

(** ** consolidate_reviews.py *)

Module ConsolidateReviews.
Import State.

Definition SEVERITY_ORDER : list string := ["critical"; "major"; "minor"; "none"].

(** The dataclass [FinalReport]. *)
Record FinalReport := mkFinalReport {
  task_id : string;
  overall_severity : string;
  summary : string;
  finding_count : nat;
  findings : list Finding;
  created_at : string;
}.

(** [FinalReport.to_dict] *)
Definition to_dict (r : FinalReport) : dict :=
  [("task_id", VStr (task_id r));
   ("overall_severity", VStr (overall_severity r));
   ("summary", VStr (summary r));
   ("finding_count", VInt (Z.of_nat (finding_count r)));
   ("created_at", VStr (created_at r))].

Definition get_review_findings_for_task (state : AgentState) (tid : string)
    : list Finding :=
  filter (fun f => f_task_id f = Some tid) (review_findings state).

Definition determine_overall_severity (fs : list Finding) : string :=
  match fs with
  | [] => "none"
  | _ =>
      let severities := map (fun f => default "none" (f_severity f)) fs in
      default "none"
        (List.find (fun sev => bool_decide (sev ∈ severities)) SEVERITY_ORDER)
  end.

(** [severity_counts.get(severity, 0)] after the counting loop. *)
Definition severity_count (fs : list Finding) (sev : string) : nat :=
  length (filter (fun f => default "none" (f_severity f) = sev) fs).

Definition generate_summary (fs : list Finding) (tid : string) : string :=
  match fs with
  | [] => "No review findings for task " +:+ tid
  | _ =>
      let parts :=
        omap (fun sev =>
                let count := severity_count fs sev in
                if (0 <? count)%nat then Some (pretty count +:+ " " +:+ sev)
                else None)
             SEVERITY_ORDER in
      let overall := determine_overall_severity fs in
      let n := pretty (length fs) in
      if String.eqb overall "none" then
        "Task " +:+ tid +:+ ": All " +:+ n +:+ " review(s) passed with no issues"
      else if String.eqb overall "minor" then
        "Task " +:+ tid +:+ ": " +:+ n +:+ " review(s) completed with minor issues ("
        +:+ Py.join ", " parts +:+ ")"
      else if String.eqb overall "major" then
        "Task " +:+ tid +:+ ": " +:+ n +:+ " review(s) found major issues ("
        +:+ Py.join ", " parts +:+ ")"
      else
        "Task " +:+ tid +:+ ": CRITICAL issues found in " +:+ n +:+ " review(s) ("
        +:+ Py.join ", " parts +:+ ")"
  end.

Definition has_existing_final_report (state : AgentState) (tid : string) : bool :=
  existsb (fun report => bool_decide (get "task_id" report = Some (VStr tid)))
          (final_reports state).

Definition add_final_report (state : AgentState) (report : FinalReport)
    : AgentState :=
  mkAgentState (tasks state) (review_findings state)
               (final_reports state ++ [to_dict report]) (blocked_items state).

(** What a call did: it returned a value or an exception left it. *)
Inductive outcome (A : Type) :=
| Returned (a : A)
| Raised.
Arguments Returned {A} a.
Arguments Raised {A}.

Section Clock.
Variable clock : nat -> string.

(** The report is built with an empty [created_at], which [__post_init__]
    replaces by the time of the call. *)
Definition consolidate_findings (w : World) (tid : string)
    : option FinalReport * World :=
  let state := agent_state w in
  match get_review_findings_for_task state tid with
  | [] => (None, w)
  | fs =>
      (Some (mkFinalReport tid (determine_overall_severity fs)
                           (generate_summary fs tid) (length fs) fs
                           (clock (ticks w))),
       mkWorld state (S (ticks w)))
  end.

(** The subtasks are looked up in the map of the task objects, so each
    assignment goes to the last task that carries the id. *)
Definition update_task_to_completed (w : World) (tid : string) : World :=
  let state := agent_state w in
  let task_map := index_map (tasks state) in
  match task_map !! tid with
  | None => w
  | Some i =>
      let now := clock (ticks w) in
      let complete t := set_completed_at now (set_status "completed" t) in
      let ts := alter complete i (tasks state) in
      let subs := default [] (subtasks <$> ts !! i) in
      let ts :=
        foldl (fun ts sid =>
                 match task_map !! sid with
                 | Some j => alter complete j ts
                 | None => ts
                 end) ts subs in
      mkWorld (set_tasks ts state) (S (ticks w))
  end.

Definition consolidate_single_task (depth : nat) (w : World) (tid : string)
    (auto_complete : bool) : outcome (option FinalReport) * World :=
  if has_existing_final_report (agent_state w) tid then (Returned None, w)
  else
    match consolidate_findings w tid with
    | (None, w1) => (Returned None, w1)
    | (Some report, w1) =>
        let w2 := mkWorld (add_final_report (agent_state w1) report) (ticks w1) in
        if FixLoop.should_enter_fix_loop (overall_severity report) then
          match FixLoop.enter_fix_loop clock depth w2 tid (findings report) with
          | (w3, true) => (Returned (Some report), w3)
          | (w3, false) => (Raised, w3)
          end
        else if auto_complete then
          (Returned (Some report), update_task_to_completed w2 tid)
        else (Returned (Some report), w2)
    end.

End Clock.
End ConsolidateReviews.

(** ** dispatch_batch.py *)

Module DispatchBatch.
Import State.

Record FileConflict := mkFileConflict {
  task_a : string;
  task_b : string;
  files : list string;
  conflict_type : string;
}.

(** The inner loop of [detect_file_conflicts] for one [task_a]. *)
Definition conflicts_with (a : TaskEntry) (rest : list TaskEntry)
    : list FileConflict :=
  let writes_a : gset string := list_to_set (writes a) in
  omap (fun b =>
          let writes_b : gset string := list_to_set (writes b) in
          let shared_writes := writes_a ∩ writes_b in
          if bool_decide (shared_writes = ∅) then None
          else Some (mkFileConflict (task_id a) (task_id b)
                                    (elements shared_writes) "write-write"))
       rest.

Fixpoint detect_file_conflicts (ts : list TaskEntry) : list FileConflict :=
  match ts with
  | [] => []
  | a :: rest => conflicts_with a rest ++ detect_file_conflicts rest
  end.

Abbreviation batch := (list TaskEntry).

(** [not task.get(key)]: the list is absent or empty. *)
Definition falsy (l : list string) : bool :=
  match l with [] => true | _ => false end.

Definition conflicts_in_batch (conflict_pairs : gset (string * string))
    (tid : string) (b : batch) : bool :=
  let batch_ids : gset string := list_to_set (map task_id b) in
  existsb (fun bid => bool_decide ((tid, bid) ∈ conflict_pairs))
          (elements batch_ids).

(** The search [for batch in batches] of the greedy loop: the first batch
    without a conflict takes the task; [None] when no batch does. *)
Fixpoint place (conflict_pairs : gset (string * string)) (task : TaskEntry)
    (batches : list batch) : option (list batch) :=
  match batches with
  | [] => None
  | b :: bs =>
      if negb (conflicts_in_batch conflict_pairs (task_id task) b)
      then Some ((b ++ [task]) :: bs)
      else (b ::.) <$> place conflict_pairs task bs
  end.

Definition greedy_step (conflict_pairs : gset (string * string))
    (acc : list batch * gset string) (task : TaskEntry)
    : list batch * gset string :=
  let '(batches, assigned) := acc in
  if bool_decide (task_id task ∈ assigned) then acc
  else
    match place conflict_pairs task batches with
    | Some batches' => (batches', assigned ∪ {[task_id task]})
    | None => (batches ++ [[task]], assigned ∪ {[task_id task]})
    end.

(** The warnings and notes that the function logs are left out. *)
Definition partition_by_conflicts (ts : list TaskEntry) : list batch :=
  let no_manifest_tasks := filter (fun t => falsy (writes t) && falsy (reads t)) ts in
  let safe_tasks := filter (fun t => negb (falsy (writes t) && falsy (reads t))) ts in
  let batches :=
    match safe_tasks with
    | [] => []
    | _ =>
        let write_tasks := filter (fun t => negb (falsy (writes t))) safe_tasks in
        let read_only_tasks := filter (fun t => falsy (writes t)) safe_tasks in
        let conflicts := detect_file_conflicts write_tasks in
        let conflict_pairs : gset (string * string) :=
          list_to_set (map (fun c => (task_a c, task_b c)) conflicts)
          ∪ list_to_set (map (fun c => (task_b c, task_a c)) conflicts) in
        let batches := (foldl (greedy_step conflict_pairs) ([], ∅) write_tasks).1 in
        match read_only_tasks with
        | [] => batches
        | _ =>
            match batches with
            | b :: bs => (b ++ read_only_tasks) :: bs
            | [] => [read_only_tasks]
            end
        end
    end in
  batches ++ map (fun t => [t]) no_manifest_tasks.

End DispatchBatch.

(** ** init_orchestration.py *)

Module InitOrchestration.
Import State.

(** [convert_task_to_entry] without decisions: the fields of the parsed task
    are copied, the status as its string value; the fix-loop fields have
    their defaults. *)
Definition convert_task_to_entry (task : SpecParser.Task) : TaskEntry :=
  mkTaskEntry (SpecParser.task_id task)
    (SpecParser.status_value (SpecParser.status task))
    (SpecParser.dependencies task) (SpecParser.subtasks task)
    (SpecParser.parent_id task) (SpecParser.writes task) (SpecParser.reads task)
    0 None [] None None None.

(** The [if]/[elif] chain of [update_parent_statuses]. *)
Definition parent_status (subtask_statuses : list string) : string :=
  if forallb (fun s => String.eqb s "completed") subtask_statuses then "completed"
  else if existsb (fun s => String.eqb s "blocked") subtask_statuses then "blocked"
  else if existsb (fun s => String.eqb s "fix_required") subtask_statuses
  then "fix_required"
  else if existsb (fun s => bool_decide (s ∈ ["in_progress"; "pending_review";
                                              "under_review"; "final_review"]))
                  subtask_statuses
  then "in_progress"
  else "not_started".

(** The statuses of the subtasks that [task_map] knows, read from the task
    objects as they are now. *)
Definition subtask_statuses (task_map : gmap string nat) (ts : list TaskEntry)
    (subtask_ids : list string) : list string :=
  omap (fun sid => match task_map !! sid with
                   | Some j => status <$> ts !! j
                   | None => None
                   end) subtask_ids.

(** The body of the loop for the task at position [i]. *)
Definition update_parent (task_map : gmap string nat) (ts : list TaskEntry)
    (i : nat) : list TaskEntry :=
  match ts !! i with
  | None => ts
  | Some task =>
      match subtasks task with
      | [] => ts
      | subtask_ids =>
          match subtask_statuses task_map ts subtask_ids with
          | [] => ts
          | statuses => alter (set_status (parent_status statuses)) i ts
          end
      end
  end.

(** [for task in reversed(state.get("tasks", []))] *)
Definition update_parent_statuses (state : AgentState) : AgentState :=
  let ts := tasks state in
  let task_map := index_map ts in
  set_tasks (foldl (update_parent task_map) ts (reverse (seq 0 (length ts)))) state.

End InitOrchestration.

(** ** The timeout of a wrapper call

    [os.environ] is a map from names to values.  [int] has no limit on the
    number of digits here. *)

Module WrapperUtils.

(** codeagent_wrapper_utils.py of multi-agent-orchestration;
    [default_seconds] and [buffer_seconds] are keyword arguments. *)
Definition resolve_codex_timeout_seconds (environ : gmap string string)
    (default_seconds buffer_seconds : Z) : Z :=
  let raw := Py.strip (default "" (environ !! "CODEX_TIMEOUT")) in
  let timeout_seconds :=
    if String.eqb raw "" then default_seconds
    else
      match Py.int raw with
      | Some parsed =>
          if (parsed >? 0)%Z then
            if (parsed >? 10000)%Z then (parsed `div` 1000)%Z else parsed
          else default_seconds
      | None => default_seconds
      end in
  (Z.max 60 timeout_seconds + Z.max 0 buffer_seconds)%Z.

End WrapperUtils.

(** ** dispatch_task.py of sequential-orchestration *)

Module DispatchTask.

Definition _resolve_timeout_seconds (environ : gmap string string)
    (default_seconds : Z) : Z :=
  let raw := Py.strip (default "" (environ !! "CODEX_TIMEOUT")) in
  if String.eqb raw "" then default_seconds
  else
    match Py.int raw with
    | Some ms =>
        if (ms <=? 0)%Z then default_seconds
        else Z.max 1 (ms `div` 1000)%Z
    | None => default_seconds
    end.

Record DispatchResult := mkDispatchResult {
  success : bool;
  completed : bool;
  halted : bool;
  message : string;
  output : string;
}.

(** An entry of the report's [task_results] that is a dictionary; [None] is
    an absent key. *)
Record TaskResult := mkTaskResult {
  tr_task_id : option string;
  tr_message : option string;
  tr_error : option string;
  tr_exit_code : option Z;
}.

(** What [subprocess.run] returned. *)
Record Completed := mkCompleted {
  returncode : Z;
  stdout : string;
  stderr : string;
}.

(** [a or b] on strings *)
Definition str_or (a b : string) : string := if String.eqb a "" then b else a.

(** The entry that stands for the task: the first dictionary whose [task_id]
    is the wrapper's id of the task, else the first entry when it is a
    dictionary, else an empty dictionary.  An entry that is not a dictionary
    is [None]. *)
Definition select_result (wrapper_task_id : string)
    (task_results : list (option TaskResult)) : TaskResult :=
  match List.find (fun r => match r with
                            | Some d => bool_decide (tr_task_id d = Some wrapper_task_id)
                            | None => false
                            end) task_results with
  | Some (Some d) => d
  | _ =>
      match task_results with
      | Some d :: _ => d
      | _ => mkTaskResult None None None None
      end
  end.

(** [dispatch_task] from the return of [subprocess.run] on.  [report] is
    [None] when no JSON object is found in the output, and else the list under
    [task_results] or [tasks], empty when there is none. *)
Definition dispatch_task (tid : string) (result : Completed)
    (report : option (list (option TaskResult))) : DispatchResult :=
  match report with
  | None =>
      mkDispatchResult false false false
        ("Task " +:+ tid +:+ " failed (exit " +:+ pretty (returncode result) +:+ "): "
         +:+ str_or (Py.strip (stderr result)) (Py.strip (stdout result)))
        (stdout result)
  | Some [] =>
      mkDispatchResult false false false
        ("Task " +:+ tid +:+ ": invalid execution report (no task_results)")
        (stdout result)
  | Some task_results =>
      let wrapper_task_id := "task-" +:+ tid in
      let tr := select_result wrapper_task_id task_results in
      let message_text := default "" (tr_message tr) in
      let err_text := default "" (tr_error tr) in
      let exit_code := default (returncode result) (tr_exit_code tr) in
      let completed :=
        Py.contains "<promise>TASK_DONE</promise>" message_text
        || Py.contains "<promise>COMPLETE</promise>" message_text in
      let halted := Py.contains "<promise>HALT</promise>" message_text in
      if halted then
        mkDispatchResult true false true
          ("Task " +:+ tid +:+ " halted - human input required") message_text
      else if completed || (exit_code =? 0)%Z then
        mkDispatchResult true true false
          ("Task " +:+ tid +:+ " completed successfully") message_text
      else
        mkDispatchResult false false false
          ("Task " +:+ tid +:+ " failed (exit " +:+ pretty exit_code +:+ "): "
           +:+ str_or (Py.strip err_text) (Py.strip (stderr result)))
          message_text
  end.

End DispatchTask.

(** ** The task-line grammar of the specification

    The parts that the specification lists for a task line, in order: an
    optional leading [-] or [*], a checkbox, an optional [*], a dotted numeric
    id, an optional dot, then the description.  Blanks may separate the parts
    where the pattern of [_parse_task_line] has [\s*], and must separate the
    id from the description. *)

Module Grammar.

Fixpoint all_chars (p : ascii -> bool) (s : string) : bool :=
  match s with
  | String a s' => p a && all_chars p s'
  | EmptyString => true
  end.

Definition head_is (p : ascii -> bool) (s : string) : bool :=
  match s with
  | String a _ => p a
  | EmptyString => false
  end.

Record parts := mkParts {
  marker : option ascii;     (* the leading list marker, when there is one *)
  blanks1 : string;
  box : ascii;               (* the character between the brackets *)
  star : bool;               (* the optional-task marker *)
  blanks2 : string;
  segments : list string;    (* the numbers of the id *)
  dot : bool;                (* a dot after the id *)
  blanks3 : string;
  descr : string;
}.

Definition id_text (q : parts) : string := Py.join "." (segments q).

(** What follows the first number of an id whose further numbers are
    [segs]. *)
Definition more_numbers (segs : list string) : string :=
  match segs with
  | [] => ""
  | _ :: _ => "." +:+ Py.join "." segs
  end.

(** The text does not go on with a digit or with a dot and a digit: an id
    that stands before it ends there. *)
Definition id_stops (rest : string) : Prop :=
  head_is Py.is_digit rest = false /\
  forall r, rest = String "." r -> head_is Py.is_digit r = false.

Definition text (q : parts) : string :=
  (match marker q with Some m => String m "" | None => "" end)
  +:+ blanks1 q +:+ "[" +:+ String (box q) "" +:+ "]"
  +:+ (if star q then "*" else "") +:+ blanks2 q
  +:+ id_text q +:+ (if dot q then "." else "")
  +:+ blanks3 q +:+ descr q.

(** The parts are what the grammar says they are; the marker is not
    constrained here. *)
Record well_formed (q : parts) : Prop := {
  wf_blanks1 : all_chars Py.is_space (blanks1 q) = true;
  wf_box : SpecParser.cls_box (box q) = true;
  wf_blanks2 : all_chars Py.is_space (blanks2 q) = true;
  wf_segments : segments q <> [];
  wf_digits : Forall (fun seg => seg <> "" /\ all_chars Py.is_digit seg = true)
                     (segments q);
  wf_blanks3 : blanks3 q <> "" /\ all_chars Py.is_space (blanks3 q) = true;
  wf_descr : descr q <> "" /\ Py.strip (descr q) = descr q
             /\ Py.has_char "010" (descr q) = false;
}.

(** The groups of a match of the pattern of [_parse_task_line] on the text
    of the parts. *)
Definition expected_groups (q : parts) : Re.groups :=
  <[4 := descr q]>
    (<[3 := id_text q]>
       ((if star q then <[2 := "*"]> else id) (<[1 := String (box q) ""]> ∅))).

End Grammar.

(** ** The flattening of a dependency list, as the specification words it

    An id that names a task with subtasks stands for the leaf descendants of
    that task, in the order of the subtask lists; any other id stands for
    itself.  The relation has a derivation exactly when the descent through
    the subtask lists ends. *)

Module Flatten.
Section Flatten.
Context {T : Type} `{HasSubtasks T}.
Variable task_map : gmap string T.

(** The id names a task with subtasks. *)
Definition is_parent (id : string) : bool :=
  match task_map !! id with
  | Some t => match subtasks_of t with [] => false | _ :: _ => true end
  | None => false
  end.

Inductive leaves : string -> list string -> Prop :=
| leaves_self id : is_parent id = false -> leaves id [id]
| leaves_parent id t l :
    task_map !! id = Some t -> subtasks_of t <> [] ->
    leaves_all (subtasks_of t) l -> leaves id l
with leaves_all : list string -> list string -> Prop :=
| leaves_nil : leaves_all [] []
| leaves_cons id ids l ls :
    leaves id l -> leaves_all ids ls -> leaves_all (id :: ids) (l ++ ls).

End Flatten.

Scheme leaves_mut := Minimality for leaves Sort Prop
  with leaves_all_mut := Minimality for leaves_all Sort Prop.

(** "De-duplicated, order preserved": [r] holds every id of [l] once, and
    an id stands before another one in [r] exactly as their first places in
    [l] are ordered, that is, the first place of the one in [l] is before
    every place of the other. *)
Definition first_seen (l r : list string) : Prop :=
  NoDup r /\
  (forall x, x ∈ r <-> x ∈ l) /\
  forall i j x y, i < j -> r !! i = Some x -> r !! j = Some y ->
    exists k, l !! k = Some x /\ forall k', l !! k' = Some y -> k < k'.

End Flatten.

(** ** The derivation of a parent's status, as the specification words it *)

Module Derivation.
Import State.

Definition active (s : string) : Prop :=
  s ∈ ["in_progress"; "pending_review"; "under_review"; "final_review"].

(** The strict priority among the statuses of the subtasks. *)
Inductive derives (sts : list string) : string -> Prop :=
| derives_completed :
    Forall (fun s => s = "completed") sts -> derives sts "completed"
| derives_blocked :
    ~ Forall (fun s => s = "completed") sts -> "blocked" ∈ sts ->
    derives sts "blocked"
| derives_fix_required :
    ~ Forall (fun s => s = "completed") sts -> "blocked" ∉ sts ->
    "fix_required" ∈ sts -> derives sts "fix_required"
| derives_in_progress :
    ~ Forall (fun s => s = "completed") sts -> "blocked" ∉ sts ->
    "fix_required" ∉ sts -> Exists active sts -> derives sts "in_progress"
| derives_not_started :
    ~ Forall (fun s => s = "completed") sts -> "blocked" ∉ sts ->
    "fix_required" ∉ sts -> ~ Exists active sts -> derives sts "not_started".

(** The statuses of the direct subtasks of [t] that are present in the
    tasks [ts]; a subtask id names the last task that carries it. *)
Definition statuses_of_subtasks (ts : list TaskEntry) (t : TaskEntry)
    : list string :=
  InitOrchestration.subtask_statuses (index_map ts) ts (subtasks t).

(** Every task with a present subtask has the status that its subtasks'
    statuses derive. *)
Definition parents_derived (ts : list TaskEntry) : Prop :=
  forall i t, ts !! i = Some t -> statuses_of_subtasks ts t <> [] ->
              derives (statuses_of_subtasks ts t) (status t).

(** Document order: every task stands before the tasks that its subtask ids
    name. *)
Definition parents_first (ts : list TaskEntry) : Prop :=
  forall i t sid j, ts !! i = Some t -> sid ∈ subtasks t ->
                    index_map ts !! sid = Some j -> i < j.

End Derivation.

(** ** The safety of a batch, as the specification words it *)

Module Safety.
Import State.

(** No two tasks at different places of the batch write a common file. *)
Definition pairwise_disjoint (b : list TaskEntry) : Prop :=
  forall i j t1 t2, i <> j -> b !! i = Some t1 -> b !! j = Some t2 ->
                    forall f : string, f ∈ writes t1 -> f ∉ writes t2.

End Safety.

(** ** Sample inputs *)

Module Samples.
Import State.

Definition sample_task (attempts : Z) : TaskEntry :=
  mkTaskEntry "3.1" "under_review" [] [] (Some "3") ["a.py"] [] attempts
              None [] None None None.

(** CODEX_TIMEOUT given in seconds. *)
Definition environ_7200 : gmap string string := {[ "CODEX_TIMEOUT" := "7200" ]}.
(** CODEX_TIMEOUT given in milliseconds. *)
Definition environ_120000 : gmap string string := {[ "CODEX_TIMEOUT" := " 120000 " ]}.
Definition environ_20000 : gmap string string := {[ "CODEX_TIMEOUT" := "20000" ]}.
Definition environ_junk : gmap string string := {[ "CODEX_TIMEOUT" := "2h" ]}.

(** A wrapper run that failed although the agent wrote the marker COMPLETE. *)
Definition run_failed : DispatchTask.Completed :=
  DispatchTask.mkCompleted 1 "{...}" "boom".
Definition results_complete_marker : list (option DispatchTask.TaskResult) :=
  [Some (DispatchTask.mkTaskResult (Some "task-7")
           (Some "all done <promise>COMPLETE</promise>") (Some "agent crashed")
           (Some 1%Z))].
Definition results_plain (code : Z) : list (option DispatchTask.TaskResult) :=
  [Some (DispatchTask.mkTaskResult (Some "task-7") (Some "I think I am done")
           (Some "agent crashed") (Some code))].

(** A task list whose second line opens like a task line but has no id. *)
Definition line_first : string := "- [ ] 1 Set up the project".
Definition line_no_id : string := "- [ ] write the docs".
Definition line_second : string := "- [x] 2 Add the parser".
Definition newline : string := String "010" "".
Definition tasks_md_with_error : string :=
  line_first +:+ newline +:+ line_no_id +:+ newline +:+ line_second.

(** A line that starts with the checkbox, without a list marker. *)
Definition parts_no_marker : Grammar.parts :=
  Grammar.mkParts None "" " " false " " ["1"] false " " "Set up the project".
(** The same line after a dash, and an indented line with every part. *)
Definition parts_dash : Grammar.parts :=
  Grammar.mkParts (Some "-"%char) " " " " false " " ["1"] false " "
                  "Set up the project".
Definition parts_full : Grammar.parts :=
  Grammar.mkParts (Some "*"%char) "" "x" true "" ["2"; "10"; "3"] true "  "
                  "Wire the parser".

(** A parent [p] with the subtasks [a] and [b], where [b] has the subtasks
    [b1] and [b2]. *)
Definition seq_task (tid : string) (subs : list string) : SeqSpecParser.Task :=
  SeqSpecParser.mkTask tid "" [] None subs [] false.
Definition nested_map : gmap string SeqSpecParser.Task :=
  list_to_map [("p", seq_task "p" ["a"; "b"]); ("a", seq_task "a" []);
               ("b", seq_task "b" ["b1"; "b2"]); ("b1", seq_task "b1" []);
               ("b2", seq_task "b2" [])].
(** A task that lists itself as a subtask. *)
Definition looping_map : gmap string SeqSpecParser.Task :=
  {[ "p" := seq_task "p" ["p"] ]}.

(** A state in which task 1 has passed its review with one minor remark,
    and a clock. *)
Definition sample_clock (n : nat) : string := "2025-01-01T00:00:0" +:+ pretty n.
Definition reviewed_task : TaskEntry :=
  mkTaskEntry "1" "final_review" [] [] None ["a.py"] [] 0 None [] None None None.
Definition minor_finding : Finding := mkFinding (Some "1") (Some "minor") "naming".
Definition reviewed_world : World :=
  mkWorld (mkAgentState [reviewed_task] [minor_finding] [] []) 0.

(** The example of the specification: A writes x, B writes x and y, C
    writes z; D declares nothing. *)
Definition manifest_task (tid : string) (ws rs : list string) : TaskEntry :=
  mkTaskEntry tid "not_started" [] [] None ws rs 0 None [] None None None.
Definition task_A : TaskEntry := manifest_task "A" ["x"] [].
Definition task_B : TaskEntry := manifest_task "B" ["x"; "y"] [].
Definition task_C : TaskEntry := manifest_task "C" ["z"] [].
Definition task_D : TaskEntry := manifest_task "D" [] [].
Definition candidates : list TaskEntry := [task_A; task_B; task_C; task_D].

(** A task list in which the subtask 1.1 stands before its parent 1, and
    the state that the initializer builds from it (no line of it names a
    dependency, so the dependency lists stay empty). *)
Definition tasks_md_child_first : string :=
  "- [ ] 1.1 Build the parser" +:+ newline +:+
  "- [ ] 1 Parser" +:+ newline +:+
  "- [x] 1.1.1 Tokenize".
Definition state_child_first : AgentState :=
  mkAgentState
    (InitOrchestration.convert_task_to_entry
       <$> SpecParser.result_tasks (SpecParser.parse_tasks tasks_md_child_first))
    [] [] [].
(** The same tasks in the order parent, child, grandchild. *)
Definition tasks_md_parent_first : string :=
  "- [ ] 1 Parser" +:+ newline +:+
  "- [ ] 1.1 Build the parser" +:+ newline +:+
  "- [x] 1.1.1 Tokenize".
Definition state_parent_first : AgentState :=
  mkAgentState
    (InitOrchestration.convert_task_to_entry
       <$> SpecParser.result_tasks (SpecParser.parse_tasks tasks_md_parent_first))
    [] [] [].

End Samples.

(** ** The findings of a review, by severity *)

Module Severity.
Import State.

(** Some finding of the list has the severity. *)
Definition has_severity (fs : list Finding) (sev : string) : Prop :=
  exists f, f ∈ fs /\ f_severity f = Some sev.

End Severity.

(** ** The dependents of a task

    What [get_all_dependent_task_ids] searches: a task depends on the ids
    that the expansion of its dependency list returns, and the dependents of
    an id are the tasks that depend on it, directly or through other
    tasks. *)

Module Dependents.
Import State.

(** [u] is [s], or is reached from [s] by steps of [E], where [E z y] says
    that [z] depends on [y]. *)
Inductive follows (E : string -> string -> Prop) (s : string) : string -> Prop :=
| follows_self : follows E s s
| follows_step y z : follows E s y -> E z y -> follows E s z.

(** The task named [u] has [d] among its expanded dependencies. *)
Definition depends_on (depth : nat) (state : AgentState) (u d : string) : Prop :=
  exists t e, t ∈ tasks state /\ task_id t = u /\
    SpecParser.expand_dependencies depth (dependencies t)
      (FixLoop.build_task_map (tasks state)) = Some e /\
    d ∈ e.

Definition dependent_of (depth : nat) (state : AgentState) : string -> string -> Prop :=
  follows (depends_on depth state).

(** The ids that [get_all_dependent_task_ids] is to find for the task [tid]:
    the dependents of the task and of its parent, the two themselves left
    out. *)
Definition dependent (depth : nat) (state : AgentState) (tid u : string) : Prop :=
  let parent := FixLoop.truthy_parent (FixLoop.first_task tid (tasks state)) in
  u <> tid /\ Some u <> parent /\
  (dependent_of depth state tid u \/
   exists p, parent = Some p /\ dependent_of depth state p u).

(** [z] is listed under [y] in a map of reverse dependencies. *)
Definition listed (rd : FixLoop.rdeps) (z y : string) : Prop :=
  z ∈ default ∅ (rd !! y).

End Dependents.

(** ** The table of status transitions of spec_parser.py *)

Module Transitions.

Definition VALID_TRANSITIONS : list (string * list string) :=
  [("not_started", ["in_progress"; "blocked"]);
   ("in_progress", ["pending_review"; "blocked"]);
   ("pending_review", ["under_review"; "blocked"]);
   ("under_review", ["final_review"; "fix_required"; "blocked"]);
   ("fix_required", ["in_progress"; "blocked"]);
   ("final_review", ["completed"; "blocked"]);
   ("completed", []);
   ("blocked", ["not_started"; "in_progress"; "fix_required"])].

(** [d.get(key, [])] on a dictionary written as the list of its items. *)
Fixpoint get_list (key : string) (d : list (string * list string)) : list string :=
  match d with
  | [] => []
  | (k, v) :: d' => if String.eqb k key then v else get_list key d'
  end.

Definition validate_transition (from_status to_status : string) : bool :=
  let valid_targets := get_list from_status VALID_TRANSITIONS in
  bool_decide (to_status ∈ valid_targets).

(** The values of the enumeration [TaskStatus]. *)
Definition status_values : list string :=
  map SpecParser.status_value
      [SpecParser.NOT_STARTED; SpecParser.IN_PROGRESS; SpecParser.PENDING_REVIEW;
       SpecParser.UNDER_REVIEW; SpecParser.FIX_REQUIRED; SpecParser.FINAL_REVIEW;
       SpecParser.COMPLETED; SpecParser.BLOCKED].

(** A chain of transitions that [validate_transition] accepts. *)
Inductive chain : string -> string -> Prop :=
| chain_here s : chain s s
| chain_step s t u : validate_transition s t = true -> chain t u -> chain s u.

End Transitions.

(** ** Dispatch units and ready tasks of spec_parser.py

    The functions read attributes of task objects; they are called with the
    parser's [Task] and, from dispatch_batch.py, with objects made from the
    task dictionaries of the state. *)

Module Units.

Class TaskObject (T : Type) := {
  obj_task_id : T -> string;
  obj_subtasks : T -> list string;
  obj_dependencies : T -> list string;
  (** [task.status], a [TaskStatus] being read through [.value] *)
  obj_status : T -> string;
  obj_parent_id : T -> option string;
}.

#[global] Instance Task_object : TaskObject SpecParser.Task := {|
  obj_task_id := SpecParser.task_id;
  obj_subtasks := SpecParser.subtasks;
  obj_dependencies := SpecParser.dependencies;
  obj_status t := SpecParser.status_value (SpecParser.status t);
  obj_parent_id := SpecParser.parent_id;
|}.

Section Units.
Context {T : Type} `{TaskObject T}.

Definition is_dispatch_unit (task : T) : bool :=
  match obj_subtasks task with
  | _ :: _ => true
  | [] => match obj_parent_id task with
          | None => true
          | Some _ => false
          end
  end.

Definition is_leaf_task (task : T) : bool :=
  (length (obj_subtasks task) =? 0)%nat.

(** [{t.task_id: t for t in tasks}] *)
Definition task_map_of (tasks : list T) : gmap string T :=
  foldl (fun m t => <[obj_task_id t := t]> m) ∅ tasks.

(** [all(dep in completed_ids for dep in expanded_deps)] *)
Definition all_completed (completed_ids : gset string) (expanded_deps : list string)
    : bool :=
  forallb (fun dep => bool_decide (dep ∈ completed_ids)) expanded_deps.

(** The loop of [get_dispatchable_units]; [None] when
    [expand_dependencies] raises. *)
Fixpoint dispatchable_loop (depth : nat) (task_map : gmap string T)
    (completed_ids : gset string) (tasks ready : list T) : option (list T) :=
  match tasks with
  | [] => Some ready
  | task :: rest =>
      if negb (is_dispatch_unit task) then
        dispatchable_loop depth task_map completed_ids rest ready
      else if bool_decide (obj_task_id task ∈ completed_ids)
              || negb (String.eqb (obj_status task) "not_started") then
        dispatchable_loop depth task_map completed_ids rest ready
      else
        match @SpecParser.expand_dependencies T obj_subtasks depth
                (obj_dependencies task) task_map with
        | None => None
        | Some expanded_deps =>
            if all_completed completed_ids expanded_deps
            then dispatchable_loop depth task_map completed_ids rest (ready ++ [task])
            else dispatchable_loop depth task_map completed_ids rest ready
        end
  end.

Definition get_dispatchable_units (depth : nat) (tasks : list T)
    (completed_ids : gset string) : option (list T) :=
  dispatchable_loop depth (task_map_of tasks) completed_ids tasks [].

End Units.

(** [get_ready_tasks] compares [task.status] with [TaskStatus.COMPLETED]: it
    is written for the parser's tasks. *)
Definition is_completed (s : SpecParser.TaskStatus) : bool :=
  match s with SpecParser.COMPLETED => true | _ => false end.

Fixpoint ready_loop (depth : nat) (task_map : gmap string SpecParser.Task)
    (completed_ids : gset string) (tasks ready : list SpecParser.Task)
    : option (list SpecParser.Task) :=
  match tasks with
  | [] => Some ready
  | task :: rest =>
      if negb (is_leaf_task task) then
        ready_loop depth task_map completed_ids rest ready
      else if bool_decide (SpecParser.task_id task ∈ completed_ids)
              || is_completed (SpecParser.status task) then
        ready_loop depth task_map completed_ids rest ready
      else
        match SpecParser.expand_dependencies depth (SpecParser.dependencies task)
                task_map with
        | None => None
        | Some expanded_deps =>
            if all_completed completed_ids expanded_deps
            then ready_loop depth task_map completed_ids rest (ready ++ [task])
            else ready_loop depth task_map completed_ids rest ready
        end
  end.

Definition get_ready_tasks (depth : nat) (tasks : list SpecParser.Task)
    (completed_ids : gset string) : option (list SpecParser.Task) :=
  ready_loop depth (task_map_of tasks) completed_ids tasks [].

(** What the two functions ask of the dependencies of a task, in the words
    of their docstrings: every leaf that the dependency list stands for is
    completed. *)
Definition dependencies_satisfied {T : Type} `{HasSubtasks T}
    (task_map : gmap string T) (completed_ids : gset string)
    (dependencies : list string) : Prop :=
  exists l, Flatten.leaves_all task_map dependencies l /\
            forall x, x ∈ l -> x ∈ completed_ids.

End Units.

(** ** The task dictionaries of the state, with further keys

    The keys of a task dictionary that the dispatch scripts read besides
    those of [State.TaskEntry].  [None] is an absent key (or the value
    [None]); [is_optional] is read with the default [False]. *)

Module FullState.
Import State.

Record TaskDict := mkTaskDict {
  core :> TaskEntry;
  description : option string;
  details : list string;
  is_optional : bool;
  owner_agent : option string;
  target_window : option string;
  criticality : option string;
}.

Definition with_core (f : TaskEntry -> TaskEntry) (d : TaskDict) : TaskDict :=
  mkTaskDict (f (core d)) (description d) (details d) (is_optional d)
             (owner_agent d) (target_window d) (criticality d).

Definition set_target_window (window : string) (d : TaskDict) : TaskDict :=
  mkTaskDict (core d) (description d) (details d) (is_optional d)
             (owner_agent d) (Some window) (criticality d).

(** A dictionary with string keys, as the list of its items in the order in
    which the keys were first set. *)
Fixpoint dict_set {V : Type} (k : string) (v : V) (d : list (string * V))
    : list (string * V) :=
  match d with
  | [] => [(k, v)]
  | (k', v') :: d' =>
      if String.eqb k' k then (k, v) :: d' else (k', v') :: dict_set k v d'
  end.

Fixpoint dict_get {V : Type} (k : string) (d : list (string * V)) : option V :=
  match d with
  | [] => None
  | (k', v') :: d' => if String.eqb k' k then Some v' else dict_get k d'
  end.

(** [x or y] on an optional string: [None] and the empty string are false. *)
Definition truthy (s : option string) : bool :=
  match s with
  | Some s' => negb (String.eqb s' "")
  | None => false
  end.

End FullState.

(** ** dispatch_batch.py: the tasks that are ready *)

Module DispatchReady.
Import State FullState Units.

(** [state] is read through its task list. *)
Definition get_completed_task_ids (ts : list TaskDict) (strict : bool)
    : gset string :=
  foldl (fun completed (task : TaskDict) =>
           if strict then
             if String.eqb (status task) "completed"
             then completed ∪ {[task_id task]} else completed
           else
             if bool_decide (status task ∈ ["completed"; "pending_review";
                                            "under_review"; "final_review"])
             then completed ∪ {[task_id task]} else completed)
        ∅ ts.

(** The class [TaskLike] of [_dict_to_task_like]. *)
Record TaskLike := mkTaskLike {
  tl_task_id : string;
  tl_subtasks : list string;
  tl_dependencies : list string;
  tl_status : string;
  tl_is_optional : bool;
  tl_parent_id : option string;
}.

Definition _dict_to_task_like (d : TaskDict) : TaskLike :=
  mkTaskLike (task_id d) (subtasks d) (dependencies d) (status d)
             (is_optional d) (parent_id d).

#[global] Instance TaskLike_object : TaskObject TaskLike := {|
  obj_task_id := tl_task_id;
  obj_subtasks := tl_subtasks;
  obj_dependencies := tl_dependencies;
  obj_status := tl_status;
  obj_parent_id := tl_parent_id;
|}.

(** The loop that fills [task_map] or [task_like_map]. *)
Definition task_like_map (ts : list TaskDict) : list (string * TaskLike) :=
  foldl (fun m (task_dict : TaskDict) =>
           let task_like := _dict_to_task_like task_dict in
           dict_set (tl_task_id task_like) task_like m)
        [] ts.

(** The same loop for a dictionary that is only used as a map. *)
Definition task_map (ts : list TaskDict) : gmap string TaskLike :=
  foldl (fun m (task_dict : TaskDict) =>
           let task_like := _dict_to_task_like task_dict in
           <[tl_task_id task_like := task_like]> m)
        ∅ ts.

Fixpoint ready_loop (depth : nat) (task_map : gmap string TaskLike)
    (completed : gset string) (ts ready : list TaskDict) : option (list TaskDict) :=
  match ts with
  | [] => Some ready
  | task_dict :: rest =>
      let task_like := _dict_to_task_like task_dict in
      if negb (is_leaf_task task_like) then
        ready_loop depth task_map completed rest ready
      else if negb (String.eqb (status task_dict) "not_started") then
        ready_loop depth task_map completed rest ready
      else if is_optional task_dict then
        ready_loop depth task_map completed rest ready
      else
        match @SpecParser.expand_dependencies TaskLike tl_subtasks depth
                (dependencies task_dict) task_map with
        | None => None
        | Some expanded_deps =>
            if all_completed completed expanded_deps
            then ready_loop depth task_map completed rest (ready ++ [task_dict])
            else ready_loop depth task_map completed rest ready
        end
  end.

Definition get_ready_tasks (depth : nat) (ts : list TaskDict)
    (strict_dependencies : bool) : option (list TaskDict) :=
  let completed := get_completed_task_ids ts strict_dependencies in
  ready_loop depth (task_map ts) completed ts [].

Definition get_dispatchable_units_from_state (depth : nat) (ts : list TaskDict)
    (strict_dependencies : bool) : option (list TaskDict) :=
  let completed := get_completed_task_ids ts strict_dependencies in
  let task_like_map := task_like_map ts in
  match get_dispatchable_units depth (map snd task_like_map) completed with
  | None => None
  | Some dispatchable =>
      let dispatchable_ids : gset string := list_to_set (map tl_task_id dispatchable) in
      Some (filter (fun task_dict : TaskDict =>
                      bool_decide (task_id task_dict ∈ dispatchable_ids)
                      && negb (is_optional task_dict)
                      && String.eqb (status task_dict) "not_started")
                   ts)
  end.

End DispatchReady.

(** ** spec_parser.py of sequential-orchestration: the next dispatch unit *)

Module SeqUnits.
Import SeqSpecParser.

Definition is_dispatch_unit (task : Task) : bool :=
  match subtasks task with
  | _ :: _ => true
  | [] => match parent_id task with
          | None => true
          | Some _ => false
          end
  end.

(** [str.isdigit] on ASCII text *)
Definition isdigit (s : string) : bool :=
  negb (String.eqb s "") && Grammar.all_chars Py.is_digit s.

(** An element of a sort key: a number or a piece of text. *)
Definition part : Type := Z + string.

(** [int(part)] is only reached for a string of digits, where it has a
    value. *)
Definition _task_id_sort_key (task_id : string) : list part :=
  map (fun p => if isdigit p then inl (default 0%Z (Py.int p)) else inr p)
      (Py.split "." task_id).

Definition part_eqb (a b : part) : bool :=
  match a, b with
  | inl x, inl y => (x =? y)%Z
  | inr s, inr t => String.eqb s t
  | _, _ => false
  end.

(** [a < b]; [None] is the TypeError of a number compared with text. *)
Definition part_ltb (a b : part) : option bool :=
  match a, b with
  | inl x, inl y => Some (x <? y)%Z
  | inr s, inr t => Some (String.ltb s t)
  | _, _ => None
  end.

(** [a < b] on lists: the first place where the two differ decides. *)
Fixpoint key_ltb (a b : list part) : option bool :=
  match a, b with
  | [], [] => Some false
  | [], _ :: _ => Some true
  | _ :: _, [] => Some false
  | x :: a', y :: b' => if part_eqb x y then key_ltb a' b' else part_ltb x y
  end.

(** A stable sort by insertion: an element goes before the first one that is
    not smaller. *)
Fixpoint insert_by {A : Type} (ltb : A -> A -> bool) (x : A) (l : list A) : list A :=
  match l with
  | [] => [x]
  | y :: l' => if ltb y x then y :: insert_by ltb x l' else x :: y :: l'
  end.

Definition sort_by {A : Type} (ltb : A -> A -> bool) (l : list A) : list A :=
  foldr (insert_by ltb) [] l.

Definition task_ltb (a b : Task) : bool :=
  default false (key_ltb (_task_id_sort_key (task_id a))
                         (_task_id_sort_key (task_id b))).

(** [sorted(tasks, key=...)].  On keys that can be compared with each other
    every stable sort gives the same list.  Python raises TypeError when its
    sort compares a number with text; which pairs it compares is not fixed,
    and [None] is given here as soon as two keys of the list cannot be
    compared. *)
Definition sorted_tasks (tasks : list Task) : option (list Task) :=
  let keys := map (fun t => _task_id_sort_key (task_id t)) tasks in
  if forallb (fun a => forallb (fun b => bool_decide (is_Some (key_ltb a b))) keys) keys
  then Some (sort_by task_ltb tasks)
  else None.

(** What a call does: it raises, or returns a task or [None]. *)
Inductive result (A : Type) :=
| Raises
| Returns (a : A).
Arguments Raises {A}.
Arguments Returns {A} a.

Fixpoint next_loop (depth : nat) (task_map : gmap string Task)
    (completed_set : gset string) (sorted : list Task) : result (option Task) :=
  match sorted with
  | [] => Returns None
  | task :: rest =>
      if negb (is_dispatch_unit task) then
        next_loop depth task_map completed_set rest
      else if bool_decide (task_id task ∈ completed_set) then
        next_loop depth task_map completed_set rest
      else if is_optional task then
        next_loop depth task_map completed_set rest
      else
        match dependencies task with
        | [] => Returns (Some task)
        | deps =>
            match expand_dependencies depth deps task_map with
            | None => Raises
            | Some expanded_deps =>
                if Units.all_completed completed_set expanded_deps
                then Returns (Some task)
                else next_loop depth task_map completed_set rest
            end
        end
  end.

(** [{t.task_id: t for t in tasks}] *)
Definition task_map_of (tasks : list Task) : gmap string Task :=
  foldl (fun m t => <[task_id t := t]> m) ∅ tasks.

Definition get_next_dispatch_unit (depth : nat) (tasks : list Task)
    (completed_ids : list string) : result (option Task) :=
  let completed_set : gset string := list_to_set completed_ids in
  let task_map := task_map_of tasks in
  match sorted_tasks tasks with
  | None => Raises
  | Some sorted => next_loop depth task_map completed_set sorted
  end.

Definition get_next_incomplete_task := get_next_dispatch_unit.

Definition all_tasks_complete (tasks : list Task) (completed_ids : list string)
    : bool :=
  let completed_set : gset string := list_to_set completed_ids in
  forallb (fun task =>
             is_optional task || negb (is_dispatch_unit task)
             || bool_decide (task_id task ∈ completed_set))
          tasks.

(** The loop of [get_subtask_list]; [recurse] is the nested call. *)
Fixpoint subtask_loop (recurse : Task -> option (list Task))
    (task_map : gmap string Task) (ids : list string) (result : list Task)
    : option (list Task) :=
  match ids with
  | [] => Some result
  | subtask_id :: ids' =>
      match task_map !! subtask_id with
      | Some subtask =>
          match subtasks subtask with
          | _ :: _ =>
              match recurse subtask with
              | Some nested => subtask_loop recurse task_map ids' (result ++ nested)
              | None => None
              end
          | [] => subtask_loop recurse task_map ids' (result ++ [subtask])
          end
      | None => subtask_loop recurse task_map ids' result
      end
  end.

(** [depth] bounds the nesting of the calls; [None] is RecursionError. *)
Fixpoint get_subtask_list (depth : nat) (task : Task) (task_map : gmap string Task)
    : option (list Task) :=
  match depth with
  | O => None
  | S depth' =>
      match subtasks task with
      | [] => Some []
      | subs =>
          subtask_loop (fun subtask => get_subtask_list depth' subtask task_map)
                       task_map subs []
      end
  end.

(** The order of the ids that are numbers separated by dots: the first
    number that differs decides, and a prefix comes first. *)
Fixpoint numbers_lt (a b : list Z) : Prop :=
  match a, b with
  | [], [] => False
  | [], _ :: _ => True
  | _ :: _, [] => False
  | x :: a', y :: b' => (x < y)%Z \/ (x = y /\ numbers_lt a' b')
  end.

(** The id is made of numbers separated by dots, and these are its
    numbers. *)
Definition numeric_id (task_id : string) (numbers : list Z) : Prop :=
  _task_id_sort_key task_id = map inl numbers.

End SeqUnits.

(** ** dispatch_batch.py: the tmux windows of the dispatch units

    The task dictionaries have the key [task_id]; [window_mapping] is kept
    as the list of its items in the order in which the ids got a window. *)

Module Windows.
Import State FullState DispatchReady.

(** [existing_mapping.get(task_id) or f"task-{task_id}"] *)
Definition window_name (existing_mapping : gmap string string) (task_id : string)
    : string :=
  if truthy (existing_mapping !! task_id)
  then default "" (existing_mapping !! task_id)
  else "task-" +:+ task_id.

Fixpoint allocate_loop (max_windows : Z) (existing_mapping : gmap string string)
    (dispatch_units : list TaskDict) (window_mapping : list (string * string))
    : list (string * string) :=
  match dispatch_units with
  | [] => window_mapping
  | unit :: rest =>
      let task_id := task_id unit in
      if String.eqb task_id ""
         || bool_decide (is_Some (dict_get task_id window_mapping))
      then allocate_loop max_windows existing_mapping rest window_mapping
      else if (Z.of_nat (length window_mapping) >=? max_windows)%Z
      then window_mapping
      else allocate_loop max_windows existing_mapping rest
             (dict_set task_id (window_name existing_mapping task_id) window_mapping)
  end.

Definition allocate_windows (dispatch_units : list TaskDict) (max_windows : Z)
    (existing_mapping : gmap string string) : list (string * string) :=
  allocate_loop max_windows existing_mapping dispatch_units [].

(** [state_window_mapping] is [state.get("window_mapping", {})].  The
    function fills [target_window] in the dictionaries of [dispatch_units];
    the list after the call is returned with the mapping. *)
Definition apply_window_allocation (state_window_mapping : gmap string string)
    (dispatch_units : list TaskDict) (max_windows : Z)
    : list (string * string) * list TaskDict :=
  let window_mapping :=
    allocate_windows dispatch_units max_windows state_window_mapping in
  (window_mapping,
   map (fun task : TaskDict =>
          if String.eqb (task_id task) "" then task
          else if negb (truthy (target_window task)) then
            match dict_get (task_id task) window_mapping with
            | Some window => set_target_window window task
            | None => task
            end
          else task)
       dispatch_units).

(** The list [fields] of one task. *)
Definition missing_fields (task : TaskDict) : list string :=
  (if truthy (owner_agent task) then [] else ["owner_agent"])
  ++ (if truthy (target_window task) then [] else ["target_window"]).

Definition find_missing_dispatch_fields (tasks : list TaskDict)
    : list (string * list string) :=
  foldl (fun missing (task : TaskDict) =>
           if negb (Units.is_dispatch_unit (_dict_to_task_like task)) then missing
           else
             match missing_fields task with
             | [] => missing
             | fields => dict_set (task_id task) fields missing
             end)
        [] tasks.

End Windows.

(** ** fix_loop.py: leaving the fix loop *)

Module FixLoopExit.
Import State FixLoop.

Definition get_fix_required_tasks (state : AgentState) : list TaskEntry :=
  List.filter (fun t => String.eqb (status t) "fix_required") (tasks state).

(** [task["fix_attempts"] = task.get("fix_attempts", 0) + 1] and
    [task["status"] = "pending_review"] *)
Definition set_fix_complete (t : TaskEntry) : TaskEntry :=
  mkTaskEntry (task_id t) "pending_review" (dependencies t) (subtasks t)
    (parent_id t) (writes t) (reads t) (fix_attempts t + 1)
    (last_review_severity t) (review_history t) (blocked_reason t)
    (blocked_by t) (completed_at t).

Definition on_fix_task_complete (state : AgentState) (tid : string) : AgentState :=
  match first_index tid (tasks state) with
  | None => state
  | Some i => set_tasks (alter set_fix_complete i (tasks state)) state
  end.

Definition rollback_fix_dispatch (state : AgentState) (tid : string) : AgentState :=
  match first_index tid (tasks state) with
  | None => state
  | Some i =>
      set_tasks
        (alter (fun t => if String.eqb (status t) "in_progress"
                         then set_status "fix_required" t else t)
               i (tasks state))
        state
  end.

(** The three assignments of [unblock_dependent_tasks]. *)
Definition set_unblocked (t : TaskEntry) : TaskEntry :=
  mkTaskEntry (task_id t) "not_started" (dependencies t) (subtasks t)
    (parent_id t) (writes t) (reads t) (fix_attempts t)
    (last_review_severity t) (review_history t) None None (completed_at t).

Definition unblock_dependent_tasks (state : AgentState) (tid : string)
    : AgentState :=
  mkAgentState
    (map (fun t => if bool_decide (blocked_by t = Some tid)
                   then set_unblocked t else t)
         (tasks state))
    (review_findings state) (final_reports state)
    (List.filter (fun item => negb (String.eqb (b_task_id item) tid))
                 (blocked_items state)).

Definition handle_fix_loop_success (state : AgentState) (tid : string)
    : AgentState :=
  match first_index tid (tasks state) with
  | None => state
  | Some i =>
      unblock_dependent_tasks
        (set_tasks (alter (set_status "final_review") i (tasks state)) state) tid
  end.

(** The severity that [on_review_complete] works out. *)
Definition review_severity (review_findings : list Finding) : string :=
  let severities := map (fun f => default "none" (f_severity f)) review_findings in
  if bool_decide ("critical" ∈ severities) then "critical"
  else if bool_decide ("major" ∈ severities) then "major"
  else match severities with [] => "none" | _ => "minor" end.

Section Clock.
Variable clock : nat -> string.

(** As for [enter_fix_loop]: the world after the call and whether the call
    returned. *)
Definition on_review_complete (depth : nat) (w : World) (tid : string)
    (review_findings : list Finding) : World * bool :=
  match first_index tid (tasks (agent_state w)) with
  | None => (w, true)
  | Some _ =>
      if should_enter_fix_loop (review_severity review_findings)
      then enter_fix_loop clock depth w tid review_findings
      else (mkWorld (handle_fix_loop_success (agent_state w) tid) (ticks w), true)
  end.

End Clock.
End FixLoopExit.

(** ** consolidate_reviews.py: the consolidation of a list of tasks

    [consolidate_reviews] between the loading and the saving of the state
    file: the state is the loaded one, and the state after the call is what
    is saved. *)

Module ConsolidateAll.
Import State ConsolidateReviews.

Record ConsolidationResult := mkConsolidationResult {
  success : bool;
  message : string;
  reports_created : nat;
  task_ids : list string;
  errors : list string;
}.

Definition get_tasks_in_final_review (state : AgentState) : list TaskEntry :=
  List.filter (fun task => String.eqb (status task) "final_review") (tasks state).

Section Clock.
Variable clock : nat -> string.

(** The loop over [task_ids]; an exception of [enter_fix_loop] ends it. *)
Fixpoint consolidate_loop (depth : nat) (auto_complete : bool)
    (ids : list string) (w : World)
    (reports_created : nat) (consolidated_task_ids errors : list string)
    : outcome (nat * list string * list string) * World :=
  match ids with
  | [] => (Returned (reports_created, consolidated_task_ids, errors), w)
  | tid :: rest =>
      if has_existing_final_report (agent_state w) tid then
        consolidate_loop depth auto_complete rest w
                         reports_created consolidated_task_ids errors
      else
        match consolidate_findings clock w tid with
        | (None, w1) =>
            consolidate_loop depth auto_complete rest w1
              reports_created consolidated_task_ids
              (errors ++ ["No review findings found for task " +:+ tid])
        | (Some report, w1) =>
            let w2 := mkWorld (add_final_report (agent_state w1) report) (ticks w1) in
            if FixLoop.should_enter_fix_loop (overall_severity report) then
              match FixLoop.enter_fix_loop clock depth w2 tid (findings report) with
              | (w3, true) =>
                  consolidate_loop depth auto_complete rest w3
                    (S reports_created) (consolidated_task_ids ++ [tid]) errors
              | (w3, false) => (Raised, w3)
              end
            else if auto_complete then
              consolidate_loop depth auto_complete rest
                (update_task_to_completed clock w2 tid)
                (S reports_created) (consolidated_task_ids ++ [tid]) errors
            else
              consolidate_loop depth auto_complete rest w2
                (S reports_created) (consolidated_task_ids ++ [tid]) errors
        end
  end.

Definition consolidate_reviews (depth : nat) (w : World)
    (task_ids : option (list string)) (auto_complete : bool)
    : outcome ConsolidationResult * World :=
  let task_ids :=
    match task_ids with
    | Some ids => ids
    | None => map State.task_id (get_tasks_in_final_review (agent_state w))
    end in
  match task_ids with
  | [] => (Returned (mkConsolidationResult true "No tasks to consolidate" 0 [] []), w)
  | _ =>
      match consolidate_loop depth auto_complete task_ids w 0 [] [] with
      | (Returned (reports_created, consolidated_task_ids, errors), w') =>
          (Returned (mkConsolidationResult true
                       ("Consolidated " +:+ pretty reports_created
                        +:+ " final report(s)")
                       reports_created consolidated_task_ids errors), w')
      | (Raised, w') => (Raised, w')
      end
  end.

End Clock.
End ConsolidateAll.

(** ** spec_parser.py of multi-agent-orchestration: dependencies and their
    order

    The dependencies that the details of a task name, the dependency graph,
    the search for cycles and the topological sort. *)

Module Dependencies.
Import Re SpecParser.

(** A pattern that is a fixed text [c s]. *)
Fixpoint lit_from (c : ascii) (s : string) : regex :=
  match s with
  | EmptyString => Chr c
  | String c' s' => Seq (Chr c) (lit_from c' s')
  end.

Definition cls_colon_space (c : ascii) : bool := Ascii.eqb c ":" || Py.is_space c.
Definition cls_dash_underscore (c : ascii) : bool :=
  Ascii.eqb c "-" || Ascii.eqb c "_".

(** [[:\s]+([^\n]+)], the end of both patterns *)
Definition names_pattern : regex :=
  Seq (Plus (Cls cls_colon_space)) (Group 1 (Plus Dot)).

(** [dependenc(?:y|ies)[:\s]+([^\n]+)] matched at the start of [s]: the
    alternative [y] is tried first, then [ies]. *)
Definition dependencies_pattern_at (s : string) : option groups :=
  run (lit_from "d" "ependenc") s ∅
      (fun s1 g1 =>
         match run (Chr "y") s1 g1
                   (fun s2 g2 => run names_pattern s2 g2 (fun _ g => Some g)) with
         | Some g => Some g
         | None =>
             run (lit_from "i" "es") s1 g1
                 (fun s2 g2 => run names_pattern s2 g2 (fun _ g => Some g))
         end).

(** [depends?\s+on[:\s]+([^\n]+)] matched at the start of [s] *)
Definition depends_on_pattern_at (s : string) : option groups :=
  rmatch (seqs (lit_from "d" "epend")
            [Opt (Chr "s"); Plus (Cls Py.is_space); lit_from "o" "n"; names_pattern])
         s.

(** [re.search]: the match at the first position that has one. *)
Fixpoint search (pattern_at : string -> option groups) (s : string)
    : option groups :=
  match pattern_at s with
  | Some g => Some g
  | None =>
      match s with
      | String _ s' => search pattern_at s'
      | EmptyString => None
      end
  end.

(** [(?:task[-_])?(\d+(?:\.\d+)?)] *)
Definition task_id_pattern : regex :=
  Seq (Opt (Seq (lit_from "t" "ask") (Cls cls_dash_underscore)))
      (Group 1 (Seq (Plus (Cls Py.is_digit))
                    (Opt (Seq (Chr ".") (Plus (Cls Py.is_digit)))))).

(** The match of [task_id_pattern] at the start of [s]: the text of group 1
    and the length of the whole match (kept, while matching, as the text
    under the key 0). *)
Definition task_id_at (s : string) : option (string * nat) :=
  match run task_id_pattern s ∅ (fun s' g => Some (<[0 := consumed s s']> g)) with
  | Some g => Some (SpecParser.group g 1, String.length (SpecParser.group g 0))
  | None => None
  end.

(** [re.findall] of [task_id_pattern]: the matches from left to right, each
    search starting where the match before ended.  [skip] counts the
    characters of [s] that belong to the match before. *)
Fixpoint findall_task_ids (skip : nat) (s : string) : list string :=
  match s with
  | EmptyString => []
  | String _ s' =>
      match skip with
      | S skip' => findall_task_ids skip' s'
      | O =>
          match task_id_at s with
          | Some (tid, n) => tid :: findall_task_ids (n - 1) s'
          | None => findall_task_ids 0 s'
          end
      end
  end.

Definition _extract_dependencies_from_details (details : list string)
    : list string :=
  Py.fromkeys
    (concat
       (map (fun detail =>
               let detail_lower := Py.lower detail in
               concat
                 (map (fun pattern_at =>
                         match search pattern_at detail_lower with
                         | Some g => findall_task_ids 0 (SpecParser.group g 1)
                         | None => []
                         end)
                      [dependencies_pattern_at; depends_on_pattern_at]))
            details)).

(** The class [DependencyGraph]; [edges] keeps the order in which the ids
    were added. *)
Record DependencyGraph := mkDependencyGraph {
  nodes : gset string;
  edges : list (string * list string);
}.

Definition add_task (graph : DependencyGraph) (task_id : string)
    (dependencies : list string) : DependencyGraph :=
  mkDependencyGraph (nodes graph ∪ {[task_id]} ∪ list_to_set dependencies)
                    (FullState.dict_set task_id dependencies (edges graph)).

Definition get_dependencies (graph : DependencyGraph) (task_id : string)
    : list string :=
  default [] (FullState.dict_get task_id (edges graph)).

Definition get_dependents (graph : DependencyGraph) (task_id : string)
    : list string :=
  map fst (List.filter (fun '(_, deps) => bool_decide (task_id ∈ deps))
                       (edges graph)).

(** The variables of [_detect_circular_dependencies] that [dfs] works on. *)
Record search_state := mkSearchState {
  visited : gset string;
  rec_stack : gset string;
  path : list string;
  cycles : list (list string);
}.

(** [path.index(dep)] *)
Fixpoint index_of (x : string) (l : list string) : option nat :=
  match l with
  | [] => None
  | y :: l' => if String.eqb y x then Some 0 else S <$> index_of x l'
  end.

(** The loop of [dfs] over the dependencies of [node], and what follows it;
    [recurse] is the nested call.  [None] is an exception: the
    RecursionError of a nested call, or the ValueError of [path.index]. *)
Fixpoint dfs_loop (recurse : string -> search_state -> option (bool * search_state))
    (node : string) (deps : list string) (st : search_state)
    : option (bool * search_state) :=
  match deps with
  | [] =>
      Some (false, mkSearchState (visited st) (rec_stack st ∖ {[node]})
                                 (removelast (path st)) (cycles st))
  | dep :: deps' =>
      if bool_decide (dep ∉ visited st) then
        match recurse dep st with
        | None => None
        | Some (true, st') => Some (true, st')
        | Some (false, st') => dfs_loop recurse node deps' st'
        end
      else if bool_decide (dep ∈ rec_stack st) then
        match index_of dep (path st) with
        | Some cycle_start =>
            Some (true, mkSearchState (visited st) (rec_stack st) (path st)
                          (cycles st ++ [List.skipn cycle_start (path st) ++ [dep]]))
        | None => None
        end
      else dfs_loop recurse node deps' st
  end.

(** [depth] bounds the nesting of the calls of [dfs]. *)
Fixpoint dfs (depth : nat) (graph : DependencyGraph) (node : string)
    (st : search_state) : option (bool * search_state) :=
  match depth with
  | O => None
  | S depth' =>
      dfs_loop (dfs depth' graph) node (get_dependencies graph node)
               (mkSearchState (visited st ∪ {[node]}) (rec_stack st ∪ {[node]})
                              (path st ++ [node]) (cycles st))
  end.

(** [order] is the order in which the loop [for node in graph.nodes] meets
    the nodes; the order of a set of strings is not fixed. *)
Fixpoint detect_loop (depth : nat) (graph : DependencyGraph) (order : list string)
    (st : search_state) : option search_state :=
  match order with
  | [] => Some st
  | node :: rest =>
      if bool_decide (node ∉ visited st) then
        match dfs depth graph node st with
        | Some (_, st') => detect_loop depth graph rest st'
        | None => None
        end
      else detect_loop depth graph rest st
  end.

Definition _detect_circular_dependencies (depth : nat) (graph : DependencyGraph)
    (order : list string) : option (list (list string)) :=
  cycles <$> detect_loop depth graph order (mkSearchState ∅ ∅ [] []).

Definition set_dependencies (deps : list string) (t : Task) : Task :=
  mkTask (task_id t) (description t) (task_type t) (status t) deps
         (is_optional t) (parent_id t) (subtasks t) (details t) (writes t) (reads t).

(** The class [DependencyResult]. *)
Record DependencyResult := mkDependencyResult {
  graph : DependencyGraph;
  circular_dependencies : list (list string);
  missing_dependencies : list (string * list string);
}.

Definition valid (r : DependencyResult) : bool :=
  (length (circular_dependencies r) =? 0)%nat
  && (length (missing_dependencies r) =? 0)%nat.

(** The loop of [extract_dependencies]: the tasks with the dependencies that
    it assigns, the graph and the missing dependencies. *)
Definition extract_step (task_ids : gset string)
    (acc : list Task * DependencyGraph * list (string * list string)) (task : Task)
    : list Task * DependencyGraph * list (string * list string) :=
  let '(done, graph, missing_deps) := acc in
  let deps := _extract_dependencies_from_details (details task) in
  let missing := List.filter (fun d => negb (bool_decide (d ∈ task_ids))) deps in
  let missing_deps :=
    match missing with
    | [] => missing_deps
    | _ => FullState.dict_set (task_id task) missing missing_deps
    end in
  let valid_deps := List.filter (fun d => bool_decide (d ∈ task_ids)) deps in
  (done ++ [set_dependencies deps task], add_task graph (task_id task) valid_deps,
   missing_deps).

Definition extract_loop (tasks : list Task)
    : list Task * DependencyGraph * list (string * list string) :=
  foldl (extract_step (list_to_set (map task_id tasks)))
        ([], mkDependencyGraph ∅ [], []) tasks.

(** The tasks after the call, and the result; [None] when the search for
    cycles raises. *)
Definition extract_dependencies (depth : nat) (order : list string)
    (tasks : list Task) : option (list Task * DependencyResult) :=
  let '(tasks', graph, missing_deps) := extract_loop tasks in
  match _detect_circular_dependencies depth graph order with
  | Some circular => Some (tasks', mkDependencyResult graph circular missing_deps)
  | None => None
  end.

(** The graph that the search for cycles is run on. *)
Definition graph_of (tasks : list Task) : DependencyGraph :=
  let '(_, graph, _) := extract_loop tasks in graph.

(** [order] is one of the orders in which the set [graph.nodes] can be
    iterated. *)
Definition node_order (tasks : list Task) (order : list string) : Prop :=
  order ≡ₚ elements (nodes (graph_of tasks)).

(** [queue.sort()] on strings *)
Definition sort_ids (queue : list string) : list string :=
  SeqUnits.sort_by String.ltb queue.

(** The loop [for task in tasks] in the body of the [while] loop. *)
Definition release (current : string) (tasks : list Task)
    (in_degree : gmap string Z) (queue : list string)
    : gmap string Z * list string :=
  foldl (fun '(in_degree, queue) task =>
           if bool_decide (current ∈ dependencies task) then
             let d := (default 0%Z (in_degree !! task_id task) - 1)%Z in
             let in_degree := <[task_id task := d]> in_degree in
             if (d =? 0)%Z then (in_degree, queue ++ [task_id task])
             else (in_degree, queue)
           else (in_degree, queue))
        (in_degree, queue) tasks.

(** The [while queue] loop; [fuel] bounds the number of its iterations. *)
Fixpoint sort_loop (fuel : nat) (tasks : list Task) (task_map : gmap string Task)
    (in_degree : gmap string Z) (queue : list string) (sorted_tasks : list Task)
    : option (list Task) :=
  match queue with
  | [] => Some sorted_tasks
  | _ =>
      match fuel with
      | O => None
      | S fuel' =>
          match sort_ids queue with
          | [] => Some sorted_tasks
          | current :: queue' =>
              let sorted_tasks :=
                match task_map !! current with
                | Some t => sorted_tasks ++ [t]
                | None => sorted_tasks
                end in
              let '(in_degree, queue') := release current tasks in_degree queue' in
              sort_loop fuel' tasks task_map in_degree queue' sorted_tasks
          end
      end
  end.

(** The part of [topological_sort] after the check of the result. *)
Definition sort_valid (fuel : nat) (tasks : list Task) : option (list Task) :=
  let task_map : gmap string Task :=
    foldl (fun m t => <[task_id t := t]> m) ∅ tasks in
  let in_degree : gmap string Z :=
    foldl (fun m t => <[task_id t := Z.of_nat (length (dependencies t))]> m) ∅ tasks in
  let queue :=
    List.filter (fun tid => (default 0%Z (in_degree !! tid) =? 0)%Z)
                (Py.fromkeys (map task_id tasks)) in
  sort_loop fuel tasks task_map in_degree queue [].

(** [None] when the search for cycles raises.  The [while] loop takes every
    id off the queue at most once, so one more iteration than there are
    tasks is never used (lemma [sort_valid_spec]). *)
Definition topological_sort (depth : nat) (order : list string) (tasks : list Task)
    : option (list Task * list (list string) * list (string * list string)) :=
  match extract_dependencies depth order tasks with
  | None => None
  | Some (tasks', dep_result) =>
      if negb (valid dep_result) then
        Some ([], circular_dependencies dep_result, missing_dependencies dep_result)
      else
        match sort_valid (S (length tasks')) tasks' with
        | Some sorted_tasks => Some (sorted_tasks, [], [])
        | None => None
        end
  end.

End Dependencies.

(** ** dispatch_reviews.py: the statuses of reviewed tasks

    The functions of [dispatch_reviews.py] that change the state after the
    review agents have run.  The tasks are the task dictionaries of the state;
    a task object of [task_map] is named by its position, as in
    [State.index_map].  Of a finding the keys [task_id], [severity] and
    [summary] are kept, which are the ones that the consolidation reads. *)

Module Reviews.
Import State FullState.

Definition REVIEW_COUNT_BY_CRITICALITY : list (string * Z) :=
  [("standard", 1%Z); ("complex", 2%Z); ("security-sensitive", 2%Z)].

Definition _is_dispatch_unit (task : TaskDict) : bool :=
  match subtasks (core task) with
  | _ :: _ => true
  | [] => match parent_id (core task) with
          | None => true
          | Some _ => false
          end
  end.

(** [task_map.get(sid, {}).get("status")] *)
Definition status_in (task_map : gmap string nat) (ts : list TaskDict)
    (sid : string) : option string :=
  match task_map !! sid with
  | Some j => (fun t : TaskDict => status t) <$> ts !! j
  | None => None
  end.

Definition get_tasks_pending_review (ts : list TaskDict) : list TaskDict :=
  let task_map := index_map (core <$> ts) in
  List.filter
    (fun task =>
       if negb (_is_dispatch_unit task) then false
       else match subtasks (core task) with
            | [] => String.eqb (status (core task)) "pending_review"
            | subtask_ids =>
                forallb (fun sid => bool_decide (status_in task_map ts sid
                                                 = Some "pending_review"))
                        subtask_ids
            end)
    ts.

(** A criticality that is absent counts as standard, and one that the table
    does not have (null among them) gives one review. *)
Definition get_review_count (task : TaskDict) : Z :=
  match criticality task with
  | Some c => default 1%Z (dict_get c REVIEW_COUNT_BY_CRITICALITY)
  | None => 1%Z
  end.

(** [subtask["status"] = new] when the subtask is known and its status is
    one of [olds]. *)
Definition move_subtask (olds : list string) (new : string)
    (task_map : gmap string nat) (ts : list TaskDict) (sid : string)
    : list TaskDict :=
  match task_map !! sid with
  | Some j =>
      match ts !! j with
      | Some subtask =>
          if bool_decide (status (core subtask) ∈ olds)
          then alter (with_core (set_status new)) j ts
          else ts
      | None => ts
      end
  | None => ts
  end.

(** The body of the loop of [update_task_to_under_review]. *)
Definition review_task (task_map : gmap string nat) (ts : list TaskDict)
    (task_id : string) : list TaskDict :=
  match task_map !! task_id with
  | Some i =>
      match ts !! i with
      | Some task =>
          foldl (move_subtask ["pending_review"] "under_review" task_map)
                (alter (with_core (set_status "under_review")) i ts)
                (subtasks (core task))
      | None => ts
      end
  | None => ts
  end.

Definition update_task_to_under_review (ts : list TaskDict)
    (task_ids : list string) : list TaskDict :=
  foldl (review_task (index_map (core <$> ts))) ts task_ids.

(** An entry of the report's [review_results]; [None] is an absent key. *)
Record ReviewResult := mkReviewResult {
  r_task_id : option string;
  r_review_id : option string;
  r_severity : option string;
  r_summary : option string;
}.

Definition add_review_findings (findings : list Finding)
    (review_results : list ReviewResult) : list Finding :=
  foldl (fun fs result =>
           fs ++ [mkFinding (Some (default "" (r_task_id result)))
                            (Some (default "none" (r_severity result)))
                            (default "Review completed" (r_summary result))])
        findings review_results.

Definition check_all_reviews_complete (ts : list TaskDict)
    (findings : list Finding) (task_id : string) : bool :=
  match List.find (fun t : TaskDict => String.eqb (State.task_id t) task_id) ts with
  | None => false
  | Some task =>
      let required_count := get_review_count task in
      let completed_count :=
        Z.of_nat (length (List.filter
                            (fun f => bool_decide (f_task_id f = Some task_id))
                            findings)) in
      (required_count <=? completed_count)%Z
  end.

(** The body of the loop of [update_completed_reviews_to_final] for the task
    at position [i]. *)
Definition finalize_task (findings : list Finding) (task_map : gmap string nat)
    (acc : list TaskDict * list string) (i : nat) : list TaskDict * list string :=
  match acc.1 !! i with
  | Some task =>
      if String.eqb (status (core task)) "under_review"
         && check_all_reviews_complete acc.1 findings (State.task_id (core task))
      then (foldl (move_subtask ["under_review"; "pending_review"] "final_review"
                                task_map)
                  (alter (with_core (set_status "final_review")) i acc.1)
                  (subtasks (core task)),
            acc.2 ++ [State.task_id task])
      else acc
  | None => acc
  end.

(** The tasks afterwards and the list [updated] that is returned. *)
Definition update_completed_reviews_to_final (ts : list TaskDict)
    (findings : list Finding) : list TaskDict * list string :=
  foldl (finalize_task findings (index_map (core <$> ts))) (ts, [])
        (seq 0 (length ts)).

(** What [dispatch_reviews] does with the report of a dispatch that
    succeeded: the tasks and the findings afterwards. *)
Definition record_reviews (ts : list TaskDict) (findings : list Finding)
    (review_results : list ReviewResult) : list TaskDict * list Finding :=
  let pending_tasks := get_tasks_pending_review ts in
  let task_ids := map (fun t : TaskDict => State.task_id t) pending_tasks in
  let ts1 := update_task_to_under_review ts task_ids in
  let findings1 := add_review_findings findings review_results in
  ((update_completed_reviews_to_final ts1 findings1).1, findings1).

End Reviews.

(** ** The sequential loop

    [run_sequential_loop] of [sequential_loop.py], from the parsed tasks and
    the loaded state on; the files are written without error.  The agent is
    outside the program: [agent iteration task subtasks] is what
    [dispatch_task] returns in that iteration, whatever the assignment and
    the backend that were used to start it. *)

Module SequentialLoop.
Import SeqSpecParser SeqUnits.

(** [s.lstrip(chars)], [s.rstrip(chars)] and [s.strip(chars)], with the
    characters to drop as a predicate. *)
Fixpoint lstrip_of (drop : ascii -> bool) (s : string) : string :=
  match s with
  | String c s' => if drop c then lstrip_of drop s' else s
  | EmptyString => EmptyString
  end.

Fixpoint rstrip_of (drop : ascii -> bool) (s : string) : string :=
  match s with
  | String c s' =>
      match rstrip_of drop s' with
      | EmptyString => if drop c then EmptyString else String c EmptyString
      | r => String c r
      end
  | EmptyString => EmptyString
  end.

Definition strip_of (drop : ascii -> bool) (s : string) : string :=
  rstrip_of drop (lstrip_of drop s).

(** [ch in allowed] *)
Definition allowed (ch : ascii) : bool :=
  bool_decide (ch ∈ list_ascii_of_string
     "abcdefghijklmnopqrstuvwxyzABCDEFGHIJKLMNOPQRSTUVWXYZ0123456789-_.").

(** ["".join(ch if ch in allowed else "-" for ch in name)] *)
Fixpoint replace_others (name : string) : string :=
  match name with
  | String ch name' => String (if allowed ch then ch else "-"%char) (replace_others name')
  | EmptyString => EmptyString
  end.

(** [_sanitize_tmux_session] on ASCII text. *)
Definition _sanitize_tmux_session (name : string) : string :=
  let name := Py.strip name in
  if String.eqb name "" then "sequential"
  else
    let sanitized := replace_others name in
    let sanitized := strip_of (Ascii.eqb "-") sanitized in
    if String.eqb sanitized "" then "sequential" else sanitized.

(** The keys of the state file that the loop reads or writes; [None] is an
    absent key or null.  The completed ids are strings. *)
Record LoopState := mkLoopState {
  started_at : option string;
  completed : list string;
  halted : bool;
  halted_at : option string;
  halted_task : option string;
  completed_at : option string;
}.

(** What is written to the progress file, piece by piece. *)
Inductive ProgressItem :=
| Header (spec started : string)
| Iteration (iteration : Z) (tid description status time message : string)
| Footer (finished : string).

(** The state dictionary, the progress file, the local list and set of
    completed ids, and the number of readings of the clock so far. *)
Record Run := mkRun {
  state : LoopState;
  progress : list ProgressItem;
  completed_ids : list string;
  completed_set : gset string;
  ticks : nat;
}.

Definition set_started_at (at_ : string) (s : LoopState) : LoopState :=
  mkLoopState (Some at_) (completed s) (halted s) (halted_at s) (halted_task s)
    (completed_at s).

Definition set_completed (ids : list string) (s : LoopState) : LoopState :=
  mkLoopState (started_at s) ids (halted s) (halted_at s) (halted_task s)
    (completed_at s).

Definition set_halted (at_ tid : string) (s : LoopState) : LoopState :=
  mkLoopState (started_at s) (completed s) true (Some at_) (Some tid)
    (completed_at s).

Definition set_completed_at (at_ : string) (s : LoopState) : LoopState :=
  mkLoopState (started_at s) (completed s) (halted s) (halted_at s)
    (halted_task s) (Some at_).

(** [if tid in completed_set: continue], else the id joins the set and the
    list. *)
Definition add_completed (acc : list string * gset string) (tid : string)
    : list string * gset string :=
  if bool_decide (tid ∈ acc.2) then acc
  else (acc.1 ++ [tid], {[tid]} ∪ acc.2).

(** The dispatches that a piece of the progress file records: iteration,
    task id and status of its iteration entries. *)
Definition dispatches (items : list ProgressItem) : list (Z * string * string) :=
  omap (fun item => match item with
                    | Iteration iteration tid _ status _ _ => Some (iteration, tid, status)
                    | _ => None
                    end) items.

Section Loop.
Variable clock : nat -> string.
Variable agent : Z -> Task -> option (list (string * string))
                 -> DispatchTask.DispatchResult.
Variable depth : nat.
Variable spec_path : string.
Variable tasks : list Task.

Definition append_progress (iteration : Z) (task : Task)
    (result : DispatchTask.DispatchResult) (r : Run) : Run :=
  let timestamp := clock (ticks r) in
  let status := if DispatchTask.completed result then "Completed"
                else if DispatchTask.halted result then "Halted" else "Failed" in
  mkRun (state r)
        (progress r ++ [Iteration iteration (task_id task) (description task)
                                  status timestamp (DispatchTask.message result)])
        (completed_ids r) (completed_set r) (S (ticks r)).

(** The branch [if result.completed]: the task and the tasks whose id
    starts with its id and a dot are completed. *)
Definition mark_done (next_task : Task) (r : Run) : Run :=
  let prefix := task_id next_task +:+ "." in
  let done_ids :=
    map task_id
        (List.filter (fun t => String.eqb (task_id t) (task_id next_task)
                               || Py.startswith prefix (task_id t)) tasks) in
  let acc := foldl add_completed (completed_ids r, completed_set r) done_ids in
  mkRun (set_completed acc.1 (state r)) (progress r) acc.1 acc.2 (ticks r).

(** [for iteration in range(1, max_iterations + 1)], with [n] iterations
    left.  The result is the exit code.  [Raises] is what a call of
    [get_next_incomplete_task] or [get_subtask_list] raised. *)
Fixpoint iterations (n : nat) (iteration : Z) (r : Run) : result (Z * Run) :=
  match n with
  | O => Returns (1%Z, r)
  | S n' =>
      if all_tasks_complete tasks (completed_ids r) then
        let timestamp := clock (ticks r) in
        Returns (0%Z, mkRun (set_completed_at timestamp (state r))
                            (progress r ++ [Footer timestamp])
                            (completed_ids r) (completed_set r) (S (ticks r)))
      else
        match get_next_incomplete_task depth tasks (completed_ids r) with
        | Raises => Raises
        | Returns None => Returns (2%Z, r)
        | Returns (Some next_task) =>
            match get_subtask_list depth next_task (task_map_of tasks) with
            | None => Raises
            | Some subtask_objs =>
                let subtask_pairs :=
                  match subtask_objs with
                  | [] => None
                  | _ => Some (map (fun s => (task_id s, description s)) subtask_objs)
                  end in
                let result := agent iteration next_task subtask_pairs in
                let r1 := append_progress iteration next_task result r in
                if DispatchTask.halted result then
                  Returns (2%Z, mkRun (set_halted (clock (ticks r1)) (task_id next_task)
                                                  (state r1))
                                      (progress r1) (completed_ids r1)
                                      (completed_set r1) (S (ticks r1)))
                else
                  let r2 := if DispatchTask.completed result
                            then mark_done next_task r1 else r1 in
                  if all_tasks_complete tasks (completed_ids r2) then
                    Returns (0%Z, mkRun (set_completed_at (clock (ticks r2)) (state r2))
                                        (progress r2) (completed_ids r2)
                                        (completed_set r2) (S (ticks r2)))
                  else iterations n' (iteration + 1)%Z r2
            end
        end
  end.

(** The start of a run: a state without [started_at] gets one and a new
    progress file; the completed ids of the state are taken once each. *)
Definition start (state0 : LoopState) (progress0 : list ProgressItem)
    (ticks0 : nat) : Run :=
  let fresh := match started_at state0 with
               | None => true
               | Some at_ => String.eqb at_ ""
               end in
  let acc := foldl add_completed ([], ∅) (completed state0) in
  if fresh
  then mkRun (set_started_at (clock ticks0) state0)
             [Header spec_path (clock (S ticks0))] acc.1 acc.2 (S (S ticks0))
  else mkRun state0 progress0 acc.1 acc.2 ticks0.

Definition run_sequential_loop (max_iterations : Z) (state0 : LoopState)
    (progress0 : list ProgressItem) (ticks0 : nat) : result (Z * Run) :=
  iterations (Z.to_nat max_iterations) 1%Z (start state0 progress0 ticks0).

End Loop.

End SequentialLoop.

(** ** Further sample inputs *)

Module FlowSamples.
Import State.

Definition flow_task (tid status : string) (deps subs : list string)
    (parent : option string) : TaskEntry :=
  mkTaskEntry tid status deps subs parent [] [] 0 None [] None None None.

(** Task 2 waits for task 1, task 3 for task 2 and task 4 for task 1; task 5
    waits for nothing. *)
Definition chain_state : AgentState :=
  mkAgentState
    [flow_task "1" "under_review" [] [] None;
     flow_task "2" "not_started" ["1"] [] None;
     flow_task "3" "in_progress" ["2"] [] None;
     flow_task "4" "completed" ["1"] [] None;
     flow_task "5" "not_started" [] [] None]
    [] [] [].
Definition chain_world : World := mkWorld chain_state 0.

(** The same with every dependent waiting to be started. *)
Definition quiet_state : AgentState :=
  mkAgentState
    [flow_task "1" "under_review" [] [] None;
     flow_task "2" "not_started" ["1"] [] None;
     flow_task "3" "not_started" ["2"] [] None]
    [] [] [].
Definition quiet_world : World := mkWorld quiet_state 0.

(** A parent [p] with one subtask, and a task [q] that waits for [p]. *)
Definition parent_state : AgentState :=
  mkAgentState
    [flow_task "p" "under_review" [] ["p.1"] None;
     flow_task "p.1" "under_review" [] [] (Some "p");
     flow_task "q" "not_started" ["p"] [] None]
    [] [] [].

Definition critical_finding : Finding :=
  mkFinding (Some "1") (Some "critical") "injection".
Definition plain_finding : Finding := mkFinding (Some "1") None "no severity given".

(** Task dictionaries of a state: the unit 1 with the subtask 1.1, and the
    units 2 and 10, where 2 waits for 1. *)
Definition unit_dict (tid status : string) (deps subs : list string)
    (parent : option string) (window : option string) : FullState.TaskDict :=
  FullState.mkTaskDict (flow_task tid status deps subs parent)
                       None [] false (Some "codex") window None.
Definition unit_dicts : list FullState.TaskDict :=
  [unit_dict "1" "completed" [] ["1.1"] None (Some "main");
   unit_dict "1.1" "completed" [] [] (Some "1") None;
   unit_dict "2" "not_started" ["1"] [] None None;
   unit_dict "10" "not_started" [] [] None None].

(** Parsed tasks of the multi-agent parser. *)
Definition parsed_task (tid : string) (st : SpecParser.TaskStatus)
    (deps subs : list string) (parent : option string) : SpecParser.Task :=
  SpecParser.mkTask tid "" SpecParser.CODE st deps false parent subs [] [] [].
Definition parsed_tasks : list SpecParser.Task :=
  [parsed_task "1" SpecParser.NOT_STARTED [] ["1.1"] None;
   parsed_task "1.1" SpecParser.COMPLETED [] [] (Some "1");
   parsed_task "2" SpecParser.NOT_STARTED ["1"] [] None;
   parsed_task "3" SpecParser.NOT_STARTED ["2"] [] None].

(** Tasks of the sequential parser: 10 stands before 2 in the file. *)
Definition seq_unit (tid : string) (deps subs : list string)
    (parent : option string) : SeqSpecParser.Task :=
  SeqSpecParser.mkTask tid "" [] parent subs deps false.
Definition seq_tasks : list SeqSpecParser.Task :=
  [seq_unit "10" [] [] None;
   seq_unit "1" [] ["1.1"] None;
   seq_unit "1.1" [] [] (Some "1");
   seq_unit "2" ["1"] [] None].

(** Tasks whose details name their dependencies: 3 waits for 1 and 2, and
    2 for 1; the list starts with 3. *)
Definition detailed_task (tid : string) (details : list string) : SpecParser.Task :=
  SpecParser.mkTask tid "" SpecParser.CODE SpecParser.NOT_STARTED [] false None []
                    details [] [].
Definition detailed_tasks : list SpecParser.Task :=
  [detailed_task "3" ["Depends on: task-1, 2"; "_writes: c.py"];
   detailed_task "1" ["Set up the parser"];
   detailed_task "2" ["Dependencies: 1"]].
(** Two tasks that wait for each other. *)
Definition circular_tasks : list SpecParser.Task :=
  [detailed_task "1" ["depends on 2"]; detailed_task "2" ["depends on 1"]].

(** An agent that completes every task it is given, one that asks for a
    human at the second iteration, and a state file that is not there. *)
Definition eager_agent (iteration : Z) (task : SeqSpecParser.Task)
    (subtasks : option (list (string * string))) : DispatchTask.DispatchResult :=
  DispatchTask.mkDispatchResult true true false
    ("Task " +:+ SeqSpecParser.task_id task +:+ " completed successfully") "".
Definition halting_agent (iteration : Z) (task : SeqSpecParser.Task)
    (subtasks : option (list (string * string))) : DispatchTask.DispatchResult :=
  if (iteration =? 2)%Z
  then DispatchTask.mkDispatchResult true false true
         ("Task " +:+ SeqSpecParser.task_id task +:+ " halted - human input required") ""
  else eager_agent iteration task subtasks.
Definition new_loop_state : SequentialLoop.LoopState :=
  SequentialLoop.mkLoopState None [] false None None None.

(** A parent unit whose subtasks wait for review, a task that waits for
    review and one that was not started; one review for each unit. *)
Definition review_dicts : list FullState.TaskDict :=
  [unit_dict "1" "in_progress" [] ["1.1"; "1.2"] None None;
   unit_dict "1.1" "pending_review" [] [] (Some "1") None;
   unit_dict "1.2" "pending_review" [] [] (Some "1") None;
   unit_dict "2" "pending_review" [] [] None None;
   unit_dict "3" "not_started" ["2"] [] None None].
Definition review_results : list Reviews.ReviewResult :=
  [Reviews.mkReviewResult (Some "1") (Some "review-1-1") (Some "minor") None;
   Reviews.mkReviewResult (Some "2") (Some "review-2-1") None (Some "Looks fine")].

End FlowSamples.

(** * Properties *)

(** ** The fix loop decides by severity and completed attempts *)

Section FixLoopAction.
Import State FixLoop Samples.

Lemma should_enter_fix_loop_spec severity :
  should_enter_fix_loop severity = true <->
  severity = "critical" \/ severity = "major".
Proof.
  unfold should_enter_fix_loop. rewrite bool_decide_eq_true.
  rewrite !elem_of_cons, elem_of_nil. tauto.
Qed.

(** C1.  For every task record and every severity: a severity other than
    critical and major gives PASS; with a critical or major severity, 0 or 1
    completed fix attempts give RETRY, 2 give ESCALATE, 3 or more give
    HUMAN_FALLBACK. *)
Theorem evaluate_fix_loop_action_cases (task : TaskEntry) (severity : string) :
  (severity <> "critical" -> severity <> "major" ->
   evaluate_fix_loop_action task severity = PASS) /\
  (severity = "critical" \/ severity = "major" ->
   (fix_attempts task = 0 \/ fix_attempts task = 1 ->
    evaluate_fix_loop_action task severity = RETRY) /\
   (fix_attempts task = 2 ->
    evaluate_fix_loop_action task severity = ESCALATE) /\
   (3 <= fix_attempts task ->
    evaluate_fix_loop_action task severity = HUMAN_FALLBACK))%Z.
Proof.
  unfold evaluate_fix_loop_action, MAX_FIX_ATTEMPTS, ESCALATION_THRESHOLD.
  split.
  - intros Hc Hm.
    destruct (should_enter_fix_loop severity) eqn:E; [|reflexivity].
    apply should_enter_fix_loop_spec in E. tauto.
  - intros Hsev. apply should_enter_fix_loop_spec in Hsev. rewrite Hsev. simpl.
    repeat split; intros H.
    + destruct H as [-> | ->]; reflexivity.
    + rewrite H. reflexivity.
    + destruct (Z.geb_spec (fix_attempts task) 3); [reflexivity | lia].
Qed.

Lemma evaluate_fix_loop_action_cases_witness :
  evaluate_fix_loop_action (sample_task 0) "none" = PASS /\
  evaluate_fix_loop_action (sample_task 1) "major" = RETRY /\
  evaluate_fix_loop_action (sample_task 2) "major" = ESCALATE /\
  evaluate_fix_loop_action (sample_task 3) "major" = HUMAN_FALLBACK.
Proof.
  split; [|split; [|split]].
  - apply (evaluate_fix_loop_action_cases (sample_task 0) "none"); discriminate.
  - apply (evaluate_fix_loop_action_cases (sample_task 1) "major");
      [right; reflexivity | right; reflexivity].
  - apply (evaluate_fix_loop_action_cases (sample_task 2) "major");
      [right; reflexivity | reflexivity].
  - apply (evaluate_fix_loop_action_cases (sample_task 3) "major");
      [right; reflexivity | simpl; lia].
Defined.

End FixLoopAction.

(** ** The timeout of the sequential dispatcher *)

Section Timeouts.
Import WrapperUtils DispatchTask Samples.

(** The text of CODEX_TIMEOUT as both functions read it. *)
Local Abbreviation raw_of environ := (Py.strip (default "" (environ !! "CODEX_TIMEOUT"))).

Lemma int_empty : Py.int "" = None.
Proof. reflexivity. Qed.

Lemma sequential_timeout_fallback environ d :
  Py.int (raw_of environ) = None \/
  (exists n, Py.int (raw_of environ) = Some n /\ (n <= 0)%Z) ->
  _resolve_timeout_seconds environ d = d.
Proof.
  unfold _resolve_timeout_seconds. intros H.
  destruct (String.eqb _ ""); [reflexivity|].
  destruct H as [-> | (n & -> & Hn)]; [reflexivity|].
  destruct (Z.leb_spec n 0); [reflexivity | lia].
Qed.

Lemma multi_agent_timeout_fallback environ d b :
  Py.int (raw_of environ) = None \/
  (exists n, Py.int (raw_of environ) = Some n /\ (n <= 0)%Z) ->
  resolve_codex_timeout_seconds environ d b = (Z.max 60 d + Z.max 0 b)%Z.
Proof.
  unfold resolve_codex_timeout_seconds. intros H.
  destruct (String.eqb _ ""); [reflexivity|].
  destruct H as [-> | (n & -> & Hn)]; [reflexivity|].
  destruct (Z.gtb_spec n 0); [lia | reflexivity].
Qed.

Lemma nonempty_of_int s n : Py.int s = Some n -> String.eqb s "" = false.
Proof. destruct s; [discriminate | reflexivity]. Qed.

(** The claim C4 as it is written does not hold: with CODEX_TIMEOUT=7200 and
    the default 7200 the sequential dispatcher waits 7 seconds where the
    multi-agent resolution without buffer gives 7200, and with
    CODEX_TIMEOUT=20000 it waits 20 seconds where the other gives 60. *)
Lemma sequential_timeout_differs :
  ~ (forall (environ : gmap string string) (default_seconds : Z),
       _resolve_timeout_seconds environ default_seconds
       = resolve_codex_timeout_seconds environ default_seconds 0)
  /\ _resolve_timeout_seconds environ_7200 7200 = 7%Z
  /\ resolve_codex_timeout_seconds environ_7200 7200 0 = 7200%Z
  /\ _resolve_timeout_seconds environ_20000 7200 = 20%Z
  /\ resolve_codex_timeout_seconds environ_20000 7200 0 = 60%Z.
Proof.
  split; [|repeat split; vm_compute; reflexivity].
  intros H. specialize (H environ_7200 7200%Z). vm_compute in H. discriminate.
Qed.

(** C4, amended.  For every value of CODEX_TIMEOUT and every default, the
    sequential dispatcher reads a number above 10000 as milliseconds and
    divides it by 1000, and falls back to the default on a missing, blank,
    non-numeric or non-positive value; it has neither the floor of 60 seconds
    nor a buffer.  So it agrees with [resolve_codex_timeout_seconds] at
    buffer 0 exactly when the number is at least 60000, and on the fallback
    exactly when the default is at least 60. *)
Theorem sequential_timeout_resolution
    (environ : gmap string string) (default_seconds : Z) :
  (forall n, Py.int (raw_of environ) = Some n -> (10000 < n)%Z ->
     _resolve_timeout_seconds environ default_seconds = (n `div` 1000)%Z /\
     (_resolve_timeout_seconds environ default_seconds
      = resolve_codex_timeout_seconds environ default_seconds 0
      <-> (60000 <= n)%Z)) /\
  (Py.int (raw_of environ) = None \/
   (exists n, Py.int (raw_of environ) = Some n /\ (n <= 0)%Z) ->
     _resolve_timeout_seconds environ default_seconds = default_seconds /\
     (_resolve_timeout_seconds environ default_seconds
      = resolve_codex_timeout_seconds environ default_seconds 0
      <-> (60 <= default_seconds)%Z)).
Proof.
  split.
  - intros n Hint Hbig.
    unfold _resolve_timeout_seconds, resolve_codex_timeout_seconds.
    rewrite (nonempty_of_int _ _ Hint), Hint.
    destruct (Z.leb_spec n 0) as [?|_]; [lia|].
    destruct (Z.gtb_spec n 0) as [_|?]; [|lia].
    destruct (Z.gtb_spec n 10000) as [_|?]; [|lia].
    assert (10 <= n `div` 1000)%Z by (apply Z.div_le_lower_bound; lia).
    split; [lia|].
    assert (60000 <= n <-> 60 <= n `div` 1000)%Z as ->.
    { split; intros.
      - apply Z.div_le_lower_bound; lia.
      - destruct (Z.le_gt_cases 60000 n) as [|Hlt]; [assumption|].
        assert (n `div` 1000 < 60)%Z by (apply Z.div_lt_upper_bound; lia). lia. }
    lia.
  - intros H. rewrite (sequential_timeout_fallback _ _ H),
      (multi_agent_timeout_fallback _ _ _ H). split; [reflexivity | lia].
Qed.

Lemma sequential_timeout_resolution_witness :
  _resolve_timeout_seconds environ_120000 7200 = 120%Z /\
  _resolve_timeout_seconds environ_120000 7200
  = resolve_codex_timeout_seconds environ_120000 7200 0 /\
  _resolve_timeout_seconds environ_junk 7200 = 7200%Z.
Proof.
  destruct (sequential_timeout_resolution environ_120000 7200) as [Hnum _].
  destruct (Hnum 120000%Z) as [Hval Hagree]; [reflexivity | lia |].
  destruct (sequential_timeout_resolution environ_junk 7200) as [_ Hfall].
  destruct Hfall as [Hd _]; [left; reflexivity|].
  split; [exact Hval | split; [apply Hagree; lia | exact Hd]].
Defined.

(** The numbers from 1 to 10000, which the multi-agent resolution reads as
    seconds: the sequential dispatcher divides them by 1000 as well, to at
    least one second, and the two never agree there. *)
Lemma sequential_timeout_small_numbers
    (environ : gmap string string) (default_seconds n : Z) :
  Py.int (raw_of environ) = Some n -> (0 < n <= 10000)%Z ->
  _resolve_timeout_seconds environ default_seconds = Z.max 1 (n `div` 1000) /\
  resolve_codex_timeout_seconds environ default_seconds 0 = Z.max 60 n /\
  _resolve_timeout_seconds environ default_seconds
  <> resolve_codex_timeout_seconds environ default_seconds 0.
Proof.
  intros Hint Hn.
  unfold _resolve_timeout_seconds, resolve_codex_timeout_seconds.
  rewrite (nonempty_of_int _ _ Hint), Hint.
  destruct (Z.leb_spec n 0) as [?|_]; [lia|].
  destruct (Z.gtb_spec n 0) as [_|?]; [|lia].
  destruct (Z.gtb_spec n 10000) as [?|_]; [lia|].
  assert (n `div` 1000 <= 10)%Z.
  { assert (n `div` 1000 < 11)%Z by (apply Z.div_lt_upper_bound; lia). lia. }
  repeat split; lia.
Qed.

End Timeouts.

(** ** The completion markers of the sequential dispatcher *)

Section Markers.
Import DispatchTask Samples.

Local Abbreviation DONE := "<promise>TASK_DONE</promise>".
Local Abbreviation HALT := "<promise>HALT</promise>".
Local Abbreviation COMPLETE := "<promise>COMPLETE</promise>".

(** The message text and the exit code that [dispatch_task] classifies. *)
Local Abbreviation message_of tid trs :=
  (default "" (tr_message (select_result ("task-" +:+ tid) trs))).
Local Abbreviation exit_code_of tid result trs :=
  (default (returncode result) (tr_exit_code (select_result ("task-" +:+ tid) trs))).

(** The claim C6 as it is written does not hold: a message without TASK_DONE
    and without HALT that carries the marker COMPLETE is classified as
    completed although the exit code is 1. *)
Lemma complete_marker_counts_as_done :
  ~ (forall tid result (trs : list (option TaskResult)),
       trs <> [] ->
       Py.contains DONE (message_of tid trs) = false ->
       Py.contains HALT (message_of tid trs) = false ->
       (completed (dispatch_task tid result (Some trs)) = true
        <-> exit_code_of tid result trs = 0%Z)).
Proof.
  intros H.
  destruct (H "7" run_failed results_complete_marker) as [Hexit _];
    [discriminate | reflexivity | reflexivity |].
  specialize (Hexit eq_refl). vm_compute in Hexit. discriminate.
Qed.

(** C6, amended.  For every wrapper task result whose message text contains
    neither the literal TASK_DONE nor the literal HALT (each inside
    [<promise>] tags): when it does not contain the literal COMPLETE either,
    the dispatch is classified as completed exactly when the exit code is 0
    and as a failure otherwise, and never as halted; when it contains the
    literal COMPLETE, the dispatch is classified as completed whatever the
    exit code. *)
Theorem unmarked_result_classified_by_exit_code
    tid result (trs : list (option TaskResult)) :
  trs <> [] ->
  Py.contains DONE (message_of tid trs) = false ->
  Py.contains HALT (message_of tid trs) = false ->
  let r := dispatch_task tid result (Some trs) in
  (Py.contains COMPLETE (message_of tid trs) = false ->
   (completed r = true <-> exit_code_of tid result trs = 0%Z) /\
   (success r = false <-> exit_code_of tid result trs <> 0%Z) /\
   halted r = false) /\
  (Py.contains COMPLETE (message_of tid trs) = true ->
   completed r = true /\ success r = true /\ halted r = false).
Proof.
  intros Hne Hdone Hhalt. destruct trs as [|tr trs]; [congruence|].
  cbv zeta. unfold dispatch_task. rewrite Hdone, Hhalt. split; intros Hcomplete;
    rewrite Hcomplete; cbn [orb].
  - destruct (Z.eqb_spec (exit_code_of tid result (tr :: trs)) 0) as [E|E];
      cbn [completed success halted]; intuition congruence.
  - repeat split.
Qed.

Lemma unmarked_result_classified_by_exit_code_witness :
  completed (dispatch_task "7" run_failed (Some (results_plain 0))) = true /\
  success (dispatch_task "7" run_failed (Some (results_plain 1))) = false /\
  completed (dispatch_task "7" run_failed (Some results_complete_marker)) = true.
Proof.
  destruct (unmarked_result_classified_by_exit_code
              "7" run_failed (results_plain 0)) as [Hzero _];
    [discriminate | reflexivity | reflexivity |].
  destruct (unmarked_result_classified_by_exit_code
              "7" run_failed (results_plain 1)) as [Hone _];
    [discriminate | reflexivity | reflexivity |].
  destruct (unmarked_result_classified_by_exit_code
              "7" run_failed results_complete_marker) as [_ Hmarker];
    [discriminate | reflexivity | reflexivity |].
  split; [|split].
  - apply (proj1 (Hzero eq_refl)). reflexivity.
  - apply (proj1 (proj2 (Hone eq_refl))). discriminate.
  - apply (proj1 (Hmarker eq_refl)).
Defined.

End Markers.

(** ** The task list parser *)

Section ParseTasks.
Import SpecParser Samples.

(** C10.  There is an input of three lines, a task line, then a line that
    opens like a task line but whose id does not parse, then a task line, for
    which [parse_tasks] records one parse error and returns the first task
    twice: the same object is appended a second time, so the ids of the
    returned tasks are not unique. *)
Theorem parse_tasks_repeats_task_after_error :
  exists content l1 l2 l3,
    content = l1 +:+ newline +:+ l2 +:+ newline +:+ l3 /\
    (_parse_task_line l1).1.1.1 = Some "1" /\
    is_task_start l2 = true /\ (_parse_task_line l2).1.1.1 = None /\
    (_parse_task_line l3).1.1.1 = Some "2" /\
    let res := parse_tasks content in
    errors res = [mkParseError "tasks.md" 2 ("Invalid task format: " +:+ l2)] /\
    success res = false /\
    (exists r r', r <> r' /\ tasks res = [r; r; r']) /\
    task_id <$> result_tasks res = ["1"; "1"; "2"] /\
    ~ NoDup (task_id <$> result_tasks res).
Proof.
  exists tasks_md_with_error, line_first, line_no_id, line_second.
  repeat split; try (vm_compute; reflexivity).
  - exists 0, 1. split; [discriminate | vm_compute; reflexivity].
  - assert (task_id <$> result_tasks (parse_tasks tasks_md_with_error)
            = ["1"; "1"; "2"]) as -> by (vm_compute; reflexivity).
    rewrite NoDup_cons. intros [Hin _]. apply Hin. left.
Qed.

End ParseTasks.

(** ** Strings and the matcher *)

Lemma str_app_cons c (s t : string) : String c s +:+ t = String c (s +:+ t).
Proof. reflexivity. Qed.

Lemma str_app_nil_l (s : string) : "" +:+ s = s.
Proof. reflexivity. Qed.

(** [String.append] is not unfolded by [simpl]. *)
Ltac string_simpl := rewrite ?str_app_cons, ?str_app_nil_l; simpl.

Section Strings.
Import Py Grammar.

Lemma str_length_app (s t : string) :
  String.length (s +:+ t) = String.length s + String.length t.
Proof. induction s as [|c s IH]; string_simpl; [reflexivity | rewrite IH; reflexivity]. Qed.

Lemma str_app_assoc (s t u : string) : (s +:+ t) +:+ u = s +:+ (t +:+ u).
Proof. induction s as [|c s IH]; string_simpl; [reflexivity | rewrite IH; reflexivity]. Qed.

Lemma str_app_nil_r (s : string) : s +:+ "" = s.
Proof. induction s as [|c s IH]; string_simpl; [reflexivity | rewrite IH; reflexivity]. Qed.

Lemma lstrip_length s : String.length (lstrip s) <= String.length s.
Proof. induction s as [|c s IH]; simpl; [lia|]. destruct (is_space c); simpl; lia. Qed.

Lemma rstrip_length s : String.length (rstrip s) <= String.length s.
Proof.
  induction s as [|c s IH]; simpl; [lia|].
  destruct (rstrip s); [destruct (is_space c)|]; simpl in *; lia.
Qed.

Lemma lstrip_blanks ws s :
  all_chars is_space ws = true -> lstrip (ws +:+ s) = lstrip s.
Proof.
  induction ws as [|c ws IH]; string_simpl; [reflexivity|].
  intros [Hc Hws]%andb_true_iff. rewrite Hc. auto.
Qed.

Lemma lstrip_fixed s : head_is is_space s = false -> lstrip s = s.
Proof. destruct s; simpl; [reflexivity|]. intros ->. reflexivity. Qed.

Lemma rstrip_blanks ws : all_chars is_space ws = true -> rstrip ws = "".
Proof.
  induction ws as [|c ws IH]; simpl; [reflexivity|].
  intros [Hc Hws]%andb_true_iff. rewrite (IH Hws), Hc. reflexivity.
Qed.

Lemma rstrip_app s t :
  rstrip t <> "" -> rstrip (s +:+ t) = s +:+ rstrip t.
Proof.
  intros Ht. induction s as [|c s IH]; string_simpl; [reflexivity|].
  rewrite IH. destruct (s +:+ rstrip t) eqn:E; [|reflexivity].
  destruct s; [contradiction | discriminate].
Qed.

Lemma rstrip_app_blanks s ws :
  all_chars is_space ws = true -> rstrip (s +:+ ws) = rstrip s.
Proof.
  intros Hws. induction s as [|c s IH]; string_simpl.
  - apply rstrip_blanks, Hws.
  - rewrite IH. reflexivity.
Qed.

Lemma strip_fixed_inv s :
  strip s = s -> head_is is_space s = false /\ rstrip s = s.
Proof.
  unfold strip. intros H.
  assert (lstrip s = s) as Hl.
  { destruct s as [|c s]; [reflexivity|]. simpl in *.
    destruct (is_space c); [|reflexivity].
    pose proof (rstrip_length (lstrip s)). pose proof (lstrip_length s).
    rewrite H in *. simpl in *. lia. }
  rewrite Hl in H. split; [|exact H].
  destruct s as [|c s]; [reflexivity|]. simpl in *.
  destruct (is_space c); [|reflexivity].
  pose proof (lstrip_length s). rewrite Hl in *. simpl in *. lia.
Qed.

(** Blanks around a text that neither starts nor ends with a blank are what
    [strip] removes. *)
Lemma strip_surrounded pre s post :
  all_chars is_space pre = true -> all_chars is_space post = true ->
  head_is is_space s = false -> rstrip s = s ->
  strip (pre +:+ s +:+ post) = s.
Proof.
  intros Hpre Hpost Hhead Hr. unfold strip.
  rewrite lstrip_blanks by exact Hpre.
  destruct s as [|c s].
  { rewrite str_app_nil_l, <- (str_app_nil_r post), lstrip_blanks by exact Hpost.
    reflexivity. }
  rewrite lstrip_fixed by exact Hhead.
  rewrite rstrip_app_blanks by exact Hpost. exact Hr.
Qed.

End Strings.

(** ** The matcher on greedy repetitions *)

Section Matching.
Import Re Py Grammar.

Lemma str_take_app xs rest : take (String.length xs) (xs +:+ rest) = xs.
Proof. induction xs as [|c xs IH]; string_simpl; [destruct rest; reflexivity|]. rewrite IH. reflexivity. Qed.

Lemma consumed_app xs rest : consumed (xs +:+ rest) rest = xs.
Proof.
  unfold consumed. rewrite str_length_app.
  replace (String.length xs + String.length rest - String.length rest)
    with (String.length xs) by lia.
  apply str_take_app.
Qed.

Lemma run_seq a b s g k :
  run (Seq a b) s g k = run a s g (fun s' g' => run b s' g' k).
Proof. reflexivity. Qed.

Lemma run_cls p c s g k : p c = true -> run (Cls p) (String c s) g k = k s g.
Proof. intros H. simpl. rewrite H. reflexivity. Qed.

Lemma run_chr c s g k : run (Chr c) (String c s) g k = k s g.
Proof. apply run_cls, Ascii.eqb_refl. Qed.

Lemma run_cls_fails p s g k : head_is p s = false -> run (Cls p) s g k = None.
Proof. destruct s; simpl; [reflexivity|]. intros ->. reflexivity. Qed.

Lemma run_group n r s g k :
  run (Group n r) s g k = run r s g (fun s' g' => k s' (<[n := consumed s s']> g')).
Proof. reflexivity. Qed.

Lemma run_opt_taken r s g k res :
  run r s g k = Some res -> run (Opt r) s g k = Some res.
Proof. intros H. simpl. rewrite H. reflexivity. Qed.

Lemma run_opt_skipped r s g k :
  run r s g k = None -> run (Opt r) s g k = k s g.
Proof. intros H. simpl. rewrite H. reflexivity. Qed.

Lemma star_loop_S step fuel s g k :
  star_loop step (S fuel) s g k =
  match step s g (fun s' g' =>
                    if (String.length s' <? String.length s)%nat
                    then star_loop step fuel s' g' k else None) with
  | Some r => Some r
  | None => k s g
  end.
Proof. reflexivity. Qed.

(** A greedy star over a class takes the whole run of characters of the class
    when the rest of the pattern matches after it. *)
Lemma star_loop_cls p xs : forall fuel rest g k res,
  all_chars p xs = true -> head_is p rest = false ->
  String.length xs <= fuel -> k rest g = Some res ->
  star_loop (run (Cls p)) fuel (xs +:+ rest) g k = Some res.
Proof.
  induction xs as [|c xs IH]; intros fuel rest g k res Hall Hrest Hfuel Hk.
  - rewrite str_app_nil_l. destruct fuel; [exact Hk|].
    rewrite star_loop_S, run_cls_fails by exact Hrest. exact Hk.
  - apply andb_true_iff in Hall as [Hc Hall].
    destruct fuel as [|fuel]; [simpl in Hfuel; lia|].
    rewrite str_app_cons, star_loop_S, run_cls by exact Hc.
    cbn [String.length]. rewrite (proj2 (Nat.ltb_lt _ _)) by lia.
    rewrite (IH fuel rest g k res); [reflexivity | assumption | assumption | | assumption].
    simpl in Hfuel. lia.
Qed.

Lemma run_star_cls p xs rest g k res :
  all_chars p xs = true -> head_is p rest = false -> k rest g = Some res ->
  run (Star (Cls p)) (xs +:+ rest) g k = Some res.
Proof.
  intros. cbn [run]. apply star_loop_cls; try assumption.
  rewrite str_length_app. lia.
Qed.

Lemma run_plus_cls p xs rest g k res :
  xs <> "" -> all_chars p xs = true -> head_is p rest = false ->
  k rest g = Some res ->
  run (Plus (Cls p)) (xs +:+ rest) g k = Some res.
Proof.
  intros Hne Hall Hrest Hk. destruct xs as [|c xs]; [contradiction|].
  apply andb_true_iff in Hall as [Hc Hall].
  unfold Plus. rewrite run_seq, str_app_cons, run_cls by exact Hc.
  apply run_star_cls; assumption.
Qed.

Lemma run_plus_cls_end p xs g k res :
  xs <> "" -> all_chars p xs = true -> k "" g = Some res ->
  run (Plus (Cls p)) xs g k = Some res.
Proof.
  intros. rewrite <- (str_app_nil_r xs). apply run_plus_cls; auto.
Qed.

Lemma consumed_all s : consumed s "" = s.
Proof. rewrite <- (str_app_nil_r s) at 1. apply consumed_app. Qed.

Lemma join_cons seg segs : join "." (seg :: segs) = seg +:+ more_numbers segs.
Proof. destruct segs; simpl; [rewrite str_app_nil_r|]; reflexivity. Qed.

Lemma more_numbers_head segs rest :
  head_is is_digit rest = false ->
  head_is is_digit (more_numbers segs +:+ rest) = false.
Proof. destruct segs; [rewrite str_app_nil_l; auto | reflexivity]. Qed.

Local Abbreviation number := (Seq (Chr ".") (Plus (Cls is_digit))).

Lemma star_loop_numbers segs : forall fuel rest g k res,
  Forall (fun seg => seg <> "" /\ all_chars is_digit seg = true) segs ->
  id_stops rest -> String.length (more_numbers segs) <= fuel ->
  k rest g = Some res ->
  star_loop (run number) fuel (more_numbers segs +:+ rest) g k = Some res.
Proof.
  induction segs as [|seg segs IH]; intros fuel rest g k res Hwf [Hd Hdot] Hfuel Hk.
  - unfold more_numbers. rewrite str_app_nil_l. destruct fuel; [exact Hk|].
    rewrite star_loop_S, run_seq.
    destruct rest as [|a rest]; [exact Hk|].
    destruct (Ascii.eqb_spec "." a) as [<-|Hne].
    + rewrite run_chr. unfold Plus. rewrite run_seq, run_cls_fails by eauto.
      exact Hk.
    + unfold Chr. rewrite run_cls_fails; [exact Hk|].
      unfold head_is. apply Ascii.eqb_neq, Hne.
  - apply Forall_cons in Hwf as [[Hne Hdig] Hwf].
    unfold more_numbers in Hfuel |- *. fold (more_numbers segs) in *.
    rewrite join_cons in *. rewrite !str_app_assoc.
    rewrite str_app_cons, str_app_nil_l in Hfuel |- *.
    destruct fuel as [|fuel]; [simpl in Hfuel; lia|].
    rewrite star_loop_S, run_seq, run_chr.
    erewrite run_plus_cls; [reflexivity | exact Hne | exact Hdig | |].
    + apply more_numbers_head, Hd.
    + cbn [String.length]. rewrite !str_length_app.
      rewrite (proj2 (Nat.ltb_lt _ _)) by lia.
      apply IH; try assumption; [split; assumption|].
      cbn [String.length] in Hfuel. rewrite str_length_app in Hfuel.
      destruct seg; [contradiction|]. simpl in Hfuel. lia.
Qed.

(** The pattern of a dotted id reads all of it. *)
Lemma run_dotted_id segs rest g k res :
  segs <> [] ->
  Forall (fun seg => seg <> "" /\ all_chars is_digit seg = true) segs ->
  id_stops rest -> k rest g = Some res ->
  run (Seq (Plus (Cls is_digit)) (Star number)) (join "." segs +:+ rest) g k
  = Some res.
Proof.
  intros Hne Hwf Hstops Hk. destruct segs as [|seg segs]; [contradiction|].
  apply Forall_cons in Hwf as [[Hseg Hdig] Hwf].
  rewrite join_cons, str_app_assoc, run_seq.
  apply run_plus_cls;
    [exact Hseg | exact Hdig | apply more_numbers_head, (proj1 Hstops) |].
  cbn [run]. apply star_loop_numbers; try assumption.
  rewrite str_length_app. lia.
Qed.

End Matching.

Section TaskLines.
Import Re Py Grammar SpecParser.

Lemma head_app p xs rest : xs <> "" -> head_is p (xs +:+ rest) = head_is p xs.
Proof. destruct xs; [contradiction | reflexivity]. Qed.

Lemma head_all p xs : xs <> "" -> all_chars p xs = true -> head_is p xs = true.
Proof. destruct xs; [contradiction|]. simpl. intros _ [H _]%andb_true_iff. exact H. Qed.

(** Two classes without a common character: a text that starts in the one
    does not start in the other. *)
Lemma head_other p q s :
  (forall c, p c = true -> q c = false) ->
  head_is p s = true -> head_is q s = false.
Proof. destruct s; simpl; [reflexivity | auto]. Qed.

Lemma space_not_digit c : is_space c = true -> is_digit c = false.
Proof.
  unfold is_space, is_digit. intros H.
  destruct (48 <=? nat_of_ascii c)%nat eqn:E; [|reflexivity].
  apply Nat.leb_le in E.
  apply orb_true_iff in H as [[_ H]%andb_true_iff | [_ H]%andb_true_iff];
    apply Nat.leb_le in H; lia.
Qed.

Lemma digit_not_space c : is_digit c = true -> is_space c = false.
Proof.
  intros H. destruct (is_space c) eqn:E; [|reflexivity].
  apply space_not_digit in E. congruence.
Qed.

Lemma space_not_char a c : is_space a = false -> is_space c = true -> Ascii.eqb a c = false.
Proof. intros Ha Hc. apply Ascii.eqb_neq. intros ->. congruence. Qed.

Lemma digit_not_char a c : is_digit a = false -> is_digit c = true -> Ascii.eqb a c = false.
Proof. intros Ha Hc. apply Ascii.eqb_neq. intros ->. congruence. Qed.

Lemma consumed_cons c s : consumed (String c s) s = String c "".
Proof. apply (consumed_app (String c "") s). Qed.

Lemma rstrip_app_fixed s t :
  rstrip t = t -> t <> "" -> rstrip (s +:+ t) = s +:+ t /\ s +:+ t <> "".
Proof.
  intros Ht Hne. rewrite rstrip_app by congruence. rewrite Ht. split; [reflexivity|].
  destruct s; [exact Hne | discriminate].
Qed.

Lemma rstrip_dots_app s t :
  rstrip_dots t <> "" -> rstrip_dots (s +:+ t) = s +:+ rstrip_dots t.
Proof.
  intros Ht. induction s as [|c s IH]; string_simpl; [reflexivity|].
  rewrite IH. destruct (s +:+ rstrip_dots t) eqn:E; [|reflexivity].
  destruct s; [contradiction | discriminate].
Qed.

Lemma rstrip_dots_digits s : all_chars is_digit s = true -> rstrip_dots s = s.
Proof.
  induction s as [|c s IH]; [reflexivity|]. cbn [rstrip_dots all_chars].
  intros [Hc Hs]%andb_true_iff. rewrite (IH Hs).
  destruct s; [|reflexivity].
  destruct (Ascii.eqb_spec c ".") as [->|]; [discriminate Hc | reflexivity].
Qed.

Lemma rstrip_dots_id segs :
  segs <> [] ->
  Forall (fun seg => seg <> "" /\ all_chars is_digit seg = true) segs ->
  rstrip_dots (join "." segs) = join "." segs /\ join "." segs <> "".
Proof.
  induction segs as [|seg segs IH]; [contradiction|].
  intros _ [[Hne Hdig] Hwf]%Forall_cons.
  destruct segs as [|seg' segs].
  - simpl. split; [apply rstrip_dots_digits, Hdig | exact Hne].
  - destruct IH as [IH1 IH2]; [discriminate | exact Hwf |].
    change (join "." (seg :: seg' :: segs))
      with (seg +:+ "." +:+ join "." (seg' :: segs)).
    rewrite !rstrip_dots_app; rewrite ?IH1; try assumption.
    + split; [reflexivity|]. destruct seg; [contradiction | discriminate].
    + rewrite rstrip_dots_app by (rewrite IH1; exact IH2). discriminate.
Qed.

(** The text of a line after its marker. *)
Local Abbreviation after_marker q :=
  (blanks1 q +:+ "[" +:+ String (box q) "" +:+ "]"
   +:+ (if star q then "*" else "") +:+ blanks2 q
   +:+ id_text q +:+ (if dot q then "." else "")
   +:+ blanks3 q +:+ descr q).

Lemma descr_facts q :
  well_formed q ->
  head_is is_space (descr q) = false /\ rstrip (descr q) = descr q /\
  all_chars (fun c => negb (Ascii.eqb c "010")) (descr q) = true.
Proof.
  intros [_ _ _ _ _ _ (Hne & Hstrip & Hnl)].
  destruct (strip_fixed_inv _ Hstrip) as [Hh Hr]. repeat split; try assumption.
  clear -Hnl. induction (descr q) as [|c s IH]; [reflexivity|].
  simpl in *. apply orb_false_iff in Hnl as [-> Hnl]. auto.
Qed.

Lemma id_facts q :
  well_formed q ->
  head_is is_digit (id_text q) = true /\ id_text q <> "" /\
  rstrip_dots (id_text q) = id_text q.
Proof.
  intros Hwf. destruct (rstrip_dots_id (segments q)) as [Hr Hne];
    [apply Hwf | apply Hwf |].
  repeat split; try assumption.
  unfold id_text. destruct Hwf as [_ _ _ Hsegs Hdig _ _].
  destruct (segments q) as [|seg segs]; [contradiction|].
  apply Forall_cons in Hdig as [[Hseg Hd] _].
  rewrite join_cons, head_app by exact Hseg. apply head_all; assumption.
Qed.

(** What follows the id lets the id end. *)
Lemma after_id_stops q :
  well_formed q ->
  id_stops ((if dot q then "." else "") +:+ blanks3 q +:+ descr q).
Proof.
  intros Hwf. destruct Hwf as [_ _ _ _ _ [Hne Hsp] _].
  assert (head_is is_space (blanks3 q +:+ descr q) = true) as Hhead.
  { rewrite head_app by exact Hne. apply head_all; assumption. }
  assert (head_is is_digit (blanks3 q +:+ descr q) = false) as Hnd.
  { eapply head_other; [apply space_not_digit | exact Hhead]. }
  destruct (dot q); string_simpl.
  - split; [reflexivity|]. intros r [= <-]. exact Hnd.
  - split; [exact Hnd|]. intros r Hr. rewrite Hr in Hhead. discriminate.
Qed.

Lemma task_line_matches q m :
  well_formed q -> marker q = Some m -> cls_marker m = true ->
  rmatch task_line_pattern (text q) = Some (expected_groups q).
Proof.
  intros Hwf Hm Hcls.
  destruct (descr_facts q Hwf) as (Hdh & Hdr & Hdall).
  destruct (id_facts q Hwf) as (Hidh & Hidne & _).
  pose proof (after_id_stops q Hwf) as Hstops.
  destruct Hwf as [Hb1 Hbox Hb2 Hsegs Hdig [Hb3ne Hb3] (Hdne & _ & _)].
  unfold rmatch, task_line_pattern, text. rewrite Hm. cbn [seqs].
  rewrite str_app_cons, str_app_nil_l, run_seq, run_cls by exact Hcls.
  rewrite run_seq. apply run_star_cls; [exact Hb1 | reflexivity |].
  rewrite str_app_cons, str_app_nil_l, run_seq, run_chr.
  rewrite str_app_cons, str_app_nil_l, run_seq, run_group, run_cls by exact Hbox.
  rewrite consumed_cons.
  rewrite str_app_cons, str_app_nil_l, run_seq, run_chr.
  rewrite run_seq.
  set (g1 := <[1 := String (box q) ""]> (∅ : groups)).
  assert (forall g2 : groups,
    run (Seq (Star (Cls is_space))
          (Seq (Group 3 (Seq (Plus (Cls is_digit))
                           (Star (Seq (Chr ".") (Plus (Cls is_digit))))))
             (Seq (Opt (Chr "."))
                (Seq (Plus (Cls is_space)) (Seq (Group 4 (Plus Dot)) Eos)))))
      (blanks2 q +:+ id_text q +:+ (if dot q then "." else "")
       +:+ blanks3 q +:+ descr q) g2 (fun _ g => Some g)
    = Some (<[4 := descr q]> (<[3 := id_text q]> g2))) as Hrest.
  { intros g2. rewrite run_seq. apply run_star_cls; [exact Hb2 | |].
    { rewrite head_app by exact Hidne.
      eapply head_other; [apply digit_not_space | exact Hidh]. }
    rewrite run_seq, run_group.
    apply run_dotted_id; [exact Hsegs | exact Hdig | exact Hstops |].
    fold (id_text q). rewrite consumed_app, run_seq.
    assert (run (Seq (Plus (Cls is_space)) (Seq (Group 4 (Plus Dot)) Eos))
              (blanks3 q +:+ descr q) (<[3 := id_text q]> g2) (fun _ g => Some g)
            = Some (<[4 := descr q]> (<[3 := id_text q]> g2))) as Htail.
    { rewrite run_seq. apply run_plus_cls; [exact Hb3ne | exact Hb3 | exact Hdh |].
      rewrite run_seq, run_group.
      apply run_plus_cls_end; [exact Hdne | exact Hdall |].
      rewrite consumed_all. reflexivity. }
    destruct (dot q).
    - apply run_opt_taken. rewrite str_app_cons, str_app_nil_l, run_chr. exact Htail.
    - rewrite str_app_nil_l, run_opt_skipped; [exact Htail|].
      apply run_cls_fails. rewrite head_app by exact Hb3ne.
      eapply head_other; [|apply head_all; [exact Hb3ne | exact Hb3]].
      intros c Hc. apply space_not_char; [reflexivity | exact Hc]. }
  unfold expected_groups. fold g1.
  destruct (star q).
  - apply run_opt_taken. rewrite str_app_cons, str_app_nil_l, run_group, run_chr.
    rewrite consumed_cons. apply Hrest.
  - rewrite str_app_nil_l, run_opt_skipped; [apply Hrest|].
    rewrite run_group. apply run_cls_fails.
    destruct (decide (blanks2 q = "")) as [->|Hne].
    + rewrite str_app_nil_l, head_app by exact Hidne.
      eapply head_other; [|exact Hidh].
      intros c Hc. apply digit_not_char; [reflexivity | exact Hc].
    + rewrite head_app by exact Hne.
      eapply head_other; [|apply head_all; [exact Hne | exact Hb2]].
      intros c Hc. apply space_not_char; [reflexivity | exact Hc].
Qed.

Lemma task_prefix_matches q m :
  well_formed q -> marker q = Some m -> cls_marker m = true ->
  is_task_start (text q) = true.
Proof.
  intros Hwf Hm Hcls. destruct Hwf as [Hb1 Hbox _ _ _ _ _].
  unfold is_task_start. apply bool_decide_eq_true. exists ∅.
  unfold rmatch, task_prefix_pattern, text. rewrite Hm. cbn [seqs].
  rewrite str_app_cons, str_app_nil_l, run_seq, run_cls by exact Hcls.
  rewrite run_seq. apply run_star_cls; [exact Hb1 | reflexivity |].
  rewrite str_app_cons, str_app_nil_l, run_seq, run_chr.
  rewrite str_app_cons, str_app_nil_l, run_seq, run_cls by exact Hbox.
  rewrite str_app_cons, str_app_nil_l, run_chr. reflexivity.
Qed.

(** A text that does not start with [-] or [*] matches neither pattern. *)
Lemma no_marker_no_match s :
  head_is cls_marker s = false ->
  rmatch task_prefix_pattern s = None /\ rmatch task_line_pattern s = None.
Proof.
  intros H. unfold rmatch, task_prefix_pattern, task_line_pattern. cbn [seqs].
  rewrite !run_seq, !run_cls_fails by exact H. split; reflexivity.
Qed.

Lemma line_without_marker_is_no_task line :
  head_is cls_marker (strip line) = false ->
  is_task_start (strip line) = false /\
  _parse_task_line line = (None, NOT_STARTED, false, "").
Proof.
  intros H. destruct (no_marker_no_match _ H) as [Hp Hl].
  unfold is_task_start, _parse_task_line. rewrite Hp, Hl. split; [|reflexivity].
  apply bool_decide_eq_false. intros [? ?]. discriminate.
Qed.

Lemma text_stripped q m indent trailing :
  well_formed q -> marker q = Some m -> cls_marker m = true ->
  all_chars is_space indent = true -> all_chars is_space trailing = true ->
  strip (indent +:+ text q +:+ trailing) = text q.
Proof.
  intros Hwf Hm Hcls Hi Ht. destruct (descr_facts q Hwf) as (_ & Hdr & _).
  assert (descr q <> "") as Hdne by apply Hwf.
  apply strip_surrounded; [exact Hi | exact Ht | |].
  - unfold text. rewrite Hm. rewrite str_app_cons. simpl.
    unfold cls_marker in Hcls.
    apply orb_true_iff in Hcls as [->%Ascii.eqb_eq | ->%Ascii.eqb_eq]; reflexivity.
  - unfold text.
    repeat (apply rstrip_app_fixed; [|]); try exact Hdr; try exact Hdne.
Qed.

Lemma parse_marked_line q m indent trailing :
  well_formed q -> marker q = Some m -> cls_marker m = true ->
  all_chars is_space indent = true -> all_chars is_space trailing = true ->
  _parse_task_line (indent +:+ text q +:+ trailing)
  = (Some (id_text q), status_of_marker (String (box q) ""), star q, descr q).
Proof.
  intros Hwf Hm Hcls Hi Ht. unfold _parse_task_line.
  rewrite (text_stripped q m), (task_line_matches q m) by assumption.
  destruct (id_facts q Hwf) as (_ & _ & Hid).
  assert (strip (descr q) = descr q) as Hd by apply Hwf.
  unfold expected_groups, group.
  rewrite lookup_insert_eq.
  rewrite (lookup_insert_ne _ 4 3), lookup_insert_eq by discriminate.
  rewrite (lookup_insert_ne _ 4 2), (lookup_insert_ne _ 4 1) by discriminate.
  rewrite (lookup_insert_ne _ 3 2), (lookup_insert_ne _ 3 1) by discriminate.
  cbn [default from_option id]. rewrite Hid, Hd.
  destruct (star q); cbn [id].
  - rewrite lookup_insert_eq, (lookup_insert_ne _ 2 1), lookup_insert_eq
      by discriminate. reflexivity.
  - rewrite lookup_insert_eq, (lookup_insert_ne _ 1 2), lookup_empty
      by discriminate. reflexivity.
Qed.

Lemma head_rstrip p c s :
  p c = false -> head_is p (rstrip (String c s)) = false.
Proof.
  intros H. simpl. destruct (rstrip s); [destruct (is_space c)|]; simpl; auto.
Qed.

Lemma unmarked_text_head q indent trailing :
  well_formed q -> marker q = None ->
  all_chars is_space indent = true ->
  head_is cls_marker (strip (indent +:+ text q +:+ trailing)) = false.
Proof.
  intros Hwf Hm Hi. unfold strip, text. rewrite Hm, str_app_nil_l.
  rewrite lstrip_blanks by exact Hi. rewrite str_app_assoc.
  rewrite lstrip_blanks by apply Hwf.
  rewrite !str_app_cons, str_app_nil_l. cbn [lstrip is_space]. simpl (is_space "[").
  cbv iota. apply head_rstrip. reflexivity.
Qed.

(** In the loop of [parse_tasks], a line without marker opens no task and is
    no error: it is skipped or becomes a detail of the open task. *)
Lemma unmarked_line_opens_nothing p line :
  head_is cls_marker (strip line) = false ->
  let p' := pass1_step p line in
  p_store p' = p_store p /\ p_tasks p' = p_tasks p /\
  p_current_task p' = p_current_task p /\ p_errors p' = p_errors p.
Proof.
  intros H. destruct (line_without_marker_is_no_task line H) as [Hstart _].
  cbv zeta. unfold pass1_step. rewrite Hstart.
  destruct (_ || _); [repeat split|].
  destruct (p_current_task p); [|repeat split].
  destruct (startswith "-" (strip line)); repeat split.
Qed.

Lemma marked_line_opens_task q m indent trailing p :
  well_formed q -> marker q = Some m -> cls_marker m = true ->
  all_chars is_space indent = true -> all_chars is_space trailing = true ->
  let p' := pass1_step p (indent +:+ text q +:+ trailing) in
  exists h,
    length h = length (p_store p) /\
    p_store p' = h ++ [new_task (id_text q) (descr q)
                         (status_of_marker (String (box q) "")) (star q)] /\
    p_current_task p' = Some (length h) /\ p_errors p' = p_errors p.
Proof.
  intros Hwf Hm Hcls Hi Ht. cbv zeta. unfold pass1_step.
  rewrite (text_stripped q m) by assumption.
  assert (exists c rest, text q = String c rest /\ (c = "-" \/ c = "*")%char)
    as (c & rest & Htext & Hc).
  { unfold text. rewrite Hm, str_app_cons. eexists _, _. split; [reflexivity|].
    unfold cls_marker in Hcls.
    apply orb_true_iff in Hcls as [->%Ascii.eqb_eq | ->%Ascii.eqb_eq]; auto. }
  assert (String.eqb (text q) "" || startswith "#" (text q) = false) as ->.
  { rewrite Htext. destruct Hc as [-> | ->]; reflexivity. }
  rewrite (task_prefix_matches q m) by assumption.
  pose proof (parse_marked_line q m "" "" Hwf Hm Hcls eq_refl eq_refl) as Hparse.
  rewrite str_app_nil_l, str_app_nil_r in Hparse. rewrite Hparse.
  destruct (p_current_task p) as [r|].
  - unfold save_task. destruct (_extract_file_manifest _) as [w rd].
    eexists. split; [|split; [reflexivity | split; reflexivity]].
    apply length_alter.
  - eexists. split; [|split; [reflexivity | split; reflexivity]]. reflexivity.
Qed.

Lemma parts_no_marker_well_formed : well_formed Samples.parts_no_marker.
Proof. split; try reflexivity; try discriminate; repeat constructor; discriminate. Qed.

Lemma parts_dash_well_formed : well_formed Samples.parts_dash.
Proof. split; try reflexivity; try discriminate; repeat constructor; discriminate. Qed.

Lemma parts_full_well_formed : well_formed Samples.parts_full.
Proof. split; try reflexivity; try discriminate; repeat constructor; discriminate. Qed.

(** The claim C5 as it is written does not hold: the line
    [[ ] 1 Set up the project] has every part of the grammar but the list
    marker, and it is no task line: [_parse_task_line] finds no id in it and
    [parse_tasks] returns no task for it. *)
Lemma checkbox_without_marker_is_no_task :
  ~ (forall q : parts,
       well_formed q ->
       marker q = None \/ (exists m, marker q = Some m /\ cls_marker m = true) ->
       (_parse_task_line (text q)).1.1.1 = Some (id_text q))
  /\ result_tasks (parse_tasks (text Samples.parts_no_marker)) = [].
Proof.
  split; [|vm_compute; reflexivity].
  intros H.
  specialize (H Samples.parts_no_marker parts_no_marker_well_formed
                (or_introl eq_refl)).
  vm_compute in H. discriminate.
Qed.

(** C5, amended.  In the task-line grammar of the multi-agent parser the
    leading [-] or [*] is required.  Every line that consists of the marker,
    a checkbox, an optional [*], a dotted numeric id, an optional dot and the
    description, with blanks around it, is a task line: [_parse_task_line]
    returns its id, the status of the checkbox, the optional flag and the
    description, and the loop of [parse_tasks] opens a task for it.  The same
    line without the marker is no task line: [_parse_task_line] returns no
    id, and the loop opens no task and records no error. *)
Theorem task_line_requires_marker (q : parts) (indent trailing : string) :
  well_formed q ->
  all_chars is_space indent = true -> all_chars is_space trailing = true ->
  let line := indent +:+ text q +:+ trailing in
  (forall m, marker q = Some m -> cls_marker m = true ->
     _parse_task_line line
     = (Some (id_text q), status_of_marker (String (box q) ""), star q, descr q)
     /\ forall p, exists h,
          length h = length (p_store p) /\
          p_store (pass1_step p line)
          = h ++ [new_task (id_text q) (descr q)
                    (status_of_marker (String (box q) "")) (star q)] /\
          p_current_task (pass1_step p line) = Some (length h) /\
          p_errors (pass1_step p line) = p_errors p) /\
  (marker q = None ->
     _parse_task_line line = (None, NOT_STARTED, false, "")
     /\ forall p,
          p_store (pass1_step p line) = p_store p /\
          p_tasks (pass1_step p line) = p_tasks p /\
          p_current_task (pass1_step p line) = p_current_task p /\
          p_errors (pass1_step p line) = p_errors p).
Proof.
  intros Hwf Hi Ht line. split.
  - intros m Hm Hcls. split.
    + apply (parse_marked_line q m); assumption.
    + intros p. apply (marked_line_opens_task q m); assumption.
  - intros Hm.
    pose proof (unmarked_text_head q indent trailing Hwf Hm Hi) as Hhead.
    split.
    + apply line_without_marker_is_no_task, Hhead.
    + intros p. apply unmarked_line_opens_nothing, Hhead.
Qed.

Lemma task_line_requires_marker_witness :
  _parse_task_line ("  " +:+ text Samples.parts_full +:+ " ")
  = (Some "2.10.3", COMPLETED, true, "Wire the parser") /\
  _parse_task_line ("" +:+ text Samples.parts_dash +:+ "")
  = (Some "1", NOT_STARTED, false, "Set up the project") /\
  _parse_task_line ("" +:+ text Samples.parts_no_marker +:+ "")
  = (None, NOT_STARTED, false, "").
Proof.
  destruct (task_line_requires_marker Samples.parts_full "  " " "
              parts_full_well_formed eq_refl eq_refl) as [Hfull _].
  destruct (task_line_requires_marker Samples.parts_dash "" ""
              parts_dash_well_formed eq_refl eq_refl) as [Hdash _].
  destruct (task_line_requires_marker Samples.parts_no_marker "" ""
              parts_no_marker_well_formed eq_refl eq_refl) as [_ Hnone].
  split; [|split].
  - exact (proj1 (Hfull "*"%char eq_refl eq_refl)).
  - exact (proj1 (Hdash "-"%char eq_refl eq_refl)).
  - exact (proj1 (Hnone eq_refl)).
Defined.

End TaskLines.

(** ** Removal of duplicates *)

Section Fromkeys.
Import Py.

Lemma fromkeys_from_ext s1 s2 l :
  (forall x, x ∈ s1 <-> x ∈ s2) -> fromkeys_from s1 l = fromkeys_from s2 l.
Proof.
  revert s1 s2. induction l as [|a l IH]; intros s1 s2 Hs; [reflexivity|].
  simpl. rewrite (bool_decide_ext _ _ (Hs a)).
  destruct (bool_decide (a ∈ s2)); [apply IH, Hs|].
  f_equal. apply IH. intros x. rewrite !elem_of_cons, Hs. reflexivity.
Qed.

Lemma fromkeys_from_app s a b :
  fromkeys_from s (a ++ b) = fromkeys_from s a ++ fromkeys_from (a ++ s) b.
Proof.
  revert s. induction a as [|x a IH]; intros s; [reflexivity|].
  simpl. destruct (bool_decide (x ∈ s)) eqn:E.
  - rewrite IH. f_equal. apply fromkeys_from_ext. intros y.
    apply bool_decide_eq_true in E.
    change ((x :: a) ++ s) with (x :: (a ++ s)). rewrite elem_of_cons.
    split; [auto|]. intros [-> | ?]; [|assumption].
    apply elem_of_app. right. exact E.
  - simpl. rewrite IH. do 2 f_equal. apply fromkeys_from_ext. intros y.
    change ((x :: a) ++ s) with (x :: (a ++ s)).
    rewrite elem_of_app, !elem_of_cons, elem_of_app. tauto.
Qed.

Lemma elem_of_fromkeys_from s l x :
  x ∈ fromkeys_from s l <-> x ∈ l /\ x ∉ s.
Proof.
  revert s. induction l as [|a l IH]; intros s; simpl.
  - rewrite elem_of_nil. tauto.
  - destruct (bool_decide (a ∈ s)) eqn:E.
    + apply bool_decide_eq_true in E. rewrite IH, elem_of_cons.
      split; [tauto|]. intros [[-> | ?] ?]; tauto.
    + apply bool_decide_eq_false in E. rewrite !elem_of_cons, IH, elem_of_cons.
      split.
      * intros [-> | [? ?]]; tauto.
      * intros [[-> | ?] ?]; [tauto|].
        destruct (decide (x = a)); [tauto|]. right. tauto.
Qed.

(** Removing duplicates again with more ids seen. *)
Lemma fromkeys_from_absorb s1 s2 l :
  (forall x, x ∈ s1 -> x ∈ s2) ->
  fromkeys_from s2 (fromkeys_from s1 l) = fromkeys_from s2 l.
Proof.
  revert s1 s2. induction l as [|a l IH]; intros s1 s2 Hs; [reflexivity|].
  simpl. destruct (bool_decide (a ∈ s1)) eqn:E1.
  - apply bool_decide_eq_true in E1.
    rewrite (bool_decide_eq_true_2 _ (Hs a E1)). apply IH, Hs.
  - simpl. destruct (bool_decide (a ∈ s2)) eqn:E2.
    + apply IH. intros x. rewrite elem_of_cons. intros [-> | ?]; auto.
      apply bool_decide_eq_true in E2. exact E2.
    + f_equal. apply IH. intros x. rewrite !elem_of_cons. intros [-> | ?]; auto.
Qed.

Lemma fromkeys_idem l : fromkeys (fromkeys l) = fromkeys l.
Proof. apply fromkeys_from_absorb. auto. Qed.

Lemma fromkeys_app_r a b : fromkeys (a ++ fromkeys b) = fromkeys (a ++ b).
Proof.
  unfold fromkeys. rewrite !fromkeys_from_app. f_equal.
  apply fromkeys_from_absorb. intros x. rewrite elem_of_nil. tauto.
Qed.

Lemma fromkeys_from_id s l :
  NoDup l -> (forall x, x ∈ l -> x ∉ s) -> fromkeys_from s l = l.
Proof.
  revert s. induction l as [|a l IH]; intros s Hnd Hs; [reflexivity|].
  apply NoDup_cons in Hnd as [Ha Hnd]. simpl.
  rewrite bool_decide_eq_false_2 by (apply Hs; left).
  f_equal. apply IH; [exact Hnd|]. intros x Hx. rewrite elem_of_cons.
  intros [-> | ?]; [tauto|]. apply (Hs x); [right; exact Hx | assumption].
Qed.

Lemma fromkeys_id l : NoDup l -> fromkeys l = l.
Proof. intros. apply fromkeys_from_id; [assumption|]. intros x _. apply not_elem_of_nil. Qed.

Lemma fromkeys_from_NoDup s l : NoDup (fromkeys_from s l).
Proof.
  revert s. induction l as [|a l IH]; intros s; simpl; [constructor|].
  destruct (bool_decide (a ∈ s)); [apply IH|].
  apply NoDup_cons. split; [|apply IH].
  rewrite elem_of_fromkeys_from, elem_of_cons. tauto.
Qed.

Lemma fromkeys_app_l a b : fromkeys (fromkeys a ++ b) = fromkeys (a ++ b).
Proof.
  unfold fromkeys. rewrite !fromkeys_from_app.
  rewrite (fromkeys_from_absorb [] [] a) by auto. f_equal.
  apply fromkeys_from_ext. intros x.
  rewrite !elem_of_app, elem_of_fromkeys_from, !elem_of_nil. tauto.
Qed.

Lemma fromkeys_congr a a' b b' :
  fromkeys a = fromkeys a' -> fromkeys b = fromkeys b' ->
  fromkeys (a ++ b) = fromkeys (a' ++ b').
Proof.
  intros Ha Hb.
  rewrite <- (fromkeys_app_l a), <- (fromkeys_app_r _ b), Ha, Hb.
  rewrite fromkeys_app_r, fromkeys_app_l. reflexivity.
Qed.

Lemma fromkeys_concat_congr rs ls :
  Forall2 (fun r l => fromkeys r = fromkeys l) rs ls ->
  fromkeys (concat rs) = fromkeys (concat ls).
Proof.
  induction 1; [reflexivity|]. simpl. apply fromkeys_congr; assumption.
Qed.

(** [fromkeys] against the wording of the specification. *)
Lemma fromkeys_from_order s l : forall i j x y,
  i < j -> fromkeys_from s l !! i = Some x -> fromkeys_from s l !! j = Some y ->
  exists k, l !! k = Some x /\ forall k', l !! k' = Some y -> k < k'.
Proof.
  revert s. induction l as [|a l IH]; intros s i j x y Hij Hx Hy.
  { simpl in Hx. rewrite lookup_nil in Hx. discriminate. }
  simpl in Hx, Hy. destruct (bool_decide (a ∈ s)) eqn:Ha.
  - (* [a] was seen before: it is skipped *)
    apply bool_decide_eq_true in Ha.
    destruct (IH s i j x y Hij Hx Hy) as (k & Hk & Hfirst).
    exists (S k). split; [exact Hk|]. intros [|k'] Hk'.
    + simpl in Hk'. injection Hk' as ->. exfalso.
      apply list_elem_of_lookup_2, elem_of_fromkeys_from in Hy as [_ Hy]. contradiction.
    + apply Hfirst in Hk'. lia.
  - (* [a] is new: it is the next id of the result *)
    apply bool_decide_eq_false in Ha. destruct j as [|j]; [lia|].
    simpl in Hy.
    assert (y <> a) as Hya.
    { apply list_elem_of_lookup_2, elem_of_fromkeys_from in Hy as [_ Hy].
      intros ->. apply Hy. left. }
    destruct i as [|i].
    + simpl in Hx. injection Hx as <-. exists 0. split; [reflexivity|].
      intros [|k'] Hk'; [|lia]. simpl in Hk'. injection Hk' as ->. contradiction.
    + simpl in Hx. destruct (IH (a :: s) i j x y ltac:(lia) Hx Hy) as (k & Hk & Hfirst).
      exists (S k). split; [exact Hk|]. intros [|k'] Hk'.
      * simpl in Hk'. injection Hk' as ->. contradiction.
      * apply Hfirst in Hk'. lia.
Qed.

Lemma fromkeys_first_seen l : Flatten.first_seen l (fromkeys l).
Proof.
  split; [apply fromkeys_from_NoDup|]. split.
  - intros x. unfold fromkeys. rewrite elem_of_fromkeys_from, elem_of_nil. tauto.
  - apply fromkeys_from_order.
Qed.

(** The wording leaves no choice: a list has one list of its first
    occurrences. *)
Lemma first_seen_unique l r r' :
  Flatten.first_seen l r -> Flatten.first_seen l r' -> r = r'.
Proof.
  intros (Hnd & Hmem & Hord) (Hnd' & Hmem' & Hord').
  assert (forall x, x ∈ r <-> x ∈ r') as Hsame by (intros x; rewrite Hmem, Hmem'; tauto).
  clear Hmem Hmem'. revert r' Hnd' Hord' Hsame.
  induction r as [|x r IH]; intros r' Hnd' Hord' Hsame.
  { destruct r' as [|x' r']; [reflexivity|]. exfalso.
    apply (not_elem_of_nil x'), Hsame. left. }
  destruct r' as [|x' r'].
  { exfalso. apply (not_elem_of_nil x), Hsame. left. }
  apply NoDup_cons in Hnd as [Hx Hnd]. apply NoDup_cons in Hnd' as [Hx' Hnd'].
  assert (x = x') as <-.
  { destruct (decide (x = x')) as [|Hne]; [assumption|]. exfalso.
    assert (x' ∈ r) as [j Hj]%list_elem_of_lookup_1.
    { assert (x' ∈ x :: r) as Hin by (apply Hsame; left).
      apply elem_of_cons in Hin as [-> | Hin]; [contradiction | exact Hin]. }
    assert (x ∈ r') as [j' Hj']%list_elem_of_lookup_1.
    { assert (x ∈ x' :: r') as Hin by (apply Hsame; left).
      apply elem_of_cons in Hin as [-> | Hin]; [contradiction | exact Hin]. }
    destruct (Hord 0 (S j) x x' ltac:(lia) eq_refl Hj) as (k & Hk & Hfirst).
    destruct (Hord' 0 (S j') x' x ltac:(lia) eq_refl Hj') as (k' & Hk' & Hfirst').
    specialize (Hfirst k' Hk'). specialize (Hfirst' k Hk). lia. }
  f_equal. apply IH.
  - exact Hnd.
  - intros i j y z Hij Hy Hz. apply (Hord (S i) (S j) y z); [lia|exact Hy|exact Hz].
  - exact Hnd'.
  - intros i j y z Hij Hy Hz. apply (Hord' (S i) (S j) y z); [lia|exact Hy|exact Hz].
  - intros y. split; intros Hy.
    + assert (y ∈ x :: r') as Hin by (apply Hsame; right; exact Hy).
      apply elem_of_cons in Hin as [-> | Hin]; [contradiction | exact Hin].
    + assert (y ∈ x :: r) as Hin by (apply Hsame; right; exact Hy).
      apply elem_of_cons in Hin as [-> | Hin]; [contradiction | exact Hin].
Qed.

End Fromkeys.

(** ** Dependency expansion *)

Section Expand.
Import Py SpecParser Flatten.
Context {T : Type} `{HasSubtasks T}.
Variable m : gmap string T.

(** What one dependency id contributes at the top of a call that may still
    nest [d] calls. *)
Local Abbreviation body d :=
  (fun dep_id : string =>
     match m !! dep_id with
     | Some dep_task =>
         match subtasks_of dep_task with
         | [] => Some [dep_id]
         | s :: l =>
             for_extend (fun sid => expand_dependencies d [sid] m) (s :: l) []
         end
     | None => Some [dep_id]
     end).

Lemma expand_S d deps :
  expand_dependencies (S d) deps m = fromkeys <$> for_extend (body d) deps [].
Proof. reflexivity. Qed.

Lemma for_extend_mapM (f : string -> option (list string)) l acc :
  for_extend f l acc = (fun rs => acc ++ concat rs) <$> mapM f l.
Proof.
  revert acc. induction l as [|x l IH]; intros acc; simpl.
  - rewrite app_nil_r. reflexivity.
  - destruct (f x) as [r|]; [|reflexivity]. simpl. rewrite IH.
    destruct (mapM f l); simpl; [|reflexivity]. rewrite app_assoc. reflexivity.
Qed.

Lemma for_extend_Some (f : string -> option (list string)) l e :
  for_extend f l [] = Some e <->
  exists rs, Forall2 (fun x r => f x = Some r) l rs /\ e = concat rs.
Proof.
  rewrite for_extend_mapM. split.
  - intros (rs & Hrs & ->)%fmap_Some. exists rs. split; [|reflexivity].
    apply mapM_Some, Hrs.
  - intros (rs & Hrs & ->). apply mapM_Some in Hrs. rewrite Hrs. reflexivity.
Qed.

Lemma for_extend_single (f : string -> option (list string)) x :
  for_extend f [x] [] = f x.
Proof. simpl. destruct (f x); reflexivity. Qed.

Lemma expand_single d id :
  expand_dependencies (S d) [id] m = fromkeys <$> body d id.
Proof. rewrite expand_S, for_extend_single. reflexivity. Qed.

Lemma body_leaf d id : is_parent m id = false -> body d id = Some [id].
Proof.
  unfold is_parent. cbv beta. destruct (m !! id) as [t|]; [|reflexivity].
  destruct (subtasks_of t); [reflexivity | discriminate].
Qed.

Lemma body_parent d id t :
  m !! id = Some t -> subtasks_of t <> [] ->
  body d id = for_extend (fun sid => expand_dependencies d [sid] m)
                         (subtasks_of t) [].
Proof.
  intros Hm Hne. cbv beta. rewrite Hm.
  destruct (subtasks_of t); [contradiction | reflexivity].
Qed.

(** A deeper allowance does not change a result. *)
Lemma for_extend_mono (f g : string -> option (list string)) l acc e :
  (forall x r, f x = Some r -> g x = Some r) ->
  for_extend f l acc = Some e -> for_extend g l acc = Some e.
Proof.
  intros Hfg. revert acc. induction l as [|x l IH]; intros acc; simpl; [auto|].
  destruct (f x) as [r|] eqn:E; [|discriminate].
  rewrite (Hfg _ _ E). apply IH.
Qed.

Lemma expand_mono_S d : forall deps r,
  expand_dependencies d deps m = Some r ->
  expand_dependencies (S d) deps m = Some r.
Proof.
  induction d as [|d IH]; intros deps r; [discriminate|].
  rewrite !expand_S. intros (e & He & ->)%fmap_Some.
  rewrite (for_extend_mono (body d) (body (S d)) deps [] e); [reflexivity | | exact He].
  intros x q. cbv beta. destruct (m !! x) as [t|]; [|auto].
  destruct (subtasks_of t); [auto|].
  apply for_extend_mono. intros sid. apply IH.
Qed.

Lemma expand_mono d d' deps r :
  d <= d' -> expand_dependencies d deps m = Some r ->
  expand_dependencies d' deps m = Some r.
Proof. induction 1; [auto|]. intros. apply expand_mono_S. auto. Qed.

Lemma leaves_all_concat ids ls :
  Forall2 (leaves m) ids ls -> leaves_all m ids (concat ls).
Proof. induction 1; simpl; constructor; assumption. Qed.

(** Where the flattening exists, a call that may nest deeply enough returns
    it without its duplicates. *)
Lemma expand_complete deps l :
  leaves_all m deps l ->
  exists d0, forall d, d0 <= d ->
    expand_dependencies d deps m = Some (fromkeys l).
Proof.
  intros Hl.
  enough (exists d0, forall d, d0 <= d ->
            exists e, for_extend (body d) deps [] = Some e
                      /\ fromkeys e = fromkeys l) as [d0 Hd0].
  { exists (S d0). intros [|d] Hd; [lia|].
    destruct (Hd0 d) as (e & He & Heq); [lia|].
    rewrite expand_S, He. simpl. rewrite Heq. reflexivity. }
  revert deps l Hl.
  apply (leaves_all_mut T _ m
    (fun id l => exists d0, forall d, d0 <= d ->
       exists e, body d id = Some e /\ fromkeys e = fromkeys l)
    (fun ids l => exists d0, forall d, d0 <= d ->
       exists e, for_extend (body d) ids [] = Some e /\ fromkeys e = fromkeys l)).
  - intros id Hleaf. exists 0. intros d _. exists [id].
    split; [apply body_leaf, Hleaf | reflexivity].
  - intros id t l Hm Hne _ [d0 IH]. exists (S d0). intros [|d] Hd; [lia|].
    destruct (IH d) as (e & He & Heq); [lia|].
    apply for_extend_Some in He as (rs & Hrs & ->).
    exists (concat (fromkeys <$> rs)). split.
    + rewrite (body_parent _ _ _ Hm Hne). apply for_extend_Some.
      exists (fromkeys <$> rs). split; [|reflexivity].
      apply Forall2_fmap_r. eapply Forall2_impl; [exact Hrs|].
      intros x r Hx. cbv beta in Hx. rewrite expand_single.
      cbv beta. rewrite Hx. reflexivity.
    + rewrite <- Heq. apply fromkeys_concat_congr.
      apply Forall2_fmap_l. apply Forall_Forall2_diag, Forall_forall.
      intros r _. apply fromkeys_idem.
  - exists 0. intros d _. exists []. split; reflexivity.
  - intros id ids l ls _ [d1 IH1] _ [d2 IH2]. exists (Nat.max d1 d2).
    intros d Hd.
    destruct (IH1 d) as (e1 & He1 & Heq1); [lia|].
    destruct (IH2 d) as (e2 & He2 & Heq2); [lia|].
    exists (e1 ++ e2). split; [|apply fromkeys_congr; assumption].
    rewrite for_extend_mapM in He2 |- *. cbn [mapM]. cbv beta in He1. rewrite He1.
    apply fmap_Some in He2 as (rs & -> & ->). reflexivity.
Qed.

(** What a call returns is the flattening without its duplicates. *)
Lemma expand_sound d : forall deps r,
  expand_dependencies d deps m = Some r ->
  exists l, leaves_all m deps l /\ r = fromkeys l.
Proof.
  induction d as [|d IH]; intros deps r; [discriminate|].
  rewrite expand_S. intros (e & He & ->)%fmap_Some.
  apply for_extend_Some in He as (rs & Hrs & ->).
  assert (exists ls, Forall2 (leaves m) deps ls /\
                     Forall2 (fun r l => fromkeys r = fromkeys l) rs ls)
    as (ls & Hls & Heq).
  { clear -Hrs IH. induction Hrs as [|x q deps rs Hx _ (ls & Hls & Heq)].
    - exists []. split; constructor.
    - enough (exists l, leaves m x l /\ fromkeys q = fromkeys l) as (l & Hl & Hq).
      { exists (l :: ls). split; constructor; assumption. }
      cbv beta in Hx. destruct (m !! x) as [t|] eqn:Hm.
      + destruct (subtasks_of t) as [|s subs] eqn:Hsubs.
        * injection Hx as <-. exists [x]. split; [|reflexivity].
          apply leaves_self. unfold is_parent. rewrite Hm, Hsubs. reflexivity.
        * apply for_extend_Some in Hx as (qs & Hqs & ->).
          assert (exists ls', Forall2 (leaves m) (s :: subs) ls' /\
                    Forall2 (fun r l => fromkeys r = fromkeys l) qs ls')
            as (ls' & Hls' & Heq').
          { clear -Hqs IH. induction Hqs as [|sid q ids qs Hsid _ (ls' & H1 & H2)].
            - exists []. split; constructor.
            - apply IH in Hsid as (l & Hl & ->).
              inversion Hl as [|? ? l1 l2 Hl1 Hl2]; subst.
              inversion Hl2; subst. rewrite app_nil_r.
              exists (l1 :: ls'). split; constructor; try assumption.
              apply fromkeys_idem. }
          exists (concat ls'). split; [|apply fromkeys_concat_congr, Heq'].
          apply (leaves_parent m x t); [exact Hm | rewrite Hsubs; discriminate |].
          rewrite Hsubs. apply leaves_all_concat, Hls'.
      + injection Hx as <-. exists [x]. split; [|reflexivity].
        apply leaves_self. unfold is_parent. rewrite Hm. reflexivity. }
  exists (concat ls). split; [apply leaves_all_concat, Hls|].
  apply fromkeys_concat_congr, Heq.
Qed.

(** Ids that name no task with subtasks pass through. *)
Lemma expand_leaves_only d deps :
  NoDup deps -> (forall x, x ∈ deps -> is_parent m x = false) ->
  expand_dependencies (S d) deps m = Some deps.
Proof.
  intros Hnd Hleaf. rewrite expand_S.
  assert (for_extend (body d) deps [] = Some deps) as ->.
  { apply for_extend_Some. exists ((fun x => [x]) <$> deps). split.
    - apply Forall2_fmap_r, Forall_Forall2_diag, Forall_forall.
      intros x Hx. apply body_leaf, Hleaf, Hx.
    - clear. induction deps as [|x l IH]; [reflexivity|]. simpl. f_equal. exact IH. }
  simpl. rewrite fromkeys_id by exact Hnd. reflexivity.
Qed.

(** Ids that name no task with subtasks are taken as they are, once each. *)
Lemma expand_leaves_fromkeys d deps :
  (forall x, x ∈ deps -> is_parent m x = false) ->
  expand_dependencies (S d) deps m = Some (fromkeys deps).
Proof.
  intros Hleaf. rewrite expand_S.
  assert (for_extend (body d) deps [] = Some deps) as ->.
  { apply for_extend_Some. exists ((fun x => [x]) <$> deps). split.
    - apply Forall2_fmap_r, Forall_Forall2_diag, Forall_forall.
      intros x Hx. apply body_leaf, Hleaf, Hx.
    - clear. induction deps as [|x l IH]; [reflexivity|]. simpl. f_equal. exact IH. }
  reflexivity.
Qed.

Lemma expand_leaf d id :
  is_parent m id = false -> expand_dependencies (S d) [id] m = Some [id].
Proof.
  intros Hid. apply expand_leaves_only.
  - apply NoDup_singleton.
  - intros x ->%list_elem_of_singleton. exact Hid.
Qed.

(** The example of the specification: [p] has the subtasks [a] and [b], and
    [b] has the subtasks [b1] and [b2]. *)
Lemma expand_nested p a b b1 b2 tp tb d :
  m !! p = Some tp -> subtasks_of tp = [a; b] ->
  m !! b = Some tb -> subtasks_of tb = [b1; b2] ->
  is_parent m a = false -> is_parent m b1 = false -> is_parent m b2 = false ->
  NoDup [a; b1; b2] -> 3 <= d ->
  expand_dependencies d [p] m = Some [a; b1; b2].
Proof.
  intros Hp Hsp Hb Hsb Ha Hb1 Hb2 Hnd Hd.
  apply (expand_mono 3 d); [exact Hd|].
  rewrite expand_single, (body_parent _ _ _ Hp) by (rewrite Hsp; discriminate).
  rewrite Hsp. cbn [for_extend]. rewrite (expand_leaf 1 a Ha).
  rewrite expand_single, (body_parent _ _ _ Hb) by (rewrite Hsb; discriminate).
  rewrite Hsb. cbn [for_extend]. rewrite (expand_leaf 0 b1 Hb1), (expand_leaf 0 b2 Hb2).
  cbn [fmap option_fmap option_map app].
  assert (NoDup [b1; b2]) as Hnd' by (apply NoDup_cons in Hnd; tauto).
  rewrite (fromkeys_id [b1; b2] Hnd'). cbn [app].
  rewrite (fromkeys_id _ Hnd). reflexivity.
Qed.

End Expand.

Section ExpandClaim.
Import Py Flatten.

Lemma sequential_expand_same {T : Type} `{HasSubtasks T} d deps (m : gmap string T) :
  SeqSpecParser.expand_dependencies d deps m
  = SpecParser.expand_dependencies d deps m.
Proof. reflexivity. Qed.

(** C8.  For every task map and dependency list, [expand_dependencies] (the
    same function in both parsers) replaces each id that names a task with
    subtasks by the flattened list of the leaf descendants of that task,
    passes every other id through, and removes duplicates keeping the first
    occurrences in their order ([first_seen], worded without the function
    that the code calls).  Where the flattening [l] exists, every call that
    may nest deeply enough returns the first occurrences of [l]; and what a
    call returns is the list of the first occurrences of every flattening
    of the dependencies, of which there is one.  A list of ids that name no
    task with subtasks comes back with its duplicates removed, unchanged
    when it has none, and a dependency on a parent with the subtasks [a] and
    [b], where [b] has the subtasks [b1] and [b2], expands to exactly
    [a; b1; b2]. *)
Theorem expand_dependencies_flattens {T : Type} `{HasSubtasks T}
    (task_map : gmap string T) (dependencies : list string) :
  (forall l, leaves_all task_map dependencies l ->
     exists d0, forall d, d0 <= d ->
       exists r, SpecParser.expand_dependencies d dependencies task_map = Some r /\
                 first_seen l r) /\
  (forall d r,
     SpecParser.expand_dependencies d dependencies task_map = Some r ->
     (exists l, leaves_all task_map dependencies l) /\
     forall l, leaves_all task_map dependencies l -> first_seen l r) /\
  ((forall x, x ∈ dependencies -> is_parent task_map x = false) ->
   forall d, exists r,
     SpecParser.expand_dependencies (S d) dependencies task_map = Some r /\
     first_seen dependencies r /\
     (NoDup dependencies -> r = dependencies)) /\
  (forall p a b b1 b2 tp tb,
     dependencies = [p] ->
     task_map !! p = Some tp -> subtasks_of tp = [a; b] ->
     task_map !! b = Some tb -> subtasks_of tb = [b1; b2] ->
     is_parent task_map a = false -> is_parent task_map b1 = false ->
     is_parent task_map b2 = false -> NoDup [a; b1; b2] ->
     forall d, 3 <= d ->
       SpecParser.expand_dependencies d dependencies task_map = Some [a; b1; b2]) /\
  (forall d, SeqSpecParser.expand_dependencies d dependencies task_map
             = SpecParser.expand_dependencies d dependencies task_map).
Proof.
  split; [|split; [|split; [|split]]].
  - intros l Hl. destruct (expand_complete task_map dependencies l Hl) as [d0 Hd0].
    exists d0. intros d Hd. exists (fromkeys l). split; [exact (Hd0 d Hd)|].
    apply fromkeys_first_seen.
  - intros d r Hr.
    destruct (expand_sound task_map d dependencies r Hr) as (l0 & Hl0 & _).
    split; [exists l0; exact Hl0|]. intros l Hl.
    (* a deeper call returns the same list, and it returns [fromkeys l] *)
    destruct (expand_complete task_map dependencies l Hl) as [d0 Hd0].
    pose proof (expand_mono task_map d (Nat.max d d0) dependencies r
                  (Nat.le_max_l d d0) Hr) as Hdeep.
    rewrite (Hd0 (Nat.max d d0) (Nat.le_max_r d d0)) in Hdeep.
    injection Hdeep as <-. apply fromkeys_first_seen.
  - intros Hleaf d. exists (fromkeys dependencies).
    split; [apply expand_leaves_fromkeys, Hleaf|].
    split; [apply fromkeys_first_seen | apply fromkeys_id].
  - intros p a b b1 b2 tp tb -> Hp Hsp Hb Hsb Ha Hb1 Hb2 Hnd d Hd.
    apply (expand_nested task_map p a b b1 b2 tp tb); assumption.
  - intros d. apply sequential_expand_same.
Qed.

(** The nested parent of the specification; a list of leaf ids; and two
    lists in which ids come up more than once: a parent after one of its
    subtasks, and leaf ids that are repeated. *)
Lemma expand_dependencies_flattens_witness :
  SeqSpecParser.expand_dependencies 3 ["p"] Samples.nested_map
  = Some ["a"; "b1"; "b2"] /\
  SpecParser.expand_dependencies 1 ["a"; "x"; "b1"] Samples.nested_map
  = Some ["a"; "x"; "b1"] /\
  SpecParser.expand_dependencies 3 ["b"; "p"; "a"; "b1"] Samples.nested_map
  = Some ["b1"; "b2"; "a"] /\
  leaves_all Samples.nested_map ["b"; "p"; "a"; "b1"]
    ["b1"; "b2"; "a"; "b1"; "b2"; "a"; "b1"] /\
  first_seen ["b1"; "b2"; "a"; "b1"; "b2"; "a"; "b1"] ["b1"; "b2"; "a"] /\
  SpecParser.expand_dependencies 1 ["x"; "a"; "x"; "a"] Samples.nested_map
  = Some ["x"; "a"] /\
  first_seen ["x"; "a"; "x"; "a"] ["x"; "a"].
Proof.
  destruct (expand_dependencies_flattens Samples.nested_map ["p"])
    as (_ & _ & _ & Hnested & Hseq).
  destruct (expand_dependencies_flattens Samples.nested_map ["a"; "x"; "b1"])
    as (_ & _ & Hleaves & _).
  destruct (expand_dependencies_flattens Samples.nested_map ["b"; "p"; "a"; "b1"])
    as (_ & Hreturned & _).
  destruct (expand_dependencies_flattens Samples.nested_map ["x"; "a"; "x"; "a"])
    as (_ & _ & Hrepeated & _).
  assert (forall id, id ∈ ["a"; "x"; "b1"; "b2"] ->
                     leaves Samples.nested_map id [id]) as Hleaf.
  { intros id Hid. apply leaves_self. apply list_elem_of_In in Hid. simpl in Hid.
    destruct Hid as [<- | [<- | [<- | [<- | []]]]]; reflexivity. }
  assert (leaves Samples.nested_map "b" ["b1"; "b2"]) as Hb.
  { apply (leaves_parent _ "b" (Samples.seq_task "b" ["b1"; "b2"]));
      [reflexivity | discriminate |].
    apply (leaves_cons _ "b1" ["b2"] ["b1"] ["b2"]);
      [apply Hleaf; repeat constructor|].
    apply (leaves_cons _ "b2" [] ["b2"] []); [apply Hleaf; repeat constructor | constructor]. }
  assert (leaves Samples.nested_map "p" ["a"; "b1"; "b2"]) as Hp.
  { apply (leaves_parent _ "p" (Samples.seq_task "p" ["a"; "b"]));
      [reflexivity | discriminate |].
    apply (leaves_cons _ "a" ["b"] ["a"] ["b1"; "b2"]); [apply Hleaf; repeat constructor|].
    apply (leaves_cons _ "b" [] ["b1"; "b2"] []); [exact Hb | constructor]. }
  assert (leaves_all Samples.nested_map ["b"; "p"; "a"; "b1"]
            ["b1"; "b2"; "a"; "b1"; "b2"; "a"; "b1"]) as Hall.
  { apply (leaves_cons _ "b" ["p"; "a"; "b1"] ["b1"; "b2"] ["a"; "b1"; "b2"; "a"; "b1"]);
      [exact Hb|].
    apply (leaves_cons _ "p" ["a"; "b1"] ["a"; "b1"; "b2"] ["a"; "b1"]); [exact Hp|].
    apply (leaves_cons _ "a" ["b1"] ["a"] ["b1"]); [apply Hleaf; repeat constructor|].
    apply (leaves_cons _ "b1" [] ["b1"] []); [apply Hleaf; repeat constructor | constructor]. }
  split; [|split; [|split; [|split; [|split]]]].
  - rewrite Hseq.
    apply (Hnested "p" "a" "b" "b1" "b2" (Samples.seq_task "p" ["a"; "b"])
                   (Samples.seq_task "b" ["b1"; "b2"]));
      try reflexivity.
    repeat (apply NoDup_cons; split;
              [rewrite ?elem_of_cons, elem_of_nil; intuition discriminate|]).
      apply NoDup_nil_2.
  - assert (forall x, x ∈ ["a"; "x"; "b1"] ->
                      is_parent Samples.nested_map x = false) as Hnone.
    { intros x Hx. apply list_elem_of_In in Hx. simpl in Hx.
      destruct Hx as [<- | [<- | [<- | []]]]; reflexivity. }
    destruct (Hleaves Hnone 0) as (r & Hr & _ & Hsame).
    rewrite Hr. f_equal. apply Hsame.
    repeat (apply NoDup_cons; split;
              [rewrite ?elem_of_cons, elem_of_nil; intuition discriminate|]).
    apply NoDup_nil_2.
  - reflexivity.
  - exact Hall.
  - exact (proj2 (Hreturned 3 ["b1"; "b2"; "a"] eq_refl) _ Hall).
  - assert (forall x, x ∈ ["x"; "a"; "x"; "a"] ->
                      is_parent Samples.nested_map x = false) as Hnone.
    { intros x Hx. apply list_elem_of_In in Hx. simpl in Hx.
      destruct Hx as [<- | [<- | [<- | [<- | []]]]]; reflexivity. }
    destruct (Hrepeated Hnone 0) as (r & Hr & Hfirst & _).
    assert (r = ["x"; "a"]) as -> by (vm_compute in Hr; injection Hr as <-; reflexivity).
    split; [reflexivity | exact Hfirst].
Defined.

(** A task map whose subtask lists loop has no flattening, and no call of
    [expand_dependencies] on the looping id returns: the interpreter gives up
    with RecursionError at any limit. *)
Lemma expand_loop_never_returns d :
  SpecParser.expand_dependencies d ["p"] Samples.looping_map = None.
Proof.
  induction d as [|d IH]; [reflexivity|].
  rewrite expand_single, (body_parent _ _ "p" (Samples.seq_task "p" ["p"]));
    [|reflexivity|discriminate].
  change (subtasks_of (Samples.seq_task "p" ["p"])) with ["p"].
  rewrite for_extend_single, IH. reflexivity.
Qed.

End ExpandClaim.

(** ** Review consolidation *)

Section Consolidation.
Import State FixLoop ConsolidateReviews.
Variable clock : nat -> string.

(** The fix loop and the completion of a task leave the findings and the
    reports of the state alone. *)
Lemma block_dependent_tasks_frame depth w tid reason w' :
  block_dependent_tasks clock depth w tid reason = Some w' ->
  final_reports (agent_state w') = final_reports (agent_state w) /\
  review_findings (agent_state w') = review_findings (agent_state w).
Proof.
  unfold block_dependent_tasks.
  destruct (get_all_dependent_task_ids _ _ _); [|discriminate].
  intros [= <-]. split; reflexivity.
Qed.

Lemma enter_fix_loop_frame depth w tid fs :
  let w' := (enter_fix_loop clock depth w tid fs).1 in
  final_reports (agent_state w') = final_reports (agent_state w) /\
  review_findings (agent_state w') = review_findings (agent_state w).
Proof.
  cbv zeta. unfold enter_fix_loop.
  destruct (first_index _ _); [|split; reflexivity].
  destruct (block_dependent_tasks _ _ _ _ _) as [w2|] eqn:E; [|split; reflexivity].
  apply block_dependent_tasks_frame in E. exact E.
Qed.

Lemma update_task_to_completed_frame w tid :
  let w' := update_task_to_completed clock w tid in
  final_reports (agent_state w') = final_reports (agent_state w) /\
  review_findings (agent_state w') = review_findings (agent_state w).
Proof.
  cbv zeta. unfold update_task_to_completed.
  destruct (_ !! _); split; reflexivity.
Qed.

Lemma has_existing_final_report_app state state' tid d :
  get "task_id" d = Some (VStr tid) ->
  final_reports state' = final_reports state ++ [d] ->
  has_existing_final_report state' tid = true.
Proof.
  intros Hd Hs. unfold has_existing_final_report.
  rewrite Hs, existsb_app. simpl. rewrite (bool_decide_eq_true_2 _ Hd).
  apply orb_true_iff. right. reflexivity.
Qed.

(** The two reasons for which a call does nothing. *)
Local Abbreviation nothing_to_do w tid :=
  (has_existing_final_report (agent_state w) tid = true \/
   get_review_findings_for_task (agent_state w) tid = []).

Lemma consolidate_single_task_skips depth w tid auto_complete :
  nothing_to_do w tid ->
  consolidate_single_task clock depth w tid auto_complete = (Returned None, w).
Proof.
  unfold consolidate_single_task, consolidate_findings.
  destruct (has_existing_final_report _ _); [reflexivity|].
  intros [? | ->]; [discriminate | reflexivity].
Qed.

(** The reports of a task in a list of reports. *)
Local Abbreviation reports_of tid reports :=
  (filter (fun d : dict => get "task_id" d = Some (VStr tid)) reports).

Lemma has_existing_final_report_false state tid :
  has_existing_final_report state tid = false ->
  reports_of tid (final_reports state) = [].
Proof.
  unfold has_existing_final_report.
  induction (final_reports state) as [|d l IH]; [reflexivity|].
  simpl. intros [Hd Hl]%orb_false_iff. apply bool_decide_eq_false in Hd.
  rewrite filter_cons_False by exact Hd. auto.
Qed.

(** What one call of [consolidate_single_task] does to the reports: nothing,
    or it appends the record of the report that it built from the findings of
    the task, and then no report of the task existed before. *)
Lemma consolidate_single_task_reports depth w tid auto_complete :
  let '(o, w') := consolidate_single_task clock depth w tid auto_complete in
  review_findings (agent_state w') = review_findings (agent_state w) /\
  ((o = Returned None /\ w' = w /\ nothing_to_do w tid) \/
   (exists report,
      final_reports (agent_state w')
      = final_reports (agent_state w) ++ [to_dict report] /\
      has_existing_final_report (agent_state w) tid = false /\
      task_id report = tid /\
      findings report = get_review_findings_for_task (agent_state w) tid /\
      findings report <> [] /\
      finding_count report = length (findings report) /\
      (o = Returned (Some report) \/ o = Raised))).
Proof.
  unfold consolidate_single_task.
  destruct (has_existing_final_report (agent_state w) tid) eqn:Hex.
  { split; [reflexivity | left; repeat split; left; reflexivity]. }
  unfold consolidate_findings.
  destruct (get_review_findings_for_task (agent_state w) tid) as [|f fs] eqn:Hfs.
  { split; [reflexivity | left; repeat split; right; reflexivity]. }
  set (report := mkFinalReport _ _ _ _ _ _).
  set (w2 := mkWorld (add_final_report _ report) _).
  assert (final_reports (agent_state w2)
          = final_reports (agent_state w) ++ [to_dict report]) as Hw2
    by reflexivity.
  assert (review_findings (agent_state w2) = review_findings (agent_state w))
    as Hf2 by reflexivity.
  assert (forall o w',
    final_reports (agent_state w') = final_reports (agent_state w2) ->
    review_findings (agent_state w') = review_findings (agent_state w2) ->
    o = Returned (Some report) \/ o = Raised ->
    review_findings (agent_state w') = review_findings (agent_state w) /\
    ((o = Returned None /\ w' = w /\ (false = true \/ f :: fs = [])) \/
     (exists report,
        final_reports (agent_state w')
        = final_reports (agent_state w) ++ [to_dict report] /\
        false = false /\
        task_id report = tid /\
        findings report = f :: fs /\
        findings report <> [] /\
        finding_count report = length (findings report) /\
        (o = Returned (Some report) \/ o = Raised)))) as Hfinish.
  { intros o w' Hr Hf Ho. split; [congruence|]. right. exists report.
    repeat split; try reflexivity; try congruence. discriminate. }
  destruct (should_enter_fix_loop (overall_severity report)).
  - pose proof (enter_fix_loop_frame depth w2 tid (findings report)) as [Hr Hf].
    destruct (enter_fix_loop clock depth w2 tid (findings report)) as [w3 []];
      apply Hfinish; auto.
  - destruct auto_complete.
    + pose proof (update_task_to_completed_frame w2 tid) as [Hr Hf].
      apply Hfinish; auto.
    + apply Hfinish; auto.
Qed.

Lemma reports_of_app tid (l : list dict) report :
  reports_of tid (l ++ [to_dict report])
  = reports_of tid l ++ (if decide (task_id report = tid) then [to_dict report] else []).
Proof.
  rewrite filter_app. f_equal.
  destruct (decide (task_id report = tid)) as [<-|Hne].
  - rewrite filter_cons_True by reflexivity. reflexivity.
  - rewrite filter_cons_False; [reflexivity|]. simpl. congruence.
Qed.

(** C9.  Single-task consolidation is idempotent.  Whatever the first call of
    [consolidate_single_task] did (it returned, with or without a report, or
    an exception of the fix loop left it), a second call for the same task
    returns no report and leaves the state, and so the list of final
    reports, unchanged; and when no task id has more than one final report
    before the first call, none has more than one after it. *)
Theorem consolidate_single_task_idempotent
    (depth depth' : nat) (w : World) (tid : string) (auto_complete auto_complete' : bool) :
  let '(_, w1) := consolidate_single_task clock depth w tid auto_complete in
  consolidate_single_task clock depth' w1 tid auto_complete' = (Returned None, w1) /\
  ((forall t, length (reports_of t (final_reports (agent_state w))) <= 1) ->
   forall t, length (reports_of t (final_reports (agent_state w1))) <= 1).
Proof.
  pose proof (consolidate_single_task_reports depth w tid auto_complete) as Hfirst.
  destruct (consolidate_single_task clock depth w tid auto_complete) as [o w1].
  destruct Hfirst as [Hfind [(_ & -> & Hnothing) | (report & Hreports & Hex & Htid & _)]].
  - split; [apply consolidate_single_task_skips, Hnothing | auto].
  - split.
    + apply consolidate_single_task_skips. left.
      apply (has_existing_final_report_app (agent_state w) _ _ (to_dict report));
        [simpl; rewrite Htid; reflexivity | exact Hreports].
    + intros Hone t. rewrite Hreports, reports_of_app, length_app.
      destruct (decide (task_id report = t)) as [Ht|_]; simpl;
        [|specialize (Hone t); lia].
      rewrite <- Ht, Htid, (has_existing_final_report_false _ _ Hex). simpl. lia.
Qed.

(** C7, amended.  Every record that review consolidation appends to
    [final_reports] is [to_dict] of the report, and has exactly the fields
    task_id, overall_severity, summary, finding_count and created_at.  The
    findings are a field of the report object that [consolidate_single_task]
    returns, where they are the findings of the task in the state and
    finding_count is their number; they are not part of the record. *)
Theorem final_report_record_fields
    (depth : nat) (w : World) (tid : string) (auto_complete : bool) :
  (forall state report,
     final_reports (add_final_report state report)
     = final_reports state ++ [to_dict report]) /\
  (forall report,
     keys (to_dict report)
     = ["task_id"; "overall_severity"; "summary"; "finding_count"; "created_at"] /\
     get "task_id" (to_dict report) = Some (VStr (task_id report)) /\
     get "finding_count" (to_dict report)
     = Some (VInt (Z.of_nat (finding_count report))) /\
     get "findings" (to_dict report) = None) /\
  let '(o, w') := consolidate_single_task clock depth w tid auto_complete in
  final_reports (agent_state w') = final_reports (agent_state w) \/
  exists report,
    final_reports (agent_state w')
    = final_reports (agent_state w) ++ [to_dict report] /\
    (o = Returned (Some report) \/ o = Raised) /\
    task_id report = tid /\
    findings report = get_review_findings_for_task (agent_state w) tid /\
    finding_count report = length (findings report).
Proof.
  split; [intros; reflexivity|].
  split; [intros; repeat split; reflexivity|].
  pose proof (consolidate_single_task_reports depth w tid auto_complete) as Hcall.
  destruct (consolidate_single_task clock depth w tid auto_complete) as [o w'].
  destruct Hcall as [_ [(_ & -> & _) | (report & Hr & _ & Htid & Hfs & _ & Hn & Ho)]].
  - left. reflexivity.
  - right. exists report. repeat split; assumption.
Qed.

End Consolidation.

Section ConsolidationSamples.
Import State ConsolidateReviews Samples.

Lemma consolidate_single_task_idempotent_witness :
  let '(_, w1) := consolidate_single_task sample_clock 100 reviewed_world "1" true in
  consolidate_single_task sample_clock 7 w1 "1" false = (Returned None, w1) /\
  forall t, length (filter (fun d : dict => get "task_id" d = Some (VStr t))
                           (final_reports (agent_state w1))) <= 1.
Proof.
  generalize (consolidate_single_task_idempotent
                sample_clock 100 7 reviewed_world "1" true false).
  destruct (consolidate_single_task sample_clock 100 reviewed_world "1" true)
    as [o w1].
  intros [Hsecond Hone]. split; [exact Hsecond|].
  apply Hone. intros t. simpl. lia.
Defined.

(** The claim C7 as it is written does not hold: the record appended for the
    reviewed task of the sample has no field [findings]. *)
Lemma final_report_record_lacks_findings :
  ~ (forall (clock : nat -> string) depth w tid auto_complete (d : dict),
       final_reports
         (agent_state (consolidate_single_task clock depth w tid auto_complete).2)
       = final_reports (agent_state w) ++ [d] ->
       forall k, k ∈ ["task_id"; "overall_severity"; "summary"; "finding_count";
                      "findings"; "created_at"] ->
                 k ∈ keys d).
Proof.
  intros H.
  specialize (H sample_clock 100 reviewed_world "1" true _ eq_refl "findings").
  assert ("findings" ∈ ["task_id"; "overall_severity"; "summary"; "finding_count";
                        "findings"; "created_at"]) as Hin
    by (rewrite !elem_of_cons; tauto).
  apply H, list_elem_of_In in Hin. vm_compute in Hin.
  intuition discriminate.
Qed.

End ConsolidationSamples.

(** ** Conflict-free batches *)

Section Batches.
Import State DispatchBatch Safety.

(** No file is written by both tasks. *)
Local Abbreviation disjoint_writes a b :=
  (forall f : string, f ∈ writes a -> f ∉ writes b).

Lemma shared_writes_empty a b :
  (list_to_set (writes a) ∩ list_to_set (writes b) : gset string) = ∅ <->
  disjoint_writes a b.
Proof.
  split.
  - intros Hempty f Ha Hb.
    assert (f ∈ (list_to_set (writes a) ∩ list_to_set (writes b) : gset string)) as Hin.
    { apply elem_of_intersection. split; apply elem_of_list_to_set; assumption. }
    rewrite Hempty in Hin. apply not_elem_of_empty in Hin. exact Hin.
  - intros Hdis. apply gset_leibniz. intros f. split.
    + intros [Ha Hb]%elem_of_intersection.
      apply elem_of_list_to_set in Ha, Hb. destruct (Hdis f Ha Hb).
    + intros []%not_elem_of_empty.
Qed.

(** The pairs that [detect_file_conflicts] reports. *)
Local Abbreviation reported cs :=
  (map (fun c => (task_a c, task_b c)) cs).

Lemma conflicts_with_complete a rest b :
  b ∈ rest -> ~ disjoint_writes a b ->
  (task_id a, task_id b) ∈ reported (conflicts_with a rest).
Proof.
  intros Hb Hov. unfold conflicts_with.
  apply list_elem_of_fmap. eexists. split; [|apply list_elem_of_omap].
  2:{ exists b. split; [exact Hb|].
      rewrite bool_decide_eq_false_2; [reflexivity|].
      intros He. apply Hov, shared_writes_empty, He. }
  reflexivity.
Qed.

Lemma detect_complete ts : forall i j a b,
  i < j -> ts !! i = Some a -> ts !! j = Some b -> ~ disjoint_writes a b ->
  (task_id a, task_id b) ∈ reported (detect_file_conflicts ts).
Proof.
  induction ts as [|t ts IH]; intros i j a b Hij Ha Hb Hov; [discriminate|].
  simpl. rewrite map_app, elem_of_app.
  destruct j as [|j]; [lia|]. simpl in Hb.
  destruct i as [|i]; simpl in Ha.
  - injection Ha as ->. left. apply conflicts_with_complete; [|exact Hov].
    apply list_elem_of_lookup. eauto.
  - right. apply (IH i j); [lia | assumption..].
Qed.

(** The set [conflict_pairs] of [partition_by_conflicts]. *)
Local Abbreviation pairs_of cs :=
  ((list_to_set (map (fun c => (task_a c, task_b c)) cs)
    ∪ list_to_set (map (fun c => (task_b c, task_a c)) cs)) : gset (string * string)).

Lemma disjoint_writes_sym a b : disjoint_writes a b -> disjoint_writes b a.
Proof. intros H f Hb Ha. exact (H f Ha Hb). Qed.

(** Two tasks at different places of the list whose writes overlap are a
    conflict pair, in both orders. *)
Lemma conflict_pairs_complete ts i j a b :
  i <> j -> ts !! i = Some a -> ts !! j = Some b -> ~ disjoint_writes a b ->
  (task_id a, task_id b) ∈ pairs_of (detect_file_conflicts ts).
Proof.
  intros Hij Ha Hb Hov. apply elem_of_union.
  destruct (Nat.lt_total i j) as [Hlt | [-> | Hgt]]; [| contradiction |].
  - left. apply elem_of_list_to_set. apply (detect_complete ts i j); assumption.
  - right. apply elem_of_list_to_set.
    assert ((task_id b, task_id a) ∈ reported (detect_file_conflicts ts)) as Hin.
    { apply (detect_complete ts j i); try assumption.
      intros Hd. apply Hov, disjoint_writes_sym, Hd. }
    apply list_elem_of_fmap in Hin as (c & [= Hb' Ha'] & Hc).
    apply list_elem_of_fmap. exists c. split; [congruence | exact Hc].
Qed.

Lemma conflicts_in_batch_false cp tid (b : batch) t' :
  conflicts_in_batch cp tid b = false -> t' ∈ b -> (tid, task_id t') ∉ cp.
Proof.
  unfold conflicts_in_batch. intros Hnone Ht' Hin.
  assert (existsb (fun bid => bool_decide ((tid, bid) ∈ cp))
            (elements (list_to_set (map task_id b) : gset string)) = true) as Hex.
  { apply existsb_exists. exists (task_id t'). split.
    - apply list_elem_of_In, elem_of_elements, elem_of_list_to_set.
      apply list_elem_of_fmap. eauto.
    - apply bool_decide_eq_true, Hin. }
  congruence.
Qed.

Lemma place_Some cp t (bs bs' : list batch) :
  place cp t bs = Some bs' ->
  exists pre b post,
    bs = pre ++ b :: post /\ bs' = pre ++ (b ++ [t]) :: post /\
    conflicts_in_batch cp (task_id t) b = false.
Proof.
  revert bs'. induction bs as [|b bs IH]; intros bs'; [discriminate|]. simpl.
  destruct (conflicts_in_batch cp (task_id t) b) eqn:E; simpl.
  - intros (bs1 & Hbs1 & ->)%fmap_Some.
    destruct (IH _ Hbs1) as (pre & b0 & post & -> & -> & Hb0).
    exists (b :: pre), b0, post. repeat split; assumption.
  - intros [= <-]. exists [], b, bs. repeat split; assumption.
Qed.

Lemma pairwise_disjoint_snoc (b : batch) t :
  pairwise_disjoint b -> (forall t', t' ∈ b -> disjoint_writes t t') ->
  pairwise_disjoint (b ++ [t]).
Proof.
  intros Hb Ht i j t1 t2 Hij H1 H2.
  apply lookup_app_Some in H1 as [H1 | [Hi H1]];
    apply lookup_app_Some in H2 as [H2 | [Hj H2]].
  - apply (Hb i j); assumption.
  - apply list_lookup_singleton_Some in H2 as [_ <-].
    apply disjoint_writes_sym, Ht. apply list_elem_of_lookup. eauto.
  - apply list_lookup_singleton_Some in H1 as [_ <-].
    apply Ht. apply list_elem_of_lookup. eauto.
  - apply list_lookup_singleton_Some in H1 as [H1 _].
    apply list_lookup_singleton_Some in H2 as [H2 _]. lia.
Qed.

Lemma pairwise_disjoint_read_only (b ro : batch) :
  pairwise_disjoint b -> Forall (fun t => writes t = []) ro ->
  pairwise_disjoint (b ++ ro).
Proof.
  intros Hb Hro i j t1 t2 Hij H1 H2.
  rewrite Forall_forall in Hro.
  apply lookup_app_Some in H1 as [H1 | [Hi H1]];
    apply lookup_app_Some in H2 as [H2 | [Hj H2]].
  - apply (Hb i j); assumption.
  - intros f _. rewrite (Hro t2) by (apply list_elem_of_lookup; eauto).
    apply not_elem_of_nil.
  - intros f Hf. rewrite (Hro t1) in Hf by (apply list_elem_of_lookup; eauto).
    apply elem_of_nil in Hf. contradiction.
  - intros f _. rewrite (Hro t2) by (apply list_elem_of_lookup; eauto).
    apply not_elem_of_nil.
Qed.

Lemma disjoint_writes_dec a b : disjoint_writes a b \/ ~ disjoint_writes a b.
Proof.
  destruct (decide ((list_to_set (writes a) ∩ list_to_set (writes b) : gset string) = ∅))
    as [He|Hne].
  - left. apply shared_writes_empty, He.
  - right. intros Hd. apply Hne, shared_writes_empty, Hd.
Qed.

Lemma pairwise_disjoint_singleton t : pairwise_disjoint [t].
Proof.
  intros i j t1 t2 Hij H1 H2.
  apply list_lookup_singleton_Some in H1 as [-> _].
  apply list_lookup_singleton_Some in H2 as [-> _]. contradiction.
Qed.

(** The greedy loop over the tasks [ws]: what holds for the batches when the
    tasks [done] have been handled. *)
Local Abbreviation greedy_inv ws done batches :=
  (forall b : batch, b ∈ batches ->
     pairwise_disjoint b /\
     forall t, t ∈ b -> exists k, k < length done /\ ws !! k = Some t).

Lemma greedy_loop_safe cp ws :
  (forall i j a b, i <> j -> ws !! i = Some a -> ws !! j = Some b ->
                   ~ disjoint_writes a b -> (task_id a, task_id b) ∈ cp) ->
  forall todo done acc,
    ws = done ++ todo -> greedy_inv ws done acc.1 ->
    greedy_inv ws ws (foldl (greedy_step cp) acc todo).1.
Proof.
  intros Hcp. induction todo as [|t todo IH]; intros done acc Hws Hinv.
  { rewrite app_nil_r in Hws. subst done. exact Hinv. }
  simpl. apply (IH (done ++ [t])); [rewrite <- app_assoc; exact Hws|].
  assert (ws !! length done = Some t) as Ht.
  { rewrite Hws, lookup_app_r, Nat.sub_diag by lia. reflexivity. }
  assert (forall b : batch,
            (pairwise_disjoint b /\
             forall t', t' ∈ b -> exists k, k < length done /\ ws !! k = Some t') ->
            pairwise_disjoint b /\
            forall t', t' ∈ b -> exists k, k < length (done ++ [t]) /\ ws !! k = Some t')
    as Hmono.
  { intros b [Hb Hin]. split; [exact Hb|]. intros t' Ht'.
    destruct (Hin t' Ht') as (k & Hk & Hkt). exists k. rewrite length_app. simpl.
    split; [lia | exact Hkt]. }
  assert (pairwise_disjoint [t] /\
          forall t', t' ∈ [t] -> exists k, k < length (done ++ [t]) /\ ws !! k = Some t')
    as Hnew.
  { split; [apply pairwise_disjoint_singleton|].
    intros t' ->%list_elem_of_singleton. exists (length done).
    rewrite length_app. simpl. split; [lia | exact Ht]. }
  destruct acc as [batches assigned]. unfold greedy_step. simpl in Hinv.
  destruct (bool_decide (task_id t ∈ assigned)); [intros b Hb; apply Hmono, Hinv, Hb|].
  destruct (place cp t batches) as [batches'|] eqn:Hplace; simpl.
  - apply place_Some in Hplace as (pre & b0 & post & -> & -> & Hfree).
    intros b Hb. rewrite elem_of_app, elem_of_cons in Hb.
    destruct Hb as [Hb | [-> | Hb]].
    + apply Hmono, Hinv. rewrite elem_of_app. auto.
    + destruct (Hinv b0) as [Hb0 Hin0].
      { rewrite elem_of_app, elem_of_cons. auto. }
      split.
      * apply pairwise_disjoint_snoc; [exact Hb0|]. intros t' Ht'.
        destruct (disjoint_writes_dec t t') as [Hd|Hov]; [exact Hd|].
        destruct (Hin0 t' Ht') as (k & Hk & Hkt).
        destruct (conflicts_in_batch_false cp (task_id t) b0 t' Hfree Ht').
        apply (Hcp (length done) k); [lia | assumption..].
      * intros t' [Ht' | ->%list_elem_of_singleton]%elem_of_app.
        -- destruct (Hmono b0 (conj Hb0 Hin0)) as [_ Hin']. apply Hin', Ht'.
        -- apply (proj2 Hnew), list_elem_of_singleton. reflexivity.
    + apply Hmono, Hinv. rewrite elem_of_app, elem_of_cons. auto.
  - intros b [Hb | ->%list_elem_of_singleton]%elem_of_app.
    + apply Hmono, Hinv, Hb.
    + exact Hnew.
Qed.

Lemma falsy_nil (l : list string) : falsy l = true <-> l = [].
Proof. destruct l; simpl; split; congruence. Qed.

(** The batches of the tasks that have a manifest. *)
Lemma manifest_batches_safe (safe : list TaskEntry) :
  let write_tasks := filter (fun t => negb (falsy (writes t))) safe in
  let read_only_tasks := filter (fun t => falsy (writes t)) safe in
  let conflicts := detect_file_conflicts write_tasks in
  let batches := (foldl (greedy_step (pairs_of conflicts)) ([], ∅) write_tasks).1 in
  forall b : batch,
    b ∈ match read_only_tasks with
        | [] => batches
        | _ :: _ =>
            match batches with
            | b0 :: bs => (b0 ++ read_only_tasks) :: bs
            | [] => [read_only_tasks]
            end
        end ->
    pairwise_disjoint b /\ forall t, t ∈ b -> t ∈ safe.
Proof.
  intros write_tasks read_only_tasks conflicts batches.
  assert (forall b : batch, b ∈ batches ->
            pairwise_disjoint b /\ forall t, t ∈ b -> t ∈ safe) as Hgreedy.
  { intros b Hb.
    destruct (fun Hinit => greedy_loop_safe (pairs_of conflicts) write_tasks
                (conflict_pairs_complete write_tasks)
                write_tasks [] ([], ∅) eq_refl Hinit b Hb) as [Hpd Hin].
    - intros b' Hb'. apply elem_of_nil in Hb'. contradiction.
    - split; [exact Hpd|]. intros t Ht. destruct (Hin t Ht) as (k & _ & Hk).
      apply list_elem_of_lookup_2 in Hk.
      apply list_elem_of_filter in Hk as [_ Hk]. exact Hk. }
  assert (Forall (fun t => writes t = []) read_only_tasks) as Hro.
  { apply Forall_forall. intros t [Ht _]%list_elem_of_filter.
    apply falsy_nil, Is_true_true, Ht. }
  assert (forall t, t ∈ read_only_tasks -> t ∈ safe) as Hro_in.
  { intros t [_ Ht]%list_elem_of_filter. exact Ht. }
  destruct read_only_tasks as [|r ro] eqn:Ero; [exact Hgreedy|].
  rewrite <- Ero in *. clear Ero.
  destruct batches as [|b0 bs] eqn:Eb.
  - intros b ->%list_elem_of_singleton. split; [|exact Hro_in].
    apply (pairwise_disjoint_read_only [] read_only_tasks); [|exact Hro].
    intros i j t1 t2 _ H1. discriminate.
  - intros b [-> | Hb]%elem_of_cons.
    + destruct (Hgreedy b0) as [Hpd Hin]; [left|]. split.
      * apply pairwise_disjoint_read_only; assumption.
      * intros t [Ht | Ht]%elem_of_app; auto.
    + apply Hgreedy. right. exact Hb.
Qed.

(** C2.  For every list of candidate tasks the partition of
    [partition_by_conflicts] is safe: no two tasks at different places of one
    batch write a common file, every task without writes and reads that is in
    a batch is its only member, and every such task of the input has its own
    batch. *)
Theorem partition_by_conflicts_safe (ts : list TaskEntry) :
  let batches := partition_by_conflicts ts in
  (forall b : batch, b ∈ batches -> pairwise_disjoint b) /\
  (forall (b : batch) t, b ∈ batches -> t ∈ b ->
     writes t = [] -> reads t = [] -> b = [t]) /\
  (forall t, t ∈ ts -> writes t = [] -> reads t = [] -> [t] ∈ batches).
Proof.
  cbv zeta. unfold partition_by_conflicts.
  set (no_manifest := filter (fun t => falsy (writes t) && falsy (reads t)) ts).
  set (safe := filter (fun t => negb (falsy (writes t) && falsy (reads t))) ts).
  set (batches := match safe with [] => [] | _ :: _ => _ end).
  assert (forall b : batch, b ∈ batches ->
            pairwise_disjoint b /\ forall t, t ∈ b -> t ∈ safe) as Hsafe.
  { subst batches. destruct safe as [|s0 safe'] eqn:Es.
    - intros b Hb. apply elem_of_nil in Hb. contradiction.
    - rewrite <- Es. apply manifest_batches_safe. }
  assert (forall t, t ∈ safe -> ~ (writes t = [] /\ reads t = [])) as Hmanifest.
  { intros t [Ht _]%list_elem_of_filter [Hw Hr]. rewrite Hw, Hr in Ht. exact Ht. }
  split; [|split].
  - intros b [Hb | Hb]%elem_of_app; [apply Hsafe, Hb|].
    apply list_elem_of_fmap in Hb as (t & -> & _).
    apply pairwise_disjoint_singleton.
  - intros b t [Hb | Hb]%elem_of_app Ht Hw Hr.
    + destruct (Hmanifest t); [apply (Hsafe b Hb), Ht | auto].
    + apply list_elem_of_fmap in Hb as (t' & -> & _).
      apply list_elem_of_singleton in Ht as ->. reflexivity.
  - intros t Ht Hw Hr. apply elem_of_app. right.
    apply list_elem_of_fmap. exists t. split; [reflexivity|].
    apply list_elem_of_filter. split; [|exact Ht]. rewrite Hw, Hr. exact I.
Qed.

Lemma partition_by_conflicts_safe_witness :
  partition_by_conflicts Samples.candidates
  = [[Samples.task_A; Samples.task_C]; [Samples.task_B]; [Samples.task_D]] /\
  (forall f, f ∈ writes Samples.task_A -> f ∉ writes Samples.task_C) /\
  [Samples.task_D] ∈ partition_by_conflicts Samples.candidates.
Proof.
  assert (partition_by_conflicts Samples.candidates
          = [[Samples.task_A; Samples.task_C]; [Samples.task_B]; [Samples.task_D]])
    as Hparts by (vm_compute; reflexivity).
  destruct (partition_by_conflicts_safe Samples.candidates) as (Hsafe & _ & Hown).
  split; [exact Hparts | split].
  - apply (Hsafe [Samples.task_A; Samples.task_C]) with (i := 0) (j := 1);
      [rewrite Hparts; left | discriminate | reflexivity | reflexivity].
  - apply Hown; [|reflexivity | reflexivity].
    unfold Samples.candidates. rewrite !elem_of_cons. auto.
Defined.

End Batches.

(** ** Parent statuses *)

Section ParentStatus.
Import State InitOrchestration Derivation.

Lemma forallb_completed sts :
  forallb (fun s => String.eqb s "completed") sts = true <->
  Forall (fun s => s = "completed") sts.
Proof.
  rewrite forallb_forall, Forall_forall. split; intros H s Hs.
  - apply String.eqb_eq, H, list_elem_of_In, Hs.
  - apply String.eqb_eq, H, list_elem_of_In, Hs.
Qed.

Lemma existsb_status sts (st : string) :
  existsb (fun s => String.eqb s st) sts = true <-> st ∈ sts.
Proof.
  rewrite existsb_exists. split.
  - intros (s & Hs & ->%String.eqb_eq). apply list_elem_of_In, Hs.
  - intros Hs. exists st. split; [apply list_elem_of_In, Hs | apply String.eqb_refl].
Qed.

Lemma existsb_active sts :
  existsb (fun s => bool_decide (s ∈ ["in_progress"; "pending_review";
                                      "under_review"; "final_review"])) sts = true
  <-> Exists active sts.
Proof.
  rewrite existsb_exists, Exists_exists. split.
  - intros (s & Hs & Ha%bool_decide_eq_true). exists s.
    split; [apply list_elem_of_In, Hs | exact Ha].
  - intros (s & Hs & Ha). exists s.
    split; [apply list_elem_of_In, Hs | apply bool_decide_eq_true, Ha].
Qed.

(** The chain of tests of the code is the priority of the specification. *)
Lemma parent_status_derives sts : derives sts (parent_status sts).
Proof.
  unfold parent_status.
  destruct (forallb _ sts) eqn:Hall.
  { apply derives_completed, forallb_completed, Hall. }
  assert (~ Forall (fun s => s = "completed") sts) as Hnot.
  { rewrite <- forallb_completed, Hall. discriminate. }
  destruct (existsb (fun s => String.eqb s "blocked") sts) eqn:Hb.
  { apply derives_blocked; [exact Hnot | apply existsb_status, Hb]. }
  assert ("blocked" ∉ sts) as Hnb.
  { rewrite <- existsb_status, Hb. discriminate. }
  destruct (existsb (fun s => String.eqb s "fix_required") sts) eqn:Hf.
  { apply derives_fix_required; [exact Hnot | exact Hnb | apply existsb_status, Hf]. }
  assert ("fix_required" ∉ sts) as Hnf.
  { rewrite <- existsb_status, Hf. discriminate. }
  destruct (existsb (fun s => bool_decide (s ∈ _)) sts) eqn:Ha.
  - apply derives_in_progress; [exact Hnot | exact Hnb | exact Hnf |].
    apply existsb_active, Ha.
  - apply derives_not_started; [exact Hnot | exact Hnb | exact Hnf |].
    rewrite <- existsb_active, Ha. discriminate.
Qed.

(** The derivation names one status. *)
Lemma derives_unique sts a b : derives sts a -> derives sts b -> a = b.
Proof. destruct 1; destruct 1; try reflexivity; contradiction. Qed.

(** *** One step of the loop *)

Lemma update_parent_length M ts i : length (update_parent M ts i) = length ts.
Proof.
  unfold update_parent. destruct (ts !! i) as [t|]; [|reflexivity].
  destruct (subtasks t); [reflexivity|].
  destruct (subtask_statuses _ _ _); [reflexivity | apply length_alter].
Qed.

Lemma update_parent_other M ts i j :
  j <> i -> update_parent M ts i !! j = ts !! j.
Proof.
  intros Hne. unfold update_parent. destruct (ts !! i) as [t|]; [|reflexivity].
  destruct (subtasks t); [reflexivity|].
  destruct (subtask_statuses _ _ _); [reflexivity|].
  apply list_lookup_alter_ne. auto.
Qed.

(** The task at the place that is handled: its status is the derived one
    when a subtask is present, and nothing else of it changes. *)
Lemma update_parent_at M ts i t :
  ts !! i = Some t ->
  update_parent M ts i !! i
  = Some (match subtask_statuses M ts (subtasks t) with
          | [] => t
          | sts => set_status (parent_status sts) t
          end).
Proof.
  intros Ht. unfold update_parent. rewrite Ht.
  destruct (subtasks t) as [|sid subs] eqn:Hsubs; [exact Ht|].
  destruct (subtask_statuses M ts (sid :: subs)) as [|st sts]; [exact Ht|].
  rewrite list_lookup_alter_eq, Ht. reflexivity.
Qed.

Lemma update_parent_keeps M ts i j t' :
  update_parent M ts i !! j = Some t' ->
  exists t, ts !! j = Some t /\ task_id t' = task_id t /\ subtasks t' = subtasks t.
Proof.
  destruct (decide (j = i)) as [->|Hne].
  - destruct (ts !! i) as [t|] eqn:Ht.
    + rewrite (update_parent_at M ts i t Ht). intros [= <-]. exists t.
      split; [reflexivity|]. destruct (subtask_statuses _ _ _); split; reflexivity.
    + intros Hsome. apply lookup_lt_Some in Hsome.
      rewrite update_parent_length in Hsome. apply lookup_ge_None in Ht. lia.
  - rewrite update_parent_other by exact Hne. intros Ht. exists t'. auto.
Qed.

(** *** The loop *)

(** The tasks after the loop has handled the places below [k], from the
    highest down. *)
Local Abbreviation handled M k ts :=
  (foldl (update_parent M) ts (reverse (seq 0 k))).

Lemma handled_S M k ts : handled M (S k) ts = handled M k (update_parent M ts k).
Proof. rewrite seq_S, reverse_snoc. reflexivity. Qed.

Lemma handled_above M k : forall ts j, k <= j -> handled M k ts !! j = ts !! j.
Proof.
  induction k as [|k IH]; intros ts j Hj; [reflexivity|].
  rewrite handled_S, IH by lia. apply update_parent_other. lia.
Qed.

Lemma handled_keeps M k : forall ts j t',
  handled M k ts !! j = Some t' ->
  exists t, ts !! j = Some t /\ task_id t' = task_id t /\ subtasks t' = subtasks t.
Proof.
  induction k as [|k IH]; intros ts j t' Ht'; [exists t'; auto|].
  rewrite handled_S in Ht'. apply IH in Ht' as (t1 & Ht1 & Hid1 & Hs1).
  apply update_parent_keeps in Ht1 as (t & Ht & Hid & Hs).
  exists t. repeat split; congruence.
Qed.

Lemma subtask_statuses_ext M ts ts' subs :
  (forall sid j, sid ∈ subs -> M !! sid = Some j ->
                 status <$> ts !! j = status <$> ts' !! j) ->
  subtask_statuses M ts subs = subtask_statuses M ts' subs.
Proof.
  intros Hsame. unfold subtask_statuses.
  induction subs as [|sid subs IH]; [reflexivity|]. cbn [omap list_omap].
  rewrite IH by (intros s j Hs; apply Hsame; right; exact Hs).
  destruct (M !! sid) as [j|] eqn:Hj; [|reflexivity].
  rewrite (Hsame sid j); [reflexivity | left | exact Hj].
Qed.

(** When every task of the places below [k] stands before the tasks that its
    subtask ids name, the loop leaves each of them with the status derived
    from the statuses that its subtasks have in the end. *)
Lemma handled_derived M k : forall ts,
  (forall i t sid j, i < k -> ts !! i = Some t -> sid ∈ subtasks t ->
                     M !! sid = Some j -> i < j) ->
  forall i t', i < k -> handled M k ts !! i = Some t' ->
    subtask_statuses M (handled M k ts) (subtasks t') <> [] ->
    status t' = parent_status (subtask_statuses M (handled M k ts) (subtasks t')).
Proof.
  induction k as [|k IH]; intros ts Hfirst i t' Hi Ht' Hpresent; [lia|].
  rewrite handled_S in Ht', Hpresent |- *.
  destruct (decide (i = k)) as [->|Hne].
  - rewrite handled_above in Ht' by lia.
    destruct (update_parent_keeps _ _ _ _ _ Ht') as (t & Ht & _ & Hsubs).
    rewrite (update_parent_at M ts k t Ht) in Ht'. injection Ht' as Ht'.
    assert (subtask_statuses M (handled M k (update_parent M ts k)) (subtasks t')
            = subtask_statuses M ts (subtasks t)) as Hsame.
    { rewrite Hsubs. apply subtask_statuses_ext. intros sid j Hsid Hj.
      assert (k < j) by (apply (Hfirst k t sid j); auto).
      rewrite handled_above, update_parent_other by lia. reflexivity. }
    rewrite Hsame in Hpresent |- *.
    destruct (subtask_statuses M ts (subtasks t)); [contradiction|].
    subst t'. reflexivity.
  - apply (IH (update_parent M ts k)) with (i := i);
      [| lia | exact Ht' | exact Hpresent].
    intros i0 t0 sid j Hi0 Ht0 Hsid Hj.
    rewrite update_parent_other in Ht0 by lia.
    apply (Hfirst i0 t0 sid j); auto.
Qed.

Lemma handled_length M k : forall ts, length (handled M k ts) = length ts.
Proof.
  induction k as [|k IH]; intros ts; [reflexivity|].
  rewrite handled_S, IH. apply update_parent_length.
Qed.

(** The map from ids to places only depends on the ids. *)
Lemma index_map_ids ts ts' :
  Forall2 (fun a b => task_id a = task_id b) ts ts' ->
  index_map ts = index_map ts'.
Proof.
  unfold index_map. generalize (∅ : gmap string nat).
  assert (forall (g : nat -> nat) (m : gmap string nat),
            Forall2 (fun a b => task_id a = task_id b) ts ts' ->
            foldl (fun m '(i, t) => <[task_id t := i]> m) m
                  (imap (fun i t => (g i, t)) ts)
            = foldl (fun m '(i, t) => <[task_id t := i]> m) m
                    (imap (fun i t => (g i, t)) ts')) as Hgen.
  { intros g m Hids. revert g m.
    induction Hids as [|a b ts ts' Hab _ IH]; intros g m; [reflexivity|].
    cbn [imap foldl]. rewrite Hab. apply (IH (g ∘ S)). }
  intros m Hids. apply (Hgen (fun i => i) m Hids).
Qed.

Lemma handled_index_map M k ts : index_map (handled M k ts) = index_map ts.
Proof.
  apply index_map_ids, Forall2_same_length_lookup.
  split; [apply handled_length|].
  intros j t' t Ht' Ht.
  apply handled_keeps in Ht' as (t0 & Ht0 & Hid & _). congruence.
Qed.

(** For a state in document order, parents first, [update_parent_statuses]
    leaves every task that has a present subtask with the status that the
    statuses of its direct subtasks derive, whatever status it had. *)
Lemma update_parent_statuses_parents_first (state : AgentState) :
  parents_first (tasks state) ->
  parents_derived (tasks (update_parent_statuses state)).
Proof.
  intros Hfirst i t' Ht' Hpresent.
  unfold statuses_of_subtasks, update_parent_statuses in *. cbn [tasks set_tasks] in *.
  rewrite handled_index_map in Hpresent |- *.
  rewrite (handled_derived (index_map (tasks state)) (length (tasks state))
             (tasks state)) with (i := i) (t' := t').
  - apply parent_status_derives.
  - intros i0 t sid j _. apply Hfirst.
  - apply lookup_lt_Some in Ht'. rewrite handled_length in Ht'. exact Ht'.
  - exact Ht'.
  - exact Hpresent.
Qed.

(** C3 fails on the code.  For the task list that names the subtask 1.1
    before its parent 1, in the state that the initializer builds from it,
    [update_parent_statuses] handles task 1 before task 1.1: task 1.1 becomes
    completed (its subtask 1.1.1 is), but task 1 keeps the status derived from
    the former status of 1.1 and stays not_started, although its only subtask
    is completed.  A second run repairs it. *)
Theorem update_parent_statuses_stale_parent :
  let before := tasks Samples.state_child_first in
  let after := tasks (update_parent_statuses Samples.state_child_first) in
  let again :=
    tasks (update_parent_statuses (update_parent_statuses Samples.state_child_first)) in
  (fun t => (task_id t, status t, subtasks t)) <$> before
  = [("1.1", "not_started", ["1.1.1"]); ("1", "not_started", ["1.1"]);
     ("1.1.1", "completed", [])] /\
  (fun t => (task_id t, status t)) <$> after
  = [("1.1", "completed"); ("1", "not_started"); ("1.1.1", "completed")] /\
  ~ parents_derived after /\
  (fun t => (task_id t, status t)) <$> again
  = [("1.1", "completed"); ("1", "completed"); ("1.1.1", "completed")].
Proof.
  cbv zeta. split; [vm_compute; reflexivity|].
  split; [vm_compute; reflexivity|].
  split; [|vm_compute; reflexivity].
  intros Hderived.
  destruct (tasks (update_parent_statuses Samples.state_child_first) !! 1)
    as [parent|] eqn:Hparent; [|vm_compute in Hparent; discriminate].
  specialize (Hderived 1 parent Hparent).
  vm_compute in Hparent. injection Hparent as <-.
  assert (statuses_of_subtasks
            (tasks (update_parent_statuses Samples.state_child_first))
            (mkTaskEntry "1" "not_started" [] ["1.1"] None [] [] 0 None [] None
                         None None)
          = ["completed"]) as Hsts by (vm_compute; reflexivity).
  rewrite Hsts in Hderived. specialize (Hderived ltac:(discriminate)).
  assert (derives ["completed"] "completed") as Hc.
  { apply derives_completed. repeat constructor. }
  pose proof (derives_unique _ _ _ Hderived Hc) as Heq. discriminate Heq.
Qed.

End ParentStatus.

(** ** The examples of the specification, on the model *)

Section SpecExamples.
Import State InitOrchestration Derivation Samples.

Example parent_blocked_outranks_in_progress :
  parent_status ["completed"; "blocked"; "in_progress"] = "blocked".
Proof. reflexivity. Qed.

Example parent_fix_required :
  parent_status ["completed"; "fix_required"] = "fix_required".
Proof. reflexivity. Qed.

Example parent_all_completed :
  parent_status ["completed"; "completed"] = "completed".
Proof. reflexivity. Qed.

Example parent_review_counts_as_progress :
  parent_status ["completed"; "under_review"; "not_started"] = "in_progress".
Proof. reflexivity. Qed.

(** The task list in document order, parents first, is a state to which
    [update_parent_statuses_parents_first] applies. *)
Example state_parent_first_in_order : parents_first (tasks state_parent_first).
Proof.
  intros i t sid j Ht Hsid Hj.
  destruct i as [|[|[|i]]]; vm_compute in Ht; try discriminate;
    injection Ht as <-; cbn [subtasks] in Hsid.
  - apply list_elem_of_singleton in Hsid as ->. vm_compute in Hj.
    injection Hj as <-. lia.
  - apply list_elem_of_singleton in Hsid as ->. vm_compute in Hj.
    injection Hj as <-. lia.
  - apply elem_of_nil in Hsid. contradiction.
Qed.

Example state_parent_first_derived :
  (fun t => (task_id t, status t))
    <$> tasks (update_parent_statuses state_parent_first)
  = [("1", "completed"); ("1.1", "completed"); ("1.1.1", "completed")]
  /\ parents_derived (tasks (update_parent_statuses state_parent_first)).
Proof.
  split; [vm_compute; reflexivity|].
  apply update_parent_statuses_parents_first, state_parent_first_in_order.
Qed.

End SpecExamples.

(** ** The search for the dependents of a task ends *)

Section Bfs.
Import State FixLoop.

(** The weight of the entries of ids that were not visited, on a list of
    entries. *)
Local Abbreviation weight_of l visited :=
  (sum_list_with (fun kv : string * gset string => size kv.2)
                 (filter (fun kv : string * gset string => kv.1 ∉ visited) l)).

Lemma weight_of_mono (l : list (string * gset string)) (v v' : gset string) :
  v ⊆ v' -> weight_of l v' <= weight_of l v.
Proof.
  intros Hsub. induction l as [|kv l IH]; [reflexivity|].
  rewrite !filter_cons.
  destruct (decide (kv.1 ∉ v')) as [Hv'|Hv']; destruct (decide (kv.1 ∉ v)) as [Hv|Hv];
    simpl; try lia.
  destruct Hv. intros Hin. apply Hv', Hsub, Hin.
Qed.

(** Visiting an id for the first time takes the size of its entry off the
    weight. *)
Lemma rdeps_weight_visit (rd : rdeps) (visited : gset string) current :
  current ∉ visited ->
  rdeps_weight rd (visited ∪ {[current]}) + size (default ∅ (rd !! current))
  <= rdeps_weight rd visited.
Proof.
  intros Hnew. unfold rdeps_weight.
  destruct (rd !! current) as [deps|] eqn:Hcur; simpl.
  - rewrite <- !(map_to_list_delete rd current deps Hcur).
    rewrite !filter_cons. simpl.
    rewrite decide_False by (intros Hn; apply Hn, elem_of_union; right;
                             apply elem_of_singleton; reflexivity).
    rewrite decide_True by exact Hnew. simpl.
    pose proof (weight_of_mono (map_to_list (delete current rd)) visited
                  (visited ∪ {[current]})) as Hmono.
    specialize (Hmono ltac:(apply union_subseteq_l)). lia.
  - change (size (∅ : gset string)) with 0. rewrite Nat.add_0_r.
    apply weight_of_mono, union_subseteq_l.
Qed.

Lemma bfs_fuel_enough (rd : rdeps) : forall fuel queue visited,
  bfs_fuel rd queue visited <= fuel -> is_Some (bfs rd fuel queue visited).
Proof.
  unfold bfs_fuel.
  induction fuel as [|fuel IH]; intros queue visited Hfuel;
    destruct queue as [|current queue]; simpl in *; eauto; [lia|].
  destruct (bool_decide (current ∈ visited)) eqn:Hv.
  - apply IH. lia.
  - apply bool_decide_eq_false in Hv. apply IH.
    pose proof (rdeps_weight_visit rd visited current Hv) as Hw.
    rewrite length_app.
    pose proof (length_filter (fun d => d ∉ visited ∪ {[current]})
                  (elements (default ∅ (rd !! current)))) as Hlen.
    change (length (elements (default ∅ (rd !! current))))
      with (size (default ∅ (rd !! current))) in Hlen.
    lia.
Qed.

(** The search of [get_all_dependent_task_ids] always ends with a set. *)
Lemma bfs_total (rd : rdeps) queue :
  exists visited, bfs rd (bfs_fuel rd queue ∅) queue ∅ = Some visited.
Proof. apply (bfs_fuel_enough rd _ queue ∅). reflexivity. Qed.

End Bfs.

(** ** The flags of a dispatch result *)

Section DispatchFlags.
Import DispatchTask.

(** X1.  The flags of a dispatch result: [success] is [completed] or
    [halted], the two are never both set, and the result is halted exactly
    when the report has a task result whose selected message holds the HALT
    marker.  Without a report, or with an empty one, the call fails and its
    output is what the wrapper printed. *)
Theorem dispatch_task_flags
    (tid : string) (result : Completed) (report : option (list (option TaskResult))) :
  let r := dispatch_task tid result report in
  success r = completed r || halted r /\
  completed r && halted r = false /\
  (halted r = true <->
   exists trs, report = Some trs /\ trs <> [] /\
     Py.contains "<promise>HALT</promise>"
       (default "" (tr_message (select_result ("task-" +:+ tid) trs))) = true) /\
  (report = None \/ report = Some [] ->
   success r = false /\ output r = stdout result).
Proof.
  cbv zeta. unfold dispatch_task.
  destruct report as [[|tr trs]|].
  - split; [reflexivity|]. split; [reflexivity|]. split.
    + split; [discriminate|]. intros (trs & [= <-] & Hne & _). contradiction.
    + intros _. split; reflexivity.
  - set (m := default "" (tr_message (select_result ("task-" +:+ tid) (tr :: trs)))).
    assert (forall b : bool,
              Py.contains "<promise>HALT</promise>" m = b ->
              (b = true <->
               exists trs', Some (tr :: trs) = Some trs' /\ trs' <> [] /\
                 Py.contains "<promise>HALT</promise>"
                   (default "" (tr_message (select_result ("task-" +:+ tid) trs')))
                 = true)) as Hiff.
    { intros b Hb. split.
      - intros ->. exists (tr :: trs). split; [reflexivity|].
        split; [discriminate | exact Hb].
      - intros (trs' & [= <-] & _ & Hc). fold m in Hc. congruence. }
    destruct (Py.contains "<promise>HALT</promise>" m) eqn:Hh.
    + split; [reflexivity|]. split; [reflexivity|]. split; [apply Hiff; reflexivity|].
      intros [|]; discriminate.
    + destruct (_ || _ || _)%bool.
      * split; [reflexivity|]. split; [reflexivity|].
        split; [apply Hiff; reflexivity|]. intros [|]; discriminate.
      * split; [reflexivity|]. split; [reflexivity|].
        split; [apply Hiff; reflexivity|]. intros [|]; discriminate.
  - split; [reflexivity|]. split; [reflexivity|]. split.
    + split; [discriminate|]. intros (trs & [=] & _).
    + intros _. split; reflexivity.
Qed.

End DispatchFlags.

(** ** The overall severity of a review *)

Section SeverityProperties.
Import State FixLoop ConsolidateReviews Severity.

Lemma severity_among (d sev : string) (fs : list Finding) :
  sev <> d ->
  sev ∈ map (fun f => default d (f_severity f)) fs <-> has_severity fs sev.
Proof.
  intros Hne. rewrite list_elem_of_fmap. split.
  - intros (f & Hsev & Hf). exists f. split; [exact Hf|].
    destruct (f_severity f) as [s|]; simpl in Hsev; congruence.
  - intros (f & Hf & Hsev). exists f. rewrite Hsev. auto.
Qed.

Lemma determine_overall_severity_find fs :
  determine_overall_severity fs
  = default "none"
      (List.find (fun sev => bool_decide
                    (sev ∈ map (fun f => default "none" (f_severity f)) fs))
                 SEVERITY_ORDER).
Proof. destruct fs; reflexivity. Qed.

(** When the overall severity sends a task into the fix loop, the severity
    that [enter_fix_loop] works out from the same findings is the same. *)
Lemma fix_loop_severity_agrees fs :
  should_enter_fix_loop (determine_overall_severity fs) = true ->
  overall_of (map (fun f => default "minor" (f_severity f)) fs)
  = determine_overall_severity fs.
Proof.
  rewrite determine_overall_severity_find. unfold overall_of, SEVERITY_ORDER.
  cbn [List.find].
  pose proof (severity_among "none" "critical" fs ltac:(discriminate)) as Hc.
  pose proof (severity_among "none" "major" fs ltac:(discriminate)) as Hm.
  pose proof (severity_among "minor" "critical" fs ltac:(discriminate)) as Hc'.
  pose proof (severity_among "minor" "major" fs ltac:(discriminate)) as Hm'.
  assert (forall sev : string,
            bool_decide (sev ∈ map (fun f => default "minor" (f_severity f)) fs)
            = bool_decide (sev ∈ map (fun f => default "none" (f_severity f)) fs) \/
            (sev <> "critical" /\ sev <> "major")) as Hsame.
  { intros sev. destruct (decide (sev = "critical")) as [->|?];
      [left; apply bool_decide_ext; tauto|].
    destruct (decide (sev = "major")) as [->|?];
      [left; apply bool_decide_ext; tauto | right; auto]. }
  destruct (Hsame "critical") as [-> | [? _]]; [|congruence].
  destruct (Hsame "major") as [-> | [_ ?]]; [|congruence].
  destruct (bool_decide ("critical" ∈ _)); [reflexivity|].
  destruct (bool_decide ("major" ∈ _)); [reflexivity|].
  destruct (bool_decide ("minor" ∈ _)); [discriminate|].
  destruct (bool_decide ("none" ∈ _)); discriminate.
Qed.

(** X2.  The overall severity of a list of findings is the highest one
    present, in the order critical, major, minor, none (a finding without a
    severity counts as none).  It sends the task into the fix loop exactly
    when some finding is critical or major, and then [enter_fix_loop], which
    works the severity out again with another default, arrives at the same
    one. *)
Theorem overall_severity_is_highest (fs : list Finding) :
  let s := determine_overall_severity fs in
  s ∈ SEVERITY_ORDER /\
  (s = "critical" <-> has_severity fs "critical") /\
  (s = "major" <-> ~ has_severity fs "critical" /\ has_severity fs "major") /\
  (s = "minor" <-> ~ has_severity fs "critical" /\ ~ has_severity fs "major" /\
                   has_severity fs "minor") /\
  (should_enter_fix_loop s = true <->
   has_severity fs "critical" \/ has_severity fs "major") /\
  (should_enter_fix_loop s = true ->
   overall_of (map (fun f => default "minor" (f_severity f)) fs) = s).
Proof.
  cbv zeta. rewrite determine_overall_severity_find. unfold overall_of.
  pose proof (severity_among "none" "critical" fs ltac:(discriminate)) as Hc.
  pose proof (severity_among "none" "major" fs ltac:(discriminate)) as Hm.
  pose proof (severity_among "none" "minor" fs ltac:(discriminate)) as Hn.
  pose proof (severity_among "minor" "critical" fs ltac:(discriminate)) as Hc'.
  pose proof (severity_among "minor" "major" fs ltac:(discriminate)) as Hm'.
  unfold SEVERITY_ORDER. cbn [List.find].
  destruct (bool_decide ("critical" ∈ _)) eqn:Ec; cbn [default].
  { apply bool_decide_eq_true in Ec. apply Hc in Ec.
    rewrite (bool_decide_eq_true_2 _ (proj2 Hc' Ec)).
    split; [rewrite !elem_of_cons; tauto|].
    split; [tauto|]. split; [split; [discriminate | tauto]|].
    split; [split; [discriminate | tauto]|].
    split; [|reflexivity]. split; [tauto | reflexivity]. }
  apply bool_decide_eq_false in Ec. rewrite Hc in Ec.
  rewrite (bool_decide_eq_false_2 _ (fun H => Ec (proj1 Hc' H))).
  destruct (bool_decide ("major" ∈ _)) eqn:Em; cbn [default].
  { apply bool_decide_eq_true in Em. apply Hm in Em.
    rewrite (bool_decide_eq_true_2 _ (proj2 Hm' Em)).
    split; [rewrite !elem_of_cons; tauto|].
    split; [split; [discriminate | tauto]|]. split; [tauto|].
    split; [split; [discriminate | tauto]|].
    split; [|reflexivity]. split; [tauto | reflexivity]. }
  apply bool_decide_eq_false in Em. rewrite Hm in Em.
  assert (forall s : string, s = "minor" \/ s = "none" ->
            should_enter_fix_loop s = true <->
            has_severity fs "critical" \/ has_severity fs "major") as Hpass.
  { intros s [-> | ->]; (split; [discriminate | tauto]). }
  destruct (bool_decide ("minor" ∈ _)) eqn:En; cbn [default].
  { apply bool_decide_eq_true in En. apply Hn in En.
    split; [rewrite !elem_of_cons; tauto|].
    split; [split; [discriminate | tauto]|].
    split; [split; [discriminate | tauto]|]. split; [tauto|].
    split; [apply Hpass; auto | discriminate]. }
  apply bool_decide_eq_false in En. rewrite Hn in En.
  assert (default "none" (if bool_decide ("none" ∈
            map (fun f => default "none" (f_severity f)) fs)
          then Some "none" else None) = "none") as ->
    by (destruct (bool_decide _); reflexivity).
  split; [rewrite !elem_of_cons; tauto|].
  split; [split; [discriminate | tauto]|].
  split; [split; [discriminate | tauto]|].
  split; [split; [discriminate | tauto]|].
  split; [apply Hpass; auto | discriminate].
Qed.

End SeverityProperties.

(** ** The batches hold every task *)

Section BatchCoverage.
Import State DispatchBatch.

Lemma place_concat cp t (bs bs' : list batch) :
  place cp t bs = Some bs' ->
  concat bs' ≡ₚ concat bs ++ [t] /\ (Forall (fun b => b <> []) bs ->
                                     Forall (fun b => b <> []) bs') /\
  length bs' = length bs.
Proof.
  revert bs'. induction bs as [|b bs IH]; intros bs'; [discriminate|]. simpl.
  destruct (conflicts_in_batch cp (task_id t) b); simpl.
  - intros (bs1 & Hbs1 & ->)%fmap_Some. destruct (IH _ Hbs1) as (Hp & Hne & Hlen).
    split; [|split].
    + simpl. rewrite Hp, app_assoc. reflexivity.
    + intros [Hb Hbs]%Forall_cons. constructor; auto.
    + simpl. congruence.
  - intros [= <-]. split; [|split].
    + simpl. rewrite <- !app_assoc. apply Permutation_app_head, Permutation_app_comm.
    + intros [Hb Hbs]%Forall_cons. constructor; [|exact Hbs].
      destruct b; discriminate.
    + reflexivity.
Qed.

(** The greedy loop: the batches hold the tasks handled so far whose id was
    not assigned before, none is empty, and there are no more batches than
    tasks. *)
Lemma greedy_loop_covers cp : forall todo done acc,
  concat acc.1 ≡ₚ done ->
  Forall (fun b => b <> []) acc.1 ->
  length acc.1 <= length done ->
  acc.2 = list_to_set (map task_id done) ->
  let res := (foldl (greedy_step cp) acc todo).1 in
  Forall (fun b => b <> []) res /\
  length res <= length (done ++ todo) /\
  (forall t, t ∈ concat res -> t ∈ done ++ todo) /\
  (NoDup (map task_id (done ++ todo)) -> concat res ≡ₚ done ++ todo).
Proof.
  induction todo as [|t todo IH]; intros done acc Hperm Hne Hlen Hass; cbv zeta.
  { simpl. rewrite app_nil_r. repeat split; auto.
    intros t. rewrite Hperm. auto. }
  cbn [foldl].
  replace (done ++ t :: todo) with ((done ++ [t]) ++ todo)
    by (rewrite <- app_assoc; reflexivity).
  destruct acc as [batches assigned]. cbn [fst snd] in *.
  assert (greedy_step cp (batches, assigned) t
          = if bool_decide (task_id t ∈ assigned) then (batches, assigned)
            else match place cp t batches with
                 | Some batches' => (batches', assigned ∪ {[task_id t]})
                 | None => (batches ++ [[t]], assigned ∪ {[task_id t]})
                 end) as -> by reflexivity.
  destruct (bool_decide (task_id t ∈ assigned)) eqn:Hin.
  - (* the id was assigned: the task is passed over *)
    apply bool_decide_eq_true in Hin.
    destruct (IH done (batches, assigned) Hperm Hne Hlen Hass) as (H1 & H2 & H3 & H4).
    cbv zeta in *. cbn [fst snd] in *.
    split; [exact H1|]. split; [rewrite !length_app in *; simpl; lia|].
    split.
    + intros t' Ht'. apply H3 in Ht'. rewrite !elem_of_app in *.
      rewrite list_elem_of_singleton. tauto.
    + intros Hnd. exfalso.
      rewrite <- app_assoc, map_app in Hnd. apply NoDup_app in Hnd as (_ & Hdis & _).
      apply (Hdis (task_id t)).
      * rewrite Hass in Hin. apply elem_of_list_to_set in Hin. exact Hin.
      * simpl. left.
  - assert (list_to_set (map task_id (done ++ [t]))
            = (assigned ∪ {[task_id t]} : gset string)) as Hass'.
    { rewrite map_app, list_to_set_app_L, <- Hass. simpl.
      rewrite union_empty_r_L. reflexivity. }
    destruct (place cp t batches) as [batches'|] eqn:Hplace.
    + apply place_concat in Hplace as (Hp & Hne' & Hlen').
      apply (IH (done ++ [t]) (batches', assigned ∪ {[task_id t]})); simpl.
      * rewrite Hp, Hperm. reflexivity.
      * auto.
      * rewrite length_app. simpl. lia.
      * symmetry. exact Hass'.
    + apply (IH (done ++ [t]) (batches ++ [[t]], assigned ∪ {[task_id t]})); simpl.
      * rewrite concat_app, Hperm. simpl. reflexivity.
      * apply Forall_app. split; [exact Hne|]. repeat constructor. discriminate.
      * rewrite !length_app. simpl. lia.
      * symmetry. exact Hass'.
Qed.

Lemma filter_split {A} (P : A -> bool) (l : list A) :
  filter (fun x => P x) l ++ filter (fun x => negb (P x)) l ≡ₚ l.
Proof.
  induction l as [|x l IH]; [reflexivity|].
  rewrite !filter_cons. destruct (P x) eqn:E; simpl.
  - rewrite IH. reflexivity.
  - rewrite <- Permutation_middle, IH. reflexivity.
Qed.

Lemma concat_singletons {A} (l : list A) : concat (map (fun x => [x]) l) = l.
Proof. induction l as [|x l IH]; [reflexivity|]. simpl. rewrite IH. reflexivity. Qed.

(** The batches of the tasks with a manifest. *)
Lemma manifest_batches_cover (safe : list TaskEntry) :
  let write_tasks := filter (fun t => negb (falsy (writes t))) safe in
  let read_only_tasks := filter (fun t => falsy (writes t)) safe in
  let conflicts := detect_file_conflicts write_tasks in
  let cp : gset (string * string) :=
    list_to_set (map (fun c => (task_a c, task_b c)) conflicts)
    ∪ list_to_set (map (fun c => (task_b c, task_a c)) conflicts) in
  let greedy := (foldl (greedy_step cp) ([], ∅) write_tasks).1 in
  let batches :=
    match read_only_tasks with
    | [] => greedy
    | _ :: _ =>
        match greedy with
        | b0 :: bs => (b0 ++ read_only_tasks) :: bs
        | [] => [read_only_tasks]
        end
    end in
  Forall (fun b => b <> []) batches /\
  length batches <= length safe /\
  (forall t, t ∈ concat batches -> t ∈ safe) /\
  (forall t, t ∈ read_only_tasks -> t ∈ concat batches) /\
  (NoDup (map task_id write_tasks) -> concat batches ≡ₚ safe).
Proof.
  intros write_tasks read_only_tasks conflicts cp greedy batches.
  destruct (greedy_loop_covers cp write_tasks [] ([], ∅))
    as (Hne & Hlen & Hin & Hperm); try reflexivity; [constructor|].
  cbv zeta in *. cbn [app] in *. fold greedy in Hne, Hlen, Hin, Hperm.
  assert (read_only_tasks ++ write_tasks ≡ₚ safe) as Hsplit
    by apply (filter_split (fun t => falsy (writes t))).
  assert (length read_only_tasks + length write_tasks = length safe) as Hlens.
  { rewrite <- length_app, Hsplit. reflexivity. }
  assert (forall t, t ∈ write_tasks -> t ∈ safe) as Hw.
  { intros t [_ Ht]%list_elem_of_filter. exact Ht. }
  assert (forall t, t ∈ read_only_tasks -> t ∈ safe) as Hr.
  { intros t [_ Ht]%list_elem_of_filter. exact Ht. }
  subst batches. destruct read_only_tasks as [|r ro] eqn:Ero.
  { simpl in Hsplit, Hlens. repeat split; auto.
    - lia.
    - intros t Ht. apply elem_of_nil in Ht. contradiction.
    - intros Hnd. rewrite (Hperm Hnd). exact Hsplit. }
  rewrite <- Ero in *. assert (read_only_tasks <> []) as Hro by (rewrite Ero; discriminate).
  clear Ero. destruct greedy as [|b0 bs] eqn:Eg.
  - split; [repeat constructor; exact Hro|].
    split; [simpl; destruct safe; [destruct read_only_tasks; [contradiction | discriminate] | simpl; lia]|].
    split; [intros t; simpl; rewrite app_nil_r; apply Hr|].
    split; [intros t; simpl; rewrite app_nil_r; auto|].
    intros Hnd. specialize (Hperm Hnd). simpl in Hperm |- *.
    rewrite app_nil_r, <- Hsplit, <- Hperm, app_nil_r. reflexivity.
  - apply Forall_cons in Hne as [Hb0 Hbs].
    split; [constructor; [destruct b0; [contradiction | discriminate] | exact Hbs]|].
    split; [simpl in *; lia|].
    split; [|split].
    + intros t. simpl. rewrite <- app_assoc, !elem_of_app. intros [Ht | [Ht | Ht]].
      * apply Hw, Hin. simpl. rewrite elem_of_app. auto.
      * apply Hr, Ht.
      * apply Hw, Hin. simpl. rewrite elem_of_app. auto.
    + intros t Ht. simpl. rewrite <- app_assoc, !elem_of_app. auto.
    + intros Hnd. specialize (Hperm Hnd). simpl in Hperm |- *.
      rewrite <- Hsplit, <- Hperm.
      rewrite (Permutation_app_comm b0 read_only_tasks), <- app_assoc. reflexivity.
Qed.

(** X3.  The batches of [partition_by_conflicts] are never empty, are at
    most as many as the tasks, and hold only tasks that were given.  Every
    task that declares no writes is in a batch; when the tasks that declare
    writes have distinct ids, the batches together hold every given task
    exactly once. *)
Theorem partition_by_conflicts_covers (ts : list TaskEntry) :
  let batches := partition_by_conflicts ts in
  (forall b : batch, b ∈ batches -> b <> []) /\
  length batches <= length ts /\
  (forall t, t ∈ concat batches -> t ∈ ts) /\
  (forall t, t ∈ ts -> writes t = [] -> t ∈ concat batches) /\
  (NoDup (map task_id (filter (fun t => writes t <> []) ts)) ->
   concat batches ≡ₚ ts).
Proof.
  cbv zeta. unfold partition_by_conflicts.
  set (no_manifest := filter (fun t => falsy (writes t) && falsy (reads t)) ts).
  set (safe := filter (fun t => negb (falsy (writes t) && falsy (reads t))) ts).
  set (batches := match safe with [] => [] | _ :: _ => _ end).
  assert (no_manifest ++ safe ≡ₚ ts) as Hsplit
    by apply (filter_split (fun t => falsy (writes t) && falsy (reads t))).
  assert (filter (fun t => negb (falsy (writes t))) safe
          = filter (fun t => writes t <> []) ts) as Hwrites.
  { subst safe. rewrite list_filter_filter. apply list_filter_iff. intros t.
    destruct (writes t); simpl; split; try tauto; try discriminate. }
  assert (Forall (fun b : batch => b <> []) batches /\
          length batches <= length safe /\
          (forall t, t ∈ concat batches -> t ∈ safe) /\
          (forall t, t ∈ filter (fun t => falsy (writes t)) safe -> t ∈ concat batches) /\
          (NoDup (map task_id (filter (fun t => writes t <> []) ts)) ->
           concat batches ≡ₚ safe)) as (Hne & Hlen & Hin & Hro & Hperm).
  { subst batches. destruct safe as [|s0 safe'] eqn:Es.
    - repeat split; auto.
    - rewrite <- Es in *. rewrite <- Hwrites. apply manifest_batches_cover. }
  assert (length no_manifest + length safe = length ts) as Hlens.
  { rewrite <- length_app, Hsplit. reflexivity. }
  split; [|split; [|split; [|split]]].
  - intros b [Hb | Hb]%elem_of_app.
    + rewrite Forall_forall in Hne. apply Hne, Hb.
    + apply list_elem_of_fmap in Hb as (t & -> & _). discriminate.
  - rewrite length_app, length_map. lia.
  - intros t. rewrite concat_app, concat_singletons, elem_of_app.
    intros [Ht | Ht].
    + apply Hin in Ht. apply list_elem_of_filter in Ht as [_ Ht]. exact Ht.
    + apply list_elem_of_filter in Ht as [_ Ht]. exact Ht.
  - intros t Ht Hw. rewrite concat_app, concat_singletons, elem_of_app.
    destruct (falsy (reads t)) eqn:Hr.
    + right. apply list_elem_of_filter. split; [|exact Ht]. rewrite Hw, Hr. exact I.
    + left. apply Hro. apply list_elem_of_filter. split; [rewrite Hw; exact I|].
      apply list_elem_of_filter. split; [|exact Ht]. rewrite Hw, Hr. exact I.
  - intros Hnd. rewrite concat_app, concat_singletons, (Hperm Hnd), <- Hsplit.
    apply Permutation_app_comm.
Qed.

End BatchCoverage.

(** ** Parent statuses in document order *)

Section ParentStatusOrder.
Import State InitOrchestration Derivation.

Lemma set_status_same t : set_status (status t) t = t.
Proof. destruct t; reflexivity. Qed.

(** A step of the loop changes nothing at a task that has the derived
    status. *)
Lemma update_parent_settled ts i :
  parents_derived ts -> update_parent (index_map ts) ts i = ts.
Proof.
  intros Hd. unfold update_parent.
  destruct (ts !! i) as [t|] eqn:Ht; [|reflexivity].
  destruct (subtasks t) as [|sid subs] eqn:Hsubs; [reflexivity|].
  destruct (subtask_statuses _ _ _) as [|st sts] eqn:Hsts; [reflexivity|].
  specialize (Hd i t Ht). unfold statuses_of_subtasks in Hd.
  rewrite Hsubs, Hsts in Hd. specialize (Hd ltac:(discriminate)).
  rewrite <- (derives_unique _ _ _ Hd (parent_status_derives (st :: sts))).
  apply list_eq. intros j. destruct (decide (j = i)) as [->|Hne].
  - rewrite list_lookup_alter_eq, Ht. simpl. rewrite set_status_same. reflexivity.
  - apply list_lookup_alter_ne. auto.
Qed.

Lemma update_parents_settled ts (l : list nat) :
  parents_derived ts -> foldl (update_parent (index_map ts)) ts l = ts.
Proof.
  intros Hd. induction l as [|i l IH]; [reflexivity|].
  simpl. rewrite update_parent_settled by exact Hd. exact IH.
Qed.

(** What a step of the loop keeps of every task. *)
Lemma update_parent_status_only M ts i j t' :
  update_parent M ts i !! j = Some t' ->
  exists t, ts !! j = Some t /\ t' = set_status (status t') t /\
            (subtask_statuses M ts (subtasks t) = [] -> t' = t).
Proof.
  destruct (decide (j = i)) as [->|Hne].
  - destruct (ts !! i) as [t|] eqn:Ht.
    + rewrite (update_parent_at M ts i t Ht). intros [= <-]. exists t.
      split; [reflexivity|].
      destruct (subtask_statuses _ _ _);
        (split; [destruct t; reflexivity|]); [reflexivity | discriminate].
    + intros Hsome. apply lookup_lt_Some in Hsome.
      rewrite update_parent_length in Hsome. apply lookup_ge_None in Ht. lia.
  - rewrite update_parent_other by exact Hne. intros Ht. exists t'.
    split; [exact Ht|]. split; [symmetry; apply set_status_same | reflexivity].
Qed.

Lemma subtask_statuses_nil M (ts ts' : list TaskEntry) subs :
  length ts = length ts' ->
  subtask_statuses M ts subs = [] -> subtask_statuses M ts' subs = [].
Proof.
  intros Hlen. unfold subtask_statuses.
  induction subs as [|sid subs IH]; [reflexivity|]. cbn [omap list_omap].
  destruct (M !! sid) as [j|]; [|exact IH].
  destruct (ts !! j) as [t|] eqn:Ht; [discriminate|]. simpl.
  apply lookup_ge_None in Ht. rewrite Hlen in Ht. apply lookup_ge_None in Ht.
  rewrite Ht. exact IH.
Qed.

Lemma set_status_twice a b t : set_status a (set_status b t) = set_status a t.
Proof. reflexivity. Qed.

Lemma handled_status_only M k : forall ts j t',
  foldl (update_parent M) ts (reverse (seq 0 k)) !! j = Some t' ->
  exists t, ts !! j = Some t /\ t' = set_status (status t') t /\
            (subtask_statuses M ts (subtasks t) = [] -> t' = t).
Proof.
  induction k as [|k IH]; intros ts j t' Ht'.
  { exists t'. split; [exact Ht'|]. split; [symmetry; apply set_status_same | reflexivity]. }
  rewrite handled_S in Ht'. apply IH in Ht' as (t1 & Ht1 & Hs1 & Hf1).
  apply update_parent_status_only in Ht1 as (t & Ht & Hs & Hf).
  exists t. split; [exact Ht|]. split.
  - rewrite Hs1, Hs. reflexivity.
  - intros Hnil. specialize (Hf Hnil). subst t1. apply Hf1.
    apply (subtask_statuses_nil M ts); [|exact Hnil].
    symmetry. apply update_parent_length.
Qed.

(** X4.  [update_parent_statuses] changes nothing but statuses, and leaves
    a task alone when none of its subtask ids names a task.  When every task
    stands before its subtasks in the list, one call gives every parent the
    status that its subtasks' statuses derive, and a second call changes
    nothing. *)
Theorem update_parent_statuses_document_order (state : AgentState) :
  let state' := update_parent_statuses state in
  Forall2 (fun t t' => t' = set_status (status t') t) (tasks state) (tasks state') /\
  (forall i t, tasks state !! i = Some t ->
     statuses_of_subtasks (tasks state) t = [] -> tasks state' !! i = Some t) /\
  (parents_first (tasks state) ->
   parents_derived (tasks state') /\ update_parent_statuses state' = state').
Proof.
  cbv zeta. split; [|split].
  - apply Forall2_same_length_lookup. unfold update_parent_statuses. cbn [tasks set_tasks].
    split; [symmetry; apply handled_length|].
    intros j t t' Ht Ht'.
    apply handled_status_only in Ht' as (t0 & Ht0 & Hs & _). congruence.
  - intros i t Ht Hnil. unfold update_parent_statuses. cbn [tasks set_tasks].
    destruct (foldl _ _ _ !! i) as [t'|] eqn:Ht'.
    + apply handled_status_only in Ht' as (t0 & Ht0 & _ & Hf).
      rewrite Ht in Ht0. injection Ht0 as <-. rewrite (Hf Hnil). reflexivity.
    + apply lookup_ge_None in Ht'. rewrite handled_length in Ht'.
      apply lookup_lt_Some in Ht. lia.
  - intros Hfirst.
    pose proof (update_parent_statuses_parents_first state Hfirst) as Hd.
    split; [exact Hd|].
    unfold update_parent_statuses at 1.
    rewrite update_parents_settled by exact Hd.
    unfold update_parent_statuses, set_tasks. reflexivity.
Qed.

End ParentStatusOrder.

(** ** The search finds the dependents *)

Section DependentsSearch.
Import State FixLoop Dependents.

Lemma follows_trans E a b c : follows E a b -> follows E b c -> follows E a c.
Proof.
  intros Hab Hbc. induction Hbc as [|y z _ IH Hzy]; [exact Hab|].
  exact (follows_step E a y z IH Hzy).
Qed.

Lemma follows_first E a b c : E b a -> follows E b c -> follows E a c.
Proof.
  intros Hba. apply follows_trans. exact (follows_step E a a b (follows_self E a) Hba).
Qed.

Lemma follows_ext (E E' : string -> string -> Prop) a b :
  (forall z y, E z y -> E' z y) -> follows E a b -> follows E' a b.
Proof.
  intros Hsub. induction 1 as [|y z _ IH Hzy]; [constructor|].
  exact (follows_step E' a y z IH (Hsub _ _ Hzy)).
Qed.

(** What is reached from a visited id is visited or reached from the
    queue, when the ids listed under visited ids are visited or queued. *)
Lemma visited_closed rd (queue : list string) (visited : gset string) :
  (forall x y, x ∈ visited -> listed rd y x -> y ∈ visited \/ y ∈ queue) ->
  forall x u, x ∈ visited -> follows (listed rd) x u ->
    u ∈ visited \/ exists q, q ∈ queue /\ follows (listed rd) q u.
Proof.
  intros Hinv x u Hx Hu. induction Hu as [|y z _ IH Hzy]; [left; exact Hx|].
  destruct IH as [Hy | (q & Hq & Hqy)].
  - destruct (Hinv y z Hy Hzy) as [Hz | Hz]; [left; exact Hz|].
    right. exists z. split; [exact Hz | constructor].
  - right. exists q. split; [exact Hq|]. exact (follows_step _ q y z Hqy Hzy).
Qed.

Lemma bfs_reach rd : forall fuel queue visited v,
  bfs rd fuel queue visited = Some v ->
  (forall x y, x ∈ visited -> listed rd y x -> y ∈ visited \/ y ∈ queue) ->
  forall u, u ∈ v <-> u ∈ visited \/ exists q, q ∈ queue /\ follows (listed rd) q u.
Proof.
  induction fuel as [|fuel IH]; intros queue visited v Hbfs Hinv u;
    destruct queue as [|current queue]; simpl in Hbfs; try discriminate.
  - injection Hbfs as <-. split; [auto|]. intros [Hu | (q & Hq & _)]; [exact Hu|].
    apply elem_of_nil in Hq. contradiction.
  - injection Hbfs as <-. split; [auto|]. intros [Hu | (q & Hq & _)]; [exact Hu|].
    apply elem_of_nil in Hq. contradiction.
  - destruct (bool_decide (current ∈ visited)) eqn:Hcur.
    + apply bool_decide_eq_true in Hcur.
      assert (forall x y, x ∈ visited -> listed rd y x -> y ∈ visited \/ y ∈ queue)
        as Hinv'.
      { intros x y Hx Hy. destruct (Hinv x y Hx Hy) as [H | H]; [auto|].
        apply elem_of_cons in H as [-> | H]; auto. }
      rewrite (IH queue visited v Hbfs Hinv' u). split.
      * intros [Hu | (q & Hq & Hqu)]; [auto|]. right. exists q. split; [right|]; auto.
      * intros [Hu | (q & Hq & Hqu)]; [auto|].
        apply elem_of_cons in Hq as [-> | Hq]; [|right; eauto].
        apply (visited_closed rd queue visited Hinv' current u Hcur Hqu).
    + apply bool_decide_eq_false in Hcur.
      set (visited' := visited ∪ {[current]}) in *.
      set (queue' := queue ++ filter (fun d => d ∉ visited')
                                     (elements (default ∅ (rd !! current)))) in *.
      assert (forall x y, x ∈ visited' -> listed rd y x -> y ∈ visited' \/ y ∈ queue')
        as Hinv'.
      { intros x y Hx Hy. subst visited' queue'.
        apply elem_of_union in Hx as [Hx | ->%elem_of_singleton].
        - destruct (Hinv x y Hx Hy) as [H | H].
          + left. apply elem_of_union. auto.
          + apply elem_of_cons in H as [-> | H].
            * left. apply elem_of_union. right. apply elem_of_singleton. reflexivity.
            * right. apply elem_of_app. auto.
        - destruct (decide (y ∈ visited ∪ {[current]})) as [H | H]; [auto|].
          right. apply elem_of_app. right. apply list_elem_of_filter.
          split; [exact H|]. apply elem_of_elements. exact Hy. }
      rewrite (IH queue' visited' v Hbfs Hinv' u). split.
      * intros [Hu | (q & Hq & Hqu)].
        -- apply elem_of_union in Hu as [Hu | ->%elem_of_singleton]; [auto|].
           right. exists current. split; [left | constructor].
        -- right. apply elem_of_app in Hq as [Hq | Hq].
           ++ exists q. split; [right; exact Hq | exact Hqu].
           ++ apply list_elem_of_filter in Hq as [_ Hq]. apply elem_of_elements in Hq.
              exists current. split; [left|]. exact (follows_first _ _ _ _ Hq Hqu).
      * intros [Hu | (q & Hq & Hqu)].
        -- left. apply elem_of_union. auto.
        -- apply elem_of_cons in Hq as [-> | Hq].
           ++ apply (visited_closed rd queue' visited' Hinv' current u); [|exact Hqu].
              apply elem_of_union. right. apply elem_of_singleton. reflexivity.
           ++ right. exists q. split; [apply elem_of_app; auto | exact Hqu].
Qed.

Lemma add_rdeps_listed (e : list string) (tid : string) : forall (rd : rdeps) z y,
  listed (add_rdeps rd e tid) z y <-> listed rd z y \/ (z = tid /\ y ∈ e).
Proof.
  unfold add_rdeps. induction e as [|dep e IH]; intros rd z y; simpl.
  { split; [auto|]. intros [H | [_ H]]; [exact H|]. apply elem_of_nil in H. contradiction. }
  rewrite IH. unfold listed at 1.
  destruct (decide (y = dep)) as [->|Hne].
  - rewrite lookup_insert_eq. simpl. rewrite elem_of_union, elem_of_singleton.
    rewrite elem_of_cons. unfold listed. tauto.
  - rewrite lookup_insert_ne by congruence. rewrite elem_of_cons. unfold listed. tauto.
Qed.

Lemma build_reverse_deps_listed depth task_map : forall ts (rd rd' : rdeps),
  build_reverse_deps depth task_map ts rd = Some rd' ->
  forall z y, listed rd' z y <->
    listed rd z y \/
    exists t e, t ∈ ts /\ task_id t = z /\
      SpecParser.expand_dependencies depth (dependencies t) task_map = Some e /\ y ∈ e.
Proof.
  induction ts as [|t ts IH]; intros rd rd' Hb z y; simpl in Hb.
  { injection Hb as <-. split; [auto|]. intros [H | (t & e & Ht & _)]; [exact H|].
    apply elem_of_nil in Ht. contradiction. }
  destruct (SpecParser.expand_dependencies depth (dependencies t) task_map)
    as [e|] eqn:He; [|discriminate].
  rewrite (IH _ _ Hb z y), add_rdeps_listed. split.
  - intros [[H | [-> Hy]] | (t' & e' & Ht' & H)]; [auto | |].
    + right. exists t, e. repeat split; [left | assumption..].
    + right. exists t', e'. split; [right; exact Ht' | exact H].
  - intros [H | (t' & e' & Ht' & Hid & He' & Hy)]; [auto|].
    apply elem_of_cons in Ht' as [-> | Ht'].
    + left. right. split; [auto|]. congruence.
    + right. exists t', e'. auto.
Qed.

Lemma build_reverse_deps_Some depth task_map : forall ts (rd : rdeps),
  is_Some (build_reverse_deps depth task_map ts rd) <->
  forall t, t ∈ ts ->
    is_Some (SpecParser.expand_dependencies depth (dependencies t) task_map).
Proof.
  induction ts as [|t ts IH]; intros rd; simpl.
  { split; [|eauto]. intros _ t Ht. apply elem_of_nil in Ht. contradiction. }
  destruct (SpecParser.expand_dependencies depth (dependencies t) task_map)
    as [e|] eqn:He.
  - rewrite IH. split.
    + intros H t' [-> | Ht']%elem_of_cons; [rewrite He; eauto | auto].
    + intros H t' Ht'. apply H. right. exact Ht'.
  - split; [intros [? [=]]|]. intros H. specialize (H t ltac:(left)).
    rewrite He in H. destruct H as [? [=]].
Qed.

(** The search returns the dependents of the task and of its parent. *)
Lemma dependents_search_members
    (depth : nat) (state : AgentState) (tid : string) (ids : gset string) :
  get_all_dependent_task_ids depth state tid = Some ids ->
  forall u, u ∈ ids <->
    u <> tid /\ Some u <> truthy_parent (first_task tid (tasks state)) /\
    (dependent_of depth state tid u \/
     exists p, truthy_parent (first_task tid (tasks state)) = Some p /\
               dependent_of depth state p u).
Proof.
  unfold get_all_dependent_task_ids.
  set (task_map := build_task_map (tasks state)).
  set (parent := truthy_parent (first_task tid (tasks state))).
  intros Hids u.
  destruct (build_reverse_deps depth task_map (tasks state) ∅) as [rd|] eqn:Hrd;
    [|discriminate].
  assert (forall z y, listed rd z y <-> depends_on depth state z y) as Hlisted.
  { intros z y. rewrite (build_reverse_deps_listed _ _ _ _ _ Hrd z y).
    unfold listed at 1. rewrite lookup_empty. simpl.
    split; [intros [H | H]; [apply not_elem_of_empty in H; contradiction | exact H]|].
    auto. }
  assert (forall a b, follows (listed rd) a b <-> dependent_of depth state a b) as Hf.
  { intros a b. split; apply follows_ext; intros z y; apply Hlisted. }
  set (queue := tid :: match parent with Some p => [p] | None => [] end) in *.
  destruct (bfs_total rd queue) as [visited Hbfs]. rewrite Hbfs in Hids. simpl in Hids.
  pose proof (bfs_reach rd _ queue ∅ visited Hbfs) as Hreach.
  assert (forall u, u ∈ visited <->
            dependent_of depth state tid u \/
            exists p, parent = Some p /\ dependent_of depth state p u) as Hvis.
  { intros u'. rewrite Hreach.
    2:{ intros x y Hx. apply not_elem_of_empty in Hx. contradiction. }
    split.
    - intros [H | (q & Hq & Hqu)]; [apply not_elem_of_empty in H; contradiction|].
      apply Hf in Hqu. subst queue. apply elem_of_cons in Hq as [-> | Hq]; [auto|].
      right. destruct parent as [p|]; [|apply elem_of_nil in Hq; contradiction].
      apply list_elem_of_singleton in Hq as ->. eauto.
    - intros [H | (p & Hp & H)]; right.
      + exists tid. split; [left | apply Hf, H].
      + exists p. split; [|apply Hf, H]. subst queue. rewrite Hp. right. left. }
  injection Hids as <-. destruct parent as [p|].
  - rewrite !elem_of_difference, !elem_of_singleton, Hvis.
    split; [intros [[H ?] ?]; repeat split; auto; congruence|].
    intros (? & Hp & H). repeat split; auto. congruence.
  - rewrite !elem_of_difference, !elem_of_singleton, Hvis.
    split; [intros [H ?]; repeat split; auto; discriminate|].
    intros (? & _ & H). split; auto.
Qed.


(** The ids of an expansion name no task with subtasks. *)
Lemma leaves_not_parents {T : Type} `{HasSubtasks T} (m : gmap string T) deps l :
  Flatten.leaves_all m deps l -> forall x, x ∈ l -> Flatten.is_parent m x = false.
Proof.
  revert deps l.
  apply (Flatten.leaves_all_mut T _ m
    (fun _ l => forall x, x ∈ l -> Flatten.is_parent m x = false)
    (fun _ l => forall x, x ∈ l -> Flatten.is_parent m x = false)).
  - intros id Hid x ->%list_elem_of_singleton. exact Hid.
  - intros id t l _ _ _ IH. exact IH.
  - intros x Hx. apply elem_of_nil in Hx. contradiction.
  - intros id ids l ls _ IH1 _ IH2 x [Hx | Hx]%elem_of_app; auto.
Qed.

Lemma expanded_not_parents {T : Type} `{HasSubtasks T} (m : gmap string T) d deps r :
  SpecParser.expand_dependencies d deps m = Some r ->
  forall x, x ∈ r -> Flatten.is_parent m x = false.
Proof.
  intros (l & Hl & ->)%expand_sound x Hx.
  apply elem_of_fromkeys_from in Hx as [Hx _].
  exact (leaves_not_parents m deps l Hl x Hx).
Qed.

Lemma follows_inv E s u : follows E s u -> u = s \/ exists z, E z s.
Proof.
  induction 1 as [|y z _ IH Hzy]; [auto|].
  destruct IH as [-> | IH]; eauto.
Qed.

(** X5.  [get_all_dependent_task_ids] returns exactly when the expansion of
    every task's dependencies does, and then it returns the transitive
    dependents of the task and of its parent (when it has one): the ids
    reached from them by going from an id to a task whose expanded
    dependencies hold it, without the task and its parent themselves. *)
Theorem dependents_are_found (depth : nat) (state : AgentState) (tid : string) :
  let parent := truthy_parent (first_task tid (tasks state)) in
  (is_Some (get_all_dependent_task_ids depth state tid) <->
   forall t, t ∈ tasks state ->
     is_Some (SpecParser.expand_dependencies depth (dependencies t)
                (build_task_map (tasks state)))) /\
  forall ids, get_all_dependent_task_ids depth state tid = Some ids ->
    forall u, u ∈ ids <->
      u <> tid /\ Some u <> parent /\
      (dependent_of depth state tid u \/
       exists p, parent = Some p /\ dependent_of depth state p u).
Proof.
  cbv zeta. split; [|apply dependents_search_members].
  unfold get_all_dependent_task_ids.
  rewrite <- (build_reverse_deps_Some depth (build_task_map (tasks state))
                (tasks state) ∅).
  destruct (build_reverse_deps depth (build_task_map (tasks state)) (tasks state) ∅)
    as [rd|].
  - split; eauto.
  - split; intros [? [=]].
Qed.

(** X6.  For a task with subtasks (whose parent, if it has one, has
    subtasks too) the search finds no dependent at all, also when other tasks
    name it as a dependency: the dependencies are recorded under the ids of
    the leaves that they expand to, never under the id of a parent. *)
Theorem dependents_of_parent_task_not_found
    (depth : nat) (state : AgentState) (tid : string) (ids : gset string) :
  get_all_dependent_task_ids depth state tid = Some ids ->
  Flatten.is_parent (build_task_map (tasks state)) tid = true ->
  (forall p, truthy_parent (first_task tid (tasks state)) = Some p ->
             Flatten.is_parent (build_task_map (tasks state)) p = true) ->
  ids = ∅.
Proof.
  intros Hids Htid Hparent.
  assert (forall s u, Flatten.is_parent (build_task_map (tasks state)) s = true ->
            dependent_of depth state s u -> u = s) as Hnone.
  { intros s u Hs Hu. apply follows_inv in Hu as [-> | (z & t & e & _ & _ & He & Hin)];
      [reflexivity|].
    rewrite (expanded_not_parents _ _ _ _ He s Hin) in Hs. discriminate. }
  apply gset_leibniz. intros u. split; [|intros []%not_elem_of_empty].
  intros Hu.
  apply (dependents_search_members depth state tid ids Hids u) in Hu
    as (Hne & Hnp & [Hd | (p & Hp & Hd)]).
  - apply Hnone in Hd; [contradiction | exact Htid].
  - apply Hnone in Hd; [|apply Hparent, Hp]. subst u. rewrite Hp in Hnp. contradiction.
Qed.

End DependentsSearch.

(** ** Blocking the dependents of a task *)

Section Blocking.
Import State FixLoop Dependents.
Variable clock : nat -> string.

(** A task is blocked when it is a dependent that is neither completed nor
    blocked, and is left as it is otherwise. *)
Lemma block_dependent_tasks_tasks (depth : nat) (w w' : World) (tid reason : string) :
  block_dependent_tasks clock depth w tid reason = Some w' ->
  Forall2 (fun t t' =>
             (dependent depth (agent_state w) tid (task_id t) /\
              status t <> "completed" /\ status t <> "blocked" /\
              t' = set_blocked reason tid t) \/
             ((~ dependent depth (agent_state w) tid (task_id t) \/
               status t = "completed" \/ status t = "blocked") /\ t' = t))
          (tasks (agent_state w)) (tasks (agent_state w')).
Proof.
  unfold block_dependent_tasks.
  destruct (get_all_dependent_task_ids depth (agent_state w) tid) as [ids|] eqn:Hids;
    [|discriminate].
  intros [= <-]. cbn [agent_state tasks].
  pose proof (dependents_search_members depth (agent_state w) tid ids Hids) as Hspec.
  change (forall u, u ∈ ids <-> dependent depth (agent_state w) tid u) in Hspec.
  apply Forall2_fmap_r, Forall_Forall2_diag, Forall_forall. intros t _.
  unfold compose. cbv beta.
  destruct (bool_decide (task_id t ∈ ids)) eqn:Hin;
    destruct (bool_decide (status t ∈ ["completed"; "blocked"])) eqn:Hst;
    cbn [andb negb];
    [apply bool_decide_eq_true, Hspec in Hin | apply bool_decide_eq_true, Hspec in Hin
     | apply bool_decide_eq_false in Hin; rewrite Hspec in Hin
     | apply bool_decide_eq_false in Hin; rewrite Hspec in Hin];
    [apply bool_decide_eq_true in Hst | apply bool_decide_eq_false in Hst
     | apply bool_decide_eq_true in Hst | apply bool_decide_eq_false in Hst];
    rewrite !elem_of_cons, elem_of_nil in Hst; intuition auto.
Qed.


End Blocking.

(** ** What a consolidation does to the task *)

Section ConsolidationOutcome.
Import State FixLoop ConsolidateReviews Dependents.
Variable clock : nat -> string.

Lemma first_index_Some tid ts i :
  first_index tid ts = Some i ->
  exists t, ts !! i = Some t /\ State.task_id t = tid.
Proof.
  revert i. induction ts as [|t ts IH]; intros i; [discriminate|]. simpl.
  destruct (String.eqb (State.task_id t) tid) eqn:E.
  - intros [= <-]. exists t. split; [reflexivity | apply String.eqb_eq, E].
  - intros (j & Hj & ->)%fmap_Some. apply IH in Hj. exact Hj.
Qed.

(** The fix loop leaves the task that enters it with the status fix_required,
    the severity and one more entry in its review history; the blocking of
    the dependents does not touch it. *)
Lemma enter_fix_loop_task depth w tid fs w' i t :
  enter_fix_loop clock depth w tid fs = (w', true) ->
  first_index tid (tasks (agent_state w)) = Some i ->
  tasks (agent_state w) !! i = Some t ->
  let sev := overall_of (map (fun f => default "minor" (f_severity f)) fs) in
  tasks (agent_state w') !! i
  = Some (set_review sev (mkReviewEntry (fix_attempts t) sev fs (clock (ticks w))) t) /\
  length (tasks (agent_state w')) = length (tasks (agent_state w)).
Proof.
  unfold enter_fix_loop. intros Henter Hi Ht. rewrite Hi, Ht in Henter.
  cbn [fmap option_fmap option_map default] in Henter.
  destruct (block_dependent_tasks _ _ _ _ _) as [w2|] eqn:Hblock; [|discriminate].
  injection Henter as <-.
  destruct (first_index_Some _ _ _ Hi) as (t0 & Ht0 & Hid).
  assert (t0 = t) as -> by congruence.
  apply block_dependent_tasks_tasks in Hblock as Hall.
  cbn [agent_state tasks set_tasks] in Hall.
  cbv zeta. split.
  - set (t1 := set_review _ _ t).
    assert (alter (set_review
                     (overall_of (map (fun f => default "minor" (f_severity f)) fs))
                     (mkReviewEntry (fix_attempts t)
                        (overall_of (map (fun f => default "minor" (f_severity f)) fs))
                        fs (clock (ticks w))))
                  i (tasks (agent_state w)) !! i = Some t1) as Ht1.
    { rewrite list_lookup_alter_eq, Ht. reflexivity. }
    destruct (Forall2_lookup_l _ _ _ _ _ Hall Ht1) as (t' & Ht' & Hcase).
    rewrite Ht'. f_equal.
    destruct Hcase as [([Hne _] & _) | [_ ->]]; [|reflexivity].
    destruct Hne. exact Hid.
  - rewrite <- (Forall2_length _ _ _ Hall). apply length_alter.
Qed.

(** The loop over the subtasks: the tasks that a subtask id names are
    completed, the others are as before. *)
Lemma complete_subtasks_lookup (M : gmap string nat) (f : TaskEntry -> TaskEntry) subs :
  (forall t, f (f t) = f t) ->
  forall (ts : list TaskEntry) (k : nat),
    foldl (fun ts sid => match M !! sid with
                         | Some j => alter f j ts
                         | None => ts
                         end) ts subs !! k
    = if bool_decide (Exists (fun sid => M !! sid = Some k) subs)
      then f <$> ts !! k else ts !! k.
Proof.
  intros Hf. induction subs as [|sid subs IH]; intros ts k.
  { cbn [foldl]. rewrite bool_decide_eq_false_2; [reflexivity|]. intros H%Exists_nil. exact H. }
  cbn [foldl]. rewrite IH.
  assert (match M !! sid with Some j => alter f j ts | None => ts end !! k
          = if bool_decide (M !! sid = Some k) then f <$> ts !! k else ts !! k) as Hstep.
  { destruct (M !! sid) as [j|].
    - destruct (decide (j = k)) as [->|Hne].
      + rewrite bool_decide_eq_true_2 by reflexivity. apply list_lookup_alter_eq.
      + rewrite bool_decide_eq_false_2 by congruence.
        apply list_lookup_alter_ne. exact Hne.
    - rewrite bool_decide_eq_false_2 by discriminate. reflexivity. }
  rewrite Hstep.
  destruct (bool_decide (M !! sid = Some k)) eqn:Ehd.
  - apply bool_decide_eq_true in Ehd.
    rewrite (bool_decide_eq_true_2 (Exists _ (sid :: subs)))
      by (apply Exists_cons; left; exact Ehd).
    destruct (bool_decide (Exists _ subs)); [|reflexivity].
    destruct (ts !! k); simpl; [rewrite Hf|]; reflexivity.
  - apply bool_decide_eq_false in Ehd.
    rewrite (bool_decide_ext (Exists _ (sid :: subs))
               (Exists (fun sid => M !! sid = Some k) subs)); [reflexivity|].
    rewrite Exists_cons. tauto.
Qed.

Lemma complete_subtasks_length (M : gmap string nat) (f : TaskEntry -> TaskEntry) subs :
  forall ts : list TaskEntry,
    length (foldl (fun ts sid => match M !! sid with
                                 | Some j => alter f j ts
                                 | None => ts
                                 end) ts subs) = length ts.
Proof.
  induction subs as [|sid subs IH]; intros ts; [reflexivity|].
  cbn [foldl]. rewrite IH. destruct (M !! sid); [apply length_alter | reflexivity].
Qed.

(** X8.  When [consolidate_single_task] returns a report, the list of tasks
    keeps its length.  If the severity of the report is critical or major,
    the first task with the id is in fix_required with the severity and one
    more entry in its review history; otherwise, with [auto_complete], the
    last task with the id and the tasks that its subtask ids name are
    completed at the time of the call and all others are unchanged; without
    [auto_complete], or when no task has the id, the tasks are unchanged. *)
Theorem consolidation_completes_or_enters_fix_loop
    (depth : nat) (w w' : World) (tid : string) (auto_complete : bool)
    (report : FinalReport) :
  consolidate_single_task clock depth w tid auto_complete
  = (Returned (Some report), w') ->
  let ts := tasks (agent_state w) in
  let ts' := tasks (agent_state w') in
  let sev := overall_severity report in
  let now := clock (S (ticks w)) in
  let complete t := set_completed_at now (set_status "completed" t) in
  length ts' = length ts /\
  (should_enter_fix_loop sev = true ->
   forall i t, first_index tid ts = Some i -> ts !! i = Some t ->
     ts' !! i = Some (set_review sev (mkReviewEntry (fix_attempts t) sev
                                        (findings report) now) t)) /\
  (should_enter_fix_loop sev = false -> auto_complete = true ->
   forall i t, index_map ts !! tid = Some i -> ts !! i = Some t ->
     forall k,
       ts' !! k
       = if bool_decide (k = i \/
                         Exists (fun sid => index_map ts !! sid = Some k) (subtasks t))
         then complete <$> ts !! k else ts !! k) /\
  (should_enter_fix_loop sev = false ->
   auto_complete = false \/ index_map ts !! tid = None -> ts' = ts).
Proof.
  unfold consolidate_single_task.
  destruct (has_existing_final_report (agent_state w) tid); [discriminate|].
  unfold consolidate_findings.
  destruct (get_review_findings_for_task (agent_state w) tid) as [|f fs] eqn:Hfs;
    [discriminate|].
  set (report0 := mkFinalReport _ _ _ _ _ _).
  set (w2 := mkWorld (add_final_report _ report0) _).
  assert (tasks (agent_state w2) = tasks (agent_state w)) as Hts2 by reflexivity.
  assert (ticks w2 = S (ticks w)) as Hticks by reflexivity.
  destruct (should_enter_fix_loop (overall_severity report0)) eqn:Henter.
  - (* the fix loop *)
    destruct (enter_fix_loop clock depth w2 tid (findings report0)) as [w3 []] eqn:Hloop;
      [|discriminate].
    intros [= <- <-]. cbv zeta. rewrite Henter.
    split; [|split; [|split; discriminate]].
    + unfold enter_fix_loop in Hloop.
      destruct (first_index tid (tasks (agent_state w2))) as [i|] eqn:Hi.
      * destruct (first_index_Some _ _ _ Hi) as (t & Ht & _).
        destruct (enter_fix_loop_task depth w2 tid (findings report0) w3 i t)
          as [_ Hlen]; [|exact Hi | exact Ht | rewrite Hlen, Hts2; reflexivity].
        unfold enter_fix_loop. rewrite Hi. exact Hloop.
      * injection Hloop as <-. rewrite Hts2. reflexivity.
    + intros _ i t Hi Ht. rewrite <- Hts2 in Hi, Ht.
      destruct (enter_fix_loop_task depth w2 tid (findings report0) w3 i t Hloop Hi Ht)
        as [Hlook _]. cbv zeta in Hlook. rewrite Hlook, Hticks.
      rewrite (fix_loop_severity_agrees (findings report0)) by exact Henter.
      reflexivity.
  - destruct auto_complete.
    + (* the task is completed *)
      intros [= <- <-]. cbv zeta. rewrite Henter.
      unfold update_task_to_completed. rewrite Hts2, Hticks.
      destruct (index_map (tasks (agent_state w)) !! tid) as [i|] eqn:Hi.
      * cbn [agent_state tasks set_tasks].
        split; [|split; [discriminate|split]].
        -- rewrite complete_subtasks_length. apply length_alter.
        -- intros _ _ i' t [= <-] Ht k.
           rewrite list_lookup_alter_eq, Ht. cbn [fmap option_fmap option_map default].
           cbn [set_completed_at set_status subtasks].
           rewrite complete_subtasks_lookup by reflexivity.
           destruct (decide (k = i)) as [->|Hne].
           ++ rewrite list_lookup_alter_eq, Ht.
              rewrite (bool_decide_eq_true_2 (i = i \/ _)) by auto.
              destruct (bool_decide (Exists _ _)); reflexivity.
           ++ rewrite list_lookup_alter_ne by auto.
              rewrite (bool_decide_ext (k = i \/ _)
                         (Exists (fun sid => index_map (tasks (agent_state w)) !! sid
                                             = Some k) (subtasks t))) by tauto.
              reflexivity.
        -- intros _ [? | ?]; discriminate.
      * rewrite Hts2. split; [reflexivity|]. split; [discriminate|].
        split; [intros _ _ i t [=]|]. reflexivity.
    + intros [= <- <-]. cbv zeta. rewrite Henter, Hts2.
      split; [reflexivity|]. split; [discriminate|]. split; [discriminate|]. reflexivity.
Qed.

End ConsolidationOutcome.

(** ** The table of status transitions *)

Section TransitionTable.
Import Transitions.

Lemma get_list_cases s :
  ((s ∈ map fst VALID_TRANSITIONS) /\
   ((s, get_list s VALID_TRANSITIONS) ∈ VALID_TRANSITIONS))
  \/ ((s ∉ map fst VALID_TRANSITIONS) /\ get_list s VALID_TRANSITIONS = []).
Proof.
  unfold VALID_TRANSITIONS. cbn [get_list map fst].
  repeat match goal with
         | |- context [String.eqb ?k s] =>
             destruct (String.eqb_spec k s) as [<- | ?];
               [left; split; rewrite !elem_of_cons; tauto|]
         end.
  right. split; [|reflexivity].
  rewrite !elem_of_cons, elem_of_nil. intuition congruence.
Qed.

Lemma status_values_keys : status_values = map fst VALID_TRANSITIONS.
Proof. reflexivity. Qed.

(** X9.  The table of the valid status transitions: completed is final and
    is the only status without a successor; a valid transition goes between
    two different known statuses; every status but completed and blocked may
    change to blocked; and from every known status a chain of valid
    transitions leads to completed. *)
Theorem transition_table_shape :
  (forall t, validate_transition "completed" t = false) /\
  (forall s t, validate_transition s t = true ->
     s ∈ status_values /\ t ∈ status_values /\ s <> t) /\
  (forall s, s ∈ status_values -> s <> "completed" -> s <> "blocked" ->
     validate_transition s "blocked" = true) /\
  (forall s, s ∈ status_values -> chain s "completed") /\
  (forall s, s ∈ status_values ->
     (forall t, validate_transition s t = false) -> s = "completed").
Proof.
  assert (forall s, s ∈ status_values ->
            s = "not_started" \/ s = "in_progress" \/ s = "pending_review" \/
            s = "under_review" \/ s = "fix_required" \/ s = "final_review" \/
            s = "completed" \/ s = "blocked") as Hvalues.
  { intros s Hs. unfold status_values in Hs. cbn [map SpecParser.status_value] in Hs.
    rewrite !elem_of_cons, elem_of_nil in Hs. tauto. }
  assert (chain "final_review" "completed") as Hfinal.
  { apply (chain_step _ "completed"); [reflexivity | constructor]. }
  assert (chain "under_review" "completed") as Hunder.
  { apply (chain_step _ "final_review"); [reflexivity | exact Hfinal]. }
  assert (chain "pending_review" "completed") as Hpending.
  { apply (chain_step _ "under_review"); [reflexivity | exact Hunder]. }
  assert (chain "in_progress" "completed") as Hprogress.
  { apply (chain_step _ "pending_review"); [reflexivity | exact Hpending]. }
  split; [reflexivity|]. split; [|split; [|split]].
  - intros s t Hst. unfold validate_transition in Hst. cbv zeta in Hst.
    apply bool_decide_eq_true in Hst.
    destruct (get_list_cases s) as [[Hs Hin] | [_ Hnone]];
      [|rewrite Hnone in Hst; apply elem_of_nil in Hst; contradiction].
    rewrite status_values_keys. split; [exact Hs|].
    revert Hst. generalize (get_list s VALID_TRANSITIONS) Hin. intros targets Htargets Ht.
    unfold VALID_TRANSITIONS in Htargets |- *. cbn [map fst].
    rewrite !elem_of_cons, elem_of_nil in Htargets.
    repeat match type of Htargets with
           | _ \/ _ => destruct Htargets as [[= -> ->] | Htargets]
           | False => contradiction
           end;
      rewrite ?elem_of_cons, elem_of_nil in Ht;
      rewrite !elem_of_cons, elem_of_nil;
      intuition (subst; try discriminate; auto).
  - intros s Hs Hc Hb. apply Hvalues in Hs.
    repeat match type of Hs with
           | _ \/ _ => destruct Hs as [-> | Hs]
           end; subst; try reflexivity; contradiction.
  - intros s Hs. apply Hvalues in Hs.
    repeat match type of Hs with
           | _ \/ _ => destruct Hs as [-> | Hs]
           end; subst; try assumption.
    + apply (chain_step _ "in_progress"); [reflexivity | exact Hprogress].
    + apply (chain_step _ "in_progress"); [reflexivity | exact Hprogress].
    + constructor.
    + apply (chain_step _ "in_progress"); [reflexivity | exact Hprogress].
  - intros s Hs Hnone. apply Hvalues in Hs.
    repeat match type of Hs with
           | _ \/ _ => destruct Hs as [-> | Hs]
           end; subst; try reflexivity.
    + specialize (Hnone "blocked"). discriminate.
    + specialize (Hnone "blocked"). discriminate.
    + specialize (Hnone "blocked"). discriminate.
    + specialize (Hnone "blocked"). discriminate.
    + specialize (Hnone "blocked"). discriminate.
    + specialize (Hnone "blocked"). discriminate.
    + specialize (Hnone "not_started"). discriminate.
Qed.

End TransitionTable.

(** ** Ready tasks and dispatchable units *)

Section UnitsProperties.
Import Units.

Lemma leaves_functional {T : Type} `{HasSubtasks T} (m : gmap string T) deps l :
  Flatten.leaves_all m deps l -> forall l', Flatten.leaves_all m deps l' -> l = l'.
Proof.
  revert deps l.
  apply (Flatten.leaves_all_mut T _ m
    (fun id l => forall l', Flatten.leaves m id l' -> l = l')
    (fun ids l => forall l', Flatten.leaves_all m ids l' -> l = l')).
  - intros id Hleaf l' Hl'. inversion Hl' as [? _ | ? t ? Hm Hne _]; subst; [reflexivity|].
    unfold Flatten.is_parent in Hleaf. rewrite Hm in Hleaf.
    destruct (subtasks_of t); [contradiction | discriminate].
  - intros id t l Hm Hne _ IH l' Hl'.
    inversion Hl' as [? Hleaf | ? t' ? Hm' _ Hall]; subst.
    + unfold Flatten.is_parent in Hleaf. rewrite Hm in Hleaf.
      destruct (subtasks_of t); [contradiction | discriminate].
    + rewrite Hm in Hm'. injection Hm' as <-. apply IH, Hall.
  - intros l' Hl'. inversion Hl'. reflexivity.
  - intros id ids l ls _ IH1 _ IH2 l' Hl'.
    inversion Hl' as [|? ? l1 l2 H1 H2]; subst.
    rewrite (IH1 l1 H1), (IH2 l2 H2). reflexivity.
Qed.

(** The test that both loops make on the expansion of the dependencies. *)
Lemma all_completed_satisfied {T : Type} `{HasSubtasks T}
    (m : gmap string T) depth deps e (C : gset string) :
  SpecParser.expand_dependencies depth deps m = Some e ->
  all_completed C e = true <-> dependencies_satisfied m C deps.
Proof.
  intros (l & Hl & ->)%expand_sound. unfold all_completed, dependencies_satisfied.
  rewrite forallb_forall. split.
  - intros Hall. exists l. split; [exact Hl|]. intros x Hx.
    specialize (Hall x). rewrite bool_decide_eq_true in Hall. apply Hall.
    apply list_elem_of_In, elem_of_fromkeys_from.
    split; [exact Hx | apply not_elem_of_nil].
  - intros (l' & Hl' & Hall) x Hx. rewrite bool_decide_eq_true. apply Hall.
    rewrite <- (leaves_functional m deps l Hl l' Hl').
    apply list_elem_of_In, elem_of_fromkeys_from in Hx as [Hx _]. exact Hx.
Qed.

Lemma ready_loop_spec depth M (C : gset string) : forall tasks ready r,
  ready_loop depth M C tasks ready = Some r ->
  exists picked, r = ready ++ picked /\ sublist picked tasks /\
    forall t, t ∈ picked <->
      t ∈ tasks /\ SpecParser.subtasks t = [] /\ (SpecParser.task_id t ∉ C) /\
      SpecParser.status t <> SpecParser.COMPLETED /\
      dependencies_satisfied M C (SpecParser.dependencies t).
Proof.
  induction tasks as [|task rest IH]; intros ready r Hr; simpl in Hr.
  { injection Hr as <-. exists []. rewrite app_nil_r. split; [reflexivity|].
    split; [constructor|]. intros t. rewrite !elem_of_nil. tauto. }
  assert (forall picked,
            sublist picked rest ->
            (forall t, t ∈ picked <->
               t ∈ rest /\ SpecParser.subtasks t = [] /\ (SpecParser.task_id t ∉ C) /\
               SpecParser.status t <> SpecParser.COMPLETED /\
               dependencies_satisfied M C (SpecParser.dependencies t)) ->
            ~ (SpecParser.subtasks task = [] /\ (SpecParser.task_id task ∉ C) /\
               SpecParser.status task <> SpecParser.COMPLETED /\
               dependencies_satisfied M C (SpecParser.dependencies task)) ->
            sublist picked (task :: rest) /\
            forall t, t ∈ picked <->
              t ∈ task :: rest /\ SpecParser.subtasks t = [] /\
              (SpecParser.task_id t ∉ C) /\
              SpecParser.status t <> SpecParser.COMPLETED /\
              dependencies_satisfied M C (SpecParser.dependencies t)) as Hskip.
  { intros picked Hsub Hiff Hnot. split; [apply sublist_cons, Hsub|].
    intros t. rewrite Hiff, elem_of_cons. split; [tauto|].
    intros [[-> | Ht] He]; tauto. }
  unfold is_leaf_task in Hr. cbn [obj_subtasks Task_object] in Hr.
  destruct (SpecParser.subtasks task) as [|s0 subs] eqn:Hsubs; cbn [length Nat.eqb negb] in Hr.
  2:{ destruct (IH _ _ Hr) as (picked & -> & Hsub & Hiff). exists picked.
      split; [reflexivity|]. apply Hskip; [assumption..|]. intros [[=] _]. }
  destruct (bool_decide (SpecParser.task_id task ∈ C)) eqn:Hin; cbn [orb] in Hr.
  { apply bool_decide_eq_true in Hin.
    destruct (IH _ _ Hr) as (picked & -> & Hsub & Hiff). exists picked.
    split; [reflexivity|]. apply Hskip; [assumption..|]. tauto. }
  apply bool_decide_eq_false in Hin.
  assert (is_completed (SpecParser.status task) = true ->
          SpecParser.status task = SpecParser.COMPLETED) as Hcompleted.
  { destruct (SpecParser.status task); simpl; congruence. }
  change (match SpecParser.status task with
          | SpecParser.COMPLETED => true
          | _ => false
          end) with (is_completed (SpecParser.status task)) in Hr.
  destruct (is_completed (SpecParser.status task)) eqn:Hst.
  { destruct (IH _ _ Hr) as (picked & -> & Hsub & Hiff). exists picked.
    split; [reflexivity|]. apply Hskip; [assumption..|].
    intros (_ & _ & Hne & _). auto. }
  destruct (SpecParser.expand_dependencies depth (SpecParser.dependencies task) M)
    as [e|] eqn:He; [|discriminate].
  pose proof (all_completed_satisfied M depth _ e C He) as Hsat.
  destruct (all_completed C e).
  - destruct (IH _ _ Hr) as (picked & -> & Hsub & Hiff). exists (task :: picked).
    split; [rewrite <- app_assoc; reflexivity|]. split; [apply sublist_skip, Hsub|].
    intros t. rewrite !elem_of_cons, Hiff. split.
    + intros [-> | ?]; [|tauto]. repeat split; auto.
      * intros Hc. rewrite Hc in Hst. discriminate.
      * apply Hsat. reflexivity.
    + tauto.
  - destruct (IH _ _ Hr) as (picked & -> & Hsub & Hiff). exists picked.
    split; [reflexivity|]. apply Hskip; [assumption..|].
    intros (_ & _ & _ & Hd). apply Hsat in Hd. discriminate.
Qed.

Lemma ready_loop_total depth M (C : gset string) : forall tasks ready,
  (forall t, t ∈ tasks ->
     is_Some (SpecParser.expand_dependencies depth (SpecParser.dependencies t) M)) ->
  is_Some (ready_loop depth M C tasks ready).
Proof.
  induction tasks as [|task rest IH]; intros ready Hall; simpl; [eauto|].
  assert (forall ready', is_Some (ready_loop depth M C rest ready')) as Hrest.
  { intros ready'. apply IH. intros t Ht. apply Hall. right. exact Ht. }
  destruct (negb _); [apply Hrest|]. destruct (_ || _); [apply Hrest|].
  destruct (Hall task ltac:(left)) as [e ->].
  destruct (all_completed C e); apply Hrest.
Qed.

(** X10.  [get_ready_tasks] returns when the expansion of every task's
    dependencies does, and then it returns, in the order of the given list,
    exactly the tasks without subtasks that are not completed (neither by
    status nor by the given ids) and whose dependencies, with every parent
    replaced by its leaves, are all among the completed ids. *)
Theorem get_ready_tasks_leaves_completed
    (depth : nat) (tasks : list SpecParser.Task) (completed_ids : gset string) :
  ((forall t, t ∈ tasks ->
      is_Some (SpecParser.expand_dependencies depth (SpecParser.dependencies t)
                 (task_map_of tasks))) ->
   is_Some (get_ready_tasks depth tasks completed_ids)) /\
  forall ready, get_ready_tasks depth tasks completed_ids = Some ready ->
    sublist ready tasks /\
    forall t, t ∈ ready <->
      t ∈ tasks /\ SpecParser.subtasks t = [] /\
      (SpecParser.task_id t ∉ completed_ids) /\
      SpecParser.status t <> SpecParser.COMPLETED /\
      dependencies_satisfied (task_map_of tasks) completed_ids
        (SpecParser.dependencies t).
Proof.
  split; [apply ready_loop_total|].
  intros ready Hready. apply ready_loop_spec in Hready as (picked & -> & Hsub & Hiff).
  split; assumption.
Qed.

Section Dispatchable.
Context {T : Type} `{TaskObject T}.

(** What makes a task a unit to dispatch now. *)
Local Abbreviation eligible M C t :=
  (is_dispatch_unit t = true /\ (obj_task_id t ∉ C) /\
   obj_status t = "not_started" /\
   @dependencies_satisfied T obj_subtasks M C (obj_dependencies t)).

Lemma dispatchable_loop_spec depth (M : gmap string T) (C : gset string) :
  forall tasks ready r,
    dispatchable_loop depth M C tasks ready = Some r ->
    exists picked, r = ready ++ picked /\ sublist picked tasks /\
      forall t, t ∈ picked <-> t ∈ tasks /\ eligible M C t.
Proof.
  induction tasks as [|task rest IH]; intros ready r Hr; cbn [dispatchable_loop] in Hr.
  { injection Hr as <-. exists []. rewrite app_nil_r. split; [reflexivity|].
    split; [constructor|]. intros t. rewrite !elem_of_nil. tauto. }
  assert (forall picked,
            sublist picked rest ->
            (forall t, t ∈ picked <-> t ∈ rest /\ eligible M C t) ->
            ~ eligible M C task ->
            sublist picked (task :: rest) /\
            forall t, t ∈ picked <-> t ∈ task :: rest /\ eligible M C t) as Hskip.
  { intros picked Hsub Hiff Hnot. split; [apply sublist_cons, Hsub|].
    intros t. rewrite Hiff, elem_of_cons. split; [tauto|].
    intros [[-> | Ht] He]; tauto. }
  destruct (is_dispatch_unit task) eqn:Hunit; cbn [negb] in Hr.
  2:{ destruct (IH _ _ Hr) as (picked & -> & Hsub & Hiff). exists picked.
      split; [reflexivity|]. apply Hskip; [assumption..|]. intros [[=] _]. }
  destruct (bool_decide (obj_task_id task ∈ C)) eqn:Hin; cbn [orb] in Hr.
  { apply bool_decide_eq_true in Hin.
    destruct (IH _ _ Hr) as (picked & -> & Hsub & Hiff). exists picked.
    split; [reflexivity|]. apply Hskip; [assumption..|]. tauto. }
  apply bool_decide_eq_false in Hin.
  destruct (String.eqb_spec (obj_status task) "not_started") as [Hst|Hst];
    cbn [negb] in Hr.
  2:{ destruct (IH _ _ Hr) as (picked & -> & Hsub & Hiff). exists picked.
      split; [reflexivity|]. apply Hskip; [assumption..|]. tauto. }
  destruct (@SpecParser.expand_dependencies T obj_subtasks depth
              (obj_dependencies task) M) as [e|] eqn:He; [|discriminate].
  pose proof (@all_completed_satisfied T obj_subtasks M depth _ e C He) as Hsat.
  destruct (all_completed C e).
  - destruct (IH _ _ Hr) as (picked & -> & Hsub & Hiff). exists (task :: picked).
    split; [rewrite <- app_assoc; reflexivity|]. split; [apply sublist_skip, Hsub|].
    intros t. rewrite !elem_of_cons, Hiff. split; [|tauto].
    intros [-> | ?]; [|tauto]. repeat split; auto. apply Hsat. reflexivity.
  - destruct (IH _ _ Hr) as (picked & -> & Hsub & Hiff). exists picked.
    split; [reflexivity|]. apply Hskip; [assumption..|].
    intros (_ & _ & _ & Hd). apply Hsat in Hd. discriminate.
Qed.

Lemma dispatchable_loop_total depth (M : gmap string T) (C : gset string) :
  forall tasks ready,
    (forall t, t ∈ tasks ->
       is_Some (@SpecParser.expand_dependencies T obj_subtasks depth
                  (obj_dependencies t) M)) ->
    is_Some (dispatchable_loop depth M C tasks ready).
Proof.
  induction tasks as [|task rest IH]; intros ready Hall; cbn [dispatchable_loop]; [eauto|].
  assert (forall ready', is_Some (dispatchable_loop depth M C rest ready')) as Hrest.
  { intros ready'. apply IH. intros t Ht. apply Hall. right. exact Ht. }
  destruct (negb _); [apply Hrest|]. destruct (_ || _); [apply Hrest|].
  destruct (Hall task ltac:(left)) as [e ->].
  destruct (all_completed C e); apply Hrest.
Qed.

(** X11.  [get_dispatchable_units] returns when the expansion of every
    task's dependencies does, and then it returns, in the order of the given
    list, exactly the dispatch units that are not started, not among the
    completed ids, and whose expanded dependencies are all completed.  A
    returned unit without subtasks has no parent. *)
Theorem get_dispatchable_units_leaves_completed
    (depth : nat) (tasks : list T) (completed_ids : gset string) :
  ((forall t, t ∈ tasks ->
      is_Some (@SpecParser.expand_dependencies T obj_subtasks depth
                 (obj_dependencies t) (task_map_of tasks))) ->
   is_Some (get_dispatchable_units depth tasks completed_ids)) /\
  forall units, get_dispatchable_units depth tasks completed_ids = Some units ->
    sublist units tasks /\
    (forall t, t ∈ units <->
       t ∈ tasks /\ is_dispatch_unit t = true /\
       (obj_task_id t ∉ completed_ids) /\ obj_status t = "not_started" /\
       @dependencies_satisfied T obj_subtasks (task_map_of tasks) completed_ids
         (obj_dependencies t)) /\
    (forall t, t ∈ units -> obj_subtasks t = [] -> obj_parent_id t = None).
Proof.
  split; [apply dispatchable_loop_total|].
  intros units Hunits.
  apply dispatchable_loop_spec in Hunits as (picked & -> & Hsub & Hiff).
  split; [exact Hsub|]. split; [exact Hiff|].
  intros t [_ [Hunit _]]%Hiff Hleaf. unfold is_dispatch_unit in Hunit.
  rewrite Hleaf in Hunit. destruct (obj_parent_id t); [discriminate | reflexivity].
Qed.

End Dispatchable.

End UnitsProperties.

(** ** dispatch_batch.py: only units whose dependencies are completed *)

Section DispatchGate.
Import State FullState Units DispatchReady.

Lemma dict_get_set {V} k k' (v : V) d :
  dict_get k (dict_set k' v d) = if String.eqb k' k then Some v else dict_get k d.
Proof.
  induction d as [|[k0 v0] d IH]; simpl.
  - destruct (String.eqb k' k); reflexivity.
  - destruct (String.eqb_spec k0 k') as [->|Hne]; simpl.
    + destruct (String.eqb k' k); reflexivity.
    + rewrite IH. destruct (String.eqb_spec k0 k) as [->|Hne'].
      * rewrite (proj2 (String.eqb_neq k' k)) by congruence. reflexivity.
      * reflexivity.
Qed.

Lemma dict_set_keys {V} k (v : V) d :
  NoDup (map fst d) ->
  NoDup (map fst (dict_set k v d)) /\
  forall kv, kv ∈ dict_set k v d -> kv = (k, v) \/ (kv ∈ d /\ kv.1 <> k).
Proof.
  induction d as [|[k0 v0] d IH]; simpl; intros Hnd.
  - split; [repeat constructor; apply not_elem_of_nil|].
    intros kv ->%list_elem_of_singleton. auto.
  - apply NoDup_cons in Hnd as [Hk0 Hnd]. destruct (IH Hnd) as [IH1 IH2].
    destruct (String.eqb_spec k0 k) as [->|Hne]; simpl.
    + split; [apply NoDup_cons; auto|].
      intros kv [-> | Hkv]%elem_of_cons; [auto|]. right. split; [right; exact Hkv|].
      intros Hk. apply Hk0. rewrite <- Hk. apply list_elem_of_fmap. eauto.
    + split.
      * apply NoDup_cons. split; [|exact IH1].
        intros (kv & Hfst & Hkv)%list_elem_of_fmap.
        destruct (IH2 kv Hkv) as [-> | [Hin _]]; [simpl in Hfst; congruence|].
        apply Hk0. rewrite Hfst. apply list_elem_of_fmap. eauto.
      * intros kv [-> | Hkv]%elem_of_cons; [right; split; [left | exact Hne]|].
        destruct (IH2 kv Hkv) as [-> | [Hin Hk]]; [auto|]. right. split; [right|]; auto.
Qed.

Lemma dict_get_elem {V} k (v : V) d :
  NoDup (map fst d) -> dict_get k d = Some v <-> (k, v) ∈ d.
Proof.
  induction d as [|[k0 v0] d IH]; simpl; intros Hnd.
  - rewrite elem_of_nil. split; [discriminate | tauto].
  - apply NoDup_cons in Hnd as [Hk0 Hnd]. rewrite elem_of_cons.
    destruct (String.eqb_spec k0 k) as [->|Hne].
    + split; [intros [= ->]; auto|]. intros [[= ->] | Hin]; [reflexivity|].
      destruct Hk0. apply list_elem_of_fmap. exists (k, v). auto.
    + rewrite (IH Hnd). split; [auto|]. intros [[= ? ?] | ?]; [congruence | assumption].
Qed.

(** The items of [task_like_map]: one per id, the object made from the last
    task with the id. *)
Lemma task_like_map_items (ts : list TaskDict) :
  NoDup (map fst (task_like_map ts)) /\
  (forall k v, (k, v) ∈ task_like_map ts -> tl_task_id v = k) /\
  (forall k, dict_get k (task_like_map ts) = task_map ts !! k).
Proof.
  unfold task_like_map, task_map.
  assert (forall (ts : list TaskDict) d (m : gmap string TaskLike),
            NoDup (map fst d) ->
            (forall k v, (k, v) ∈ d -> tl_task_id v = k) ->
            (forall k, dict_get k d = m !! k) ->
            let d' := foldl (fun m (task_dict : TaskDict) =>
                               dict_set (tl_task_id (_dict_to_task_like task_dict))
                                        (_dict_to_task_like task_dict) m) d ts in
            let m' := foldl (fun m (task_dict : TaskDict) =>
                               <[tl_task_id (_dict_to_task_like task_dict)
                                 := _dict_to_task_like task_dict]> m) m ts in
            NoDup (map fst d') /\
            (forall k v, (k, v) ∈ d' -> tl_task_id v = k) /\
            (forall k, dict_get k d' = m' !! k)) as Hgen.
  { clear ts. induction ts as [|t ts IH]; intros d m Hnd Hid Hget; [auto|].
    cbn [foldl]. apply IH.
    - apply dict_set_keys, Hnd.
    - intros k v Hkv. apply dict_set_keys in Hkv as [[= -> ->] | [Hkv _]];
        [reflexivity | apply Hid, Hkv | exact Hnd].
    - intros k. rewrite dict_get_set, Hget.
      destruct (String.eqb_spec (tl_task_id (_dict_to_task_like t)) k) as [->|Hne].
      + rewrite lookup_insert_eq. reflexivity.
      + rewrite lookup_insert_ne by exact Hne. reflexivity. }
  apply (Hgen ts [] ∅).
  - constructor.
  - intros k v Hkv. apply elem_of_nil in Hkv. contradiction.
  - intros k. rewrite lookup_empty. reflexivity.
Qed.

Lemma task_map_of_snoc {T} `{TaskObject T} (l : list T) x :
  task_map_of (l ++ [x]) = <[obj_task_id x := x]> (task_map_of l).
Proof. unfold task_map_of. rewrite foldl_app. reflexivity. Qed.

Lemma task_map_of_Some {T} `{TaskObject T} (l : list T) k t :
  task_map_of l !! k = Some t -> t ∈ l /\ obj_task_id t = k.
Proof.
  induction l as [|x l IH] using rev_ind.
  - unfold task_map_of. simpl. rewrite lookup_empty. discriminate.
  - rewrite task_map_of_snoc, elem_of_app, list_elem_of_singleton.
    destruct (decide (obj_task_id x = k)) as [<-|Hne].
    + rewrite lookup_insert_eq. intros [= <-]. auto.
    + rewrite lookup_insert_ne by exact Hne. intros Hl. apply IH in Hl. tauto.
Qed.

Lemma task_map_of_unique {T} `{TaskObject T} (l : list T) t :
  NoDup (map obj_task_id l) -> t ∈ l -> task_map_of l !! obj_task_id t = Some t.
Proof.
  induction l as [|x l IH] using rev_ind; intros Hnd Ht.
  - apply elem_of_nil in Ht. contradiction.
  - rewrite task_map_of_snoc. rewrite map_app in Hnd.
    apply NoDup_app in Hnd as (Hnd & Hdis & _).
    apply elem_of_app in Ht as [Ht | ->%list_elem_of_singleton].
    + rewrite lookup_insert_ne; [apply IH; assumption|].
      intros Heq. apply (Hdis (obj_task_id t)).
      * apply list_elem_of_fmap. eauto.
      * rewrite <- Heq. simpl. left.
    + apply lookup_insert_eq.
Qed.

Lemma task_map_as_task_map_of (ts : list TaskDict) :
  task_map ts = task_map_of (map _dict_to_task_like ts).
Proof.
  unfold task_map, task_map_of. generalize (∅ : gmap string TaskLike).
  induction ts as [|t ts IH]; intros m; [reflexivity|]. simpl. apply IH.
Qed.

(** The map that [get_dispatchable_units] builds from the values of
    [task_like_map] is the map of the last tasks with each id. *)
Lemma task_map_of_values (ts : list TaskDict) :
  task_map_of (map snd (task_like_map ts)) = task_map ts.
Proof.
  destruct (task_like_map_items ts) as (Hnd & Hid & Hget).
  assert (map obj_task_id (map snd (task_like_map ts)) = map fst (task_like_map ts))
    as Hkeys.
  { rewrite map_map. apply map_ext_in. intros [k v] Hkv. simpl.
    apply Hid, list_elem_of_In, Hkv. }
  apply map_eq. intros k. rewrite <- Hget.
  destruct (dict_get k (task_like_map ts)) as [v|] eqn:Hk.
  - apply dict_get_elem in Hk; [|exact Hnd].
    rewrite <- (Hid k v Hk).
    change (tl_task_id v) with (obj_task_id v).
    apply (task_map_of_unique (map snd (task_like_map ts)) v).
    + rewrite Hkeys. exact Hnd.
    + apply list_elem_of_fmap. exists (k, v). auto.
  - destruct (task_map_of (map snd (task_like_map ts)) !! k) as [v|] eqn:Hv;
      [|reflexivity].
    apply task_map_of_Some in Hv as [Hin Hidv].
    apply list_elem_of_fmap in Hin as ([k' v'] & -> & Hin). simpl in Hidv.
    rewrite (Hid k' v' Hin) in Hidv. subst k'.
    apply dict_get_elem in Hin; [|exact Hnd]. congruence.
Qed.

(** The statuses that count as completed for the dependencies. *)
Local Abbreviation counts strict st :=
  (if strict : bool then st = "completed"
   else st ∈ ["completed"; "pending_review"; "under_review"; "final_review"]).

Lemma get_completed_task_ids_spec (ts : list TaskDict) strict x :
  x ∈ get_completed_task_ids ts strict <->
  exists c : TaskDict, c ∈ ts /\ task_id c = x /\ counts strict (status c).
Proof.
  unfold get_completed_task_ids.
  induction ts as [|t ts IH] using rev_ind.
  - simpl. split; [intros []%not_elem_of_empty|].
    intros (c & Hc & _). apply elem_of_nil in Hc. contradiction.
  - rewrite foldl_app. cbn [foldl].
    assert ((exists c : TaskDict, c ∈ ts ++ [t] /\ task_id c = x /\
                                  counts strict (status c)) <->
            (exists c : TaskDict, c ∈ ts /\ task_id c = x /\ counts strict (status c))
            \/ (task_id t = x /\ counts strict (status t))) as ->.
    { split.
      - intros (c & [Hc | ->%list_elem_of_singleton]%elem_of_app & H); eauto.
      - intros [(c & Hc & H) | H].
        + exists c. split; [apply elem_of_app; auto | exact H].
        + exists t. split; [apply elem_of_app; right; left | exact H]. }
    rewrite <- IH. destruct strict.
    + destruct (String.eqb_spec (status t) "completed") as [Hst|Hst].
      * rewrite elem_of_union, elem_of_singleton. intuition congruence.
      * tauto.
    + destruct (bool_decide (status t ∈ _)) eqn:Hst.
      * apply bool_decide_eq_true in Hst.
        rewrite elem_of_union, elem_of_singleton. intuition congruence.
      * apply bool_decide_eq_false in Hst. tauto.
Qed.


Lemma state_ready_loop_spec depth (M : gmap string TaskLike) (C : gset string) :
  forall (ts ready r : list TaskDict),
    DispatchReady.ready_loop depth M C ts ready = Some r ->
    exists picked, r = ready ++ picked /\ sublist picked ts /\
      forall t : TaskDict, t ∈ picked <->
        t ∈ ts /\ subtasks t = [] /\ status t = "not_started" /\
        is_optional t = false /\
        @dependencies_satisfied TaskLike tl_subtasks M C (dependencies t).
Proof.
  induction ts as [|task rest IH]; intros ready r Hr; cbn [DispatchReady.ready_loop] in Hr.
  { injection Hr as <-. exists []. rewrite app_nil_r. split; [reflexivity|].
    split; [constructor|]. intros t. rewrite !elem_of_nil. tauto. }
  assert (forall picked : list TaskDict,
            sublist picked rest ->
            (forall t : TaskDict, t ∈ picked <->
               t ∈ rest /\ subtasks t = [] /\ status t = "not_started" /\
               is_optional t = false /\
               @dependencies_satisfied TaskLike tl_subtasks M C (dependencies t)) ->
            ~ (subtasks task = [] /\ status task = "not_started" /\
               is_optional task = false /\
               @dependencies_satisfied TaskLike tl_subtasks M C (dependencies task)) ->
            sublist picked (task :: rest) /\
            forall t : TaskDict, t ∈ picked <->
              t ∈ task :: rest /\ subtasks t = [] /\ status t = "not_started" /\
              is_optional t = false /\
              @dependencies_satisfied TaskLike tl_subtasks M C (dependencies t))
    as Hskip.
  { intros picked Hsub Hiff Hnot. split; [apply sublist_cons, Hsub|].
    intros t. rewrite Hiff, elem_of_cons. split; [tauto|].
    intros [[-> | Ht] He]; tauto. }
  cbv zeta in Hr. unfold is_leaf_task in Hr.
  cbn [obj_subtasks TaskLike_object _dict_to_task_like tl_subtasks] in Hr.
  destruct (subtasks task) as [|s0 subs] eqn:Hsubs; cbn [length Nat.eqb negb] in Hr.
  2:{ destruct (IH _ _ Hr) as (picked & -> & Hsub & Hiff). exists picked.
      split; [reflexivity|]. apply Hskip; [assumption..|]. intros [[=] _]. }
  destruct (String.eqb_spec (status task) "not_started") as [Hst|Hst]; cbn [negb] in Hr.
  2:{ destruct (IH _ _ Hr) as (picked & -> & Hsub & Hiff). exists picked.
      split; [reflexivity|]. apply Hskip; [assumption..|]. tauto. }
  destruct (is_optional task) eqn:Hopt.
  { destruct (IH _ _ Hr) as (picked & -> & Hsub & Hiff). exists picked.
    split; [reflexivity|]. apply Hskip; [assumption..|]. intros (_ & _ & [=] & _). }
  destruct (@SpecParser.expand_dependencies TaskLike tl_subtasks depth
              (dependencies task) M) as [e|] eqn:He; [|discriminate].
  pose proof (@all_completed_satisfied TaskLike tl_subtasks M depth _ e C He) as Hsat.
  destruct (all_completed C e).
  - destruct (IH _ _ Hr) as (picked & -> & Hsub & Hiff). exists (task :: picked).
    split; [rewrite <- app_assoc; reflexivity|]. split; [apply sublist_skip, Hsub|].
    intros t. rewrite !elem_of_cons, Hiff. split; [|tauto].
    intros [-> | ?]; [|tauto]. repeat split; auto. apply Hsat. reflexivity.
  - destruct (IH _ _ Hr) as (picked & -> & Hsub & Hiff). exists picked.
    split; [reflexivity|]. apply Hskip; [assumption..|].
    intros (_ & _ & _ & Hd). apply Hsat in Hd. discriminate.
Qed.


End DispatchGate.

(** ** spec_parser.py of sequential-orchestration: the unit that runs next *)

Section NextUnit.
Import SeqSpecParser SeqUnits.

(** What makes a task a unit that can run now. *)
Local Abbreviation ready M C t :=
  (is_dispatch_unit t = true /\ (task_id t ∉ C) /\ is_optional t = false /\
   Units.dependencies_satisfied M C (dependencies t)).

Lemma next_loop_spec depth (M : gmap string Task) (C : gset string) :
  forall sorted r,
    next_loop depth M C sorted = Returns r ->
    match r with
    | Some t => exists pre post, sorted = pre ++ t :: post /\ ready M C t /\
                                 forall u, u ∈ pre -> ~ ready M C u
    | None => forall u, u ∈ sorted -> ~ ready M C u
    end.
Proof.
  induction sorted as [|task rest IH]; intros r Hr; cbn [next_loop] in Hr.
  { injection Hr as <-. intros u Hu. apply elem_of_nil in Hu. contradiction. }
  assert (~ ready M C task ->
          next_loop depth M C rest = Returns r ->
          match r with
          | Some t => exists pre post, task :: rest = pre ++ t :: post /\
                        ready M C t /\ forall u, u ∈ pre -> ~ ready M C u
          | None => forall u, u ∈ task :: rest -> ~ ready M C u
          end) as Hskip.
  { intros Hnot Hrest. specialize (IH r Hrest). destruct r as [t|].
    - destruct IH as (pre & post & -> & Ht & Hpre). exists (task :: pre), post.
      split; [reflexivity|]. split; [exact Ht|].
      intros u [-> | Hu]%elem_of_cons; auto.
    - intros u [-> | Hu]%elem_of_cons; auto. }
  destruct (is_dispatch_unit task) eqn:Hunit; cbn [negb] in Hr.
  2:{ apply Hskip; [|exact Hr]. intros [[=] _]. }
  destruct (bool_decide (task_id task ∈ C)) eqn:Hin.
  { apply bool_decide_eq_true in Hin. apply Hskip; [|exact Hr]. tauto. }
  apply bool_decide_eq_false in Hin.
  destruct (is_optional task) eqn:Hopt.
  { apply Hskip; [|exact Hr]. intros (_ & _ & [=] & _). }
  assert (ready M C task -> r = Some task ->
          match r with
          | Some t => exists pre post, task :: rest = pre ++ t :: post /\
                        ready M C t /\ forall u, u ∈ pre -> ~ ready M C u
          | None => forall u, u ∈ task :: rest -> ~ ready M C u
          end) as Htake.
  { intros Hready ->. exists [], rest. split; [reflexivity|]. split; [exact Hready|].
    intros u Hu. apply elem_of_nil in Hu. contradiction. }
  destruct (dependencies task) as [|d0 deps] eqn:Hdeps.
  { injection Hr as <-. apply Htake; [|reflexivity].
    repeat split; auto. exists []. split; [constructor|].
    intros x Hx. apply elem_of_nil in Hx. contradiction. }
  destruct (expand_dependencies depth (d0 :: deps) M) as [e|] eqn:He;
    [|discriminate].
  rewrite sequential_expand_same in He.
  pose proof (all_completed_satisfied M depth _ e C He) as Hsat.
  destruct (Units.all_completed C e).
  - injection Hr as <-. apply Htake; [|reflexivity].
    repeat split; auto. apply Hsat. reflexivity.
  - apply Hskip; [|exact Hr]. intros (_ & _ & _ & Hd). apply Hsat in Hd. discriminate.
Qed.

Lemma next_loop_total depth (M : gmap string Task) (C : gset string) :
  forall sorted,
    (forall t, t ∈ sorted -> is_Some (expand_dependencies depth (dependencies t) M)) ->
    exists r, next_loop depth M C sorted = Returns r.
Proof.
  induction sorted as [|task rest IH]; intros Hall; cbn [next_loop]; [eauto|].
  assert (exists r, next_loop depth M C rest = Returns r) as Hrest.
  { apply IH. intros t Ht. apply Hall. right. exact Ht. }
  destruct (negb _); [exact Hrest|]. destruct (bool_decide _); [exact Hrest|].
  destruct (is_optional task); [exact Hrest|].
  destruct (Hall task ltac:(left)) as [e He].
  destruct (dependencies task) as [|d0 deps]; [eauto|].
  rewrite He. destruct (Units.all_completed C e); eauto.
Qed.

Lemma insert_by_perm {A} (ltb : A -> A -> bool) x l : insert_by ltb x l ≡ₚ x :: l.
Proof.
  induction l as [|y l IH]; simpl; [reflexivity|].
  destruct (ltb y x); [|reflexivity]. rewrite IH. apply Permutation_swap.
Qed.

Lemma sort_by_perm {A} (ltb : A -> A -> bool) l : sort_by ltb l ≡ₚ l.
Proof.
  induction l as [|x l IH]; simpl; [reflexivity|].
  rewrite insert_by_perm. constructor. exact IH.
Qed.

Lemma sorted_tasks_perm tasks sorted :
  sorted_tasks tasks = Some sorted -> sorted ≡ₚ tasks.
Proof.
  unfold sorted_tasks. destruct (forallb _ _); [|discriminate].
  intros [= <-]. apply sort_by_perm.
Qed.

Lemma all_tasks_complete_spec tasks completed_ids :
  all_tasks_complete tasks completed_ids = true <->
  forall t, t ∈ tasks -> is_optional t = false -> is_dispatch_unit t = true ->
            task_id t ∈ (list_to_set completed_ids : gset string).
Proof.
  unfold all_tasks_complete. rewrite forallb_forall. split.
  - intros Hall t Ht%list_elem_of_In Hopt Hunit. specialize (Hall t Ht).
    rewrite Hopt, Hunit in Hall. simpl in Hall.
    rewrite bool_decide_eq_true in Hall. exact Hall.
  - intros Hall t Ht%list_elem_of_In. specialize (Hall t Ht).
    destruct (is_optional t); [reflexivity|].
    destruct (is_dispatch_unit t); [|reflexivity]. simpl.
    rewrite bool_decide_eq_true. auto.
Qed.

(** X14.  When [get_next_dispatch_unit] returns a task, it is a task of
    the list that is a dispatch unit, required, not completed, and whose
    expanded dependencies are all completed; when it returns nothing, no
    task of the list is like that.  Whenever [all_tasks_complete] holds, it
    returns nothing. *)
Theorem next_dispatch_unit_is_ready
    (depth : nat) (tasks : list Task) (completed_ids : list string)
    (r : option Task) :
  get_next_dispatch_unit depth tasks completed_ids = Returns r ->
  match r with
  | Some t =>
      t ∈ tasks /\ is_dispatch_unit t = true /\ is_optional t = false /\
      (task_id t ∉ completed_ids) /\
      Units.dependencies_satisfied (task_map_of tasks) (list_to_set completed_ids)
        (dependencies t)
  | None =>
      forall u, u ∈ tasks -> is_dispatch_unit u = true -> is_optional u = false ->
        (task_id u ∉ completed_ids) ->
        ~ Units.dependencies_satisfied (task_map_of tasks) (list_to_set completed_ids)
            (dependencies u)
  end /\
  (all_tasks_complete tasks completed_ids = true -> r = None).
Proof.
  unfold get_next_dispatch_unit. destruct (sorted_tasks tasks) as [sorted|] eqn:Hs;
    [|discriminate].
  apply sorted_tasks_perm in Hs. intros Hr%next_loop_spec.
  split.
  - destruct r as [t|].
    + destruct Hr as (pre & post & -> & (Hu & Hc & Ho & Hd) & _).
      split; [rewrite <- Hs, elem_of_app, elem_of_cons; auto|].
      rewrite elem_of_list_to_set in Hc. auto.
    + intros u Hu Hunit Hopt Hc Hd. rewrite <- Hs in Hu.
      apply (Hr u Hu). rewrite elem_of_list_to_set. auto.
  - intros Hall. destruct r as [t|]; [|reflexivity]. exfalso.
    destruct Hr as (pre & post & -> & (Hu & Hc & Ho & _) & _). apply Hc.
    apply (proj1 (all_tasks_complete_spec tasks completed_ids) Hall); auto.
    rewrite <- Hs, elem_of_app, elem_of_cons. auto.
Qed.

(** *** Ids made of numbers: the least ready id runs next *)

Lemma numbers_lt_irrefl a : ~ numbers_lt a a.
Proof. induction a as [|x a IH]; simpl; [tauto|]. intros [? | [_ ?]]; [lia | auto]. Qed.

Lemma numbers_lt_trans : forall a b c,
  numbers_lt a b -> numbers_lt b c -> numbers_lt a c.
Proof.
  induction a as [|x a IH]; intros [|y b] [|z c]; simpl; try tauto.
  intros [? | [-> ?]] [? | [-> ?]]; try (left; lia). right. split; [reflexivity|].
  eapply IH; eassumption.
Qed.

Lemma numbers_lt_total : forall a b, numbers_lt a b \/ a = b \/ numbers_lt b a.
Proof.
  induction a as [|x a IH]; intros [|y b]; simpl; auto.
  destruct (Z.lt_total x y) as [? | [-> | ?]]; auto.
  destruct (IH b) as [? | [-> | ?]]; auto.
Qed.

Lemma key_ltb_numbers : forall a b,
  exists v, key_ltb (map inl a) (map inl b) = Some v /\ (v = true <-> numbers_lt a b).
Proof.
  induction a as [|x a IH]; intros [|y b]; simpl.
  - exists false. split; [reflexivity|]. split; [discriminate | tauto].
  - exists true. tauto.
  - exists false. split; [reflexivity|]. split; [discriminate | tauto].
  - destruct (Z.eqb_spec x y) as [->|Hne].
    + destruct (IH b) as (v & -> & Hv). exists v. split; [reflexivity|].
      rewrite Hv. split; [auto|]. intros [? | [_ ?]]; [lia | assumption].
    + exists (x <? y)%Z. split; [reflexivity|]. rewrite Z.ltb_lt.
      split; [auto|]. intros [? | [? _]]; [assumption | contradiction].
Qed.

Lemma task_ltb_numbers a b na nb :
  numeric_id (task_id a) na -> numeric_id (task_id b) nb ->
  task_ltb a b = true <-> numbers_lt na nb.
Proof.
  unfold numeric_id, task_ltb. intros -> ->.
  destruct (key_ltb_numbers na nb) as (v & -> & Hv). exact Hv.
Qed.

Lemma insert_by_sorted {A} (ltb : A -> A -> bool) (P : A -> Prop) :
  (forall a b, P a -> P b -> ltb a b = true -> ltb b a = false) ->
  (forall a b c, P a -> P b -> P c ->
     ltb b a = false -> ltb c b = false -> ltb c a = false) ->
  forall x l, P x -> Forall P l ->
    StronglySorted (fun a b => ltb b a = false) l ->
    StronglySorted (fun a b => ltb b a = false) (insert_by ltb x l).
Proof.
  intros Hasym Htrans x l Hx. induction l as [|y l IH]; intros HP Hl; simpl.
  { repeat constructor. }
  apply Forall_cons in HP as [Hy HP]. apply StronglySorted_inv in Hl as [Hl Hyl].
  destruct (ltb y x) eqn:Hyx.
  - constructor; [apply IH; assumption|].
    rewrite (insert_by_perm ltb x l). constructor; [|exact Hyl].
    apply Hasym; assumption.
  - constructor; [constructor; assumption|]. constructor; [exact Hyx|].
    rewrite Forall_forall in Hyl, HP |- *. intros z Hz.
    apply (Htrans x y z); auto.
Qed.

Lemma sort_by_sorted {A} (ltb : A -> A -> bool) (P : A -> Prop) :
  (forall a b, P a -> P b -> ltb a b = true -> ltb b a = false) ->
  (forall a b c, P a -> P b -> P c ->
     ltb b a = false -> ltb c b = false -> ltb c a = false) ->
  forall l, Forall P l -> StronglySorted (fun a b => ltb b a = false) (sort_by ltb l).
Proof.
  intros Hasym Htrans. induction l as [|x l IH]; intros HP; simpl; [constructor|].
  apply Forall_cons in HP as [Hx HP].
  apply (insert_by_sorted ltb P Hasym Htrans); auto.
  rewrite (sort_by_perm ltb l). exact HP.
Qed.

Lemma numeric_sorted_tasks tasks :
  (forall t, t ∈ tasks -> exists ns, numeric_id (task_id t) ns) ->
  sorted_tasks tasks = Some (sort_by task_ltb tasks) /\
  StronglySorted (fun a b => task_ltb b a = false) (sort_by task_ltb tasks).
Proof.
  intros Hnum. split.
  - unfold sorted_tasks.
    replace (forallb _ _) with true; [reflexivity|]. symmetry.
    apply forallb_forall. intros a (ta & <- & Hta)%in_map_iff.
    apply forallb_forall. intros b (tb & <- & Htb)%in_map_iff.
    apply list_elem_of_In, Hnum in Hta as [na Hna].
    apply list_elem_of_In, Hnum in Htb as [nb Hnb].
    unfold numeric_id in Hna, Hnb. rewrite Hna, Hnb.
    destruct (key_ltb_numbers na nb) as (v & -> & _).
    apply bool_decide_eq_true. eauto.
  - apply (sort_by_sorted task_ltb (fun t => exists ns, numeric_id (task_id t) ns)).
    + intros a b [na Ha] [nb Hb] Hab. apply not_true_is_false.
      rewrite (task_ltb_numbers b a nb na Hb Ha).
      rewrite (task_ltb_numbers a b na nb Ha Hb) in Hab.
      intros Hba. apply (numbers_lt_irrefl na). eapply numbers_lt_trans; eassumption.
    + intros a b c [na Ha] [nb Hb] [nc Hc] Hba Hcb. apply not_true_is_false.
      rewrite (task_ltb_numbers c a nc na Hc Ha). intros Hca.
      apply not_true_iff_false in Hba, Hcb.
      rewrite (task_ltb_numbers b a nb na Hb Ha) in Hba.
      rewrite (task_ltb_numbers c b nc nb Hc Hb) in Hcb.
      destruct (numbers_lt_total nb nc) as [Hbc | [-> | Hcb']]; auto.
      apply Hba. eapply numbers_lt_trans; eassumption.
    + apply Forall_forall. exact Hnum.
Qed.

(** X15.  When every task id is made of numbers separated by dots, the
    sort of [get_next_dispatch_unit] raises no TypeError, the call returns
    if the expansions of the dependencies do, and the unit that it returns
    has the least id, in the numeric order of the ids, among the units that
    can run. *)
Theorem next_dispatch_unit_least_id
    (depth : nat) (tasks : list Task) (completed_ids : list string) :
  (forall t, t ∈ tasks -> exists ns, numeric_id (task_id t) ns) ->
  ((forall t, t ∈ tasks ->
      is_Some (expand_dependencies depth (dependencies t) (task_map_of tasks))) ->
   exists r, get_next_dispatch_unit depth tasks completed_ids = Returns r) /\
  forall t, get_next_dispatch_unit depth tasks completed_ids = Returns (Some t) ->
    forall u nu nt,
      u ∈ tasks -> is_dispatch_unit u = true -> is_optional u = false ->
      (task_id u ∉ completed_ids) ->
      Units.dependencies_satisfied (task_map_of tasks) (list_to_set completed_ids)
        (dependencies u) ->
      numeric_id (task_id u) nu -> numeric_id (task_id t) nt ->
      ~ numbers_lt nu nt.
Proof.
  intros Hnum. destruct (numeric_sorted_tasks tasks Hnum) as [Hsorted Hord].
  pose proof (sorted_tasks_perm _ _ Hsorted) as Hperm.
  unfold get_next_dispatch_unit. rewrite Hsorted. split.
  - intros Hfuel. apply next_loop_total. intros t Ht. apply Hfuel.
    rewrite <- Hperm. exact Ht.
  - intros t Ht%next_loop_spec u nu nt Hu Hunit Hopt Hc Hd Hnu Hnt.
    destruct Ht as (pre & post & Heq & _ & Hpre). rewrite Heq in Hord, Hperm.
    rewrite <- Hperm, elem_of_app, elem_of_cons in Hu.
    destruct Hu as [Hu | [-> | Hu]].
    + destruct (Hpre u Hu). rewrite elem_of_list_to_set. auto.
    + unfold numeric_id in Hnu, Hnt. rewrite Hnu in Hnt.
      assert (nu = nt) as ->.
      { clear -Hnt. revert nt Hnt. induction nu as [|x nu IH]; intros [|y nt]; simpl;
          intros [=]; f_equal; auto. }
      apply numbers_lt_irrefl.
    + apply StronglySorted_app_1_r, StronglySorted_inv in Hord as [_ Hord].
      rewrite Forall_forall in Hord. specialize (Hord u Hu). cbv beta in Hord.
      apply not_true_iff_false in Hord.
      rewrite (task_ltb_numbers u t nu nt Hnu Hnt) in Hord. exact Hord.
Qed.

End NextUnit.

(** ** dispatch_batch.py: which units get a window *)

Section WindowAllocation.
Import State FullState DispatchReady Windows.

Lemma dict_get_keys {V} k (d : list (string * V)) :
  is_Some (dict_get k d) <-> k ∈ map fst d.
Proof.
  induction d as [|[k0 v0] d IH]; simpl.
  - rewrite elem_of_nil. split; [intros [? [=]] | tauto].
  - rewrite elem_of_cons. destruct (String.eqb_spec k0 k) as [->|Hne].
    + split; eauto.
    + rewrite IH. split; [auto|]. intros [? | ?]; [congruence | assumption].
Qed.

Lemma dict_set_new {V} k (v : V) d :
  k ∉ map fst d -> dict_set k v d = d ++ [(k, v)].
Proof.
  induction d as [|[k0 v0] d IH]; simpl; [reflexivity|].
  rewrite not_elem_of_cons. intros [Hne Hk].
  rewrite (proj2 (String.eqb_neq k0 k)) by congruence. rewrite IH by exact Hk.
  reflexivity.
Qed.

Lemma full_iff (n : nat) (max_windows : Z) :
  (Z.of_nat n >=? max_windows)%Z = true <-> Z.to_nat max_windows <= n.
Proof. rewrite Z.geb_le. lia. Qed.

Lemma allocate_loop_keys max_windows existing : forall units wm,
  length wm <= Z.to_nat max_windows ->
  map fst (allocate_loop max_windows existing units wm)
  = map fst wm
    ++ take (Z.to_nat max_windows - length wm)
         (Py.fromkeys_from (map fst wm)
            (filter (fun tid => tid <> "")
                    (map (fun u : TaskDict => task_id u) units))).
Proof.
  induction units as [|unit rest IH]; intros wm Hlen; cbn [allocate_loop map].
  { rewrite filter_nil. simpl. rewrite take_nil, app_nil_r. reflexivity. }
  destruct (String.eqb_spec (task_id unit) "") as [He|Hne]; cbn [orb].
  { rewrite filter_cons_False by (intros H; apply H; exact He). apply IH, Hlen. }
  rewrite filter_cons_True by exact Hne. cbn [Py.fromkeys_from].
  destruct (bool_decide (is_Some (dict_get (task_id unit) wm))) eqn:Hin.
  { apply bool_decide_eq_true in Hin. rewrite dict_get_keys in Hin.
    rewrite (bool_decide_eq_true_2 _ Hin). apply IH, Hlen. }
  apply bool_decide_eq_false in Hin. rewrite dict_get_keys in Hin.
  rewrite (bool_decide_eq_false_2 _ Hin).
  destruct (Z.of_nat (length wm) >=? max_windows)%Z eqn:Hfull.
  { apply full_iff in Hfull.
    replace (Z.to_nat max_windows - length wm) with 0 by lia.
    rewrite take_0, app_nil_r. reflexivity. }
  assert (length wm < Z.to_nat max_windows) as Hlt.
  { destruct (le_lt_dec (Z.to_nat max_windows) (length wm)) as [Hle|]; [|assumption].
    apply full_iff in Hle. congruence. }
  rewrite dict_set_new by exact Hin. rewrite IH by (rewrite length_app; simpl; lia).
  rewrite map_app, length_app. cbn [map fst length]. rewrite <- app_assoc. f_equal.
  replace (Z.to_nat max_windows - length wm)
    with (S (Z.to_nat max_windows - (length wm + 1))) by lia.
  cbn [take app]. f_equal. f_equal. apply fromkeys_from_ext.
  intros x. simpl. rewrite elem_of_app, !elem_of_cons, elem_of_nil. tauto.
Qed.

Lemma elem_of_dict_set {V} k (v : V) d kv :
  kv ∈ dict_set k v d -> kv = (k, v) \/ kv ∈ d.
Proof.
  induction d as [|[k0 v0] d IH]; simpl.
  - intros ->%list_elem_of_singleton. auto.
  - destruct (String.eqb k0 k).
    + intros [-> | H]%elem_of_cons; [auto|]. right. right. exact H.
    + intros [-> | H]%elem_of_cons; [right; left|]. destruct (IH H); auto.
      right. right. assumption.
Qed.

Lemma allocate_loop_values max_windows existing : forall units wm,
  (forall kv, kv ∈ wm -> kv.2 = window_name existing kv.1) ->
  forall kv, kv ∈ allocate_loop max_windows existing units wm ->
             kv.2 = window_name existing kv.1.
Proof.
  induction units as [|unit rest IH]; intros wm Hwm; cbn [allocate_loop]; [exact Hwm|].
  destruct (_ || _); [apply IH, Hwm|]. destruct (_ >=? _)%Z; [exact Hwm|].
  apply IH. intros kv [-> | Hkv]%elem_of_dict_set; [reflexivity | auto].
Qed.

Lemma window_name_filled existing tid : window_name existing tid <> "".
Proof.
  unfold window_name, truthy. destruct (existing !! tid) as [w|]; simpl.
  - destruct (String.eqb_spec w ""); simpl; [discriminate | assumption].
  - discriminate.
Qed.

Lemma allocate_windows_values dispatch_units max_windows existing tid w :
  (tid, w) ∈ allocate_windows dispatch_units max_windows existing ->
  w = window_name existing tid.
Proof.
  intros Hin.
  apply (allocate_loop_values max_windows existing dispatch_units []
           ltac:(intros kv Hkv; apply elem_of_nil in Hkv; contradiction)
           (tid, w) Hin).
Qed.

(** X16.  [allocate_windows] gives a window to the first [max_windows]
    different non-empty ids of the units, in their order, and to no other
    id; so it allocates at most [max_windows] windows, and none when the
    bound is not positive.  The window of an id is never empty: it is the
    name that the existing mapping has for the id when that is a non-empty
    name, and task-<id> otherwise. *)
Theorem allocate_windows_first_ids
    (dispatch_units : list TaskDict) (max_windows : Z)
    (existing_mapping : gmap string string) :
  let window_mapping := allocate_windows dispatch_units max_windows existing_mapping in
  map fst window_mapping
  = take (Z.to_nat max_windows)
      (Py.fromkeys (filter (fun tid => tid <> "")
                           (map (fun u : TaskDict => task_id u) dispatch_units))) /\
  (Z.of_nat (length window_mapping) <= Z.max 0 max_windows)%Z /\
  forall tid w, (tid, w) ∈ window_mapping ->
    w <> "" /\
    (forall w', existing_mapping !! tid = Some w' -> w' <> "" -> w = w') /\
    ((existing_mapping !! tid = None \/ existing_mapping !! tid = Some "") ->
     w = "task-" +:+ tid).
Proof.
  intros wm.
  assert (map fst wm
          = take (Z.to_nat max_windows)
              (Py.fromkeys (filter (fun tid => tid <> "")
                              (map (fun u : TaskDict => task_id u) dispatch_units))))
    as Hkeys.
  { unfold wm, allocate_windows. rewrite allocate_loop_keys by (simpl; lia).
    simpl. rewrite Nat.sub_0_r. reflexivity. }
  split; [exact Hkeys|]. split.
  { rewrite <- (length_map fst wm), Hkeys, length_take. lia. }
  intros tid w Hin.
  apply allocate_windows_values in Hin as ->.
  split; [apply window_name_filled|]. unfold window_name, truthy. split.
  - intros w' -> Hw'. simpl. rewrite (proj2 (String.eqb_neq w' "")) by exact Hw'.
    reflexivity.
  - intros [-> | ->]; reflexivity.
Qed.

(** *** After the allocation no unit with a window misses [target_window] *)

Lemma find_missing_from : forall (ts : list TaskDict) missing tid fields,
  dict_get tid
    (foldl (fun missing (task : TaskDict) =>
              if negb (Units.is_dispatch_unit (_dict_to_task_like task)) then missing
              else
                match missing_fields task with
                | [] => missing
                | fields => dict_set (task_id task) fields missing
                end)
           missing ts) = Some fields ->
  dict_get tid missing = Some fields \/
  exists task : TaskDict, task ∈ ts /\ task_id task = tid /\
    Units.is_dispatch_unit (_dict_to_task_like task) = true /\
    fields = missing_fields task.
Proof.
  induction ts as [|task rest IH]; intros missing tid fields; cbn [foldl]; [auto|].
  intros [Hget | (t & Ht & Hrest)]%IH; [|right; exists t; split; [right|]; assumption].
  destruct (Units.is_dispatch_unit (_dict_to_task_like task)) eqn:Hunit;
    cbn [negb] in Hget; [|auto].
  destruct (missing_fields task) as [|f fs] eqn:Hf; [auto|].
  rewrite dict_get_set in Hget.
  destruct (String.eqb_spec (task_id task) tid) as [Heq|_]; [|auto].
  injection Hget as <-. right. exists task. split; [left|]. auto.
Qed.

(** X17.  [apply_window_allocation] returns the mapping of
    [allocate_windows] and changes nothing in a unit but a missing
    [target_window], which it sets to the window of the unit's id.
    Afterwards every unit whose id has a window has a [target_window], and
    [find_missing_dispatch_fields] reports target_window only for ids that
    got no window. *)
Theorem window_allocation_fills_target_windows
    (state_window_mapping : gmap string string) (dispatch_units : list TaskDict)
    (max_windows : Z) :
  let window_mapping :=
    (apply_window_allocation state_window_mapping dispatch_units max_windows).1 in
  let units :=
    (apply_window_allocation state_window_mapping dispatch_units max_windows).2 in
  window_mapping = allocate_windows dispatch_units max_windows state_window_mapping /\
  Forall2 (fun (u u' : TaskDict) =>
             u' = u \/
             (truthy (target_window u) = false /\ task_id u <> "" /\
              exists w, dict_get (task_id u) window_mapping = Some w /\
                        u' = set_target_window w u))
          dispatch_units units /\
  (forall u' : TaskDict, u' ∈ units -> task_id u' ∈ map fst window_mapping ->
     truthy (target_window u') = true) /\
  (forall tid fields,
     dict_get tid (find_missing_dispatch_fields units) = Some fields ->
     "target_window" ∈ fields -> tid ∉ map fst window_mapping).
Proof.
  intros wm units. unfold apply_window_allocation in wm, units.
  cbn [fst snd] in wm, units.
  set (step := fun task : TaskDict =>
          if String.eqb (task_id task) "" then task
          else if negb (truthy (target_window task)) then
            match dict_get (task_id task) wm with
            | Some window => set_target_window window task
            | None => task
            end
          else task).
  assert (units = map step dispatch_units) as Hunits by reflexivity.
  clearbody units. subst units.
  assert (forall us : list TaskDict,
            Forall2 (fun (u u' : TaskDict) =>
                       u' = u \/
                       (truthy (target_window u) = false /\ task_id u <> "" /\
                        exists w, dict_get (task_id u) wm = Some w /\
                                  u' = set_target_window w u))
                    us (map step us)) as Hstep.
  { clearbody wm. induction us as [|u us IH]; simpl; [constructor|].
    constructor; [|exact IH].
    unfold step. destruct (String.eqb_spec (task_id u) "") as [He|Hne]; [auto|].
    destruct (truthy (target_window u)) eqn:Ht; cbn [negb]; [auto|].
    destruct (dict_get (task_id u) wm) as [w|] eqn:Hw; [|auto].
    right. repeat split; auto. exists w. auto. }
  assert (forall kv, kv ∈ wm -> kv.2 <> "") as Hfilled.
  { intros [tid w] Hin.
    apply allocate_windows_values in Hin as ->. apply window_name_filled. }
  assert (forall u : TaskDict, task_id (step u) = task_id u) as Hid.
  { intros u. unfold step. destruct (String.eqb _ _); [reflexivity|].
    destruct (negb _); [|reflexivity].
    destruct (dict_get _ _); reflexivity. }
  assert (forall u : TaskDict, task_id u ∈ map fst wm ->
            truthy (target_window (step u)) = true) as Hwin.
  { intros u Hin. unfold step.
    destruct (String.eqb_spec (task_id u) "") as [He|Hne].
    - exfalso. apply list_elem_of_fmap in Hin as ([k w] & Hk & Hkw). simpl in Hk.
      unfold wm, allocate_windows in Hkw.
      assert (k ∈ map fst (allocate_loop max_windows state_window_mapping
                             dispatch_units [])) as Hk'.
      { apply list_elem_of_fmap. exists (k, w). auto. }
      rewrite allocate_loop_keys in Hk' by (simpl; lia). simpl in Hk'.
      apply elem_of_take in Hk' as (i & Hi & _).
      apply list_elem_of_lookup_2, elem_of_fromkeys_from in Hi as [Hi _].
      apply list_elem_of_filter in Hi as [Hi _]. congruence.
    - destruct (truthy (target_window u)) eqn:Ht; cbn [negb]; [exact Ht|].
      apply dict_get_keys in Hin as [w Hw]. rewrite Hw. simpl.
      assert ((task_id u, w) ∈ wm) as Hmem.
      { clear -Hw. induction wm as [|[k0 v0] d IH]; simpl in Hw; [discriminate|].
        destruct (String.eqb_spec k0 (task_id u)) as [->|Hne].
        - injection Hw as ->. left.
        - right. auto. }
      specialize (Hfilled _ Hmem). simpl in Hfilled.
      rewrite (proj2 (String.eqb_neq w "")) by exact Hfilled. reflexivity. }
  split; [reflexivity|]. split; [apply Hstep|].
  split.
  { intros u' Hu' Hin.
    apply list_elem_of_fmap in Hu' as (u & -> & _). apply Hwin.
    rewrite <- Hid. exact Hin. }
  intros tid fields Hget Hfield Hin. unfold find_missing_dispatch_fields in Hget.
  apply find_missing_from in Hget as [[=] | (u' & Hu' & <- & _ & ->)].
  apply list_elem_of_fmap in Hu' as (u & -> & _).
  rewrite Hid in Hin. apply Hwin in Hin. unfold missing_fields in Hfield.
  rewrite Hin in Hfield. rewrite app_nil_r in Hfield.
  destruct (truthy (owner_agent (step u)));
    [apply elem_of_nil in Hfield; contradiction|].
  apply list_elem_of_singleton in Hfield. discriminate.
Qed.

End WindowAllocation.

(** ** fix_loop.py: leaving the fix loop *)

Section FixLoopExitProperties.
Import State FixLoop Dependents FixLoopExit.
Variable clock : nat -> string.

Lemma set_unblocked_blocked reason tid t :
  set_unblocked (set_blocked reason tid t) = set_unblocked t.
Proof. reflexivity. Qed.

Lemma filter_items_other tid (items : list BlockedItem) :
  (forall item, item ∈ items -> b_task_id item <> tid) ->
  List.filter (fun item => negb (String.eqb (b_task_id item) tid)) items = items.
Proof.
  induction items as [|item items IH]; intros Hall; simpl; [reflexivity|].
  rewrite (proj2 (String.eqb_neq (b_task_id item) tid)) by (apply Hall; left).
  simpl. f_equal. apply IH. intros it Hit. apply Hall. right. exact Hit.
Qed.

(** X18.  Unblocking after blocking: if, before [block_dependent_tasks],
    no task was blocked by the task and no blocked item was recorded for it,
    then [unblock_dependent_tasks] restores the blocked items, findings and
    reports, and every task that the call had blocked is not_started with no
    blocking reason, whatever its status was before; all others are
    unchanged.  When those dependents were waiting to be started, the state
    is the one before the blocking. *)
Theorem unblock_undoes_block
    (depth : nat) (w w' : World) (tid reason : string) :
  block_dependent_tasks clock depth w tid reason = Some w' ->
  (forall t, t ∈ tasks (agent_state w) -> blocked_by t <> Some tid) ->
  (forall item, item ∈ blocked_items (agent_state w) -> b_task_id item <> tid) ->
  let state := agent_state w in
  let state'' := unblock_dependent_tasks (agent_state w') tid in
  blocked_items state'' = blocked_items state /\
  review_findings state'' = review_findings state /\
  final_reports state'' = final_reports state /\
  Forall2 (fun t t'' =>
             (dependent depth state tid (task_id t) /\
              status t <> "completed" /\ status t <> "blocked" /\
              t'' = set_unblocked t) \/
             ((~ dependent depth state tid (task_id t) \/
               status t = "completed" \/ status t = "blocked") /\ t'' = t))
          (tasks state) (tasks state'') /\
  ((forall t, t ∈ tasks state -> dependent depth state tid (task_id t) ->
      status t = "completed" \/ status t = "blocked" \/
      (status t = "not_started" /\ blocked_reason t = None /\ blocked_by t = None)) ->
   state'' = state).
Proof.
  intros Hblock Hfree Hitems state state''.
  pose proof (block_dependent_tasks_tasks clock _ _ _ _ _ Hblock) as Hall.
  assert (blocked_items (agent_state w')
          = blocked_items state
            ++ [mkBlockedItem tid reason
                  (elements (default ∅ (get_all_dependent_task_ids depth state tid)))
                  (clock (ticks w))]
          /\ review_findings (agent_state w') = review_findings state
          /\ final_reports (agent_state w') = final_reports state)
    as (Hitems' & Hfind & Hrep).
  { unfold block_dependent_tasks in Hblock. fold state in Hblock.
    destruct (get_all_dependent_task_ids depth state tid) as [ids|];
      [|discriminate].
    injection Hblock as <-. auto. }
  assert (Forall2 (fun t t'' =>
                     (dependent depth state tid (task_id t) /\
                      status t <> "completed" /\ status t <> "blocked" /\
                      t'' = set_unblocked t) \/
                     ((~ dependent depth state tid (task_id t) \/
                       status t = "completed" \/ status t = "blocked") /\ t'' = t))
                  (tasks state) (tasks state'')) as Htasks.
  { unfold state'', unblock_dependent_tasks. cbn [tasks]. apply Forall2_fmap_r.
    fold state in Hall. apply Forall_forall in Hfree. fold state in Hfree.
    clear -Hall Hfree. induction Hall as [|t t' ts ts' Ht _ IH]; [constructor|].
    apply Forall_cons in Hfree as [Hfree Hrest]. constructor; [|apply IH, Hrest].
    unfold compose. cbv beta.
    destruct Ht as [(Hd & Hc & Hb & ->) | [Hn ->]].
    - left. rewrite bool_decide_eq_true_2 by reflexivity. auto.
    - right. rewrite bool_decide_eq_false_2 by exact Hfree. auto. }
  assert (blocked_items state'' = blocked_items state) as Hitems''.
  { unfold state'', unblock_dependent_tasks. cbn [blocked_items]. rewrite Hitems'.
    rewrite List.filter_app. cbn [List.filter b_task_id].
    rewrite String.eqb_refl. cbn [negb]. rewrite app_nil_r.
    apply filter_items_other, Hitems. }
  split; [exact Hitems''|]. split; [exact Hfind|]. split; [exact Hrep|].
  split; [exact Htasks|]. intros Hquiet.
  assert (tasks state'' = tasks state) as Hsame.
  { apply Forall_forall in Hfree, Hquiet. fold state in Hfree.
    clear -Htasks Hfree Hquiet.
    induction Htasks as [|t t'' ts ts'' Ht _ IH]; [reflexivity|].
    apply Forall_cons in Hfree as [_ Hfree]. apply Forall_cons in Hquiet as [Hq Hquiet].
    f_equal; [|apply IH; assumption].
    destruct Ht as [(Hd & Hc & Hb & ->) | [_ ->]]; [|reflexivity].
    destruct (Hq Hd) as [? | [? | (Hs & Hr & Hby)]]; [contradiction..|].
    destruct t. cbn in *. subst. reflexivity. }
  destruct state as [ts fs rs items] eqn:Hstate.
  cbn [tasks blocked_items] in Hsame, Hitems''.
  unfold state'' in *. unfold unblock_dependent_tasks in *.
  cbn [tasks blocked_items] in Hsame, Hitems''. rewrite Hsame, Hitems''.
  cbn [review_findings final_reports] in Hfind, Hrep. rewrite Hfind, Hrep.
  reflexivity.
Qed.

Lemma review_severity_enters fs :
  should_enter_fix_loop (review_severity fs) = true <->
  Severity.has_severity fs "critical" \/ Severity.has_severity fs "major".
Proof.
  unfold should_enter_fix_loop, review_severity.
  rewrite <- (severity_among "none" "critical" fs) by discriminate.
  rewrite <- (severity_among "none" "major" fs) by discriminate.
  rewrite bool_decide_eq_true.
  destruct (bool_decide ("critical" ∈ _)) eqn:Hc;
    [apply bool_decide_eq_true in Hc | apply bool_decide_eq_false in Hc].
  { split; [auto|]. intros _. left. }
  destruct (bool_decide ("major" ∈ _)) eqn:Hm;
    [apply bool_decide_eq_true in Hm | apply bool_decide_eq_false in Hm].
  { split; [auto|]. intros _. right. left. }
  split; [|tauto]. intros Hin. exfalso.
  destruct (map _ fs); rewrite !elem_of_cons, elem_of_nil in Hin;
    destruct Hin as [[=] | [[=] | []]].
Qed.

(** X19.  [on_review_complete] with a critical or major finding is
    [enter_fix_loop].  Without one it returns without reading the clock and
    keeps findings and reports; if a task has the id, the blocked items of
    the id are removed, every task blocked by the id is not_started and no
    longer blocked (also the task itself, if it was blocked by its own id),
    the first task with the id is otherwise in final_review, and all other
    tasks are unchanged. *)
Theorem review_result_decides_fix_loop
    (depth : nat) (w : World) (tid : string) (findings : list Finding) :
  let state := agent_state w in
  let w' := (on_review_complete clock depth w tid findings).1 in
  let state' := agent_state w' in
  (Severity.has_severity findings "critical" \/
   Severity.has_severity findings "major" ->
   on_review_complete clock depth w tid findings
   = enter_fix_loop clock depth w tid findings) /\
  (~ Severity.has_severity findings "critical" ->
   ~ Severity.has_severity findings "major" ->
   (on_review_complete clock depth w tid findings).2 = true /\
   ticks w' = ticks w /\
   review_findings state' = review_findings state /\
   final_reports state' = final_reports state /\
   match first_index tid (tasks state) with
   | None => state' = state
   | Some i =>
       blocked_items state'
       = List.filter (fun item => negb (String.eqb (b_task_id item) tid))
                     (blocked_items state) /\
       Forall2 (fun t t' =>
                  if bool_decide (blocked_by t = Some tid) then t' = set_unblocked t
                  else t' = t \/ (t' = set_status "final_review" t /\ task_id t = tid))
               (tasks state) (tasks state') /\
       (forall t, tasks state !! i = Some t -> blocked_by t <> Some tid ->
          tasks state' !! i = Some (set_status "final_review" t)) /\
       (forall t', t' ∈ tasks state' -> blocked_by t' <> Some tid)
   end).
Proof.
  cbv zeta. split.
  { intros Hsev%review_severity_enters. unfold on_review_complete, enter_fix_loop.
    destruct (first_index tid (tasks (agent_state w))); [|reflexivity].
    rewrite Hsev. reflexivity. }
  intros Hc Hm.
  assert (should_enter_fix_loop (review_severity findings) = false) as Hpass.
  { apply not_true_is_false. rewrite review_severity_enters. tauto. }
  unfold on_review_complete.
  destruct (first_index tid (tasks (agent_state w))) as [i|] eqn:Hi; [|auto 6].
  rewrite Hpass. cbn [fst snd agent_state ticks].
  unfold handle_fix_loop_success. rewrite Hi.
  unfold unblock_dependent_tasks.
  cbn [tasks set_tasks review_findings final_reports blocked_items].
  do 4 (split; [reflexivity|]). split; [reflexivity|].
  destruct (first_index_Some _ _ _ Hi) as (t0 & Ht0 & Hid0).
  split; [|split].
  - apply Forall2_fmap_r. apply Forall2_same_length_lookup_2.
    { rewrite length_alter. reflexivity. }
    intros k t t1 Ht Ht1. unfold compose. cbv beta.
    destruct (decide (k = i)) as [->|Hne].
    + rewrite list_lookup_alter_eq, Ht in Ht1. injection Ht1 as <-.
      cbn [blocked_by set_status].
      destruct (bool_decide (blocked_by t = Some tid)); [reflexivity|].
      right. split; [reflexivity|]. congruence.
    + rewrite list_lookup_alter_ne in Ht1 by auto.
      assert (t1 = t) as -> by congruence.
      destruct (bool_decide (blocked_by t = Some tid)); auto.
  - intros t Ht Hby. rewrite list_lookup_fmap, list_lookup_alter_eq, Ht.
    cbn [fmap option_fmap option_map].
    cbn [blocked_by set_status].
    rewrite bool_decide_eq_false_2 by exact Hby. reflexivity.
  - intros t' (t1 & -> & _)%list_elem_of_fmap.
    destruct (bool_decide (blocked_by t1 = Some tid)) eqn:Hby.
    + discriminate.
    + apply bool_decide_eq_false in Hby. exact Hby.
Qed.

(** *** The counter of the completed fixes *)

Lemma map_alter_same {A B} (f : A -> B) (g : A -> A) i (l : list A) :
  (forall x, f (g x) = f x) -> map f (alter g i l) = map f l.
Proof.
  intros Hfg. revert i. induction l as [|x l IH]; intros [|i]; simpl;
    try reflexivity.
  - rewrite Hfg. reflexivity.
  - f_equal. apply IH.
Qed.

Lemma map_map_same {A B} (f : A -> B) (g : A -> A) (l : list A) :
  (forall x, f (g x) = f x) -> map f (map g l) = map f l.
Proof.
  intros Hfg. induction l as [|x l IH]; simpl; rewrite ?Hfg, ?IH; reflexivity.
Qed.

(** What the operations of the fix loop leave alone in a task. *)
Local Abbreviation identity t := (task_id t, fix_attempts t, dependencies t, subtasks t).

Lemma block_keeps_identity depth w tid reason w' :
  block_dependent_tasks clock depth w tid reason = Some w' ->
  map (fun t => identity t) (tasks (agent_state w'))
  = map (fun t => identity t) (tasks (agent_state w)).
Proof.
  unfold block_dependent_tasks.
  destruct (get_all_dependent_task_ids _ _ _); [|discriminate].
  intros [= <-]. cbn [agent_state tasks]. apply map_map_same.
  intros t. destruct (_ && _); reflexivity.
Qed.

(** X20.  No operation of the fix loop changes the id, the dependencies,
    the subtasks or the counter of completed fixes of a task, except
    [on_fix_task_complete], which adds one to the counter of the first task
    with the id, puts it in pending_review and leaves all other tasks as
    they are. *)
Theorem fix_attempts_count_completed_fixes
    (depth : nat) (w : World) (tid : string) (findings : list Finding) :
  let state := agent_state w in
  let same (state' : AgentState) :=
    map (fun t => identity t) (tasks state') = map (fun t => identity t) (tasks state) in
  same (rollback_fix_dispatch state tid) /\
  same (unblock_dependent_tasks state tid) /\
  same (handle_fix_loop_success state tid) /\
  same (agent_state (enter_fix_loop clock depth w tid findings).1) /\
  same (agent_state (on_review_complete clock depth w tid findings).1) /\
  map task_id (tasks (on_fix_task_complete state tid)) = map task_id (tasks state) /\
  forall k t, tasks state !! k = Some t ->
    exists t', tasks (on_fix_task_complete state tid) !! k = Some t' /\
      if bool_decide (first_index tid (tasks state) = Some k)
      then fix_attempts t' = (fix_attempts t + 1)%Z /\ status t' = "pending_review"
      else t' = t.
Proof.
  intros state same.
  assert (same (rollback_fix_dispatch state tid)) as Hroll.
  { unfold same, rollback_fix_dispatch.
    destruct (first_index tid (tasks state)); [|reflexivity].
    cbn [tasks set_tasks]. apply map_alter_same.
    intros t. destruct (String.eqb _ _); reflexivity. }
  assert (forall s, map (fun t => identity t) (tasks (unblock_dependent_tasks s tid))
                    = map (fun t => identity t) (tasks s)) as Hunblock.
  { intros s. unfold unblock_dependent_tasks. cbn [tasks]. apply map_map_same.
    intros t. destruct (bool_decide _); reflexivity. }
  assert (same (handle_fix_loop_success state tid)) as Hsuccess.
  { unfold same, handle_fix_loop_success.
    destruct (first_index tid (tasks state)); [|reflexivity].
    rewrite Hunblock. cbn [tasks set_tasks]. apply map_alter_same. reflexivity. }
  assert (same (agent_state (enter_fix_loop clock depth w tid findings).1)) as Henter.
  { unfold same, enter_fix_loop. fold state.
    destruct (first_index tid (tasks state)) as [i|]; [|reflexivity].
    match goal with
    | |- context [block_dependent_tasks clock depth ?w1 tid ?r] =>
        destruct (block_dependent_tasks clock depth w1 tid r) as [w2|] eqn:Hblock
    end; cbn [fst].
    - rewrite (block_keeps_identity _ _ _ _ _ Hblock). cbn [agent_state tasks set_tasks].
      apply map_alter_same. reflexivity.
    - cbn [agent_state tasks set_tasks]. apply map_alter_same. reflexivity. }
  split; [exact Hroll|]. split; [apply Hunblock|]. split; [exact Hsuccess|].
  split; [exact Henter|]. split.
  { unfold same, on_review_complete. fold state.
    destruct (first_index tid (tasks state)); [|reflexivity].
    destruct (should_enter_fix_loop _); [exact Henter | exact Hsuccess]. }
  unfold on_fix_task_complete.
  destruct (first_index tid (tasks state)) as [i|] eqn:Hi.
  - cbn [tasks set_tasks]. split; [apply map_alter_same; reflexivity|].
    intros k t Ht. destruct (decide (i = k)) as [->|Hne].
    + rewrite bool_decide_eq_true_2 by reflexivity.
      rewrite list_lookup_alter_eq, Ht. eexists. split; [reflexivity|].
      split; reflexivity.
    + rewrite bool_decide_eq_false_2 by congruence.
      rewrite list_lookup_alter_ne by auto. eauto.
  - split; [reflexivity|]. intros k t Ht.
    rewrite bool_decide_eq_false_2 by discriminate. eauto.
Qed.

End FixLoopExitProperties.

(** ** spec_parser.py of sequential-orchestration: the subtasks of a unit *)

Section SubtaskList.
Import SeqSpecParser SeqUnits Flatten.

Lemma subtask_loop_spec (recurse : Task -> option (list Task))
    (M : gmap string Task) :
  (forall t r, subtasks t <> [] -> recurse t = Some r ->
     exists l, leaves_all M (subtasks t) l /\ r = omap (fun id => M !! id) l) ->
  forall ids result r,
    subtask_loop recurse M ids result = Some r ->
    exists l, leaves_all M ids l /\ r = result ++ omap (fun id => M !! id) l.
Proof.
  intros Hrec. induction ids as [|sid ids IH]; intros result r; cbn [subtask_loop].
  { intros [= <-]. exists []. split; [constructor|]. rewrite app_nil_r. reflexivity. }
  destruct (M !! sid) as [subtask|] eqn:Hsid.
  - destruct (subtasks subtask) as [|s0 subs] eqn:Hsubs.
    + intros (l & Hl & ->)%IH. exists ([sid] ++ l). split.
      * constructor; [|exact Hl]. apply leaves_self. unfold is_parent.
        rewrite Hsid. unfold subtasks_of, SeqTask_has_subtasks. rewrite Hsubs.
        reflexivity.
      * rewrite <- app_assoc. simpl. rewrite Hsid. reflexivity.
    + destruct (recurse subtask) as [nested|] eqn:Hnested; [|discriminate].
      apply Hrec in Hnested as (l1 & Hl1 & ->); [|rewrite Hsubs; discriminate].
      intros (l & Hl & ->)%IH. exists (l1 ++ l). split.
      * constructor; [|exact Hl]. apply (leaves_parent M sid subtask); auto.
        unfold subtasks_of, SeqTask_has_subtasks. rewrite Hsubs. discriminate.
      * rewrite omap_app, app_assoc. reflexivity.
  - intros (l & Hl & ->)%IH. exists ([sid] ++ l). split.
    + constructor; [|exact Hl]. apply leaves_self. unfold is_parent.
      rewrite Hsid. reflexivity.
    + simpl. rewrite Hsid. reflexivity.
Qed.

Lemma get_subtask_list_leaves (M : gmap string Task) : forall depth task r,
  get_subtask_list depth task M = Some r ->
  exists l, leaves_all M (subtasks task) l /\ r = omap (fun id => M !! id) l.
Proof.
  induction depth as [|depth IH]; intros task r; [discriminate|].
  cbn [get_subtask_list]. destruct (subtasks task) as [|s0 subs] eqn:Hsubs.
  - intros [= <-]. exists []. split; [constructor | reflexivity].
  - intros Hr. apply subtask_loop_spec in Hr as (l & Hl & ->); [eauto|].
    intros t r' _ Hr'. apply IH, Hr'.
Qed.

Lemma get_subtask_list_total (M : gmap string Task) ids l :
  leaves_all M ids l ->
  exists d0, forall d, d0 <= d -> forall result,
    is_Some (subtask_loop (fun s => get_subtask_list d s M) M ids result).
Proof.
  revert ids l.
  apply (leaves_all_mut Task _ M
    (fun id _ => forall t, M !! id = Some t -> subtasks t <> [] ->
       exists d0, forall d, d0 <= d -> is_Some (get_subtask_list d t M))
    (fun ids _ => exists d0, forall d, d0 <= d -> forall result,
       is_Some (subtask_loop (fun s => get_subtask_list d s M) M ids result))).
  - intros id Hleaf t Ht Hne. unfold is_parent in Hleaf. rewrite Ht in Hleaf.
    unfold subtasks_of, SeqTask_has_subtasks in Hleaf.
    destruct (subtasks t); [contradiction | discriminate].
  - intros id t l Ht Hne _ [d0 Hd0] t' Ht' _.
    assert (t' = t) as -> by congruence. exists (S d0). intros [|d] Hd; [lia|].
    cbn [get_subtask_list]. unfold subtasks_of, SeqTask_has_subtasks in Hne, Hd0.
    destruct (subtasks t) as [|s0 subs]; [contradiction|]. apply Hd0. lia.
  - exists 0. intros d _ result. cbn [subtask_loop]. eauto.
  - intros id ids l ls _ IH1 _ [d2 Hd2].
    destruct (M !! id) as [subtask|] eqn:Hid.
    + destruct (subtasks subtask) as [|s0 subs] eqn:Hsubs.
      * exists d2. intros d Hd result. cbn [subtask_loop]. rewrite Hid, Hsubs.
        apply Hd2, Hd.
      * destruct (IH1 subtask eq_refl ltac:(rewrite Hsubs; discriminate)) as [d1 Hd1].
        exists (Nat.max d1 d2). intros d Hd result. cbn [subtask_loop].
        rewrite Hid, Hsubs. destruct (Hd1 d ltac:(lia)) as [nested ->].
        apply Hd2. lia.
    + exists d2. intros d Hd result. cbn [subtask_loop]. rewrite Hid. apply Hd2, Hd.
Qed.

(** X21.  [get_subtask_list] returns the tasks that the leaves of the
    unit's subtask ids name, in the order of the expansion; each of them has
    no subtasks.  They are the tasks named by the ids to which
    [expand_dependencies] expands a dependency on the unit's subtasks.  The
    call returns whenever the descent through the subtask lists ends. *)
Theorem subtask_list_is_the_expansion
    (task_map : gmap string Task) (task : Task) :
  (forall depth listed, get_subtask_list depth task task_map = Some listed ->
     (exists l, leaves_all task_map (subtasks task) l /\
                listed = omap (fun id => task_map !! id) l) /\
     (forall s, s ∈ listed -> subtasks s = []) /\
     forall expanded,
       expand_dependencies depth (subtasks task) task_map = Some expanded ->
       forall s, s ∈ listed <->
                 exists id, id ∈ expanded /\ task_map !! id = Some s) /\
  (forall l, leaves_all task_map (subtasks task) l ->
     exists d0, forall depth, d0 <= depth ->
       get_subtask_list depth task task_map = Some (omap (fun id => task_map !! id) l)).
Proof.
  split.
  - intros depth listed (l & Hl & ->)%get_subtask_list_leaves.
    assert (forall s, s ∈ omap (fun id => task_map !! id) l <->
                      exists id, id ∈ l /\ task_map !! id = Some s) as Hmem.
    { intros s. rewrite list_elem_of_omap. reflexivity. }
    split; [eauto|]. split.
    + intros s (id & Hid & Hs)%Hmem.
      pose proof (leaves_not_parents task_map _ _ Hl id Hid) as Hp.
      unfold is_parent in Hp. rewrite Hs in Hp.
      unfold subtasks_of, SeqTask_has_subtasks in Hp.
      destruct (subtasks s); [reflexivity | discriminate].
    + intros expanded He s. rewrite sequential_expand_same in He.
      apply expand_sound in He as (l' & Hl' & ->).
      rewrite (leaves_functional task_map _ _ Hl' _ Hl), Hmem.
      split; intros (id & Hid & Hs); exists id; (split; [|exact Hs]).
      * apply elem_of_fromkeys_from. split; [exact Hid | apply not_elem_of_nil].
      * apply elem_of_fromkeys_from in Hid as [Hid _]. exact Hid.
  - intros l Hl. destruct (get_subtask_list_total task_map _ _ Hl) as [d0 Hd0].
    exists (S d0). intros [|d] Hd; [lia|].
    assert (is_Some (get_subtask_list (S d) task task_map)) as [listed Hlisted].
    { cbn [get_subtask_list]. destruct (subtasks task); [eauto|]. apply Hd0. lia. }
    rewrite Hlisted.
    apply get_subtask_list_leaves in Hlisted as (l' & Hl' & ->).
    rewrite (leaves_functional task_map _ _ Hl' _ Hl). reflexivity.
Qed.

End SubtaskList.

(** ** consolidate_reviews.py: one report for each task of the list *)

Section ConsolidateAllProperties.
Import State FixLoop ConsolidateReviews ConsolidateAll.
Variable clock : nat -> string.

Lemma has_existing_final_report_mono (state state' : AgentState) more tid :
  final_reports state' = final_reports state ++ more ->
  has_existing_final_report state tid = true ->
  has_existing_final_report state' tid = true.
Proof.
  unfold has_existing_final_report. intros -> H. rewrite existsb_app, H. reflexivity.
Qed.

Lemma findings_for_task_same (state state' : AgentState) tid :
  review_findings state' = review_findings state ->
  get_review_findings_for_task state' tid = get_review_findings_for_task state tid.
Proof. unfold get_review_findings_for_task. intros ->. reflexivity. Qed.

(** What the loop adds to its three counters and to the state. *)
Lemma consolidate_loop_spec depth auto_complete :
  forall ids w n cids errs res w',
    consolidate_loop clock depth auto_complete ids w n cids errs = (Returned res, w') ->
    exists (reports : list FinalReport) (new_errors : list string),
      res = (n + length reports, cids ++ map task_id reports, errs ++ new_errors) /\
      sublist (map task_id reports) ids /\
      NoDup (map task_id reports) /\
      final_reports (agent_state w')
      = final_reports (agent_state w) ++ map to_dict reports /\
      review_findings (agent_state w') = review_findings (agent_state w) /\
      (forall tid, tid ∈ map task_id reports ->
         has_existing_final_report (agent_state w) tid = false) /\
      (forall tid, tid ∈ ids ->
         has_existing_final_report (agent_state w') tid = true \/
         (get_review_findings_for_task (agent_state w) tid = [] /\
          ("No review findings found for task " +:+ tid) ∈ new_errors)).
Proof.
  induction ids as [|tid rest IH]; intros w n cids errs res w' Hloop;
    cbn [consolidate_loop] in Hloop.
  { injection Hloop as <- <-. exists [], []. simpl.
    rewrite Nat.add_0_r, !app_nil_r.
    split; [reflexivity|]. split; [constructor|]. split; [constructor|].
    split; [reflexivity|]. split; [reflexivity|].
    split; intros t Ht; apply elem_of_nil in Ht; contradiction. }
  destruct (has_existing_final_report (agent_state w) tid) eqn:Hex.
  { (* the task has a report already *)
    apply IH in Hloop as (reports & new_errors & -> & Hsub & Hnd & Hrep & Hfind & Hnew & Hall).
    exists reports, new_errors. split; [reflexivity|].
    split; [apply sublist_cons, Hsub|]. do 4 (split; [assumption|]).
    intros t [-> | Ht]%elem_of_cons; [|auto]. left.
    exact (has_existing_final_report_mono _ _ _ _ Hrep Hex). }
  unfold consolidate_findings in Hloop.
  destruct (get_review_findings_for_task (agent_state w) tid) as [|f fs] eqn:Hfs.
  { (* the task has no findings *)
    apply IH in Hloop as (reports & new_errors & -> & Hsub & Hnd & Hrep & Hfind & Hnew & Hall).
    exists reports, (("No review findings found for task " +:+ tid) :: new_errors).
    split; [rewrite <- app_assoc; reflexivity|].
    split; [apply sublist_cons, Hsub|]. do 4 (split; [assumption|]).
    intros t [-> | Ht]%elem_of_cons.
    - right. split; [exact Hfs | left].
    - destruct (Hall t Ht) as [? | [? ?]]; [auto|]. right. split; [assumption | right; assumption]. }
  (* a report is made *)
  set (report := mkFinalReport tid (determine_overall_severity (f :: fs))
                   (generate_summary (f :: fs) tid) (length (f :: fs)) (f :: fs)
                   (clock (ticks w))) in *.
  set (w2 := mkWorld (add_final_report (agent_state (mkWorld (agent_state w) (S (ticks w))))
                        report) (ticks (mkWorld (agent_state w) (S (ticks w))))) in *.
  assert (forall w3,
            final_reports (agent_state w3) = final_reports (agent_state w2) ->
            review_findings (agent_state w3) = review_findings (agent_state w2) ->
            consolidate_loop clock depth auto_complete rest w3 (S n) (cids ++ [tid]) errs
            = (Returned res, w') ->
            exists (reports : list FinalReport) (new_errors : list string),
              res = (n + length reports, cids ++ map task_id reports, errs ++ new_errors) /\
              sublist (map task_id reports) (tid :: rest) /\
              NoDup (map task_id reports) /\
              final_reports (agent_state w')
              = final_reports (agent_state w) ++ map to_dict reports /\
              review_findings (agent_state w') = review_findings (agent_state w) /\
              (forall t, t ∈ map task_id reports ->
                 has_existing_final_report (agent_state w) t = false) /\
              (forall t, t ∈ tid :: rest ->
                 has_existing_final_report (agent_state w') t = true \/
                 (get_review_findings_for_task (agent_state w) t = [] /\
                  ("No review findings found for task " +:+ t) ∈ new_errors)))
    as Hnext.
  { intros w3 Hrep3 Hfind3 Hrest.
    assert (final_reports (agent_state w3)
            = final_reports (agent_state w) ++ [to_dict report]) as Hrep3'
      by (rewrite Hrep3; reflexivity).
    assert (review_findings (agent_state w3) = review_findings (agent_state w))
      as Hfind3' by (rewrite Hfind3; reflexivity).
    assert (has_existing_final_report (agent_state w3) tid = true) as Hex3.
    { unfold has_existing_final_report. rewrite Hrep3', existsb_app. simpl.
      rewrite bool_decide_eq_true_2 by reflexivity. apply orb_true_iff. auto. }
    apply IH in Hrest
      as (reports & new_errors & -> & Hsub & Hnd & Hrep & Hfind & Hnew & Hall).
    exists (report :: reports), new_errors. cbn [map length task_id report].
    split.
    { rewrite <- app_assoc.
      replace (S n + length reports) with (n + S (length reports)) by lia.
      reflexivity. }
    split; [apply sublist_skip, Hsub|]. split.
    { apply NoDup_cons. split; [|exact Hnd]. intros Hin. apply Hnew in Hin. congruence. }
    split; [rewrite Hrep, Hrep3', <- app_assoc; reflexivity|].
    split; [congruence|]. split.
    { intros t [-> | Ht]%elem_of_cons; [exact Hex|].
      specialize (Hnew t Ht). apply not_true_is_false. intros Ht'.
      rewrite (has_existing_final_report_mono _ _ _ _ Hrep3' Ht') in Hnew. discriminate. }
    intros t [-> | Ht]%elem_of_cons.
    - left. exact (has_existing_final_report_mono _ _ _ _ Hrep Hex3).
    - destruct (Hall t Ht) as [? | [Hnone ?]]; [auto|]. right. split; [|assumption].
      rewrite <- Hnone. symmetry. apply findings_for_task_same, Hfind3'. }
  change (overall_severity report) with (determine_overall_severity (f :: fs)) in Hloop.
  change (findings report) with (f :: fs) in Hloop.
  destruct (should_enter_fix_loop (determine_overall_severity (f :: fs))).
  - pose proof (enter_fix_loop_frame clock depth w2 tid (f :: fs)) as [Hr Hf].
    destruct (enter_fix_loop clock depth w2 tid (f :: fs)) as [w3 []];
      [|discriminate].
    apply (Hnext w3); auto.
  - destruct auto_complete.
    + pose proof (update_task_to_completed_frame clock w2 tid) as [Hr Hf].
      apply (Hnext _ Hr Hf Hloop).
    + apply (Hnext w2); auto.
Qed.

(** A list of tasks that all have a report or no findings is passed over. *)
Lemma consolidate_loop_again depth auto_complete : forall ids w n cids errs,
  (forall tid, tid ∈ ids ->
     has_existing_final_report (agent_state w) tid = true \/
     get_review_findings_for_task (agent_state w) tid = []) ->
  exists new_errors,
    consolidate_loop clock depth auto_complete ids w n cids errs
    = (Returned (n, cids, errs ++ new_errors), w).
Proof.
  induction ids as [|tid rest IH]; intros w n cids errs Hall; cbn [consolidate_loop].
  { exists []. rewrite app_nil_r. reflexivity. }
  assert (forall t, t ∈ rest ->
            has_existing_final_report (agent_state w) t = true \/
            get_review_findings_for_task (agent_state w) t = []) as Hrest.
  { intros t Ht. apply Hall. right. exact Ht. }
  destruct (has_existing_final_report (agent_state w) tid) eqn:Hex; [apply IH, Hrest|].
  destruct (Hall tid ltac:(left)) as [? | Hnone]; [congruence|].
  unfold consolidate_findings. rewrite Hnone.
  destruct (IH w n cids (errs ++ ["No review findings found for task " +:+ tid]) Hrest)
    as [new_errors ->].
  exists (("No review findings found for task " +:+ tid) :: new_errors).
  rewrite <- app_assoc. reflexivity.
Qed.

(** X22.  [consolidate_reviews], between loading and saving the state:
    when it returns, it succeeded, [reports_created] is the number of the
    consolidated ids, which are different ids among the requested ones in
    their order, and the final reports grew by one report for each of them,
    in that order.  Every requested id then has a final report, or has no
    findings and an error message.  A second run over the same ids creates
    no report and leaves the state unchanged. *)
Theorem consolidate_reviews_one_report_per_task
    (depth : nat) (w w' : World) (requested : option (list string))
    (auto_complete : bool) (res : ConsolidationResult) :
  consolidate_reviews clock depth w requested auto_complete = (Returned res, w') ->
  let ids :=
    match requested with
    | Some ids => ids
    | None => map State.task_id (get_tasks_in_final_review (agent_state w))
    end in
  success res = true /\
  reports_created res = length (task_ids res) /\
  NoDup (task_ids res) /\
  sublist (task_ids res) ids /\
  (exists reports,
     final_reports (agent_state w')
     = final_reports (agent_state w) ++ map to_dict reports /\
     map ConsolidateReviews.task_id reports = task_ids res) /\
  review_findings (agent_state w') = review_findings (agent_state w) /\
  (forall tid, tid ∈ ids ->
     has_existing_final_report (agent_state w') tid = true \/
     (get_review_findings_for_task (agent_state w) tid = [] /\
      ("No review findings found for task " +:+ tid) ∈ errors res)) /\
  (forall depth' auto_complete',
     exists res',
       consolidate_reviews clock depth' w' (Some ids) auto_complete'
       = (Returned res', w') /\
       reports_created res' = 0 /\ task_ids res' = []).
Proof.
  intros Hcall ids. unfold consolidate_reviews in Hcall. fold ids in Hcall.
  destruct ids as [|id0 ids0] eqn:Hids.
  { injection Hcall as <- <-. cbn [success reports_created task_ids errors length].
    split; [reflexivity|]. split; [reflexivity|]. split; [constructor|].
    split; [constructor|]. split; [exists []; rewrite app_nil_r; auto|].
    split; [reflexivity|]. split.
    - intros t Ht. apply elem_of_nil in Ht. contradiction.
    - intros depth' auto_complete'. eexists. split; [reflexivity|]. split; reflexivity. }
  destruct (consolidate_loop clock depth auto_complete (id0 :: ids0) w 0 [] [])
    as [[[[n cids] errs]|] w1] eqn:Hloop; [|discriminate].
  injection Hcall as <- <-.
  apply consolidate_loop_spec in Hloop
    as (reports & new_errors & [= -> -> ->] & Hsub & Hnd & Hrep & Hfind & Hnew & Hall).
  cbn [success reports_created task_ids errors app Nat.add].
  split; [reflexivity|]. split; [rewrite length_map; reflexivity|].
  split; [exact Hnd|]. split; [exact Hsub|]. split; [eauto|].
  split; [exact Hfind|]. split; [exact Hall|].
  intros depth' auto_complete'. unfold consolidate_reviews.
  destruct (consolidate_loop_again depth' auto_complete' (id0 :: ids0) w1 0 [] [])
    as [new_errors' ->].
  - intros tid Htid. destruct (Hall tid Htid) as [? | [Hnone _]]; [auto|]. right.
    rewrite <- Hnone. apply findings_for_task_same, Hfind.
  - eexists. split; [reflexivity|]. split; reflexivity.
Qed.

End ConsolidateAllProperties.

(** ** spec_parser.py: the dependency graph of a task list *)

Section DependencyGraphs.
Import SpecParser Dependencies.

(** The dependencies that [extract_dependencies] gives a task, and those of
    them that name a task of the list. *)
Local Abbreviation named t := (_extract_dependencies_from_details (details t)).
Local Abbreviation known I t :=
  (List.filter (fun d => bool_decide (d ∈ (I : gset string))) (named t)).
Local Abbreviation unknown I t :=
  (List.filter (fun d => negb (bool_decide (d ∈ (I : gset string)))) (named t)).

Lemma extract_fold (I : gset string) : forall rest done g missing,
  (forall t, t ∈ rest -> task_id t ∉ map fst (edges g)) ->
  (forall t, t ∈ rest -> task_id t ∉ map fst missing) ->
  NoDup (map task_id rest) ->
  exists ns,
    foldl (extract_step I) (done, g, missing) rest
    = (done ++ map (fun t => set_dependencies (named t) t) rest,
       mkDependencyGraph ns
         (edges g ++ map (fun t => (task_id t, known I t)) rest),
       missing ++ omap (fun t => match unknown I t with
                                 | [] => None
                                 | m => Some (task_id t, m)
                                 end) rest) /\
    forall x, x ∈ ns <->
      x ∈ nodes g \/ x ∈ map task_id rest \/ exists t, t ∈ rest /\ x ∈ known I t.
Proof.
  induction rest as [|t rest IH]; intros done g missing Hg Hm Hnd; cbn [foldl].
  { exists (nodes g). rewrite !app_nil_r. destruct g. split; [reflexivity|].
    intros x. cbn. rewrite elem_of_nil. split; [auto|].
    intros [? | [[] | (t & Ht & _)]]; [assumption|].
    apply elem_of_nil in Ht. contradiction. }
  cbn [map] in Hnd. apply NoDup_cons in Hnd as [Hfresh Hnd].
  unfold extract_step at 2.
  set (missing' := match unknown I t with
                   | [] => missing
                   | _ :: _ => FullState.dict_set (task_id t) (unknown I t) missing
                   end).
  assert (missing'
          = missing ++ match unknown I t with
                       | [] => []
                       | m => [(task_id t, m)]
                       end) as Hmissing.
  { unfold missing'. destruct (unknown I t) as [|d ds]; [rewrite app_nil_r; reflexivity|].
    apply dict_set_new, Hm. left. }
  destruct (IH (done ++ [set_dependencies (named t) t])
               (add_task g (task_id t) (known I t)) missing') as (ns & Heq & Hns).
  - intros t' Ht'. unfold add_task. cbn [edges].
    rewrite dict_set_new by (apply Hg; left).
    rewrite map_app, elem_of_app. cbn. rewrite list_elem_of_singleton.
    intros [Hin | Heq]; [apply (Hg t'); [right|]; assumption|].
    apply Hfresh. rewrite <- Heq. apply list_elem_of_fmap. eauto.
  - intros t' Ht'. rewrite Hmissing, map_app, elem_of_app.
    intros [Hin | Hin]; [apply (Hm t'); [right|]; assumption|].
    destruct (unknown I t); cbn in Hin; [apply elem_of_nil in Hin; contradiction|].
    apply list_elem_of_singleton in Hin. apply Hfresh. rewrite <- Hin.
    apply list_elem_of_fmap. eauto.
  - exact Hnd.
  - exists ns. split.
    + fold missing'. rewrite Heq. unfold add_task. cbn [edges].
      rewrite dict_set_new by (apply Hg; left). rewrite Hmissing.
      cbn [map omap]. rewrite <- !app_assoc.
      f_equal. clear. destruct (unknown I t) eqn:Hu; simpl; rewrite Hu; reflexivity.
    + intros x. rewrite Hns. unfold add_task. cbn [nodes map].
      rewrite !elem_of_union, elem_of_singleton, elem_of_list_to_set, elem_of_cons.
      split.
      * intros [[[Hx | ->] | Hx] | [Hx | (t' & Ht' & Hx)]].
        -- left. exact Hx.
        -- right. left. left. reflexivity.
        -- right. right. exists t. split; [left | exact Hx].
        -- right. left. right. exact Hx.
        -- right. right. exists t'. split; [right|]; assumption.
      * intros [Hx | [[-> | Hx] | (t' & [-> | Ht']%elem_of_cons & Hx)]].
        -- left. left. left. exact Hx.
        -- left. left. right. reflexivity.
        -- right. left. exact Hx.
        -- left. right. exact Hx.
        -- right. right. eauto.
Qed.

(** What the loop of [extract_dependencies] builds from tasks with distinct
    ids. *)
Lemma extract_loop_spec (tasks : list Task) :
  NoDup (map task_id tasks) ->
  let I : gset string := list_to_set (map task_id tasks) in
  exists ns,
    extract_loop tasks
    = (map (fun t => set_dependencies (named t) t) tasks,
       mkDependencyGraph ns (map (fun t => (task_id t, known I t)) tasks),
       omap (fun t => match unknown I t with
                      | [] => None
                      | m => Some (task_id t, m)
                      end) tasks) /\
    ns = I.
Proof.
  intros Hnd I.
  destruct (extract_fold I tasks [] (mkDependencyGraph ∅ []) [])
    as (ns & Heq & Hns); [intros t _; apply not_elem_of_nil.. | exact Hnd |].
  exists ns. split; [exact Heq|].
  apply gset_leibniz. intros x. rewrite Hns. cbn [nodes].
  subst I. rewrite (elem_of_list_to_set (C := gset string)). split.
  - intros [Hx | [Hx | (t & _ & Hx)]]; [apply not_elem_of_empty in Hx; contradiction
                                       | exact Hx |].
    apply list_elem_of_In, filter_In in Hx as [_ Hx].
    apply bool_decide_eq_true in Hx.
    apply elem_of_list_to_set in Hx. exact Hx.
  - auto.
Qed.

Lemma dict_get_map_keys {V} (f : Task -> V) (tasks : list Task) t :
  NoDup (map task_id tasks) -> t ∈ tasks ->
  FullState.dict_get (task_id t) (map (fun t => (task_id t, f t)) tasks) = Some (f t).
Proof.
  induction tasks as [|t0 tasks IH]; intros Hnd Ht; [apply elem_of_nil in Ht; contradiction|].
  cbn [map] in Hnd. apply NoDup_cons in Hnd as [Hfresh Hnd]. cbn.
  apply elem_of_cons in Ht as [-> | Ht]; [rewrite String.eqb_refl; reflexivity|].
  destruct (String.eqb_spec (task_id t0) (task_id t)) as [Heq|_]; [|apply IH; assumption].
  destruct Hfresh. rewrite Heq. apply list_elem_of_fmap. eauto.
Qed.

End DependencyGraphs.

(** ** spec_parser.py: the search for circular dependencies *)

Section CycleSearch.
Import SpecParser Dependencies.
Variable G : DependencyGraph.
Hypothesis closed :
  forall n d, n ∈ nodes G -> d ∈ get_dependencies G n -> d ∈ nodes G.

(** A node is finished when it was visited and is not on the stack. *)
Local Abbreviation black st n := (n ∈ visited st /\ n ∉ rec_stack st).

(** The finished nodes are ranked: the dependencies of a finished node are
    finished and have a smaller rank. *)
Local Abbreviation ranked st :=
  (exists (rank : string -> nat) (bound : nat),
     forall n, black st n ->
       rank n < bound /\
       forall d, d ∈ get_dependencies G n -> black st d /\ rank d < rank n).

(** Every node of a path depends on the one before it. *)
Local Abbreviation chain p :=
  (forall i a b, (p : list string) !! i = Some a -> p !! S i = Some b ->
                 b ∈ get_dependencies G a).

Local Abbreviation inv st :=
  (rec_stack st ⊆ visited st /\
   (forall x, x ∈ rec_stack st -> x ∈ path st) /\
   visited st ⊆ nodes G /\
   (cycles st = [] ->
    ranked st /\ (forall x, x ∈ path st -> x ∈ rec_stack st) /\ chain (path st))).

Local Abbreviation decreasing rank :=
  (forall n d, n ∈ nodes G -> d ∈ get_dependencies G n -> (rank d < rank n)%nat).

Local Abbreviation dfs_result st node b st' :=
  (inv st' /\ visited st ∪ {[node]} ⊆ visited st' /\
   (b = true -> cycles st' <> []) /\
   (b = false ->
    rec_stack st' = rec_stack st /\ path st' = path st /\
    cycles st' = cycles st /\ node ∉ rec_stack st') /\
   (forall rank, decreasing rank -> cycles st = [] -> cycles st' = [])).

Lemma index_of_Some x l : x ∈ l -> is_Some (index_of x l).
Proof.
  induction l as [|y l IH]; intros Hx; [apply elem_of_nil in Hx; contradiction|].
  simpl. destruct (String.eqb_spec y x) as [_|Hne]; [eauto|].
  apply elem_of_cons in Hx as [-> | Hx]; [contradiction|].
  destruct (IH Hx) as [i ->]. simpl. eauto.
Qed.

Lemma chain_ranks (rank : string -> nat) (p : list string) :
  chain p -> (forall x, x ∈ p -> x ∈ nodes G) -> decreasing rank ->
  forall i j a b, i <= j -> p !! i = Some a -> p !! j = Some b -> rank b <= rank a.
Proof.
  intros Hchain Hnodes Hdec i j a b Hij Ha. revert b.
  induction Hij as [|j Hij IH]; intros b Hb.
  - assert (a = b) as -> by congruence. lia.
  - destruct (lookup_lt_is_Some_2 p j) as [c Hc].
    { apply lookup_lt_Some in Hb. lia. }
    specialize (IH c Hc). specialize (Hchain j c b Hc Hb).
    assert (rank b < rank c); [|lia].
    apply Hdec; [|exact Hchain]. apply Hnodes, list_elem_of_lookup. eauto.
Qed.

Lemma dfs_loop_spec (recurse : string -> search_state -> option (bool * search_state))
    (depth' : nat) (node : string) (R : gset string) (P : list string) :
  (forall nd s,
     inv s -> nd ∈ nodes G -> nd ∉ visited s ->
     size (nodes G ∖ visited s) < depth' ->
     (cycles s = [] -> forall a, last (path s) = Some a -> nd ∈ get_dependencies G a) ->
     exists b s', recurse nd s = Some (b, s') /\ dfs_result s nd b s') ->
  node ∈ nodes G -> node ∉ R -> (forall x, x ∈ R -> x ∈ P) ->
  forall deps st,
    (forall d, d ∈ deps -> d ∈ get_dependencies G node) ->
    (forall d, d ∈ get_dependencies G node -> d ∈ deps \/ black st d) ->
    inv st -> rec_stack st = R ∪ {[node]} -> path st = P ++ [node] ->
    node ∈ visited st ->
    size (nodes G ∖ visited st) < depth' ->
    (cycles st = [] -> (forall x, x ∈ P -> x ∈ R) /\ chain P) ->
    exists b st',
      dfs_loop recurse node deps st = Some (b, st') /\
      inv st' /\ visited st ⊆ visited st' /\
      (b = true -> cycles st' <> []) /\
      (b = false -> rec_stack st' = R /\ path st' = P /\ cycles st' = cycles st) /\
      (forall rank, decreasing rank -> cycles st = [] -> cycles st' = []).
Proof.
  intros Hrec Hnode HnR HRP.
  induction deps as [|dep deps IH];
    intros st Hdeps Hdone (Hi1 & Hi2 & Hi3 & Hi4) Hstack Hpath Hvis Hsize Hentry;
    cbn [dfs_loop].
  { (* the loop is over: the node is finished *)
    eexists false, _. split; [reflexivity|].
    cbn [visited rec_stack path cycles]. rewrite Hstack, Hpath, removelast_last.
    assert (((R ∪ {[node]}) ∖ {[node]} : gset string) = R) as ->.
    { apply gset_leibniz. intros x.
      rewrite elem_of_difference, elem_of_union, elem_of_singleton.
      split; [intros [[? | ?] ?]; [assumption | contradiction]|].
      intros Hx. split; [auto|]. intros ->. contradiction. }
    split; [|split; [reflexivity|]; split; [discriminate|]; split; [auto | auto]].
    split; [|split; [exact HRP|]; split; [exact Hi3|]].
    { intros x Hx. apply Hi1. rewrite Hstack. apply elem_of_union. auto. }
    intros Hclean. destruct (Hi4 Hclean) as ((rank & bound & Hrank) & _ & _).
    destruct (Hentry Hclean) as [HPR HchainP]. split; [|split; assumption].
    exists (fun x => if String.eqb x node then bound else rank x), (S bound).
    intros n [Hn HnR'].
    assert (forall d, black st d -> d <> node) as Hother.
    { intros d [_ Hd] ->. apply Hd. rewrite Hstack. apply elem_of_union. right.
      apply elem_of_singleton. reflexivity. }
    assert (forall d, black st d -> d ∉ R) as HdR.
    { intros d [_ Hd] Hin. apply Hd. rewrite Hstack. apply elem_of_union. auto. }
    destruct (String.eqb_spec n node) as [->|Hne].
    - split; [lia|]. intros d Hd.
      destruct (Hdone d Hd) as [Hin | Hblack]; [apply elem_of_nil in Hin; contradiction|].
      rewrite (proj2 (String.eqb_neq d node)) by (apply Hother, Hblack).
      split; [split; [apply Hblack | apply HdR, Hblack]|].
      destruct (Hrank d Hblack) as [Hlt _]. exact Hlt.
    - assert (black st n) as Hblack.
      { split; [exact Hn|]. rewrite Hstack, elem_of_union, elem_of_singleton. tauto. }
      destruct (Hrank n Hblack) as [Hlt Hsucc]. split; [lia|]. intros d Hd.
      destruct (Hsucc d Hd) as [Hdb Hdlt].
      rewrite (proj2 (String.eqb_neq d node)) by (apply Hother, Hdb).
      split; [split; [apply Hdb | apply HdR, Hdb] | exact Hdlt]. }
  assert (forall st1,
            inv st1 -> visited st ⊆ visited st1 ->
            rec_stack st1 = rec_stack st -> path st1 = path st ->
            cycles st1 = cycles st -> black st1 dep ->
            exists b st',
              dfs_loop recurse node deps st1 = Some (b, st') /\
              inv st' /\ visited st ⊆ visited st' /\
              (b = true -> cycles st' <> []) /\
              (b = false -> rec_stack st' = R /\ path st' = P /\ cycles st' = cycles st) /\
              (forall rank, decreasing rank -> cycles st = [] -> cycles st' = []))
    as Hnext.
  { intros st1 Hinv1 Hsub Hstack1 Hpath1 Hcycles1 Hdep.
    destruct (IH st1) as (b & st' & Hloop & Hinv' & Hsub' & Htrue & Hfalse & Hacyc).
    - intros d Hd. apply Hdeps. right. exact Hd.
    - intros d Hd. destruct (Hdone d Hd) as [[-> | Hin]%elem_of_cons | [Hv Hs]]; auto.
      right. split; [apply Hsub, Hv | rewrite Hstack1; exact Hs].
    - exact Hinv1.
    - rewrite Hstack1. exact Hstack.
    - rewrite Hpath1. exact Hpath.
    - apply Hsub, Hvis.
    - eapply Nat.le_lt_trans; [|exact Hsize]. apply subseteq_size.
      intros x [Hx Hnx]%elem_of_difference. apply elem_of_difference. auto.
    - rewrite Hcycles1. exact Hentry.
    - exists b, st'. split; [exact Hloop|]. split; [exact Hinv'|].
      split; [etransitivity; eassumption|]. split; [exact Htrue|]. split.
      + intros Hb. destruct (Hfalse Hb) as (? & ? & ?). repeat split; congruence.
      + intros rank Hdec Hclean. apply (Hacyc rank Hdec). congruence. }
  destruct (bool_decide (dep ∉ visited st)) eqn:Hnew.
  - (* the dependency is new: the nested call *)
    apply bool_decide_eq_true in Hnew.
    destruct (Hrec dep st) as (b & s' & -> & Hinv' & Hsub' & Htrue & Hfalse & Hacyc).
    + exact (conj Hi1 (conj Hi2 (conj Hi3 Hi4))).
    + apply (closed node); [exact Hnode | apply Hdeps; left].
    + exact Hnew.
    + exact Hsize.
    + intros _ a Ha. rewrite Hpath, last_snoc in Ha. injection Ha as <-.
      apply Hdeps. left.
    + destruct b.
      * eexists true, s'. split; [reflexivity|]. split; [exact Hinv'|].
        split; [etransitivity; [|exact Hsub']; apply union_subseteq_l|].
        split; [exact Htrue|]. split; [discriminate | exact Hacyc].
      * destruct (Hfalse eq_refl) as (Hs & Hp & Hc & Hd).
        apply (Hnext s'); try assumption.
        -- etransitivity; [|exact Hsub']. apply union_subseteq_l.
        -- split; [|exact Hd]. apply Hsub', elem_of_union. right.
           apply elem_of_singleton. reflexivity.
  - apply bool_decide_eq_false in Hnew. apply dec_stable in Hnew.
    destruct (bool_decide (dep ∈ rec_stack st)) eqn:Hon.
    + (* the dependency is on the stack: a cycle is recorded *)
      apply bool_decide_eq_true in Hon.
      destruct (index_of_Some dep (path st) (Hi2 dep Hon)) as [i ->].
      eexists true, _. split; [reflexivity|].
      cbn [visited rec_stack path cycles].
      assert (cycles st ++ [List.skipn i (path st) ++ [dep]] <> []) as Hrecorded.
      { destruct (cycles st); discriminate. }
      split; [split; [exact Hi1|]; split; [exact Hi2|]; split; [exact Hi3|];
              intros Hc; destruct (Hrecorded Hc)|].
      split; [reflexivity|]. split; [intros _; exact Hrecorded|].
      split; [discriminate|].
      intros rank Hdec Hclean. exfalso.
      destruct (Hi4 Hclean) as (_ & Hpr & Hchain).
      assert (forall x, x ∈ path st -> x ∈ nodes G) as Hpn.
      { intros x Hx. apply Hi3, Hi1, Hpr, Hx. }
      destruct (proj1 (list_elem_of_lookup _ _) (Hi2 dep Hon)) as [k Hk].
      assert (path st !! length P = Some node) as Hlast.
      { rewrite Hpath. apply list_lookup_middle. reflexivity. }
      assert (k <= length P) as Hle.
      { apply lookup_lt_Some in Hk. rewrite Hpath, length_app in Hk. simpl in Hk. lia. }
      pose proof (chain_ranks rank (path st) Hchain Hpn Hdec k (length P) dep node
                    Hle Hk Hlast) as Hrank.
      assert (rank dep < rank node); [|lia].
      apply Hdec; [exact Hnode | apply Hdeps; left].
    + (* the dependency is finished *)
      apply bool_decide_eq_false in Hon.
      apply (Hnext st); try reflexivity; [exact (conj Hi1 (conj Hi2 (conj Hi3 Hi4))) | auto].
Qed.

Lemma dfs_spec : forall depth node st,
  inv st -> node ∈ nodes G -> node ∉ visited st ->
  size (nodes G ∖ visited st) < depth ->
  (cycles st = [] -> forall a, last (path st) = Some a -> node ∈ get_dependencies G a) ->
  exists b st', dfs depth G node st = Some (b, st') /\ dfs_result st node b st'.
Proof.
  induction depth as [|depth IH]; intros node st (Hi1 & Hi2 & Hi3 & Hi4) Hnode Hnew Hsize Hedge;
    [lia|].
  cbn [dfs].
  set (st0 := mkSearchState (visited st ∪ {[node]}) (rec_stack st ∪ {[node]})
                            (path st ++ [node]) (cycles st)).
  assert (node ∉ rec_stack st) as HnR.
  { intros Hin. apply Hnew, Hi1, Hin. }
  destruct (dfs_loop_spec (dfs depth G) depth node (rec_stack st) (path st) IH Hnode HnR Hi2
              (get_dependencies G node) st0)
    as (b & st' & Hloop & Hinv' & Hsub & Htrue & Hfalse & Hacyc).
  - auto.
  - auto.
  - cbn [visited rec_stack path cycles st0].
    split; [apply union_mono_r, Hi1|]. split.
    { intros x [Hx | ->%elem_of_singleton]%elem_of_union; apply elem_of_app;
        [left; apply Hi2, Hx | right; left]. }
    split.
    { intros x [Hx | ->%elem_of_singleton]%elem_of_union; [apply Hi3, Hx | exact Hnode]. }
    intros Hclean. destruct (Hi4 Hclean) as ((rank & bound & Hrank) & Hpr & Hchain).
    split; [|split].
    + exists rank, bound. intros n [Hn HnS].
      assert (black st n) as Hblack.
      { rewrite elem_of_union, elem_of_singleton in Hn, HnS. split; [|tauto].
        destruct Hn as [? | ->]; [assumption | tauto]. }
      destruct (Hrank n Hblack) as [Hlt Hsucc]. split; [exact Hlt|].
      intros d Hd. destruct (Hsucc d Hd) as [[Hdv Hds] Hdlt]. split; [|exact Hdlt].
      split; [apply elem_of_union; auto|].
      rewrite elem_of_union, elem_of_singleton. intros [? | ->]; contradiction.
    + intros x [Hx | ->%list_elem_of_singleton]%elem_of_app; apply elem_of_union;
        [left; apply Hpr, Hx | right; apply elem_of_singleton; reflexivity].
    + intros i a c Ha Hc.
      destruct (decide (S i < length (path st))) as [Hlt|Hge].
      * rewrite lookup_app_l in Ha, Hc by lia. eapply Hchain; eassumption.
      * assert (S i = length (path st)) as Hi.
        { apply lookup_lt_Some in Hc. rewrite length_app in Hc. simpl in Hc. lia. }
        rewrite lookup_app_l in Ha by lia.
        rewrite Hi, list_lookup_middle in Hc by reflexivity. injection Hc as <-.
        apply (Hedge Hclean). rewrite last_lookup.
        replace (pred (length (path st))) with i by lia. exact Ha.
  - reflexivity.
  - reflexivity.
  - apply elem_of_union. right. apply elem_of_singleton. reflexivity.
  - cbn [visited st0].
    assert (size (nodes G ∖ (visited st ∪ {[node]})) < size (nodes G ∖ visited st));
      [|lia].
    apply subset_size. split.
    + intros x [Hx Hnx]%elem_of_difference. apply elem_of_difference.
      split; [exact Hx|]. intros Hv. apply Hnx, elem_of_union. auto.
    + intros Hsub. specialize (Hsub node).
      rewrite !elem_of_difference, elem_of_union, elem_of_singleton in Hsub.
      destruct Hsub as [_ Hsub]; [auto | apply Hsub; auto].
  - intros Hclean. destruct (Hi4 Hclean) as (_ & Hpr & Hchain). auto.
  - exists b, st'. split; [exact Hloop|]. split; [exact Hinv'|].
    split; [exact Hsub|]. split; [exact Htrue|]. split; [|exact Hacyc].
    intros Hb. destruct (Hfalse Hb) as (Hs & Hp & Hc). repeat split; try assumption.
    rewrite Hs. exact HnR.
Qed.

Lemma detect_loop_spec depth : forall order st,
  inv st -> (forall n, n ∈ order -> n ∈ nodes G) ->
  size (nodes G) < depth ->
  (cycles st = [] -> path st = []) ->
  exists st',
    detect_loop depth G order st = Some st' /\ inv st' /\
    visited st ⊆ visited st' /\ (forall n, n ∈ order -> n ∈ visited st') /\
    (cycles st' = [] -> cycles st = [] /\ rec_stack st' = rec_stack st) /\
    (forall rank, decreasing rank -> cycles st = [] -> cycles st' = []).
Proof.
  induction order as [|node rest IH]; intros st Hinv Horder Hsize Hpath;
    cbn [detect_loop].
  { exists st. split; [reflexivity|]. split; [exact Hinv|]. split; [reflexivity|].
    split; [intros n Hn; apply elem_of_nil in Hn; contradiction | auto]. }
  assert (forall n, n ∈ rest -> n ∈ nodes G) as Hrest.
  { intros n Hn. apply Horder. right. exact Hn. }
  destruct (bool_decide (node ∉ visited st)) eqn:Hnew.
  - apply bool_decide_eq_true in Hnew.
    destruct (dfs_spec depth node st Hinv (Horder node ltac:(left)) Hnew)
      as (b & st1 & -> & Hinv1 & Hsub1 & Htrue & Hfalse & Hacyc1).
    { eapply Nat.le_lt_trans; [|exact Hsize]. apply subseteq_size.
      intros x [Hx _]%elem_of_difference. exact Hx. }
    { intros Hclean a Ha. rewrite (Hpath Hclean) in Ha. discriminate. }
    destruct (IH st1 Hinv1 Hrest Hsize) as (st' & Hloop & Hinv' & Hsub' & Hall & Hclean' & Hacyc').
    { intros Hclean. destruct b; [destruct (Htrue eq_refl Hclean)|].
      destruct (Hfalse eq_refl) as (_ & -> & Hc & _). apply Hpath. congruence. }
    exists st'. split; [exact Hloop|]. split; [exact Hinv'|].
    split; [etransitivity; [|exact Hsub']; etransitivity; [|exact Hsub1];
            apply union_subseteq_l|].
    split; [|split].
    + intros n [-> | Hn]%elem_of_cons; [|auto].
      apply Hsub', Hsub1, elem_of_union. right. apply elem_of_singleton. reflexivity.
    + intros Hc. destruct (Hclean' Hc) as [Hc1 Hs1].
      destruct b; [destruct (Htrue eq_refl Hc1)|].
      destruct (Hfalse eq_refl) as (Hs & _ & Hcy & _). split; congruence.
    + intros rank Hdec Hc. apply (Hacyc' rank Hdec), (Hacyc1 rank Hdec), Hc.
  - apply bool_decide_eq_false in Hnew. apply dec_stable in Hnew.
    destruct (IH st Hinv Hrest Hsize Hpath) as (st' & Hloop & Hinv' & Hsub' & Hall & Hrestc).
    exists st'. split; [exact Hloop|]. split; [exact Hinv'|]. split; [exact Hsub'|].
    split; [|exact Hrestc].
    intros n [-> | Hn]%elem_of_cons; [apply Hsub', Hnew | auto].
Qed.

(** The search returns when the limit of the nesting is above the number of
    nodes; it reports no cycle exactly when the nodes can be ranked so that
    every node stands above its dependencies. *)
Lemma detect_circular_spec (depth : nat) (order : list string) :
  (forall n, n ∈ order <-> n ∈ nodes G) ->
  size (nodes G) < depth ->
  exists circular,
    _detect_circular_dependencies depth G order = Some circular /\
    (circular = [] <-> exists rank : string -> nat, decreasing rank).
Proof.
  intros Horder Hsize. unfold _detect_circular_dependencies.
  destruct (detect_loop_spec depth order (mkSearchState ∅ ∅ [] []))
    as (st' & -> & (Hi1 & Hi2 & Hi3 & Hi4) & _ & Hall & Hclean & Hacyc).
  - cbn [visited rec_stack path cycles].
    split; [reflexivity|]. split; [intros x Hx; apply not_elem_of_empty in Hx; contradiction|].
    split; [intros x Hx; apply not_elem_of_empty in Hx; contradiction|].
    intros _. split; [|split].
    + exists (fun _ => 0), 0. intros n [Hn _]. apply not_elem_of_empty in Hn. contradiction.
    + intros x Hx. apply elem_of_nil in Hx. contradiction.
    + intros i a b Ha. discriminate.
  - intros n Hn. apply Horder, Hn.
  - exact Hsize.
  - reflexivity.
  - exists (cycles st'). split; [reflexivity|]. split.
    + intros Hc. destruct (Hclean Hc) as [_ Hstack]. cbn [rec_stack] in Hstack.
      destruct (Hi4 Hc) as ((rank & bound & Hrank) & _ & _).
      exists rank. intros n d Hn Hd.
      assert (black st' n) as Hblack.
      { split; [apply Hall, Horder, Hn|]. rewrite Hstack. apply not_elem_of_empty. }
      destruct (Hrank n Hblack) as [_ Hsucc]. apply Hsucc, Hd.
    + intros [rank Hdec]. apply (Hacyc rank Hdec). reflexivity.
Qed.

End CycleSearch.

(** ** spec_parser.py: the topological sort *)

Section TopologicalSort.
Import SpecParser Dependencies.

Lemma keyed_fold_lookup {V} (k : Task -> string) (v : Task -> V) (ts : list Task) :
  NoDup (map k ts) ->
  forall t, t ∈ ts ->
    foldl (fun m t => <[k t := v t]> m) (∅ : gmap string V) ts !! k t = Some (v t).
Proof.
  induction ts as [|x ts IH] using rev_ind; intros Hnd t Ht.
  - apply elem_of_nil in Ht. contradiction.
  - rewrite foldl_app. cbn [foldl]. rewrite map_app in Hnd.
    apply NoDup_app in Hnd as (Hnd & Hdis & _).
    apply elem_of_app in Ht as [Ht | ->%list_elem_of_singleton].
    + rewrite lookup_insert_ne; [apply IH; assumption|].
      intros Heq. apply (Hdis (k t)); [apply list_elem_of_fmap; eauto|].
      rewrite <- Heq. left.
    + apply lookup_insert_eq.
Qed.

Variable ts : list Task.
Hypothesis ids_distinct : NoDup (map task_id ts).
Hypothesis deps_distinct : forall t, t ∈ ts -> NoDup (dependencies t).

(** The number of the dependencies of a task that were not taken off the
    queue yet. *)
Local Abbreviation remaining popped t :=
  (length (List.filter (fun d => negb (bool_decide (d ∈ (popped : list string))))
                       (dependencies t))).

Lemma same_id t t' : t ∈ ts -> t' ∈ ts -> task_id t = task_id t' -> t = t'.
Proof.
  intros Ht Ht' Hid.
  apply list_elem_of_lookup in Ht as [i Hi]. apply list_elem_of_lookup in Ht' as [j Hj].
  assert (i = j) as ->; [|congruence].
  apply (NoDup_lookup (map task_id ts) i j (task_id t)); [exact ids_distinct | |].
  - rewrite list_lookup_fmap, Hi. reflexivity.
  - rewrite list_lookup_fmap, Hj, Hid. reflexivity.
Qed.

Lemma remaining_zero popped t :
  remaining popped t = 0 <-> forall d, d ∈ dependencies t -> d ∈ popped.
Proof.
  induction (dependencies t) as [|d ds IH]; cbn [List.filter].
  { split; [intros _ d Hd; apply elem_of_nil in Hd; contradiction | reflexivity]. }
  destruct (bool_decide (d ∈ popped)) eqn:Hd; cbn [negb].
  - apply bool_decide_eq_true in Hd. rewrite IH. split.
    + intros H x [-> | Hx]%elem_of_cons; auto.
    + intros H x Hx. apply H. right. exact Hx.
  - apply bool_decide_eq_false in Hd. split; [discriminate|].
    intros H. destruct Hd. apply H. left.
Qed.

Lemma remaining_pop popped current t :
  NoDup (dependencies t) -> current ∉ popped ->
  remaining popped t
  = remaining (popped ++ [current]) t
    + (if bool_decide (current ∈ dependencies t) then 1 else 0).
Proof.
  intros Hnd Hnew. induction (dependencies t) as [|d ds IH]; [reflexivity|].
  apply NoDup_cons in Hnd as [Hd Hnd]. specialize (IH Hnd). cbn [List.filter].
  destruct (decide (d = current)) as [->|Hne].
  - rewrite (bool_decide_eq_false_2 _ Hnew).
    rewrite (bool_decide_eq_true_2 (current ∈ popped ++ [current]))
      by (apply elem_of_app; right; left).
    rewrite (bool_decide_eq_true_2 (current ∈ current :: ds)) by left.
    rewrite (bool_decide_eq_false_2 _ Hd) in IH. cbn [negb length]. lia.
  - assert (bool_decide (d ∈ popped ++ [current]) = bool_decide (d ∈ popped)) as ->.
    { apply bool_decide_ext. rewrite elem_of_app, list_elem_of_singleton. tauto. }
    assert (bool_decide (current ∈ d :: ds) = bool_decide (current ∈ ds)) as ->.
    { apply bool_decide_ext. rewrite elem_of_cons. split; [intros [? | ?]|]; auto.
      congruence. }
    destruct (bool_decide (d ∈ popped)); cbn [negb length]; lia.
Qed.

(** The loop [for task in tasks] of one iteration. *)
Lemma release_spec popped current :
  current ∉ popped ->
  forall l in_degree queue,
    (forall t, t ∈ l -> t ∈ ts) ->
    NoDup (map task_id l) ->
    (forall t, t ∈ l ->
       in_degree !! task_id t = Some (Z.of_nat (remaining popped t))) ->
    exists in_degree',
      release current l in_degree queue
      = (in_degree',
         queue ++ map task_id
                    (List.filter
                       (fun t => bool_decide (current ∈ dependencies t)
                                 && (remaining (popped ++ [current]) t =? 0)%nat)
                       l)) /\
      (forall t, t ∈ l ->
         in_degree' !! task_id t
         = Some (Z.of_nat (remaining (popped ++ [current]) t))) /\
      (forall x, x ∉ map task_id l -> in_degree' !! x = in_degree !! x).
Proof.
  intros Hnew. unfold release.
  induction l as [|t l IH]; intros in_degree queue Hts Hnd Hdeg; cbn [foldl].
  { exists in_degree. rewrite app_nil_r. split; [reflexivity|]. split; [|auto].
    intros t Ht. apply elem_of_nil in Ht. contradiction. }
  cbn [map] in Hnd. apply NoDup_cons in Hnd as [Hfresh Hnd].
  pose proof (remaining_pop popped current t (deps_distinct t (Hts t ltac:(left))) Hnew)
    as Hrem.
  pose proof (Hdeg t ltac:(left)) as Ht.
  assert (forall (in_degree1 : gmap string Z) (queue1 : list string),
            in_degree1 !! task_id t
            = Some (Z.of_nat (remaining (popped ++ [current]) t)) ->
            (forall x, x <> task_id t -> in_degree1 !! x = in_degree !! x) ->
            queue1
            = queue ++ map task_id
                (List.filter
                   (fun t => bool_decide (current ∈ dependencies t)
                             && (remaining (popped ++ [current]) t =? 0)%nat) [t]) ->
            exists in_degree',
              foldl (fun '(in_degree, queue) task =>
                       if bool_decide (current ∈ dependencies task) then
                         let d := (default 0%Z (in_degree !! task_id task) - 1)%Z in
                         let in_degree := <[task_id task := d]> in_degree in
                         if (d =? 0)%Z then (in_degree, queue ++ [task_id task])
                         else (in_degree, queue)
                       else (in_degree, queue))
                    (in_degree1, queue1) l
              = (in_degree',
                 queue ++ map task_id
                   (List.filter
                      (fun t => bool_decide (current ∈ dependencies t)
                                && (remaining (popped ++ [current]) t =? 0)%nat)
                      (t :: l))) /\
              (forall t', t' ∈ t :: l ->
                 in_degree' !! task_id t'
                 = Some (Z.of_nat (remaining (popped ++ [current]) t'))) /\
              (forall x, x ∉ map task_id (t :: l) -> in_degree' !! x = in_degree !! x))
    as Hstep.
  { intros in_degree1 queue1 Ht1 Hother ->.
    destruct (IH in_degree1
                (queue ++ map task_id
                   (List.filter
                      (fun t => bool_decide (current ∈ dependencies t)
                                && (remaining (popped ++ [current]) t =? 0)%nat) [t])))
      as (in_degree' & Hfold & Hnew' & Hkeep).
    - intros t' Ht'. apply Hts. right. exact Ht'.
    - exact Hnd.
    - intros t' Ht'. rewrite Hother; [apply Hdeg; right; exact Ht'|].
      intros Heq. apply Hfresh. rewrite <- Heq. apply list_elem_of_fmap. eauto.
    - exists in_degree'. split; [|split].
      + refine (eq_trans Hfold _). rewrite <- app_assoc, <- map_app. f_equal. f_equal.
        change (t :: l) with ([t] ++ l). rewrite List.filter_app. reflexivity.
      + intros t' [-> | Ht']%elem_of_cons; [|auto].
        rewrite Hkeep; [exact Ht1 | exact Hfresh].
      + intros x Hx. cbn [map] in Hx. apply not_elem_of_cons in Hx as [Hne Hx].
        rewrite Hkeep by exact Hx. apply Hother, Hne. }
  destruct (bool_decide (current ∈ dependencies t)) eqn:Hdep.
  - cbv zeta. rewrite Ht. cbn [default]. unfold id.
    assert ((Z.of_nat (remaining popped t) - 1)%Z
            = Z.of_nat (remaining (popped ++ [current]) t)) as Hd by lia.
    rewrite Hd.
    assert ((Z.of_nat (remaining (popped ++ [current]) t) =? 0)%Z
            = (remaining (popped ++ [current]) t =? 0)%nat) as Hzero.
    { destruct (Nat.eqb_spec (remaining (popped ++ [current]) t) 0) as [-> | Hne];
        [reflexivity | apply Z.eqb_neq; lia]. }
    rewrite Hzero.
    destruct (remaining (popped ++ [current]) t =? 0)%nat eqn:Hz.
    + apply Hstep;
        [apply lookup_insert_eq | intros x Hx; apply lookup_insert_ne; congruence |].
      cbn [List.filter]. rewrite Hdep, Hz. reflexivity.
    + apply Hstep;
        [apply lookup_insert_eq | intros x Hx; apply lookup_insert_ne; congruence |].
      cbn [List.filter]. rewrite Hdep, Hz. cbn [andb map]. rewrite app_nil_r.
      reflexivity.
  - apply Hstep.
    + rewrite Ht. f_equal. f_equal. lia.
    + reflexivity.
    + cbn [List.filter]. rewrite Hdep. cbn [andb map]. rewrite app_nil_r. reflexivity.
Qed.

Variable M : gmap string Task.
Hypothesis M_tasks : forall t, t ∈ ts -> M !! task_id t = Some t.

(** What holds between the iterations of the [while] loop; [popped] are the
    ids taken off the queue so far. *)
Local Abbreviation kahn popped in_degree queue sorted :=
  (NoDup (popped ++ queue) /\
   (forall x, x ∈ popped ++ queue -> x ∈ map task_id ts) /\
   (forall t, t ∈ ts ->
      (in_degree : gmap string Z) !! task_id t
      = Some (Z.of_nat (remaining popped%list t))) /\
   (forall t, t ∈ ts ->
      task_id t ∈ popped ++ queue <-> remaining popped%list t = 0) /\
   Forall2 (fun t x => t ∈ ts /\ task_id t = x) sorted popped%list /\
   (forall i x t d, popped%list !! i = Some x -> t ∈ ts -> task_id t = x ->
      d ∈ dependencies t -> exists j, j < i /\ popped%list !! j = Some d)).

Lemma kahn_step popped in_degree queue sorted current rest t_c in_degree' :
  kahn popped in_degree queue sorted ->
  current :: rest ≡ₚ queue ->
  t_c ∈ ts -> task_id t_c = current ->
  (forall t, t ∈ ts ->
     in_degree' !! task_id t = Some (Z.of_nat (remaining (popped ++ [current]) t))) ->
  kahn (popped ++ [current]) in_degree'
       (rest ++ map task_id
                  (List.filter
                     (fun t => bool_decide (current ∈ dependencies t)
                               && (remaining (popped ++ [current]) t =? 0)%nat)
                     ts))
       (sorted ++ [t_c]).
Proof.
  intros (Hnd & Hids & Hdeg & Hzero & Hsorted & Hbefore) Hperm Hc Hcid Hdeg'.
  set (released := List.filter
                     (fun t => bool_decide (current ∈ dependencies t)
                               && (remaining (popped ++ [current]) t =? 0)%nat) ts).
  assert (NoDup (popped ++ current :: rest)) as Hnd1 by (rewrite Hperm; exact Hnd).
  assert (current ∉ popped) as Hnew.
  { apply NoDup_app in Hnd1 as (_ & Hdis & _). intros Hin. apply (Hdis current Hin). left. }
  assert (forall t, t ∈ released <->
            t ∈ ts /\ current ∈ dependencies t /\
            remaining (popped ++ [current]) t = 0) as Hreleased.
  { intros t. unfold released. rewrite list_elem_of_In, filter_In, <- list_elem_of_In.
    rewrite andb_true_iff, bool_decide_eq_true, Nat.eqb_eq. tauto. }
  assert (forall t, t ∈ ts ->
            remaining popped t
            = remaining (popped ++ [current]) t
              + (if bool_decide (current ∈ dependencies t) then 1 else 0)) as Hrem.
  { intros t Ht. apply remaining_pop; [apply deps_distinct, Ht | exact Hnew]. }
  assert (forall x, x ∈ (popped ++ [current]) ++ rest <-> x ∈ popped ++ queue) as Hsame.
  { intros x. rewrite <- app_assoc. cbn [app]. rewrite <- Hperm. reflexivity. }
  split; [|split; [|split; [exact Hdeg'|]; split; [|split]]].
  - (* no id twice *)
    rewrite app_assoc. apply NoDup_app. split; [|split].
    + rewrite <- app_assoc. exact Hnd1.
    + intros x Hx (t & -> & Ht)%list_elem_of_fmap.
      apply Hreleased in Ht as (Ht & Hdep & Hz). apply Hsame in Hx.
      apply (Hzero t Ht) in Hx. specialize (Hrem t Ht).
      rewrite (bool_decide_eq_true_2 _ Hdep) in Hrem. lia.
    + apply NoDup_fmap_2_strong; [|apply NoDup_ListNoDup, List.NoDup_filter, NoDup_ListNoDup;
                                   apply (NoDup_fmap_1 task_id), ids_distinct].
      intros t t' Ht Ht'. apply same_id; [apply Hreleased in Ht | apply Hreleased in Ht'];
        tauto.
  - (* only ids of tasks *)
    intros x. rewrite app_assoc, elem_of_app. intros [Hx | Hx].
    + apply Hids, Hsame, Hx.
    + apply list_elem_of_fmap in Hx as (t & -> & Ht). apply Hreleased in Ht as [Ht _].
      apply list_elem_of_fmap. eauto.
  - (* on the queue or taken off exactly when nothing remains *)
    intros t Ht. rewrite app_assoc, elem_of_app, Hsame, (Hzero t Ht).
    specialize (Hrem t Ht). split.
    + intros [Hz | Hin]; [lia|].
      apply list_elem_of_fmap in Hin as (t' & Hid & Ht').
      apply Hreleased in Ht' as (Ht' & _ & Hz'). rewrite (same_id t t' Ht Ht' Hid).
      exact Hz'.
    + intros Hz. destruct (bool_decide (current ∈ dependencies t)) eqn:Hdep.
      * right. apply list_elem_of_fmap. exists t. split; [reflexivity|].
        apply Hreleased. apply bool_decide_eq_true in Hdep. auto.
      * left. lia.
  - apply Forall2_app; [exact Hsorted|]. constructor; [auto | constructor].
  - (* every task after its dependencies *)
    intros i x t d Hi Ht Hid Hd.
    destruct (decide (i < length popped)) as [Hlt|Hge].
    + rewrite lookup_app_l in Hi by exact Hlt.
      destruct (Hbefore i x t d Hi Ht Hid Hd) as (j & Hj & Hjd).
      exists j. split; [exact Hj|]. rewrite lookup_app_l by lia. exact Hjd.
    + assert (i = length popped) as ->.
      { apply lookup_lt_Some in Hi. rewrite length_app in Hi. simpl in Hi. lia. }
      rewrite list_lookup_middle in Hi by reflexivity. injection Hi as <-.
      assert (remaining popped t = 0) as Hz.
      { apply (Hzero t Ht). rewrite Hid, <- Hperm. apply elem_of_app. right. left. }
      pose proof (proj1 (remaining_zero popped t) Hz d Hd) as Hin.
      apply list_elem_of_lookup in Hin as [j Hj]. exists j.
      split; [apply lookup_lt_Some in Hj; exact Hj|].
      rewrite lookup_app_l by (apply lookup_lt_Some in Hj; exact Hj). exact Hj.
Qed.

Lemma sort_loop_spec : forall fuel popped in_degree queue sorted,
  kahn popped in_degree queue sorted ->
  length ts < fuel + length popped ->
  exists popped' in_degree' sorted',
    sort_loop fuel ts M in_degree queue sorted = Some sorted' /\
    kahn popped' in_degree' [] sorted'.
Proof.
  induction fuel as [|fuel IH]; intros popped in_degree queue sorted Hkahn Hfuel.
  - destruct queue as [|q0 queue]; [exists popped, in_degree, sorted; auto|].
    exfalso. destruct Hkahn as (Hnd & Hids & _).
    pose proof (submseteq_length _ _ (NoDup_submseteq _ _ Hnd Hids)) as Hlen.
    rewrite length_app, length_map in Hlen. simpl in Hlen, Hfuel. lia.
  - destruct queue as [|q0 queue]; [exists popped, in_degree, sorted; auto|].
    cbn [sort_loop]. unfold sort_ids.
    pose proof (sort_by_perm String.ltb (q0 :: queue)) as Hperm.
    destruct (SeqUnits.sort_by String.ltb (q0 :: queue)) as [|current rest] eqn:Hsort.
    { apply Permutation_nil_cons in Hperm. contradiction. }
    pose proof Hkahn as (Hnd & Hids & Hdeg & _).
    assert (current ∈ map task_id ts) as Hcurrent.
    { apply Hids, elem_of_app. right. rewrite <- Hperm. left. }
    apply list_elem_of_fmap in Hcurrent as (t_c & Hcid & Hc).
    assert (M !! current = Some t_c) as -> by (rewrite Hcid; apply M_tasks, Hc).
    assert (current ∉ popped) as Hnew.
    { rewrite <- Hperm in Hnd. apply NoDup_app in Hnd as (_ & Hdis & _).
      intros Hin. apply (Hdis current Hin). left. }
    destruct (release_spec popped current Hnew ts in_degree rest)
      as (in_degree' & -> & Hdeg' & _); [auto | exact ids_distinct | exact Hdeg |].
    apply (IH (popped ++ [current])).
    + apply (kahn_step popped in_degree (q0 :: queue) sorted current rest t_c);
        [exact Hkahn | exact Hperm | exact Hc | symmetry; exact Hcid | exact Hdeg'].
    + rewrite length_app. simpl. lia.
Qed.

End TopologicalSort.

Section TopologicalOrder.
Import SpecParser Dependencies.

Lemma filter_none_popped (deps : list string) :
  List.filter (fun d => negb (bool_decide (d ∈ ([] : list string)))) deps = deps.
Proof.
  induction deps as [|d deps IH]; [reflexivity|]. cbn [List.filter].
  rewrite bool_decide_eq_false_2 by apply not_elem_of_nil. cbn [negb]. f_equal. exact IH.
Qed.

(** The part of [topological_sort] that sorts: it uses no more iterations
    than there are tasks, puts every task after its dependencies, and
    leaves no task out when the dependencies name tasks and can be ranked. *)
Lemma sort_valid_spec (ts : list Task) :
  NoDup (map task_id ts) ->
  (forall t, t ∈ ts -> NoDup (dependencies t)) ->
  exists sorted,
    sort_valid (S (length ts)) ts = Some sorted /\
    NoDup (map task_id sorted) /\
    (forall t, t ∈ sorted -> t ∈ ts) /\
    (forall i t d, sorted !! i = Some t -> d ∈ dependencies t ->
       exists j t_d, j < i /\ sorted !! j = Some t_d /\ task_id t_d = d) /\
    ((exists rank : string -> nat,
        forall t d, t ∈ ts -> d ∈ dependencies t ->
          d ∈ map task_id ts /\ rank d < rank (task_id t)) ->
     sorted ≡ₚ ts).
Proof.
  intros Hnd Hdeps. unfold sort_valid.
  set (M := foldl (fun m t => <[task_id t := t]> m) (∅ : gmap string Task) ts).
  set (in_degree := foldl (fun m t => <[task_id t := Z.of_nat (length (dependencies t))]> m)
                          (∅ : gmap string Z) ts).
  set (queue := List.filter (fun tid => (default 0%Z (in_degree !! tid) =? 0)%Z)
                            (Py.fromkeys (map task_id ts))).
  assert (forall t, t ∈ ts -> M !! task_id t = Some t) as HM.
  { intros t Ht. apply (keyed_fold_lookup task_id (fun t => t) ts Hnd t Ht). }
  assert (forall t, t ∈ ts ->
            in_degree !! task_id t = Some (Z.of_nat (length (dependencies t)))) as Hdeg.
  { intros t Ht.
    apply (keyed_fold_lookup task_id (fun t => Z.of_nat (length (dependencies t)))
             ts Hnd t Ht). }
  assert (forall x, x ∈ queue <->
            exists t, t ∈ ts /\ task_id t = x /\ dependencies t = []) as Hqueue.
  { intros x. unfold queue. rewrite (fromkeys_id _ Hnd).
    rewrite list_elem_of_In, filter_In, <- list_elem_of_In, list_elem_of_fmap. split.
    - intros [(t & -> & Ht) Hz]. exists t. split; [exact Ht|]. split; [reflexivity|].
      rewrite (Hdeg t Ht) in Hz. cbn [default] in Hz. apply Z.eqb_eq in Hz.
      destruct (dependencies t); [reflexivity | simpl in Hz; lia].
    - intros (t & Ht & <- & Hnone). split; [eauto|].
      rewrite (Hdeg t Ht), Hnone. reflexivity. }
  destruct (sort_loop_spec ts Hnd Hdeps M HM (S (length ts)) [] in_degree queue [])
    as (popped & in_degree' & sorted & Hloop & Hkahn).
  { cbn [app]. split; [|split; [|split; [|split; [|split]]]].
    - unfold queue. rewrite (fromkeys_id _ Hnd).
      apply NoDup_ListNoDup, List.NoDup_filter, NoDup_ListNoDup, Hnd.
    - intros x (t & Ht & <- & _)%Hqueue. apply list_elem_of_fmap. eauto.
    - intros t Ht. rewrite filter_none_popped. apply Hdeg, Ht.
    - intros t Ht. rewrite filter_none_popped, Hqueue. split.
      + intros (t' & Ht' & Hid & Hnone).
        rewrite (same_id ts Hnd t t' Ht Ht' (eq_sym Hid)), Hnone. reflexivity.
      + intros Hlen. exists t. split; [exact Ht|]. split; [reflexivity|].
        destruct (dependencies t); [reflexivity | discriminate].
    - constructor.
    - intros i x t d Hi. discriminate. }
  { simpl. lia. }
  exists sorted. split; [exact Hloop|].
  destruct Hkahn as (Hndp & Hids & _ & Hzero & Hsorted & Hbefore).
  rewrite app_nil_r in Hndp.
  assert (map task_id sorted = popped) as Hpopped.
  { clear -Hsorted. induction Hsorted as [|t x sorted popped [_ Hid] _ IH]; [reflexivity|].
    cbn [map]. rewrite Hid, IH. reflexivity. }
  assert (forall t, t ∈ sorted -> t ∈ ts) as Hin.
  { intros t Ht. apply list_elem_of_lookup in Ht as [i Hi].
    destruct (Forall2_lookup_l _ _ _ _ _ Hsorted Hi) as (x & _ & Ht' & _). exact Ht'. }
  split; [rewrite Hpopped; exact Hndp|]. split; [exact Hin|]. split.
  - intros i t d Hi Hd.
    destruct (Forall2_lookup_l _ _ _ _ _ Hsorted Hi) as (x & Hx & Ht & Hid).
    destruct (Hbefore i x t d Hx Ht Hid Hd) as (j & Hj & Hjd).
    destruct (Forall2_lookup_r _ _ _ _ _ Hsorted Hjd) as (t_d & Htd & _ & Hidd).
    exists j, t_d. auto.
  - intros (rank & Hrank).
    assert (forall n t, t ∈ ts -> rank (task_id t) < n -> task_id t ∈ popped) as Hall.
    { induction n as [|n IH]; intros t Ht Hn; [lia|].
      assert (task_id t ∈ popped ++ []) as Hp; [|rewrite app_nil_r in Hp; exact Hp].
      apply (Hzero t Ht), remaining_zero. intros d Hd.
      destruct (Hrank t d Ht Hd) as [(t_d & -> & Htd)%list_elem_of_fmap Hlt].
      apply (IH t_d Htd). lia. }
    apply NoDup_Permutation.
    + apply (NoDup_fmap_1 task_id). change (NoDup (map task_id sorted)).
      rewrite Hpopped. exact Hndp.
    + apply (NoDup_fmap_1 task_id), Hnd.
    + intros t. split; [apply Hin|]. intros Ht.
      specialize (Hall (S (rank (task_id t))) t Ht ltac:(lia)).
      rewrite <- Hpopped in Hall. apply list_elem_of_fmap in Hall as (t' & Hid & Ht').
      rewrite (same_id ts Hnd t t' Ht (Hin t' Ht') Hid). exact Ht'.
Qed.

End TopologicalOrder.

Section TopologicalSortResult.
Import SpecParser Dependencies.

Local Abbreviation named t := (_extract_dependencies_from_details (details t)).

Lemma omap_nil_iff {A B} (f : A -> option B) (l : list A) :
  omap f l = [] <-> forall x, x ∈ l -> f x = None.
Proof.
  induction l as [|a l IH]; simpl.
  { split; [intros _ x Hx; apply elem_of_nil in Hx; contradiction | reflexivity]. }
  destruct (f a) eqn:Hfa.
  - split; [discriminate|]. intros H. specialize (H a ltac:(left)). congruence.
  - rewrite IH. split.
    + intros H x [-> | Hx]%elem_of_cons; auto.
    + intros H x Hx. apply H. right. exact Hx.
Qed.

Lemma filter_unknown_nil (I : gset string) (deps : list string) :
  List.filter (fun d => negb (bool_decide (d ∈ I))) deps = [] <->
  forall d, d ∈ deps -> d ∈ I.
Proof.
  induction deps as [|d deps IH]; cbn [List.filter].
  { split; [intros _ d Hd; apply elem_of_nil in Hd; contradiction | reflexivity]. }
  destruct (bool_decide (d ∈ I)) eqn:Hd; cbn [negb].
  - apply bool_decide_eq_true in Hd. rewrite IH. split.
    + intros H x [-> | Hx]%elem_of_cons; auto.
    + intros H x Hx. apply H. right. exact Hx.
  - apply bool_decide_eq_false in Hd. split; [discriminate|].
    intros H. destruct Hd. apply H. left.
Qed.

(** X23.  [topological_sort] on tasks with distinct ids, with room on the
    call stack for one [dfs] frame per task: it returns.  No missing
    dependency is reported exactly when every id read from the details of
    a task names a task, and no cycle exactly when the dependencies among
    the tasks can be ranked so that each one ranks below the task that
    waits for it.  With a cycle or a missing dependency the sorted list is
    empty.  Otherwise the sorted list holds every task once, with the
    dependencies read from its details, and each task stands after all
    the tasks that it depends on. *)
Theorem topological_sort_orders_dependencies
    (depth : nat) (order : list string) (tasks : list Task) :
  NoDup (map task_id tasks) ->
  node_order tasks order ->
  length tasks < depth ->
  let tasks' := map (fun t => set_dependencies (named t) t) tasks in
  exists sorted circular missing,
    topological_sort depth order tasks = Some (sorted, circular, missing) /\
    (missing = [] <->
     forall t d, t ∈ tasks' -> d ∈ dependencies t -> d ∈ map task_id tasks) /\
    (circular = [] <->
     exists rank : string -> nat,
       forall t d, t ∈ tasks' -> d ∈ dependencies t -> d ∈ map task_id tasks ->
                   rank d < rank (task_id t)) /\
    (circular <> [] \/ missing <> [] -> sorted = []) /\
    (circular = [] -> missing = [] ->
     sorted ≡ₚ tasks' /\
     forall i t d, sorted !! i = Some t -> d ∈ dependencies t ->
       exists j t_d, j < i /\ sorted !! j = Some t_d /\ task_id t_d = d).
Proof.
  intros Hnd Horder Hdepth tasks'.
  set (I := (list_to_set (map task_id tasks) : gset string)).
  destruct (extract_loop_spec tasks Hnd) as (ns & Hloop & Hns). fold I in Hloop, Hns.
  subst ns.
  set (G := mkDependencyGraph I
              (map (fun t => (task_id t,
                              List.filter (fun d => bool_decide (d ∈ I)) (named t)))
                   tasks)) in *.
  set (missing := omap (fun t => match List.filter
                                         (fun d => negb (bool_decide (d ∈ I))) (named t) with
                                 | [] => None
                                 | m => Some (task_id t, m)
                                 end) tasks) in *.
  assert (forall x, x ∈ I <-> x ∈ map task_id tasks) as HI.
  { intros x. unfold I. apply elem_of_list_to_set. }
  assert (forall t, t ∈ tasks ->
            get_dependencies G (task_id t)
            = List.filter (fun d => bool_decide (d ∈ I)) (named t)) as Hget.
  { intros t Ht. unfold get_dependencies, G. cbn [edges].
    rewrite (dict_get_map_keys
               (fun t => List.filter (fun d => bool_decide (d ∈ I)) (named t))
               tasks t Hnd Ht).
    reflexivity. }
  assert (forall d (t : Task),
            d ∈ List.filter (fun d => bool_decide (d ∈ I)) (named t) <->
            d ∈ named t /\ d ∈ map task_id tasks) as Hknown.
  { intros d t. rewrite list_elem_of_In, filter_In, <- list_elem_of_In.
    rewrite bool_decide_eq_true, HI. reflexivity. }
  assert (forall n d, n ∈ nodes G -> d ∈ get_dependencies G n -> d ∈ nodes G) as Hclosed.
  { intros n d Hn Hd. cbn [nodes G] in *. apply HI in Hn.
    apply list_elem_of_fmap in Hn as (t & -> & Ht). rewrite (Hget t Ht) in Hd.
    apply HI. apply Hknown in Hd. tauto. }
  assert (forall t', t' ∈ tasks' <->
            exists t, t ∈ tasks /\ t' = set_dependencies (named t) t) as Htasks'.
  { intros t'. unfold tasks'. rewrite list_elem_of_fmap. split; intros (t & ? & ?); eauto. }
  destruct (detect_circular_spec G Hclosed depth order) as (circular & Hsearch & Hcircular).
  { intros n. unfold node_order, graph_of in Horder. rewrite Hloop in Horder.
    rewrite Horder, elem_of_elements. reflexivity. }
  { cbn [nodes G]. unfold I. rewrite size_list_to_set by exact Hnd.
    rewrite length_map. exact Hdepth. }
  assert (missing = [] <->
          forall t d, t ∈ tasks' -> d ∈ dependencies t -> d ∈ map task_id tasks)
    as Hmissing.
  { unfold missing. rewrite omap_nil_iff. split.
    - intros Hnone t' d (t & Ht & ->)%Htasks' Hd. cbn [dependencies set_dependencies] in Hd.
      specialize (Hnone t Ht).
      destruct (List.filter (fun d => negb (bool_decide (d ∈ I))) (named t)) eqn:Hf;
        [|discriminate].
      apply HI. exact (proj1 (filter_unknown_nil I (named t)) Hf d Hd).
    - intros Hall t Ht.
      rewrite (proj2 (filter_unknown_nil I (named t))); [reflexivity|].
      intros d Hd. apply HI, (Hall (set_dependencies (named t) t) d);
        [apply Htasks'; eauto | exact Hd]. }
  assert ((exists rank : string -> nat,
             forall n d, n ∈ nodes G -> d ∈ get_dependencies G n -> rank d < rank n) <->
          exists rank : string -> nat,
            forall t d, t ∈ tasks' -> d ∈ dependencies t -> d ∈ map task_id tasks ->
                        rank d < rank (task_id t)) as Hranked.
  { split; intros [rank Hrank]; exists rank.
    - intros t' d (t & Ht & ->)%Htasks' Hd Hin. cbn [dependencies task_id set_dependencies] in *.
      apply Hrank; [apply HI, list_elem_of_fmap; eauto|].
      rewrite (Hget t Ht). apply Hknown. auto.
    - intros n d Hn Hd. cbn [nodes G] in Hn. apply HI in Hn.
      apply list_elem_of_fmap in Hn as (t & -> & Ht). rewrite (Hget t Ht) in Hd.
      apply Hknown in Hd as [Hd Hin].
      apply (Hrank (set_dependencies (named t) t) d); [apply Htasks'; eauto | exact Hd | exact Hin]. }
  unfold topological_sort, extract_dependencies. rewrite Hloop, Hsearch.
  unfold valid. cbn [circular_dependencies missing_dependencies].
  fold tasks'.
  destruct circular as [|c cs].
  2:{ (* a cycle was found *)
      cbn [length Nat.eqb andb negb].
      exists [], (c :: cs), missing. split; [reflexivity|]. split; [exact Hmissing|].
      split; [rewrite <- Hranked; exact Hcircular|]. split; [reflexivity|]. discriminate. }
  destruct missing as [|m ms] eqn:Hm.
  2:{ (* a dependency names no task *)
      cbn [length Nat.eqb andb negb].
      exists [], [], (m :: ms). split; [reflexivity|]. split; [exact Hmissing|].
      split; [rewrite <- Hranked; exact Hcircular|]. split; [reflexivity|]. discriminate. }
  cbn [length Nat.eqb andb negb].
  assert (map task_id tasks' = map task_id tasks) as Hids.
  { unfold tasks'. rewrite map_map. reflexivity. }
  destruct (sort_valid_spec tasks') as (sorted & Hsort & _ & _ & Hbefore & Hall).
  { rewrite Hids. exact Hnd. }
  { intros t' (t & _ & ->)%Htasks'. cbn [dependencies set_dependencies].
    apply fromkeys_from_NoDup. }
  rewrite Hsort. exists sorted, [], []. split; [reflexivity|].
  split; [exact Hmissing|]. split; [rewrite <- Hranked; exact Hcircular|].
  split; [intros [[] | []]; reflexivity|].
  intros _ _. split; [|exact Hbefore].
  apply Hall. destruct (proj1 Hcircular eq_refl) as [rank0 Hrank0].
  destruct (proj1 Hranked (ex_intro _ rank0 Hrank0)) as [rank Hrank].
  exists rank. intros t d Ht Hd. rewrite Hids.
  pose proof (proj1 Hmissing eq_refl t d Ht Hd) as Hin. auto.
Qed.

End TopologicalSortResult.

(** ** sequential_loop.py: the loop *)

Section SequentialLoopRun.
Import SeqSpecParser SeqUnits SequentialLoop.

(** The list and the set of completed ids hold the same ids, each once. *)
Local Abbreviation consistent ids set :=
  ((set : gset string) = list_to_set ids /\ NoDup (ids : list string)).

Lemma add_completed_fold (l : list string) :
  forall ids set,
    consistent ids set ->
    let acc := foldl add_completed (ids, set) l in
    consistent acc.1 acc.2 /\
    ids `prefix_of` acc.1 /\
    forall x, x ∈ acc.1 <-> x ∈ ids \/ x ∈ l.
Proof.
  induction l as [|tid l IH]; intros ids set [Hset Hnd]; cbn [foldl].
  { split; [split; assumption|]. split; [reflexivity|].
    intros x. rewrite elem_of_nil. tauto. }
  cbv zeta.
  destruct (bool_decide (tid ∈ set)) eqn:Hin.
  - assert (add_completed (ids, set) tid = (ids, set)) as ->
      by (unfold add_completed; cbn [fst snd]; rewrite Hin; reflexivity).
    apply bool_decide_eq_true in Hin.
    destruct (IH ids set (conj Hset Hnd)) as (Hc & Hpre & Hmem).
    split; [exact Hc|]. split; [exact Hpre|].
    intros x. rewrite Hmem, elem_of_cons. split; [tauto|].
    intros [?|[->|?]]; auto. left. rewrite Hset, elem_of_list_to_set in Hin. exact Hin.
  - assert (add_completed (ids, set) tid = (ids ++ [tid], {[tid]} ∪ set)) as ->
      by (unfold add_completed; cbn [fst snd]; rewrite Hin; reflexivity).
    apply bool_decide_eq_false in Hin.
    assert (tid ∉ ids) as Hnew by (rewrite Hset, elem_of_list_to_set in Hin; exact Hin).
    destruct (IH (ids ++ [tid]) ({[tid]} ∪ set)) as (Hc & Hpre & Hmem).
    { split.
      - rewrite list_to_set_app_L, Hset. cbn [list_to_set].
        rewrite (right_id_L ∅ (∪)). apply (comm_L (∪)).
      - apply NoDup_app. split; [exact Hnd|]. split.
        + intros x Hx ->%list_elem_of_singleton. contradiction.
        + apply NoDup_singleton. }
    split; [exact Hc|]. split.
    + etransitivity; [|exact Hpre]. apply prefix_app_r. reflexivity.
    + intros x. rewrite Hmem, elem_of_app, list_elem_of_singleton, elem_of_cons. tauto.
Qed.

(** The task that [get_next_incomplete_task] returns. *)
Lemma next_task_is_unit depth tasks ids t :
  get_next_incomplete_task depth tasks ids = Returns (Some t) ->
  t ∈ tasks /\ is_dispatch_unit t = true /\ is_optional t = false /\ t.(task_id) ∉ ids.
Proof.
  unfold get_next_incomplete_task, get_next_dispatch_unit.
  destruct (sorted_tasks tasks) as [sorted|] eqn:Hs; [|discriminate].
  apply sorted_tasks_perm in Hs. intros Hr%next_loop_spec.
  destruct Hr as (pre & post & -> & (Hu & Hc & Ho & _) & _).
  split; [rewrite <- Hs, elem_of_app, elem_of_cons; auto|].
  rewrite elem_of_list_to_set in Hc. auto.
Qed.

Variable clock : nat -> string.
Variable agent : Z -> Task -> option (list (string * string))
                 -> DispatchTask.DispatchResult.
Variable depth : nat.
Variable spec_path : string.
Variable tasks : list Task.

Local Abbreviation loop := (iterations clock agent depth tasks).
Local Abbreviation all_done r := (all_tasks_complete tasks (completed_ids r)).

Lemma mark_done_spec (next_task : Task) (r : Run) :
  next_task ∈ tasks ->
  consistent (completed_ids r) (completed_set r) ->
  let r' := mark_done tasks next_task r in
  consistent (completed_ids r') (completed_set r') /\
  completed_ids r `prefix_of` completed_ids r' /\
  (forall x, x ∈ completed_ids r' -> x ∈ completed_ids r \/ x ∈ map task_id tasks) /\
  task_id next_task ∈ completed_ids r' /\
  completed (state r') = completed_ids r' /\
  progress r' = progress r /\
  halted (state r') = halted (state r).
Proof.
  intros Hnext Hc. unfold mark_done. cbv zeta. cbn [completed_ids completed_set state progress].
  match goal with
  | |- context [foldl add_completed _ ?l] =>
      destruct (add_completed_fold l _ _ Hc) as (Hc' & Hpre & Hmem);
      assert (forall x, x ∈ l -> x ∈ map task_id tasks) as Hsub;
      [|assert (task_id next_task ∈ l) as Hin]
  end.
  { intros x (t & -> & Ht)%list_elem_of_fmap. apply list_elem_of_fmap. exists t.
    split; [reflexivity|]. apply list_elem_of_In, filter_In in Ht as [Ht _].
    apply list_elem_of_In. exact Ht. }
  { apply list_elem_of_fmap. exists next_task. split; [reflexivity|].
    apply list_elem_of_In, filter_In. split; [apply list_elem_of_In; exact Hnext|].
    rewrite String.eqb_refl. reflexivity. }
  split; [exact Hc'|]. split; [exact Hpre|].
  split; [intros x [?|?]%Hmem; auto|].
  split; [apply Hmem; auto|]. auto.
Qed.

(** What one run of the loop keeps and what its exit code says. *)
Lemma iterations_spec (n : nat) :
  forall iteration r code r',
    consistent (completed_ids r) (completed_set r) ->
    loop n iteration r = Returns (code, r') ->
    consistent (completed_ids r') (completed_set r') /\
    completed_ids r `prefix_of` completed_ids r' /\
    (forall x, x ∈ completed_ids r' -> x ∈ completed_ids r \/ x ∈ map task_id tasks) /\
    (completed (state r') = completed_ids r' \/
     completed (state r') = completed (state r) /\ completed_ids r' = completed_ids r) /\
    (code = 0%Z /\ all_done r' = true \/
     code = 1%Z /\ (n = 0 \/ all_done r' = false) \/
     code = 2%Z /\ all_done r' = false /\
       (halted (state r') = true \/
        get_next_incomplete_task depth tasks (completed_ids r') = Returns None)).
Proof.
  induction n as [|n IH]; intros iteration r code r' Hc; cbn [iterations].
  { intros [= <- <-]. split; [exact Hc|]. split; [reflexivity|].
    split; [auto|]. split; [auto|]. right. left. auto. }
  destruct (all_tasks_complete tasks (completed_ids r)) eqn:Hall.
  { intros [= <- <-]. cbn [completed_ids completed_set state set_completed_at completed].
    split; [exact Hc|]. split; [reflexivity|]. split; [auto|]. split; [auto|]. left. auto. }
  destruct (get_next_incomplete_task depth tasks (completed_ids r))
    as [|[next_task|]] eqn:Hnext; [discriminate| |].
  2:{ intros [= <- <-]. split; [exact Hc|]. split; [reflexivity|].
      split; [auto|]. split; [auto|]. right. right. auto. }
  destruct (get_subtask_list depth next_task (task_map_of tasks)) as [subtask_objs|];
    [|discriminate].
  cbv zeta.
  match goal with
  | |- context [agent ?i ?t ?s] => set (result := agent i t s)
  end.
  apply next_task_is_unit in Hnext as (Hin & _).
  destruct (DispatchTask.halted result) eqn:Hhalted.
  { intros [= <- <-].
    cbn [completed_ids completed_set state set_halted completed halted append_progress].
    split; [exact Hc|]. split; [reflexivity|]. split; [auto|]. split; [auto|].
    right. right. auto. }
  destruct (DispatchTask.completed result) eqn:Hcompleted.
  - pose proof (mark_done_spec next_task (append_progress clock iteration next_task result r)
                  Hin Hc) as (Hc2 & Hpre & Hmem & _ & Hsaved & _).
    cbv zeta in *.
    set (r2 := mark_done tasks next_task
                 (append_progress clock iteration next_task result r)) in *.
    cbn [completed_ids append_progress] in Hpre, Hmem.
    destruct (all_tasks_complete tasks (completed_ids r2)) eqn:Hall2.
    + intros [= <- <-]. cbn [completed_ids completed_set state set_completed_at completed].
      split; [exact Hc2|]. split; [exact Hpre|]. split; [exact Hmem|].
      split; [auto|]. left. auto.
    + intros Hrun. destruct (IH _ _ _ _ Hc2 Hrun) as (Hc' & Hpre' & Hmem' & Hsaved' & Hcode).
      split; [exact Hc'|]. split; [etransitivity; eassumption|].
      split; [intros x [Hx|Hx]%Hmem'; auto|].
      split; [destruct Hsaved' as [? | [-> ->]]; auto|].
      destruct Hcode as [?|[[-> [-> | ?]]|?]]; auto.
      cbn [iterations] in Hrun. injection Hrun as <-. auto.
  - cbn [completed_ids append_progress]. rewrite Hall.
    intros Hrun.
    destruct (IH _ (append_progress clock iteration next_task result r) _ _ Hc Hrun)
      as (Hc' & Hpre' & Hmem' & Hsaved' & Hcode).
    cbn [completed_ids completed_set state append_progress] in *.
    split; [exact Hc'|]. split; [exact Hpre'|]. split; [exact Hmem'|].
    split; [exact Hsaved'|].
    destruct Hcode as [?|[[-> [-> | ?]]|?]]; auto.
    cbn [iterations] in Hrun. injection Hrun as <-. cbn [completed_ids append_progress].
    auto.
Qed.

Lemma start_spec (state0 : LoopState) (progress0 : list ProgressItem) (ticks0 : nat) :
  let r := start clock spec_path state0 progress0 ticks0 in
  consistent (completed_ids r) (completed_set r) /\
  (forall x, x ∈ completed_ids r <-> x ∈ completed state0) /\
  completed (state r) = completed state0 /\
  (progress r = progress0 \/ exists at_, progress r = [Header spec_path at_]).
Proof.
  destruct (add_completed_fold (completed state0) [] ∅) as (Hc & _ & Hmem).
  { split; [reflexivity | apply NoDup_nil_2]. }
  cbv zeta in Hc, Hmem.
  assert (forall x, x ∈ (foldl add_completed ([], ∅) (completed state0)).1 <->
                    x ∈ completed state0) as Hmem'.
  { intros x. rewrite Hmem, elem_of_nil. tauto. }
  unfold start. cbv zeta.
  destruct (match started_at state0 with
            | Some at_ => String.eqb at_ ""
            | None => true
            end);
    cbn [completed_ids completed_set state progress set_started_at completed];
    (split; [exact Hc|]); (split; [exact Hmem'|]); (split; [reflexivity|]); eauto.
Qed.

(** X24.  [run_sequential_loop] with at least one iteration allowed: when
    it returns, the exit code is 0, 1 or 2, and it is 0 exactly when every
    dispatch unit that is not optional is completed.  Exit code 2 means
    that the state is halted or that [get_next_incomplete_task] finds no
    unit.  The completed ids hold no id twice, keep the ids of the state
    file and only gain ids of tasks; the list in the state is this list, or
    still the one of the state file. *)
Theorem sequential_loop_exit_codes
    (max_iterations : Z) (state0 : LoopState) (progress0 : list ProgressItem)
    (ticks0 : nat) (code : Z) (r : Run) :
  (0 < max_iterations)%Z ->
  run_sequential_loop clock agent depth spec_path tasks max_iterations
    state0 progress0 ticks0 = Returns (code, r) ->
  (code = 0 \/ code = 1 \/ code = 2)%Z /\
  (code = 0%Z <-> all_tasks_complete tasks (completed_ids r) = true) /\
  (code = 2%Z ->
   halted (state r) = true \/
   get_next_incomplete_task depth tasks (completed_ids r) = Returns None) /\
  NoDup (completed_ids r) /\
  (forall x, x ∈ completed state0 -> x ∈ completed_ids r) /\
  (forall x, x ∈ completed_ids r -> x ∈ completed state0 \/ x ∈ map task_id tasks) /\
  (completed (state r) = completed_ids r \/ completed (state r) = completed state0).
Proof.
  intros Hmax. unfold run_sequential_loop.
  destruct (start_spec state0 progress0 ticks0) as (Hc & Hmem & Hsaved & _).
  cbv zeta in Hc, Hmem, Hsaved.
  set (r0 := start clock spec_path state0 progress0 ticks0) in *.
  intros Hrun.
  destruct (iterations_spec _ _ _ _ _ Hc Hrun) as ([_ Hnd] & Hpre & Hnew & Hkept & Hcode).
  assert (Z.to_nat max_iterations <> 0) as Hn by lia.
  split; [destruct Hcode as [[-> _] | [[-> _] | [-> _]]]; auto|].
  split.
  { destruct Hcode as [[-> Hall] | [[-> [? | Hall]] | (-> & Hall & _)]];
      [tauto|contradiction| |]; rewrite Hall; split; discriminate. }
  split.
  { intros ->. destruct Hcode as [[? _] | [[? _] | (_ & _ & Hwhy)]];
      [discriminate..|exact Hwhy]. }
  split; [exact Hnd|]. split.
  { intros x Hx%Hmem. destruct Hpre as [more ->]. apply elem_of_app. auto. }
  split.
  { intros x [Hx%Hmem | Hx]%Hnew; auto. }
  destruct Hkept as [? | [-> _]]; auto.
Qed.

(** The entries that a run of the loop appends to the progress file. *)
Lemma iterations_trace (n : nat) :
  forall iteration r code r',
    consistent (completed_ids r) (completed_set r) ->
    loop n iteration r = Returns (code, r') ->
    exists new,
      progress r' = progress r ++ new /\
      length (dispatches new) <= n /\
      (code = 1%Z -> length (dispatches new) = n) /\
      (forall i d, dispatches new !! i = Some d -> d.1.1 = (iteration + Z.of_nat i)%Z) /\
      (forall d, d ∈ dispatches new ->
         (d.1.2 ∉ completed_ids r) /\
         exists t, t ∈ tasks /\ task_id t = d.1.2 /\
                   is_dispatch_unit t = true /\ is_optional t = false) /\
      (forall i j d d', i < j -> dispatches new !! i = Some d ->
         dispatches new !! j = Some d' -> d.2 = "Completed" -> d.1.2 <> d'.1.2).
Proof.
  induction n as [|n IH]; intros iteration r code r' Hc; cbn [iterations].
  { intros [= <- <-]. exists []. rewrite app_nil_r. cbn.
    split; [reflexivity|]. split; [lia|]. split; [reflexivity|].
    split; [intros i d Hd; rewrite lookup_nil in Hd; discriminate|].
    split; [intros d Hd; apply elem_of_nil in Hd; contradiction|].
    intros i j d d' _ Hd. rewrite lookup_nil in Hd. discriminate. }
  destruct (all_tasks_complete tasks (completed_ids r)) eqn:Hall.
  { intros [= <- <-]. eexists [Footer _]. cbn.
    split; [reflexivity|]. split; [lia|]. split; [discriminate|].
    split; [intros i d Hd; rewrite lookup_nil in Hd; discriminate|].
    split; [intros d Hd; apply elem_of_nil in Hd; contradiction|].
    intros i j d d' _ Hd. rewrite lookup_nil in Hd. discriminate. }
  destruct (get_next_incomplete_task depth tasks (completed_ids r))
    as [|[next_task|]] eqn:Hnext; [discriminate| |].
  2:{ intros [= <- <-]. exists []. rewrite app_nil_r. cbn.
      split; [reflexivity|]. split; [lia|]. split; [discriminate|].
      split; [intros i d Hd; rewrite lookup_nil in Hd; discriminate|].
      split; [intros d Hd; apply elem_of_nil in Hd; contradiction|].
      intros i j d d' _ Hd. rewrite lookup_nil in Hd. discriminate. }
  destruct (get_subtask_list depth next_task (task_map_of tasks)) as [subtask_objs|];
    [|discriminate].
  cbv zeta.
  match goal with
  | |- context [agent ?i ?t ?s] => set (result := agent i t s)
  end.
  apply next_task_is_unit in Hnext as (Hin & Hunit & Hopt & Hfresh).
  set (entry := Iteration iteration (task_id next_task) (description next_task)
                  (if DispatchTask.completed result then "Completed"
                   else if DispatchTask.halted result then "Halted" else "Failed")
                  (clock (ticks r)) (DispatchTask.message result)).
  assert (forall d, d ∈ dispatches [entry] ->
            (d.1.2 ∉ completed_ids r) /\
            exists t, t ∈ tasks /\ task_id t = d.1.2 /\
                      is_dispatch_unit t = true /\ is_optional t = false) as Hentry.
  { intros d ->%list_elem_of_singleton. cbn. split; [exact Hfresh|]. eauto. }
  assert (forall rest, dispatches (entry :: rest)
                       = (iteration, task_id next_task,
                          if DispatchTask.completed result then "Completed"
                          else if DispatchTask.halted result then "Halted" else "Failed")
                         :: dispatches rest) as Hcons by reflexivity.
  destruct (DispatchTask.halted result) eqn:Hhalted.
  { (* the agent asks for a human: the run ends *)
    intros [= <- <-]. exists [entry]. cbn [progress append_progress].
    rewrite Hhalted. split; [reflexivity|]. rewrite Hcons. change (dispatches []) with (@nil (Z * string * string)).
    cbn [length].
    split; [lia|]. split; [discriminate|].
    split; [intros [|i] d [= <-]; cbn; lia|].
    split; [exact Hentry|].
    intros [|i] [|j] d d' Hij Hd Hd'; try lia; discriminate. }
  set (r1 := append_progress clock iteration next_task result r).
  assert (consistent (completed_ids r1) (completed_set r1)) as Hc1 by exact Hc.
  assert (progress r1 = progress r ++ [entry]) as Hr1.
  { unfold r1. cbn [progress append_progress]. rewrite Hhalted. reflexivity. }
  set (r2 := if DispatchTask.completed result then mark_done tasks next_task r1 else r1).
  assert (consistent (completed_ids r2) (completed_set r2) /\
          completed_ids r `prefix_of` completed_ids r2 /\
          progress r2 = progress r ++ [entry] /\
          (DispatchTask.completed result = true -> task_id next_task ∈ completed_ids r2))
    as (Hc2 & Hpre & Hprogress & Hdone).
  { unfold r2. destruct (DispatchTask.completed result).
    - destruct (mark_done_spec next_task r1 Hin Hc1) as (? & ? & _ & ? & _ & -> & _).
      auto.
    - split; [exact Hc1|]. split; [reflexivity|]. split; [exact Hr1|]. discriminate. }
  destruct (all_tasks_complete tasks (completed_ids r2)) eqn:Hall2.
  { (* this was the last unit *)
    intros [= <- <-]. exists [entry]. cbn [progress]. rewrite Hprogress.
    split; [reflexivity|]. rewrite Hcons. change (dispatches []) with (@nil (Z * string * string)).
    cbn [length].
    split; [lia|]. split; [discriminate|].
    split; [intros [|i] d [= <-]; cbn; lia|].
    split; [exact Hentry|].
    intros [|i] [|j] d d' Hij Hd Hd'; try lia; discriminate. }
  intros Hrun.
  destruct (IH _ _ _ _ Hc2 Hrun) as (new & Hnew & Hlen & Hall_used & Hnumbers & Hunits & Honce).
  exists (entry :: new). rewrite Hnew, Hprogress, <- app_assoc. split; [reflexivity|].
  rewrite Hcons. cbn [length].
  split; [lia|]. split; [intros H1; rewrite (Hall_used H1); reflexivity|].
  split.
  { intros [|i] d Hd; [injection Hd as <-; cbn; lia|].
    rewrite (Hnumbers i d Hd). lia. }
  split.
  { intros d [-> | Hd]%elem_of_cons; [cbn; split; [exact Hfresh|]; eauto|].
    destruct (Hunits d Hd) as [Hfresh' Hunit']. split; [|exact Hunit'].
    intros Hold. apply Hfresh'. destruct Hpre as [more ->]. apply elem_of_app. auto. }
  intros [|i] [|j] d d' Hij Hd Hd' Hstatus; try lia.
  - (* the unit completed in this iteration is in the list from now on *)
    injection Hd as <-. cbn in Hstatus |- *.
    destruct (DispatchTask.completed result) eqn:Hcompleted; [|discriminate].
    intros Hsame. change (dispatches new !! j = Some d') in Hd'.
    apply list_elem_of_lookup_2, Hunits in Hd' as [Hfresh' _].
    apply Hfresh'. rewrite <- Hsame. apply Hdone. reflexivity.
  - apply (Honce i j d d'); [lia|exact Hd|exact Hd'|exact Hstatus].
Qed.

(** X25.  The iteration entries that [run_sequential_loop] appends to
    the progress file: there are at most [max_iterations] of them, and as
    many when the exit code is 1; they are numbered 1, 2, ...; each names a
    dispatch unit of the task list that is not optional and was not
    completed in the state file; and after an entry with status Completed
    no later entry names the same task. *)
Theorem sequential_loop_dispatches
    (max_iterations : Z) (state0 : LoopState) (progress0 : list ProgressItem)
    (ticks0 : nat) (code : Z) (r : Run) :
  run_sequential_loop clock agent depth spec_path tasks max_iterations
    state0 progress0 ticks0 = Returns (code, r) ->
  exists new,
    progress r = progress (start clock spec_path state0 progress0 ticks0) ++ new /\
    (Z.of_nat (length (dispatches new)) <= Z.max 0 max_iterations)%Z /\
    (code = 1%Z -> Z.of_nat (length (dispatches new)) = Z.max 0 max_iterations) /\
    (forall i d, dispatches new !! i = Some d ->
       d.1.1 = Z.of_nat (S i) /\
       (d.1.2 ∉ completed state0) /\
       exists t, t ∈ tasks /\ task_id t = d.1.2 /\
                 is_dispatch_unit t = true /\ is_optional t = false) /\
    (forall i j d d', i < j -> dispatches new !! i = Some d ->
       dispatches new !! j = Some d' -> d.2 = "Completed" -> d.1.2 <> d'.1.2).
Proof.
  unfold run_sequential_loop.
  destruct (start_spec state0 progress0 ticks0) as (Hc & Hmem & _).
  cbv zeta in Hc, Hmem.
  set (r0 := start clock spec_path state0 progress0 ticks0) in *.
  intros Hrun.
  destruct (iterations_trace _ _ _ _ _ Hc Hrun)
    as (new & Hnew & Hlen & Hall_used & Hnumbers & Hunits & Honce).
  exists new. split; [exact Hnew|]. split; [lia|].
  split; [intros H1; rewrite (Hall_used H1); lia|].
  split; [|exact Honce].
  intros i d Hd. split; [rewrite (Hnumbers i d Hd); lia|].
  destruct (Hunits d (list_elem_of_lookup_2 _ _ _ Hd)) as [Hfresh Hunit].
  split; [|exact Hunit]. intros Hold. apply Hfresh, Hmem, Hold.
Qed.

(** The units that are still to be run. *)
Local Abbreviation waiting ids :=
  (List.filter (fun t => negb (is_optional t || negb (is_dispatch_unit t)
                               || bool_decide (task_id t ∈ (list_to_set ids : gset string))))
               tasks).

Lemma forallb_false_filter {A} (f : A -> bool) (l : list A) :
  forallb f l = false -> 0 < length (List.filter (fun x => negb (f x)) l).
Proof.
  induction l as [|a l IH]; cbn [forallb List.filter]; [discriminate|].
  destruct (f a); cbn [negb andb length]; [exact IH | lia].
Qed.

Lemma filter_length_lt {A} (p p' : A -> bool) (l : list A) (a : A) :
  (forall x, p' x = true -> p x = true) ->
  a ∈ l -> p a = true -> p' a = false ->
  length (List.filter p' l) < length (List.filter p l).
Proof.
  intros Hsub Ha Hpa Hp'a.
  assert (forall l', length (List.filter p' l') <= length (List.filter p l')) as Hle.
  { induction l' as [|x l' IH]; cbn [List.filter]; [lia|].
    destruct (p' x) eqn:Hx; [rewrite (Hsub x Hx); cbn [length]; lia|].
    destruct (p x); cbn [length]; lia. }
  induction l as [|x l IH]; [apply elem_of_nil in Ha; contradiction|].
  cbn [List.filter]. apply elem_of_cons in Ha as [<- | Ha].
  - rewrite Hpa, Hp'a. cbn [length]. specialize (Hle l). lia.
  - specialize (IH Ha). destruct (p' x) eqn:Hx; [rewrite (Hsub x Hx); cbn [length]; lia|].
    destruct (p x); cbn [length]; lia.
Qed.

(** A unit that completed is no longer waiting, and no other unit waits
    that did not wait before. *)
Lemma mark_done_fewer (next_task : Task) (r : Run) :
  next_task ∈ tasks -> is_dispatch_unit next_task = true ->
  is_optional next_task = false -> task_id next_task ∉ completed_ids r ->
  consistent (completed_ids r) (completed_set r) ->
  length (waiting (completed_ids (mark_done tasks next_task r)))
  < length (waiting (completed_ids r)).
Proof.
  intros Hin Hunit Hopt Hfresh Hc.
  destruct (mark_done_spec next_task r Hin Hc) as (_ & [more Hpre] & _ & Hdone & _).
  cbv zeta in Hpre, Hdone.
  apply (filter_length_lt _ _ tasks next_task); [|exact Hin| |].
  - intros t. rewrite !negb_true_iff, !orb_false_iff, !bool_decide_eq_false.
    intros [Hflags Hnew]. split; [exact Hflags|].
    rewrite elem_of_list_to_set in *. intros Hold. apply Hnew. rewrite Hpre.
    apply elem_of_app. auto.
  - rewrite Hopt, Hunit. cbn [negb orb]. rewrite negb_true_iff, bool_decide_eq_false.
    rewrite elem_of_list_to_set. exact Hfresh.
  - rewrite Hopt, Hunit. cbn [negb orb]. rewrite negb_false_iff, bool_decide_eq_true.
    rewrite elem_of_list_to_set. exact Hdone.
Qed.

Lemma iterations_finish (n : nat) :
  (forall iteration t subs,
     DispatchTask.completed (agent iteration t subs) = true /\
     DispatchTask.halted (agent iteration t subs) = false) ->
  forall iteration r code r',
    consistent (completed_ids r) (completed_set r) ->
    0 < n -> length (waiting (completed_ids r)) <= n ->
    loop n iteration r = Returns (code, r') ->
    code = 0%Z \/
    code = 2%Z /\ get_next_incomplete_task depth tasks (completed_ids r') = Returns None.
Proof.
  intros Hagent.
  induction n as [|n IH]; intros iteration r code r' Hc Hpos Hcount; [lia|].
  cbn [iterations].
  destruct (all_tasks_complete tasks (completed_ids r)) eqn:Hall.
  { intros [= <- <-]. auto. }
  destruct (get_next_incomplete_task depth tasks (completed_ids r))
    as [|[next_task|]] eqn:Hnext; [discriminate| |].
  2:{ intros [= <- <-]. auto. }
  destruct (get_subtask_list depth next_task (task_map_of tasks)) as [subtask_objs|];
    [|discriminate].
  cbv zeta.
  match goal with
  | |- context [agent ?i ?t ?s] => destruct (Hagent i t s) as [-> ->]; set (result := agent i t s)
  end.
  apply next_task_is_unit in Hnext as (Hin & Hunit & Hopt & Hfresh).
  set (r1 := append_progress clock iteration next_task result r).
  pose proof (mark_done_fewer next_task r1 Hin Hunit Hopt Hfresh Hc) as Hfewer.
  destruct (mark_done_spec next_task r1 Hin Hc) as (Hc2 & _).
  cbv zeta in Hc2.
  set (r2 := mark_done tasks next_task r1) in *.
  assert (length (waiting (completed_ids r2)) < length (waiting (completed_ids r)))
    as Hfewer' by exact Hfewer.
  destruct (all_tasks_complete tasks (completed_ids r2)) eqn:Hall2.
  { intros [= <- <-]. auto. }
  assert (0 < length (waiting (completed_ids r2))) as Hsome
    by exact (forallb_false_filter _ _ Hall2).
  apply IH; [exact Hc2|lia|lia].
Qed.

(** X26.  When the agent completes every task it is given and never
    halts, and [max_iterations] is positive and not below the number of
    tasks, [run_sequential_loop] never runs out of iterations: it returns 0
    with all units completed, or 2 because the tasks that are left have no
    unit that [get_next_incomplete_task] can return. *)
Theorem sequential_loop_finishes
    (max_iterations : Z) (state0 : LoopState) (progress0 : list ProgressItem)
    (ticks0 : nat) (code : Z) (r : Run) :
  (forall iteration t subs,
     DispatchTask.completed (agent iteration t subs) = true /\
     DispatchTask.halted (agent iteration t subs) = false) ->
  (0 < max_iterations)%Z ->
  (Z.of_nat (length tasks) <= max_iterations)%Z ->
  run_sequential_loop clock agent depth spec_path tasks max_iterations
    state0 progress0 ticks0 = Returns (code, r) ->
  code = 0%Z /\ all_tasks_complete tasks (completed_ids r) = true \/
  code = 2%Z /\ all_tasks_complete tasks (completed_ids r) = false /\
    get_next_incomplete_task depth tasks (completed_ids r) = Returns None.
Proof.
  intros Hagent Hpos Hmax. unfold run_sequential_loop.
  destruct (start_spec state0 progress0 ticks0) as (Hc & _).
  cbv zeta in Hc.
  set (r0 := start clock spec_path state0 progress0 ticks0) in *.
  intros Hrun.
  assert (length (waiting (completed_ids r0)) <= Z.to_nat max_iterations) as Hcount.
  { match goal with
    | |- length (List.filter ?p _) <= _ => pose proof (List.filter_length_le p tasks)
    end. lia. }
  assert (0 < Z.to_nat max_iterations) as Hn by lia.
  destruct (iterations_finish _ Hagent _ _ _ _ Hc Hn Hcount Hrun)
    as [-> | [-> Hblocked]];
    destruct (iterations_spec _ _ _ _ _ Hc Hrun) as (_ & _ & _ & _ & Hcode).
  - left. destruct Hcode as [[_ Hall] | [[? _] | [? _]]]; [auto|discriminate..].
  - right. destruct Hcode as [[? _] | [[? _] | (_ & Hall & _)]]; [discriminate..|auto].
Qed.

End SequentialLoopRun.

(** ** dispatch_reviews.py: from the reviews to the final review *)

Section ReviewStatuses.
Import State FullState Reviews.

Local Abbreviation id_of := (fun t : TaskDict => task_id (core t)).
Local Abbreviation status_of := (fun t : TaskDict => status (core t)).

(** The map from ids to places, for ids that are all different. *)
Lemma index_map_snoc (es : list TaskEntry) (e : TaskEntry) :
  index_map (es ++ [e]) = <[task_id e := length es]> (index_map es).
Proof.
  unfold index_map. rewrite imap_app, foldl_app. cbn [imap foldl].
  rewrite Nat.add_0_r. reflexivity.
Qed.

Lemma index_map_lookup (es : list TaskEntry) :
  NoDup (map task_id es) ->
  forall tid i,
    index_map es !! tid = Some i <-> exists e, es !! i = Some e /\ task_id e = tid.
Proof.
  induction es as [|e es IH] using rev_ind; intros Hnd tid i.
  { unfold index_map. cbn. rewrite lookup_empty. split; [discriminate|].
    intros (e & He & _). discriminate. }
  rewrite map_app in Hnd. apply NoDup_app in Hnd as (Hnd & Hfresh & _).
  rewrite index_map_snoc. destruct (decide (task_id e = tid)) as [<- | Hne].
  - rewrite lookup_insert_eq. split.
    + intros [= <-]. exists e. split; [|reflexivity].
      rewrite lookup_app_r by lia. rewrite Nat.sub_diag. reflexivity.
    + intros (e' & He' & Hid). f_equal.
      destruct (decide (i < length es)) as [Hlt | Hge].
      * rewrite lookup_app_l in He' by exact Hlt. exfalso.
        apply (Hfresh (task_id e)); [|cbn; left].
        rewrite <- Hid. apply list_elem_of_fmap. exists e'. split; [reflexivity|].
        eapply list_elem_of_lookup_2, He'.
      * apply lookup_lt_Some in He'. rewrite length_app in He'. cbn in He'. lia.
  - rewrite lookup_insert_ne by exact Hne. rewrite (IH Hnd). split.
    + intros (e' & He' & Hid). exists e'. split; [|exact Hid].
      rewrite lookup_app_l; [exact He' | eapply lookup_lt_Some, He'].
    + intros (e' & He' & Hid). exists e'. split; [|exact Hid].
      destruct (decide (i < length es)) as [Hlt | Hge].
      * rewrite lookup_app_l in He' by exact Hlt. exact He'.
      * rewrite lookup_app_r in He' by lia.
        destruct (i - length es) as [|k]; [|destruct k; discriminate].
        injection He' as ->. contradiction.
Qed.

(** A task without its status: what the functions below never change. *)
Local Abbreviation erase := (with_core (set_status "")).

Lemma erase_set_status (s : string) (t : TaskDict) :
  erase (with_core (set_status s) t) = erase t.
Proof. destruct t as [[] ? ? ? ? ? ?]. reflexivity. Qed.

Lemma erase_status (t t' : TaskDict) :
  erase t' = erase t -> t' = with_core (set_status (status_of t')) t.
Proof.
  destruct t as [[] ? ? ? ? ? ?], t' as [[] ? ? ? ? ? ?]. cbn. intros [=]. subst.
  reflexivity.
Qed.

Lemma erase_id (t t' : TaskDict) : erase t' = erase t -> id_of t' = id_of t.
Proof. intros H%erase_status. rewrite H. destruct t as [[] ? ? ? ? ? ?]. reflexivity. Qed.

Lemma erase_subtasks (t t' : TaskDict) :
  erase t' = erase t -> subtasks (core t') = subtasks (core t).
Proof. intros H%erase_status. rewrite H. destruct t as [[] ? ? ? ? ? ?]. reflexivity. Qed.

Lemma erase_review_count (t t' : TaskDict) :
  erase t' = erase t -> get_review_count t' = get_review_count t.
Proof. intros H%erase_status. rewrite H. destruct t as [[] ? ? ? ? ? ?]. reflexivity. Qed.

(** Two lists of tasks that differ in statuses only, where [P old new]
    says how a status may have changed. *)
Local Abbreviation moved P :=
  (Forall2 (fun t t' : TaskDict => erase t' = erase t /\
                                   (P (status_of t) (status_of t') : Prop))).

Section Moves.
Variable P : string -> string -> Prop.
Hypothesis P_refl : forall a, P a a.
Hypothesis P_trans : forall a b c, P a b -> P b c -> P a c.

Lemma moved_refl (ts : list TaskDict) : moved P ts ts.
Proof. induction ts; constructor; auto. Qed.

Lemma moved_trans (ts ts1 ts2 : list TaskDict) :
  moved P ts ts1 -> moved P ts1 ts2 -> moved P ts ts2.
Proof.
  intros H. revert ts2. induction H as [|t t1 ts ts1 [He Hp] _ IH]; intros ts2 H2.
  { inversion H2. constructor. }
  inversion H2 as [|? t2 ? ts2' [He2 Hp2] Hrest]; subst. constructor.
  - split; [congruence | eauto].
  - apply IH, Hrest.
Qed.

Lemma moved_alter (ts : list TaskDict) (i : nat) (s : string) :
  (forall t, ts !! i = Some t -> P (status_of t) s) ->
  moved P ts (alter (with_core (set_status s)) i ts).
Proof.
  revert i. induction ts as [|t ts IH]; intros i Hs; [constructor|].
  destruct i as [|i]; cbn [alter list_alter].
  - constructor; [|apply moved_refl]. split; [apply erase_set_status|].
    specialize (Hs t eq_refl). destruct t as [[] ? ? ? ? ? ?]. exact Hs.
  - constructor; [auto|]. apply IH. intros t' Ht'. apply Hs. exact Ht'.
Qed.

Lemma move_subtask_moved (olds : list string) (new : string)
    (M : gmap string nat) (ts : list TaskDict) (sid : string) :
  (forall old, old ∈ olds -> P old new) ->
  moved P ts (move_subtask olds new M ts sid).
Proof.
  intros Holds. unfold move_subtask.
  destruct (M !! sid) as [j|]; [|apply moved_refl].
  destruct (ts !! j) as [subtask|] eqn:Hj; [|apply moved_refl].
  destruct (bool_decide (status (core subtask) ∈ olds)) eqn:Hold; [|apply moved_refl].
  apply bool_decide_eq_true in Hold. apply moved_alter.
  intros t Ht. rewrite Hj in Ht. injection Ht as <-. auto.
Qed.

Lemma move_subtasks_moved (olds : list string) (new : string)
    (M : gmap string nat) (sids : list string) :
  (forall old, old ∈ olds -> P old new) ->
  forall ts, moved P ts (foldl (move_subtask olds new M) ts sids).
Proof.
  intros Holds. induction sids as [|sid sids IH]; intros ts; cbn [foldl].
  - apply moved_refl.
  - eapply moved_trans; [apply (move_subtask_moved olds new M ts sid Holds) | apply IH].
Qed.

Lemma moved_lookup (ts ts' : list TaskDict) (i : nat) (t : TaskDict) :
  moved P ts ts' -> ts !! i = Some t ->
  exists t', ts' !! i = Some t' /\ erase t' = erase t /\ P (status_of t) (status_of t').
Proof.
  intros H Ht. destruct (Forall2_lookup_l _ _ _ _ _ H Ht) as (t' & Ht' & He & Hp). eauto.
Qed.

Lemma moved_lookup_r (ts ts' : list TaskDict) (i : nat) (t' : TaskDict) :
  moved P ts ts' -> ts' !! i = Some t' ->
  exists t, ts !! i = Some t /\ erase t' = erase t /\ P (status_of t) (status_of t').
Proof.
  intros H Ht'. destruct (Forall2_lookup_r _ _ _ _ _ H Ht') as (t & Ht & He & Hp). eauto.
Qed.

End Moves.

(** How the two loops may change a status. *)
Local Abbreviation to_review := (fun a b : string => b = a \/ b = "under_review").
Local Abbreviation to_final :=
  (fun a b : string => b = a \/ b = "final_review" /\
                                (a = "under_review" \/ a = "pending_review")).

Lemma to_review_refl (a : string) : to_review a a.
Proof. left. reflexivity. Qed.

Lemma to_final_refl (a : string) : to_final a a.
Proof. left. reflexivity. Qed.

Lemma to_review_trans (a b c : string) : to_review a b -> to_review b c -> to_review a c.
Proof. intros [-> | ->] [-> | ->]; auto. Qed.

Lemma to_final_trans (a b c : string) : to_final a b -> to_final b c -> to_final a c.
Proof.
  intros [-> | [-> Ha]] [-> | [-> Hb]]; auto.
Qed.

Lemma check_moved (P : string -> string -> Prop) (ts ts' : list TaskDict)
    (findings : list Finding) (tid : string) :
  moved P ts ts' ->
  check_all_reviews_complete ts' findings tid
  = check_all_reviews_complete ts findings tid.
Proof.
  intros H. unfold check_all_reviews_complete.
  assert (match List.find (fun t : TaskDict => String.eqb (task_id (core t)) tid) ts',
                List.find (fun t : TaskDict => String.eqb (task_id (core t)) tid) ts with
          | Some t', Some t => get_review_count t' = get_review_count t
          | None, None => True
          | _, _ => False
          end) as Hfind.
  { induction H as [|t t' ts ts' [He _] _ IH]; [exact I|]. cbn [List.find].
    rewrite (erase_id _ _ He). destruct (String.eqb (task_id (core t)) tid); [|exact IH].
    apply erase_review_count, He. }
  destruct (List.find _ ts') as [t'|], (List.find _ ts) as [t|]; try contradiction;
    [rewrite Hfind|]; reflexivity.
Qed.

Section OneState.
Variable ts0 : list TaskDict.
Hypothesis ids_distinct : NoDup (map id_of ts0).

Local Abbreviation M := (index_map (core <$> ts0)).

Lemma task_map_lookup (tid : string) (i : nat) :
  M !! tid = Some i <-> exists t, ts0 !! i = Some t /\ id_of t = tid.
Proof.
  rewrite index_map_lookup.
  - split.
    + intros (e & He & Hid). apply list_lookup_fmap_Some in He as (t & -> & Ht). eauto.
    + intros (t & Ht & Hid). exists (core t). split; [|exact Hid].
      rewrite list_lookup_fmap, Ht. reflexivity.
  - rewrite <- list_fmap_compose. exact ids_distinct.
Qed.

(** The place of a task is the only place with its id, also after
    statuses have changed. *)
Lemma same_place (P : string -> string -> Prop) (cur : list TaskDict) (i j : nat)
    (t t' : TaskDict) :
  moved P ts0 cur -> cur !! i = Some t -> cur !! j = Some t' -> id_of t = id_of t' ->
  i = j.
Proof.
  intros Hm Hi Hj Hid.
  destruct (Forall2_lookup_r _ _ _ _ _ Hm Hi) as (t0 & Ht0 & He & _).
  destruct (Forall2_lookup_r _ _ _ _ _ Hm Hj) as (t0' & Ht0' & He' & _).
  apply erase_id in He, He'.
  assert (M !! id_of t = Some i) as H1 by (apply task_map_lookup; exists t0; split; congruence).
  assert (M !! id_of t = Some j) as H2 by (apply task_map_lookup; exists t0'; split; congruence).
  congruence.
Qed.

Lemma status_after_alter (cur : list TaskDict) (i : nat) (s : string) (t : TaskDict) :
  cur !! i = Some t ->
  exists t', alter (with_core (set_status s)) i cur !! i = Some t' /\ status_of t' = s.
Proof.
  intros Ht. exists (with_core (set_status s) t). split.
  - rewrite list_lookup_alter_eq, Ht. reflexivity.
  - destruct t as [[] ? ? ? ? ? ?]. reflexivity.
Qed.

Lemma review_task_spec (cur : list TaskDict) (tid : string) :
  moved to_review ts0 cur ->
  moved to_review cur (review_task M cur tid) /\
  forall i t', review_task M cur tid !! i = Some t' -> id_of t' = tid ->
               status_of t' = "under_review".
Proof.
  intros Hcur. unfold review_task.
  assert (forall cur', moved to_review cur cur' ->
            forall i t', cur' !! i = Some t' -> id_of t' = tid -> M !! tid = Some i) as Hplace.
  { intros cur' Hcur' i t' Ht' Hid. apply task_map_lookup.
    pose proof (moved_trans to_review to_review_trans _ _ _ Hcur Hcur') as Hall.
    destruct (moved_lookup_r to_review _ _ _ _ Hall Ht') as (t0 & Ht0 & He & _).
    exists t0. split; [exact Ht0|]. rewrite <- (erase_id _ _ He). exact Hid. }
  destruct (M !! tid) as [i|] eqn:Hi.
  2:{ split; [apply (moved_refl to_review to_review_refl)|]. intros j t' Ht' Hid.
      specialize (Hplace cur (moved_refl to_review to_review_refl cur) j t' Ht' Hid). discriminate. }
  destruct (cur !! i) as [task|] eqn:Htask.
  2:{ split; [apply (moved_refl to_review to_review_refl)|]. intros j t' Ht' Hid.
      specialize (Hplace cur (moved_refl to_review to_review_refl cur) j t' Ht' Hid).
      injection Hplace as <-. congruence. }
  set (cur1 := alter (with_core (set_status "under_review")) i cur).
  assert (moved to_review cur cur1) as H1 by (apply (moved_alter to_review); auto).
  assert (moved to_review cur1
            (foldl (move_subtask ["pending_review"] "under_review" M) cur1
                   (subtasks (core task)))) as H2.
  { apply (move_subtasks_moved to_review); [auto|apply to_review_trans|auto]. }
  split; [exact (moved_trans to_review to_review_trans _ _ _ H1 H2)|].
  intros j t' Ht' Hid.
  specialize (Hplace _ (moved_trans to_review to_review_trans _ _ _ H1 H2) j t' Ht' Hid).
  injection Hplace as <-.
  destruct (status_after_alter cur i "under_review" task Htask) as (t1 & Ht1 & Hs1).
  destruct (moved_lookup to_review _ _ _ _ H2 Ht1) as (t2 & Ht2 & _ & Hs2).
  rewrite Ht' in Ht2. injection Ht2 as <-. rewrite Hs1 in Hs2. destruct Hs2; auto.
Qed.

Lemma update_task_to_under_review_spec (task_ids : list string) :
  forall cur,
    moved to_review ts0 cur ->
    moved to_review cur (foldl (review_task M) cur task_ids) /\
    forall tid i t', tid ∈ task_ids ->
      foldl (review_task M) cur task_ids !! i = Some t' -> id_of t' = tid ->
      status_of t' = "under_review".
Proof.
  induction task_ids as [|tid task_ids IH]; intros cur Hcur; cbn [foldl].
  { split; [apply (moved_refl to_review to_review_refl)|]. intros tid i t' Hin. apply elem_of_nil in Hin.
    contradiction. }
  destruct (review_task_spec cur tid Hcur) as [Hstep Hdone].
  destruct (IH _ (moved_trans to_review to_review_trans _ _ _ Hcur Hstep)) as [Hrest Hothers].
  split; [exact (moved_trans to_review to_review_trans _ _ _ Hstep Hrest)|].
  intros tid' i t' [-> | Hin]%elem_of_cons Ht' Hid; [|eauto].
  destruct (moved_lookup_r to_review _ _ _ _ Hrest Ht') as (t1 & Ht1 & He & Hs).
  rewrite (Hdone i t1 Ht1) in Hs; [destruct Hs; auto|].
  rewrite <- (erase_id _ _ He). exact Hid.
Qed.

Lemma finalize_task_spec (findings : list Finding) (cur : list TaskDict)
    (updated : list string) (k : nat) :
  moved to_final ts0 cur ->
  moved to_final cur (finalize_task findings M (cur, updated) k).1 /\
  forall t0, ts0 !! k = Some t0 -> status_of t0 = "under_review" ->
    check_all_reviews_complete ts0 findings (id_of t0) = true ->
    exists t', (finalize_task findings M (cur, updated) k).1 !! k = Some t' /\
               status_of t' = "final_review".
Proof.
  intros Hcur. unfold finalize_task. cbn [fst snd].
  destruct (cur !! k) as [task|] eqn:Htask.
  2:{ split; [apply (moved_refl to_final to_final_refl)|]. intros t0 Ht0 _ _.
      destruct (moved_lookup to_final _ _ _ _ Hcur Ht0) as (t' & Ht' & _). congruence. }
  destruct (String.eqb (status (core task)) "under_review"
            && check_all_reviews_complete cur findings (task_id (core task))) eqn:Hcond.
  - apply andb_true_iff in Hcond as [Hstatus%String.eqb_eq _]. cbn [fst].
    set (cur1 := alter (with_core (set_status "final_review")) k cur).
    assert (moved to_final cur cur1) as H1.
    { apply (moved_alter to_final); [auto|]. intros t Ht. rewrite Htask in Ht. injection Ht as <-.
      right. auto. }
    assert (moved to_final cur1
              (foldl (move_subtask ["under_review"; "pending_review"] "final_review" M)
                     cur1 (subtasks (core task)))) as H2.
    { apply (move_subtasks_moved to_final); [auto|apply to_final_trans|].
      intros old Hold. right. split; [reflexivity|].
      apply elem_of_cons in Hold as [-> | ->%list_elem_of_singleton]; auto. }
    split; [exact (moved_trans to_final to_final_trans _ _ _ H1 H2)|].
    intros _ _ _ _.
    destruct (status_after_alter cur k "final_review" task Htask) as (t1 & Ht1 & Hs1).
    destruct (moved_lookup to_final _ _ _ _ H2 Ht1) as (t2 & Ht2 & _ & Hs2).
    exists t2. split; [exact Ht2|]. rewrite Hs1 in Hs2.
    destruct Hs2 as [? | [? _]]; assumption.
  - cbn [fst]. split; [apply (moved_refl to_final to_final_refl)|].
    intros t0 Ht0 Hunder Hcomplete. exists task. split; [exact Htask|].
    destruct (moved_lookup to_final _ _ _ _ Hcur Ht0) as (t' & Ht' & He & Hs).
    rewrite Htask in Ht'. injection Ht' as <-.
    destruct Hs as [Hs | [Hs _]]; [|exact Hs]. exfalso.
    rewrite (check_moved to_final _ _ findings _ Hcur), (erase_id _ _ He), Hcomplete in Hcond.
    rewrite Hs, Hunder in Hcond. discriminate.
Qed.

Lemma finalize_loop_spec (findings : list Finding) (len : nat) :
  forall a cur updated,
    moved to_final ts0 cur ->
    let acc := foldl (finalize_task findings M) (cur, updated) (seq a len) in
    moved to_final cur acc.1 /\
    forall k t0, a <= k < a + len -> ts0 !! k = Some t0 ->
      status_of t0 = "under_review" ->
      check_all_reviews_complete ts0 findings (id_of t0) = true ->
      exists t', acc.1 !! k = Some t' /\ status_of t' = "final_review".
Proof.
  induction len as [|len IH]; intros a cur updated Hcur; cbn [seq foldl].
  { split; [apply (moved_refl to_final to_final_refl)|]. intros k t0 Hk. lia. }
  destruct (finalize_task_spec findings cur updated a Hcur) as [Hstep Hdone].
  destruct (finalize_task findings M (cur, updated) a) as [cur1 updated1] eqn:Hacc.
  cbn [fst] in Hstep, Hdone.
  destruct (IH (S a) cur1 updated1 (moved_trans to_final to_final_trans _ _ _ Hcur Hstep))
    as [Hrest Hlater].
  cbv zeta in Hrest, Hlater |- *.
  split; [exact (moved_trans to_final to_final_trans _ _ _ Hstep Hrest)|].
  intros k t0 Hk Ht0 Hunder Hcomplete.
  destruct (decide (k = a)) as [-> | Hne]; [|apply (Hlater k t0); [lia|assumption..]].
  destruct (Hdone t0 Ht0 Hunder Hcomplete) as (t1 & Ht1 & Hs1).
  destruct (moved_lookup to_final _ _ _ _ Hrest Ht1) as (t2 & Ht2 & _ & Hs2).
  exists t2. split; [exact Ht2|]. rewrite Hs1 in Hs2.
  destruct Hs2 as [? | [? _]]; assumption.
Qed.

End OneState.

(** X27.  What [dispatch_reviews] does to the tasks after a dispatch that
    succeeded, when the task ids are all different: only statuses change,
    and a status stays or becomes under_review or final_review.  Every
    unit that [get_tasks_pending_review] returned is then under review or
    in final review, and it is in final review when
    [check_all_reviews_complete] holds for it with the findings of the
    report added. *)
Theorem reviewed_units_reach_final_review
    (ts : list TaskDict) (findings : list Finding)
    (review_results : list ReviewResult) :
  NoDup (map id_of ts) ->
  let after := record_reviews ts findings review_results in
  length after.1 = length ts /\
  forall i t, ts !! i = Some t ->
    exists t',
      after.1 !! i = Some t' /\
      t' = with_core (set_status (status_of t')) t /\
      (status_of t' = status_of t \/ status_of t' = "under_review" \/
       status_of t' = "final_review") /\
      (t ∈ get_tasks_pending_review ts ->
       (status_of t' = "under_review" \/ status_of t' = "final_review") /\
       (check_all_reviews_complete ts after.2 (id_of t) = true ->
        status_of t' = "final_review")).
Proof.
  intros Hnd. unfold record_reviews. cbv zeta. cbn [fst snd].
  set (task_ids := map (fun t : TaskDict => task_id (core t)) (get_tasks_pending_review ts)).
  set (findings1 := add_review_findings findings review_results).
  destruct (update_task_to_under_review_spec ts Hnd task_ids ts
              (moved_refl to_review to_review_refl ts)) as [Hreview Hunder].
  fold (update_task_to_under_review ts task_ids) in Hreview, Hunder.
  set (ts1 := update_task_to_under_review ts task_ids) in *.
  destruct (finalize_loop_spec ts1 findings1 (length ts1) 0 ts1 []
              (moved_refl to_final to_final_refl ts1)) as [Hfinal Hcomplete].
  cbv zeta in Hfinal, Hcomplete.
  fold (update_completed_reviews_to_final ts1 findings1) in Hfinal, Hcomplete.
  set (after := update_completed_reviews_to_final ts1 findings1) in *.
  split.
  { rewrite <- (Forall2_length _ _ _ Hfinal), <- (Forall2_length _ _ _ Hreview).
    reflexivity. }
  intros i t Ht.
  destruct (moved_lookup to_review _ _ _ _ Hreview Ht) as (t1 & Ht1 & He1 & Hs1).
  destruct (moved_lookup to_final _ _ _ _ Hfinal Ht1) as (t' & Ht' & He' & Hs').
  exists t'. split; [exact Ht'|].
  split; [apply erase_status; congruence|].
  split.
  { destruct Hs' as [-> | [-> _]]; [destruct Hs1 as [-> | ->]|]; auto. }
  intros Hpending.
  assert (status_of t1 = "under_review") as Hunder1.
  { apply (Hunder (id_of t) i t1); [|exact Ht1|apply erase_id, He1].
    apply list_elem_of_fmap. exists t. split; [reflexivity | exact Hpending]. }
  split.
  { destruct Hs' as [-> | [-> _]]; auto. }
  intros Henough.
  destruct (Hcomplete i t1) as (t'' & Ht'' & Hs''); [|exact Ht1|exact Hunder1| |].
  - split; [lia|]. apply lookup_lt_Some in Ht1. lia.
  - rewrite (check_moved to_review _ _ findings1 _ Hreview), (erase_id _ _ He1).
    exact Henough.
  - rewrite Ht' in Ht''. injection Ht'' as <-. exact Hs''.
Qed.

End ReviewStatuses.

(** ** sequential_loop.py: the name of the tmux session *)

Section SessionName.
Import Grammar SequentialLoop.

Lemma lstrip_is_lstrip_of (s : string) : Py.lstrip s = lstrip_of Py.is_space s.
Proof. induction s as [|c s IH]; cbn; [reflexivity|]. rewrite IH. reflexivity. Qed.

Lemma rstrip_is_rstrip_of (s : string) : Py.rstrip s = rstrip_of Py.is_space s.
Proof. induction s as [|c s IH]; cbn; [reflexivity|]. rewrite IH. reflexivity. Qed.

Section Strip.
Variable drop : ascii -> bool.

Lemma lstrip_of_all (p : ascii -> bool) (s : string) :
  all_chars p s = true -> all_chars p (lstrip_of drop s) = true.
Proof.
  induction s as [|c s IH]; cbn [lstrip_of]; [reflexivity|].
  intros Hall. destruct (drop c); [|exact Hall].
  apply andb_true_iff in Hall as [_ Hall]. exact (IH Hall).
Qed.

Lemma rstrip_of_all (p : ascii -> bool) (s : string) :
  all_chars p s = true -> all_chars p (rstrip_of drop s) = true.
Proof.
  induction s as [|c s IH]; cbn [rstrip_of all_chars]; [reflexivity|].
  intros [Hc Hall]%andb_true_iff. specialize (IH Hall).
  destruct (rstrip_of drop s); [destruct (drop c)|]; cbn [all_chars] in *;
    rewrite ?Hc, ?IH; reflexivity.
Qed.

(** A text that does not begin with a character to drop keeps its first
    character, and a text without such characters is kept as it is. *)
Lemma lstrip_of_head (s : string) : head_is drop (lstrip_of drop s) = false.
Proof.
  induction s as [|c s IH]; cbn [lstrip_of]; [reflexivity|].
  destruct (drop c) eqn:Hc; [exact IH|]. cbn. exact Hc.
Qed.

Lemma lstrip_of_fixed (s : string) : head_is drop s = false -> lstrip_of drop s = s.
Proof. destruct s as [|c s]; cbn; [reflexivity|]. intros ->. reflexivity. Qed.

Lemma rstrip_of_head (s : string) :
  head_is drop s = false -> head_is drop (rstrip_of drop s) = false.
Proof.
  destruct s as [|c s]; cbn [rstrip_of head_is]; [reflexivity|]. intros Hc.
  destruct (rstrip_of drop s); [rewrite Hc|]; cbn; exact Hc.
Qed.

Lemma rstrip_of_again (s : string) :
  rstrip_of drop (rstrip_of drop s) = rstrip_of drop s.
Proof.
  induction s as [|c s IH]; cbn [rstrip_of]; [reflexivity|].
  destruct (rstrip_of drop s) as [|c' r] eqn:Hr.
  - destruct (drop c) eqn:Hc; cbn [rstrip_of]; [reflexivity|]. rewrite Hc. reflexivity.
  - change (rstrip_of drop (String c (String c' r)))
      with (match rstrip_of drop (String c' r) with
            | EmptyString => if drop c then EmptyString else String c EmptyString
            | r' => String c r'
            end).
    rewrite IH. reflexivity.
Qed.

Lemma strip_of_again (s : string) : strip_of drop (strip_of drop s) = strip_of drop s.
Proof.
  unfold strip_of.
  rewrite (lstrip_of_fixed (rstrip_of drop (lstrip_of drop s))).
  - apply rstrip_of_again.
  - apply rstrip_of_head, lstrip_of_head.
Qed.

Lemma strip_of_none (s : string) :
  all_chars (fun c => negb (drop c)) s = true -> strip_of drop s = s.
Proof.
  intros Hall. unfold strip_of.
  assert (lstrip_of drop s = s) as ->.
  { destruct s as [|c s]; [reflexivity|]. cbn in *.
    apply andb_true_iff in Hall as [->%negb_true_iff _]. reflexivity. }
  induction s as [|c s IH]; cbn [rstrip_of]; [reflexivity|].
  cbn [all_chars] in Hall. apply andb_true_iff in Hall as [Hc%negb_true_iff Hall].
  rewrite (IH Hall), Hc. destruct s; reflexivity.
Qed.

End Strip.

Lemma all_chars_impl (p q : ascii -> bool) (s : string) :
  (forall c, p c = true -> q c = true) -> all_chars p s = true -> all_chars q s = true.
Proof.
  intros Hpq. induction s as [|c s IH]; cbn [all_chars]; [reflexivity|].
  intros [Hc Hall]%andb_true_iff. rewrite (Hpq c Hc), (IH Hall). reflexivity.
Qed.

Lemma allowed_not_space (c : ascii) : allowed c = true -> negb (Py.is_space c) = true.
Proof.
  destruct c as [[] [] [] [] [] [] [] []]; vm_compute; intros H;
    first [reflexivity | discriminate H].
Qed.

Lemma replace_others_allowed (s : string) : all_chars allowed (replace_others s) = true.
Proof.
  induction s as [|c s IH]; cbn [replace_others all_chars]; [reflexivity|].
  rewrite IH, andb_true_r. destruct (allowed c) eqn:Hc; [exact Hc | reflexivity].
Qed.

Lemma replace_others_fixed (s : string) :
  all_chars allowed s = true -> replace_others s = s.
Proof.
  induction s as [|c s IH]; cbn [replace_others all_chars]; [reflexivity|].
  intros [-> Hall]%andb_true_iff. rewrite (IH Hall). reflexivity.
Qed.

(** A name that is already a session name is kept. *)
Lemma sanitize_fixed (s : string) :
  s <> "" -> all_chars allowed s = true -> strip_of (Ascii.eqb "-") s = s ->
  _sanitize_tmux_session s = s.
Proof.
  intros Hne Hall Hdash. unfold _sanitize_tmux_session. cbv zeta.
  assert (Py.strip s = s) as ->.
  { unfold Py.strip. rewrite lstrip_is_lstrip_of, rstrip_is_rstrip_of.
    apply (strip_of_none Py.is_space), (all_chars_impl allowed); [|exact Hall].
    exact allowed_not_space. }
  apply String.eqb_neq in Hne. rewrite Hne, (replace_others_fixed s Hall), Hdash, Hne.
  reflexivity.
Qed.

(** X28.  The session name that [_sanitize_tmux_session] returns is never
    empty, consists of letters, digits, [-], [_] and [.] only, has no [-]
    and no blank at either end, and is a name that the function returns
    unchanged. *)
Theorem sanitized_session_name (name : string) :
  let session := _sanitize_tmux_session name in
  session <> "" /\
  all_chars allowed session = true /\
  strip_of (Ascii.eqb "-") session = session /\
  Py.strip session = session /\
  _sanitize_tmux_session session = session.
Proof.
  assert (forall s, s <> "" -> all_chars allowed s = true ->
                    strip_of (Ascii.eqb "-") s = s ->
                    s <> "" /\ all_chars allowed s = true /\
                    strip_of (Ascii.eqb "-") s = s /\ Py.strip s = s /\
                    _sanitize_tmux_session s = s) as Hsession.
  { intros s Hne Hall Hdash. split; [exact Hne|]. split; [exact Hall|].
    split; [exact Hdash|]. split; [|apply sanitize_fixed; assumption].
    unfold Py.strip. rewrite lstrip_is_lstrip_of, rstrip_is_rstrip_of.
    apply (strip_of_none Py.is_space), (all_chars_impl allowed); [|exact Hall].
    exact allowed_not_space. }
  cbv zeta.
  destruct (String.eqb (Py.strip name) "") eqn:Hempty.
  { assert (_sanitize_tmux_session name = "sequential") as ->
      by (unfold _sanitize_tmux_session; cbv zeta; rewrite Hempty; reflexivity).
    apply Hsession; [discriminate | reflexivity | reflexivity]. }
  destruct (String.eqb (strip_of (Ascii.eqb "-") (replace_others (Py.strip name))) "")
    eqn:Hdashes.
  { assert (_sanitize_tmux_session name = "sequential") as ->
      by (unfold _sanitize_tmux_session; cbv zeta; rewrite Hempty, Hdashes; reflexivity).
    apply Hsession; [discriminate | reflexivity | reflexivity]. }
  assert (_sanitize_tmux_session name
          = strip_of (Ascii.eqb "-") (replace_others (Py.strip name))) as ->
    by (unfold _sanitize_tmux_session; cbv zeta; rewrite Hempty, Hdashes; reflexivity).
  apply Hsession.
  - apply String.eqb_neq, Hdashes.
  - unfold strip_of. apply rstrip_of_all, lstrip_of_all, replace_others_allowed.
  - apply strip_of_again.
Qed.

End SessionName.

(** ** The properties on sample inputs *)

Section FlowExamples.
Import State FlowSamples.

(** A wrapper run without a report is a failure whose output is what the
    wrapper printed. *)
Lemma dispatch_task_flags_witness :
  let r := DispatchTask.dispatch_task "7" Samples.run_failed None in
  DispatchTask.success r = false /\
  DispatchTask.output r = DispatchTask.stdout Samples.run_failed.
Proof.
  destruct (dispatch_task_flags "7" Samples.run_failed None) as (_ & _ & _ & H).
  apply H. left. reflexivity.
Defined.

(** One critical finding among findings without a severity. *)
Lemma overall_severity_is_highest_witness :
  ConsolidateReviews.determine_overall_severity [plain_finding; critical_finding]
  = "critical" /\
  FixLoop.overall_of
    (map (fun f => default "minor" (f_severity f)) [plain_finding; critical_finding])
  = "critical".
Proof.
  destruct (overall_severity_is_highest [plain_finding; critical_finding])
    as (_ & Hc & _ & _ & _ & Hsame).
  assert (ConsolidateReviews.determine_overall_severity
            [plain_finding; critical_finding] = "critical") as Hsev.
  { apply Hc. exists critical_finding. split; [right; left | reflexivity]. }
  split; [exact Hsev|]. rewrite Hsame; [exact Hsev|]. rewrite Hsev. reflexivity.
Defined.

(** The four tasks of the specification's example all land in a batch. *)
Lemma partition_by_conflicts_covers_witness :
  concat (DispatchBatch.partition_by_conflicts Samples.candidates)
  ≡ₚ Samples.candidates.
Proof.
  destruct (partition_by_conflicts_covers Samples.candidates) as (_ & _ & _ & _ & H).
  apply H. vm_compute.
  repeat (apply NoDup_cons; split;
            [rewrite ?elem_of_cons, elem_of_nil; intuition discriminate|]).
  apply NoDup_nil_2.
Defined.

(** In document order the parents get the derived statuses in one call, and
    a second call changes nothing. *)
Lemma update_parent_statuses_document_order_witness :
  InitOrchestration.update_parent_statuses
    (InitOrchestration.update_parent_statuses Samples.state_parent_first)
  = InitOrchestration.update_parent_statuses Samples.state_parent_first.
Proof.
  destruct (update_parent_statuses_document_order Samples.state_parent_first)
    as (_ & _ & H).
  apply H, state_parent_first_in_order.
Defined.

(** Task 3 waits for task 2, which waits for task 1: the search from task 1
    finds it. *)
Lemma dependents_are_found_witness :
  is_Some (FixLoop.get_all_dependent_task_ids 5 chain_state "1") /\
  forall ids, FixLoop.get_all_dependent_task_ids 5 chain_state "1" = Some ids ->
              "3" ∈ ids.
Proof.
  destruct (dependents_are_found 5 chain_state "1") as [Htotal Hfound]. split.
  - apply Htotal. intros t Ht. apply list_elem_of_In in Ht. simpl in Ht.
    destruct Ht as [<- | [<- | [<- | [<- | [<- | []]]]]]; vm_compute; eauto.
  - intros ids Hids. apply (Hfound ids Hids "3").
    split; [discriminate|]. split; [discriminate|]. left.
    apply (Dependents.follows_step _ _ "2" "3").
    + apply (Dependents.follows_step _ _ "1" "2"); [apply Dependents.follows_self|].
      exists (flow_task "2" "not_started" ["1"] [] None), ["1"].
      split; [right; left|]. split; [reflexivity|].
      split; [vm_compute; reflexivity | left].
    + exists (flow_task "3" "in_progress" ["2"] [] None), ["2"].
      split; [right; right; left|]. split; [reflexivity|].
      split; [vm_compute; reflexivity | left].
Defined.

(** Task q waits for the parent p, and the search from p finds no task. *)
Lemma dependents_of_parent_task_not_found_witness :
  FixLoop.get_all_dependent_task_ids 5 parent_state "p" = Some ∅.
Proof.
  destruct (FixLoop.get_all_dependent_task_ids 5 parent_state "p") as [ids|] eqn:Hids.
  - f_equal.
    apply (dependents_of_parent_task_not_found 5 parent_state "p" ids Hids).
    + vm_compute. reflexivity.
    + intros p Hp. vm_compute in Hp. discriminate.
  - vm_compute in Hids. discriminate.
Defined.


(** The reviewed task of the sample state is consolidated; the list of tasks
    keeps its length. *)
Lemma consolidation_completes_or_enters_fix_loop_witness :
  exists report w',
    ConsolidateReviews.consolidate_single_task Samples.sample_clock 5
      Samples.reviewed_world "1" true
    = (ConsolidateReviews.Returned (Some report), w') /\
    length (tasks (agent_state w')) = 1.
Proof.
  destruct (ConsolidateReviews.consolidate_single_task Samples.sample_clock 5
              Samples.reviewed_world "1" true) as [[[report|]|] w'] eqn:Hcall;
    [|vm_compute in Hcall; discriminate..].
  exists report, w'. split; [reflexivity|].
  destruct (consolidation_completes_or_enters_fix_loop Samples.sample_clock 5
              Samples.reviewed_world w' "1" true report Hcall) as [Hlen _].
  exact Hlen.
Defined.

(** A task that needs fixes can be worked on again, and a blocked task can
    still be completed. *)
Lemma transition_table_shape_witness :
  "fix_required" ∈ Transitions.status_values /\
  Transitions.chain "blocked" "completed".
Proof.
  destruct transition_table_shape as (_ & Hknown & _ & Hchain & _). split.
  - apply (Hknown "fix_required" "in_progress"). vm_compute. reflexivity.
  - apply Hchain. vm_compute. repeat (first [left | right]).
Defined.

(** With the subtask 1.1 completed, the tasks that are ready are picked in
    the order of the list. *)
Lemma get_ready_tasks_leaves_completed_witness :
  exists ready,
    Units.get_ready_tasks 5 parsed_tasks ({["1.1"]} : gset string) = Some ready /\
    sublist ready parsed_tasks.
Proof.
  destruct (Units.get_ready_tasks 5 parsed_tasks ({["1.1"]} : gset string))
    as [ready|] eqn:Hready; [|vm_compute in Hready; discriminate].
  exists ready. split; [reflexivity|].
  destruct (get_ready_tasks_leaves_completed 5 parsed_tasks {["1.1"]}) as [_ H].
  apply (H ready Hready).
Defined.

Lemma get_dispatchable_units_leaves_completed_witness :
  exists units,
    Units.get_dispatchable_units 5 parsed_tasks ({["1.1"]} : gset string)
    = Some units /\
    sublist units parsed_tasks.
Proof.
  destruct (Units.get_dispatchable_units 5 parsed_tasks ({["1.1"]} : gset string))
    as [units|] eqn:Hunits; [|vm_compute in Hunits; discriminate].
  exists units. split; [reflexivity|].
  destruct (get_dispatchable_units_leaves_completed 5 parsed_tasks {["1.1"]})
    as [_ H].
  apply (H units Hunits).
Defined.



(** With the unit 1 and its subtask completed, the next unit is a task of
    the list that is a dispatch unit. *)
Lemma next_dispatch_unit_is_ready_witness :
  exists t,
    SeqUnits.get_next_dispatch_unit 5 seq_tasks ["1"; "1.1"]
    = SeqUnits.Returns (Some t) /\
    t ∈ seq_tasks /\ SeqUnits.is_dispatch_unit t = true.
Proof.
  destruct (SeqUnits.get_next_dispatch_unit 5 seq_tasks ["1"; "1.1"])
    as [|[t|]] eqn:Hnext; [vm_compute in Hnext; discriminate | |
                           vm_compute in Hnext; discriminate].
  exists t. split; [reflexivity|].
  destruct (next_dispatch_unit_is_ready 5 seq_tasks ["1"; "1.1"] (Some t) Hnext)
    as [(Hin & Hunit & _) _].
  split; assumption.
Defined.

(** The ids 10, 1, 1.1 and 2 are made of numbers: the search for the next
    unit returns. *)
Lemma next_dispatch_unit_least_id_witness :
  exists r, SeqUnits.get_next_dispatch_unit 5 seq_tasks [] = SeqUnits.Returns r.
Proof.
  assert (forall t, t ∈ seq_tasks ->
            exists ns, SeqUnits.numeric_id (SeqSpecParser.task_id t) ns) as Hnum.
  { intros t Ht. apply list_elem_of_In in Ht. simpl in Ht.
    destruct Ht as [<- | [<- | [<- | [<- | []]]]];
      [exists [10%Z] | exists [1%Z] | exists [1%Z; 1%Z] | exists [2%Z]];
      vm_compute; reflexivity. }
  destruct (next_dispatch_unit_least_id 5 seq_tasks [] Hnum) as [Hreturns _].
  apply Hreturns. intros t Ht. apply list_elem_of_In in Ht. simpl in Ht.
  destruct Ht as [<- | [<- | [<- | [<- | []]]]]; vm_compute; eauto.
Defined.

(** With two windows, the first two ids of the sample units get one. *)
Lemma allocate_windows_first_ids_witness :
  map fst (Windows.allocate_windows unit_dicts 2 ∅) = ["1"; "1.1"].
Proof.
  destruct (allocate_windows_first_ids unit_dicts 2 ∅) as [Hkeys _].
  rewrite Hkeys. vm_compute. reflexivity.
Defined.

(** Blocking and unblocking the dependents of task 1, which all wait to be
    started, gives the state back. *)
Lemma unblock_undoes_block_witness :
  exists w',
    FixLoop.block_dependent_tasks Samples.sample_clock 5 quiet_world "1" "fixes"
    = Some w' /\
    FixLoopExit.unblock_dependent_tasks (agent_state w') "1" = quiet_state.
Proof.
  destruct (FixLoop.block_dependent_tasks Samples.sample_clock 5 quiet_world "1" "fixes")
    as [w'|] eqn:Hblock; [|vm_compute in Hblock; discriminate].
  exists w'. split; [reflexivity|].
  destruct (unblock_undoes_block Samples.sample_clock 5 quiet_world w' "1" "fixes" Hblock)
    as (_ & _ & _ & _ & Hback).
  - intros t Ht. apply list_elem_of_In in Ht. simpl in Ht.
    destruct Ht as [<- | [<- | [<- | []]]]; discriminate.
  - intros item Hitem. apply elem_of_nil in Hitem. contradiction.
  - apply Hback. intros t Ht Hdep. apply list_elem_of_In in Ht. simpl in Ht.
    destruct Ht as [<- | [<- | [<- | []]]].
    + destruct Hdep as [Hne _]. contradiction.
    + right. right. repeat split.
    + right. right. repeat split.
Defined.

(** The tasks listed for the parent p of the nested sample have no
    subtasks. *)
Lemma subtask_list_is_the_expansion_witness :
  exists listed,
    SeqUnits.get_subtask_list 3 (Samples.seq_task "p" ["a"; "b"]) Samples.nested_map
    = Some listed /\
    forall s, s ∈ listed -> SeqSpecParser.subtasks s = [].
Proof.
  destruct (SeqUnits.get_subtask_list 3 (Samples.seq_task "p" ["a"; "b"])
              Samples.nested_map) as [listed|] eqn:Hlisted;
    [|vm_compute in Hlisted; discriminate].
  exists listed. split; [reflexivity|].
  destruct (subtask_list_is_the_expansion Samples.nested_map
              (Samples.seq_task "p" ["a"; "b"])) as [H _].
  destruct (H 3 listed Hlisted) as (_ & Hleaf & _). exact Hleaf.
Defined.

(** The consolidation of the sample state, where task 1 is in final review,
    counts the report that it creates. *)
Lemma consolidate_reviews_one_report_per_task_witness :
  exists res w',
    ConsolidateAll.consolidate_reviews Samples.sample_clock 5 Samples.reviewed_world
      None true
    = (ConsolidateReviews.Returned res, w') /\
    ConsolidateAll.reports_created res = length (ConsolidateAll.task_ids res) /\
    ConsolidateAll.task_ids res = ["1"].
Proof.
  destruct (ConsolidateAll.consolidate_reviews Samples.sample_clock 5
              Samples.reviewed_world None true) as [[res|] w'] eqn:Hcall;
    [|vm_compute in Hcall; discriminate].
  exists res, w'. split; [reflexivity|].
  destruct (consolidate_reviews_one_report_per_task Samples.sample_clock 5
              Samples.reviewed_world w' None true res Hcall) as (_ & Hcount & _).
  split; [exact Hcount|]. vm_compute in Hcall. injection Hcall as <- _. reflexivity.
Defined.

(** Three tasks whose details name their dependencies: task 3 waits for tasks
    1 and 2, task 2 for task 1. *)
Lemma topological_sort_orders_dependencies_witness :
  exists sorted,
    Dependencies.topological_sort 4 ["1"; "2"; "3"] detailed_tasks
    = Some (sorted, [], []) /\
    map SpecParser.task_id sorted = ["1"; "2"; "3"] /\
    forall i t d, sorted !! i = Some t -> d ∈ SpecParser.dependencies t ->
      exists j t_d, j < i /\ sorted !! j = Some t_d /\ SpecParser.task_id t_d = d.
Proof.
  assert (NoDup (map SpecParser.task_id detailed_tasks)) as Hnd.
  { apply (proj1 (bool_decide_spec _)). vm_compute. exact I. }
  assert (Dependencies.node_order detailed_tasks ["1"; "2"; "3"]) as Horder.
  { unfold Dependencies.node_order. apply NoDup_Permutation.
    - apply (proj1 (bool_decide_spec _)). vm_compute. exact I.
    - apply NoDup_elements.
    - intros x. rewrite elem_of_elements.
      replace (Dependencies.nodes (Dependencies.graph_of detailed_tasks))
        with (list_to_set ["1"; "2"; "3"] : gset string)
        by (apply (proj1 (bool_decide_spec _)); vm_compute; exact I).
      rewrite elem_of_list_to_set. reflexivity. }
  destruct (topological_sort_orders_dependencies 4 ["1"; "2"; "3"] detailed_tasks
              Hnd Horder ltac:(simpl; lia))
    as (sorted & circular & missing & Hcall & _ & _ & _ & Hok).
  assert (circular = [] /\ missing = []) as [-> ->].
  { vm_compute in Hcall. injection Hcall as _ <- <-. split; reflexivity. }
  exists sorted. split; [exact Hcall|].
  split; [vm_compute in Hcall; injection Hcall as <-; reflexivity|].
  exact (proj2 (Hok eq_refl eq_refl)).
Defined.

(** The sequential loop on four tasks with an agent that asks for a human
    in the second iteration. *)
Lemma sequential_loop_exit_codes_witness :
  exists r,
    SequentialLoop.run_sequential_loop Samples.sample_clock halting_agent 5
      "specs/demo" seq_tasks 10 new_loop_state [] 0
    = SeqUnits.Returns (2%Z, r) /\
    SeqUnits.all_tasks_complete seq_tasks (SequentialLoop.completed_ids r) <> true /\
    NoDup (SequentialLoop.completed_ids r) /\
    SequentialLoop.completed (SequentialLoop.state r) = ["1"; "1.1"].
Proof.
  destruct (SequentialLoop.run_sequential_loop Samples.sample_clock halting_agent 5
              "specs/demo" seq_tasks 10 new_loop_state [] 0) as [|[code r]] eqn:Hrun;
    [vm_compute in Hrun; discriminate|].
  destruct (sequential_loop_exit_codes Samples.sample_clock halting_agent 5
              "specs/demo" seq_tasks 10 new_loop_state [] 0 code r ltac:(lia) Hrun)
    as (_ & Hdone & _ & Hnodup & _).
  vm_compute in Hrun. injection Hrun as Hcode Hr. subst code.
  exists r. split; [reflexivity|]. split; [|split; [exact Hnodup|]].
  - intros Hall. apply Hdone in Hall. discriminate.
  - rewrite <- Hr. reflexivity.
Defined.

(** The same tasks with an agent that completes every task: three
    dispatches, numbered from 1, of the units 1, 2 and 10. *)
Lemma sequential_loop_dispatches_witness :
  exists r new,
    SequentialLoop.run_sequential_loop Samples.sample_clock eager_agent 5
      "specs/demo" seq_tasks 10 new_loop_state [] 0
    = SeqUnits.Returns (0%Z, r) /\
    SequentialLoop.progress r
    = SequentialLoop.Header "specs/demo" "2025-01-01T00:00:01" :: new /\
    (Z.of_nat (length (SequentialLoop.dispatches new)) <= 10)%Z /\
    forall i d, SequentialLoop.dispatches new !! i = Some d -> d.1.1 = Z.of_nat (S i).
Proof.
  destruct (SequentialLoop.run_sequential_loop Samples.sample_clock eager_agent 5
              "specs/demo" seq_tasks 10 new_loop_state [] 0) as [|[code r]] eqn:Hrun;
    [vm_compute in Hrun; discriminate|].
  destruct (sequential_loop_dispatches Samples.sample_clock eager_agent 5
              "specs/demo" seq_tasks 10 new_loop_state [] 0 code r Hrun)
    as (new & Hnew & Hlen & _ & Hunits & _).
  vm_compute in Hrun. injection Hrun as Hcode _. subst code.
  exists r, new. split; [reflexivity|]. split; [exact Hnew|]. split; [exact Hlen|].
  intros i d Hd. exact (proj1 (Hunits i d Hd)).
Defined.

(** With that agent and ten iterations for four tasks the loop ends with
    exit code 0. *)
Lemma sequential_loop_finishes_witness :
  exists r,
    SequentialLoop.run_sequential_loop Samples.sample_clock eager_agent 5
      "specs/demo" seq_tasks 10 new_loop_state [] 0
    = SeqUnits.Returns (0%Z, r) /\
    SeqUnits.all_tasks_complete seq_tasks (SequentialLoop.completed_ids r) = true.
Proof.
  destruct (SequentialLoop.run_sequential_loop Samples.sample_clock eager_agent 5
              "specs/demo" seq_tasks 10 new_loop_state [] 0) as [|[code r]] eqn:Hrun;
    [vm_compute in Hrun; discriminate|].
  destruct (sequential_loop_finishes Samples.sample_clock eager_agent 5
              "specs/demo" seq_tasks 10 new_loop_state [] 0 code r
              ltac:(intros; split; reflexivity) ltac:(lia) ltac:(simpl; lia) Hrun)
    as [[-> Hall] | [-> [Hall _]]].
  - exists r. split; [reflexivity | exact Hall].
  - vm_compute in Hrun. discriminate.
Defined.

(** A parent unit and a single task are reviewed once each: the parent, at
    the first place, ends in final review with its subtasks. *)
Lemma reviewed_units_reach_final_review_witness :
  exists t',
    (Reviews.record_reviews review_dicts [] review_results).1 !! 0 = Some t' /\
    status (FullState.core t') = "final_review" /\
    map (fun t : FullState.TaskDict => status (FullState.core t))
        (Reviews.record_reviews review_dicts [] review_results).1
    = ["final_review"; "final_review"; "final_review"; "final_review"; "not_started"].
Proof.
  assert (NoDup (map (fun t : FullState.TaskDict => task_id (FullState.core t))
                     review_dicts)) as Hnd.
  { apply (proj1 (bool_decide_spec _)). vm_compute. exact I. }
  destruct (reviewed_units_reach_final_review review_dicts [] review_results Hnd)
    as [_ Hafter].
  destruct (Hafter 0 (unit_dict "1" "in_progress" [] ["1.1"; "1.2"] None None) eq_refl)
    as (t' & Ht' & _ & _ & Hpending).
  exists t'. split; [exact Ht'|]. split; [|vm_compute; reflexivity].
  apply Hpending; [|vm_compute; reflexivity].
  apply list_elem_of_In. vm_compute. left. reflexivity.
Defined.

End FlowExamples.
